(** * Inkspire: the adventure language and its engine

    A shallow embedding of the JavaScript sources, module by module:
    - [identifiers.js]: [Identifier];
    - [variables.js]: [Action], and the class [Conditional] in its two
      versions: [Conditional] is the shunting-yard class of one copy of the
      file, which compiles to postfix, and [PrefixConditional] is the
      Polish-notation class of the other copy, which raises before it has
      compiled anything;
    - [adventure.js]: [Text], the records of [Model], and the
      constructors of [Adventure], [Scene] and [Option]: [Build], on the
      JSON of [Json];
    - the engine, [AdventureEngine]: [Engine] for a run, and [Setup] for
      the constructor, the loader and the linker, on the objects of [Obj].

    Conventions of the embedding:
    - a JavaScript number is an IEEE-754 binary64 value and is embedded as
      a primitive float, whose [+ - * /] and comparisons are the same
      operations; [%], the reading of a numeral and the printing of a
      number are written out on the exact value of the float;
    - a string is a sequence of 8-bit characters, and a regular expression
      is the function that finds its match;
    - an object used as a map is a [gmap] keyed by strings, with the
      method [hasOwnProperty] that a key of that name hides written out;
      an object that is shared is named by its key in the registry that
      holds it;
    - code that throws or exits returns a [result]; the engine, which also
      reads and writes lines, runs in the monad [Engine.M];
    - a loop whose number of turns is not given by the structure of its
      input takes a budget of turns, and ends in [OutOfFuel] when the
      budget is used up;
    - what is only logged ([console.warn], [console.error]) and the fields
      a [ParserContext] keeps for its report are left out. *)

From Stdlib Require Import ZArith String Ascii List Bool Lia.
From Stdlib Require Import Uint63 PrimFloat SpecFloat FloatOps FloatAxioms.
From Stdlib Require Import DecimalString.
From stdpp Require Import base option list gmap strings.

#[local] Set Warnings "-register-all,-inexact-float".

Local Open Scope string_scope.
Local Open Scope Z_scope.
Local Open Scope list_scope.

(** ** Characters and strings *)

Module Str.

Definition code (c : ascii) : N := N_of_ascii c.

Definition between (lo hi c : ascii) : bool :=
  ((code lo <=? code c) && (code c <=? code hi))%N.

Definition ascii_eqb (a b : ascii) : bool := (code a =? code b)%N.

(** The character classes of the regular expressions. *)
Definition isDigit (c : ascii) : bool := between "0" "9" c.
Definition isUpper (c : ascii) : bool := between "A" "Z" c.
Definition isLower (c : ascii) : bool := between "a" "z" c.
Definition isAlpha (c : ascii) : bool := isUpper c || isLower c.
(** [\w] *)
Definition isWord (c : ascii) : bool :=
  isAlpha c || isDigit c || ascii_eqb c "_".
(** [\s], on 8-bit characters: tab, line feed, vertical tab, form feed,
    carriage return, space and the no-break space. *)
Definition isSpace (c : ascii) : bool :=
  ((9 <=? code c) && (code c <=? 13) || (code c =? 32) || (code c =? 160))%N.
(** The characters [.] does not match. *)
Definition isLineTerminator (c : ascii) : bool :=
  ((code c =? 10) || (code c =? 13))%N.

Definition isChar (c : ascii) : ascii -> bool := ascii_eqb c.
Definition isNot (c : ascii) (d : ascii) : bool := negb (ascii_eqb c d).

(** Longest prefix whose characters satisfy [p], and the rest. *)
Fixpoint span (p : ascii -> bool) (s : string) : string * string :=
  match s with
  | EmptyString => (EmptyString, EmptyString)
  | String c s' =>
      if p c then let (a, b) := span p s' in (String c a, b)
      else (EmptyString, s)
  end.

Fixpoint filter (p : ascii -> bool) (s : string) : string :=
  match s with
  | EmptyString => EmptyString
  | String c s' => if p c then String c (filter p s') else filter p s'
  end.

Fixpoint drop (n : nat) (s : string) : string :=
  match n, s with
  | O, _ => s
  | S n', String _ s' => drop n' s'
  | S _, EmptyString => EmptyString
  end.

Fixpoint take (n : nat) (s : string) : string :=
  match n, s with
  | S n', String c s' => String c (take n' s')
  | _, _ => EmptyString
  end.

(** [stripPrefix p s = Some r] when [s = p ++ r]. *)
Fixpoint stripPrefix (p s : string) : option string :=
  match p, s with
  | EmptyString, _ => Some s
  | String a p', String b s' =>
      if ascii_eqb a b then stripPrefix p' s' else None
  | String _ _, EmptyString => None
  end.

Definition startsWith (p s : string) : bool :=
  match stripPrefix p s with Some _ => true | None => false end.

Definition isEmpty (s : string) : bool :=
  match s with EmptyString => true | _ => false end.

Fixpoint all (p : ascii -> bool) (s : string) : bool :=
  match s with
  | EmptyString => true
  | String c s' => p c && all p s'
  end.

(** [s.split(c)]: the pieces between the occurrences of [c]; an empty
    string gives one empty piece. *)
Fixpoint splitOn (c : ascii) (s : string) : list string :=
  match s with
  | EmptyString => [EmptyString]
  | String d s' =>
      if ascii_eqb c d then EmptyString :: splitOn c s'
      else match splitOn c s' with
           | p :: ps => String d p :: ps
           | [] => [String d EmptyString]
           end
  end.

(** [pieces.join(sep)] on strings. *)
Definition join (sep : string) (l : list string) : string :=
  String.concat sep l.

(** [c.toLowerCase()] on an 8-bit character: the letters [A-Z], and the
    capital letters of Latin-1, which are 192 to 222 without the
    multiplication sign at 215. *)
Definition isLatinUpper (c : ascii) : bool :=
  ((192 <=? code c) && (code c <=? 222) && negb (code c =? 215))%N.

Definition lower (c : ascii) : ascii :=
  if isUpper c || isLatinUpper c then ascii_of_N (code c + 32) else c.

End Str.

(** ** Errors

    A thrown exception or a fatal exit ends the computation; [result]
    carries either the value or what ended it. *)

Inductive error : Type :=
| ParserError (location message : string)
    (** [ParserContext.throwError]: reports and calls [process.exit()] *)
| JsError (message : string)          (** [throw new Error(message)] *)
| TypeError (message : string)        (** raised by the runtime *)
| ReferenceError (message : string)
    (** raised by the runtime at a name that is not bound *)
| ProcessExit                         (** [process.exit()] *)
| OutOfFuel.
    (** not an outcome of the program: the step budget of a loop of the
        model ran out before the loop ended *)

Inductive result (A : Type) : Type :=
| Ok (a : A)
| Throw (e : error).
Arguments Ok {A} a.
Arguments Throw {A} e.

#[export] Instance result_ret : MRet result := fun _ a => Ok a.
#[export] Instance result_bind : MBind result := fun _ _ f m =>
  match m with Ok a => f a | Throw e => Throw e end.
#[export] Instance result_fmap : FMap result := fun _ _ f m =>
  match m with Ok a => Ok (f a) | Throw e => Throw e end.

Definition isThrow {A} (r : result A) : bool :=
  match r with Throw _ => true | Ok _ => false end.

(** [for (const x of l) f(x)] collecting results, stopping at the first
    exception. *)
Fixpoint mapM {A B} (f : A -> result B) (l : list A) : result (list B) :=
  match l with
  | [] => Ok []
  | x :: l' => y ← f x; ys ← mapM f l'; Ok (y :: ys)
  end.

(** The message of the undefined-variable exception. *)
Definition usedBeforeAssignment (name : string) : error :=
  JsError ("Variable " +:+ name +:+ " used before assignment.").

(** ** Numbers and values *)

Module Num.

Definition digitVal (c : ascii) : Z := Z.of_N (Str.code c) - 48.

Fixpoint digitsVal (acc : Z) (s : string) : Z :=
  match s with
  | EmptyString => acc
  | String c s' => digitsVal (10 * acc + digitVal c) s'
  end.

(** The binary64 value nearest to [n / d] (ties to even), for [0 <= n] and
    [0 < d]: the quotient is taken with 66 bits or more and a sticky bit,
    which rounds as the exact quotient does. *)
Definition ofRational (n d : Z) : float :=
  if n =? 0 then zero
  else
    let k := Z.max 0 (Z.log2 d + 66 - Z.log2 n) in
    let q := (n * 2 ^ k) / d in
    let r := (n * 2 ^ k) mod d in
    let m := 2 * q + (if r =? 0 then 0 else 1) in
    SF2Prim (binary_normalize prec emax m (- k - 1) false).

(** The value of a decimal literal [digits(.digits)?], as [parseFloat] and
    [Number] read it. *)
Definition ofDecimal (int frac : string) : float :=
  ofRational (digitsVal 0 (int +:+ frac))
             (10 ^ Z.of_nat (String.length frac)).

(** [-?\d+(\.\d+)?] read as a number; [None] when the string is not of
    that form. *)
Definition parseDecimal (s : string) : option float :=
  let (neg, s1) := match s with
                   | String "-" r => (true, r)
                   | _ => (false, s)
                   end in
  let (int, s2) := Str.span Str.isDigit s1 in
  if Str.isEmpty int then None
  else match s2 with
       | EmptyString =>
           Some (if neg then (- ofDecimal int "")%float else ofDecimal int "")
       | String "." s3 =>
           let (frac, s4) := Str.span Str.isDigit s3 in
           if Str.isEmpty frac || negb (Str.isEmpty s4) then None
           else Some (if neg then (- ofDecimal int frac)%float
                      else ofDecimal int frac)
       | _ => None
       end.

(** [a % b]: the remainder of the truncated division, exact, with the sign
    of the dividend. *)
Definition rem (a b : float) : float :=
  match Prim2SF a, Prim2SF b with
  | S754_nan, _ | _, S754_nan => nan
  | S754_infinity _, _ => nan
  | _, S754_zero _ => nan
  | _, S754_infinity _ => a
  | S754_zero _, _ => a
  | S754_finite sa ma ea, S754_finite _ mb eb =>
      let e := Z.min ea eb in
      let x := Z.pos ma * 2 ^ (ea - e) in
      let y := Z.pos mb * 2 ^ (eb - e) in
      match x mod y with
      | Z.pos r => SF2Prim (S754_finite sa r e)
      | _ => if sa then neg_zero else zero
      end
  end.

Definition isInteger (x : float) : bool :=
  match Prim2SF x with
  | S754_zero _ => true
  | S754_finite _ m e =>
      if 0 <=? e then true else (Z.pos m mod 2 ^ (- e) =? 0)
  | _ => false
  end.

(** The integer value of a float that [isInteger]. *)
Definition toZ (x : float) : Z :=
  match Prim2SF x with
  | S754_finite s m e =>
      let v := if 0 <=? e then Z.pos m * 2 ^ e else Z.pos m / 2 ^ (- e) in
      if s then - v else v
  | _ => 0
  end.

Definition ofZ (n : Z) : float :=
  if n <? 0 then (- ofRational (- n) 1)%float else ofRational n 1.

Definition isHexDigit (c : ascii) : bool :=
  Str.isDigit c || Str.between "a" "f" c || Str.between "A" "F" c.

Definition hexVal (c : ascii) : Z :=
  if Str.isDigit c then digitVal c
  else if Str.between "a" "f" c then Z.of_N (Str.code c) - 87
  else Z.of_N (Str.code c) - 55.

Fixpoint radixVal (radix : Z) (acc : Z) (s : string) : Z :=
  match s with
  | EmptyString => acc
  | String c s' => radixVal radix (radix * acc + hexVal c) s'
  end.

(** [digits * 10 ^ exponent], rounded once. *)
Definition ofScientific (digits exponent : Z) : float :=
  if 0 <=? exponent then ofRational (digits * 10 ^ exponent) 1
  else ofRational digits (10 ^ (- exponent)).

(** The unsigned part of a decimal literal: [Infinity], or digits with an
    optional fraction and an optional exponent. *)
Definition unsignedDecimal (s : string) : option float :=
  if String.eqb s "Infinity" then Some infinity
  else
    let (int, r1) := Str.span Str.isDigit s in
    let (frac, r2) :=
      match r1 with
      | String "." r => Str.span Str.isDigit r
      | _ => (EmptyString, r1)
      end in
    if Str.isEmpty int && Str.isEmpty frac then None
    else
      let mantissa := digitsVal 0 (int +:+ frac) in
      let scale := - Z.of_nat (String.length frac) in
      match r2 with
      | EmptyString => Some (ofScientific mantissa scale)
      | String e r3 =>
          if Str.isChar "e" e || Str.isChar "E" e then
            let (neg, r4) :=
              match r3 with
              | String "-" r => (true, r)
              | String "+" r => (false, r)
              | _ => (false, r3)
              end in
            if Str.isEmpty r4 || negb (Str.all Str.isDigit r4) then None
            else
              let ex := digitsVal 0 r4 in
              Some (ofScientific mantissa (scale + (if neg then - ex else ex)))
          else None
      end.

(** [Number(s)] for a string without white space around it: the empty
    string is [0], a text that is no numeric literal is [NaN]. *)
Definition ofString (s : string) : float :=
  let radixLiteral (radix : Z) (ok : ascii -> bool) (r : string) :=
    if Str.isEmpty r || negb (Str.all ok r) then nan
    else ofZ (radixVal radix 0 r) in
  match s with
  | EmptyString => zero
  | String "0" (String x r) =>
      if Str.isChar "x" x || Str.isChar "X" x then radixLiteral 16 isHexDigit r
      else if Str.isChar "o" x || Str.isChar "O" x
      then radixLiteral 8 (Str.between "0" "7") r
      else if Str.isChar "b" x || Str.isChar "B" x
      then radixLiteral 2 (Str.between "0" "1") r
      else match unsignedDecimal s with Some v => v | None => nan end
  | String "-" r =>
      match unsignedDecimal r with Some v => (- v)%float | None => nan end
  | String "+" r =>
      match unsignedDecimal r with Some v => v | None => nan end
  | _ => match unsignedDecimal s with Some v => v | None => nan end
  end.

(** *** [Number::toString]: the shortest decimal text that reads back as
    the same number. *)

Definition natText (n : Z) : string :=
  NilZero.string_of_uint (N.to_uint (Z.to_N n)).

Fixpoint zeros (n : nat) : string :=
  match n with
  | O => EmptyString
  | S n' => String "0" (zeros n')
  end.

(** For [0 < num / den < 1]: the least [j >= 1] with
    [1 <= num / den * 10 ^ j]. *)
Fixpoint leadingZeros (fuel : nat) (num den : Z) (j : Z) : Z :=
  match fuel with
  | O => j
  | S fuel' =>
      if den <=? num * 10 ^ j then j else leadingZeros fuel' num den (j + 1)
  end.

(** The decimal exponent [n] of [num / den]: [10 ^ (n - 1) <= num / den <
    10 ^ n]. *)
Definition decimalExponent (num den : Z) : Z :=
  if den <=? num then Z.of_nat (String.length (natText (num / den)))
  else 1 - leadingZeros 400 num den 1.

(** The digits [s] and the exponent [n] of the shortest text for the
    positive number [x = num / den]: [k] digits are tried for [k = 1, 2,
    ...]; the two [k]-digit decimals around [x] are the candidates, and the
    nearer one that reads back as [x] is taken. *)
Fixpoint shortest (fuel : nat) (x : float) (num den n k : Z) : string * Z :=
  let (num', den') :=
    if n <=? k then (num * 10 ^ (k - n), den) else (num, den * 10 ^ (n - k)) in
  let lo := num' / den' in
  let hi := lo + 1 in
  let back (c : Z) :=
    if n <=? k then (ofRational c (10 ^ (k - n)) =? x)%float
    else (ofRational (c * 10 ^ (n - k)) 1 =? x)%float in
  let answer (c : Z) :=
    if c =? 10 ^ k then ("1", n + 1) else (natText c, n) in
  let r := num' mod den' in
  match fuel with
  | O => answer lo
  | S fuel' =>
      match back lo && (10 ^ (k - 1) <=? lo), back hi with
      | true, true =>
          if 2 * r <? den' then answer lo
          else if den' <? 2 * r then answer hi
          else if Z.even lo then answer lo else answer hi
      | true, false => answer lo
      | false, true => answer hi
      | false, false => shortest fuel' x num den n (k + 1)
      end
  end.

Definition positiveText (x : float) : string :=
  match Prim2SF x with
  | S754_finite _ m e =>
      let (num, den) :=
        if 0 <=? e then (Z.pos m * 2 ^ e, 1) else (Z.pos m, 2 ^ (- e)) in
      let (digits, n) := shortest 17 x num den (decimalExponent num den) 1 in
      let k := Z.of_nat (String.length digits) in
      if (k <=? n) && (n <=? 21) then digits +:+ zeros (Z.to_nat (n - k))
      else if (0 <? n) && (n <=? 21) then
        Str.take (Z.to_nat n) digits +:+ "." +:+ Str.drop (Z.to_nat n) digits
      else if (-6 <? n) && (n <=? 0) then
        "0." +:+ zeros (Z.to_nat (- n)) +:+ digits
      else
        let e' := n - 1 in
        let exponent :=
          (if 0 <=? e' then "e+" else "e-") +:+ natText (Z.abs e') in
        if k =? 1 then digits +:+ exponent
        else Str.take 1 digits +:+ "." +:+ Str.drop 1 digits +:+ exponent
  | _ => "0"
  end.

Definition toString (x : float) : string :=
  if is_nan x then "NaN"
  else if is_zero x then "0"
  else if is_infinity x then (if get_sign x then "-Infinity" else "Infinity")
  else if get_sign x then "-" +:+ positiveText (- x)%float
  else positiveText x.

End Num.

(** A JavaScript value, as far as the evaluators meet one: a number, a
    boolean (the result of a comparison), or [undefined]. *)
Inductive value : Type :=
| VNum (x : float)
| VBool (b : bool)
| VUndef.

Module Js.

(** [ToNumber] *)
Definition toNumber (v : value) : float :=
  match v with
  | VNum x => x
  | VBool true => one
  | VBool false => zero
  | VUndef => nan
  end.

(** [ToBoolean]; also [Boolean(v)] and the test of [if (v)]. *)
Definition toBoolean (v : value) : bool :=
  match v with
  | VNum x => negb (is_zero x || is_nan x)
  | VBool b => b
  | VUndef => false
  end.

Definition add (a b : value) : value := VNum (toNumber a + toNumber b).
Definition sub (a b : value) : value := VNum (toNumber a - toNumber b).
Definition mul (a b : value) : value := VNum (toNumber a * toNumber b).
Definition div (a b : value) : value := VNum (toNumber a / toNumber b).
Definition rem (a b : value) : value := VNum (Num.rem (toNumber a) (toNumber b)).

(** [a && b] and [a || b] on values. *)
Definition and (a b : value) : value := if toBoolean a then b else a.
Definition or (a b : value) : value := if toBoolean a then a else b.

(** The relational operators compare the operands as numbers. *)
Definition ge (a b : value) : bool := (toNumber b <=? toNumber a)%float.
Definition le (a b : value) : bool := (toNumber a <=? toNumber b)%float.
Definition gt (a b : value) : bool := (toNumber b <? toNumber a)%float.
Definition lt (a b : value) : bool := (toNumber a <? toNumber b)%float.

(** [a === b] *)
Definition strictEq (a b : value) : bool :=
  match a, b with
  | VNum x, VNum y => (x =? y)%float
  | VBool x, VBool y => Bool.eqb x y
  | VUndef, VUndef => true
  | _, _ => false
  end.

(** [String(v)] *)
Definition toString (v : value) : string :=
  match v with
  | VNum x => Num.toString x
  | VBool true => "true"
  | VBool false => "false"
  | VUndef => "undefined"
  end.

(** What [Array.prototype.join] writes for an element: nothing for
    [undefined]. *)
Definition joined (v : value) : string :=
  match v with
  | VUndef => ""
  | _ => toString v
  end.

End Js.

(** The VariableStore: the object [variables], keyed by identifier. *)
Abbreviation store := (gmap string value).

(** [variables[name]] *)
Definition readVar (variables : store) (name : string) : value :=
  match variables !! name with
  | Some v => v
  | None => VUndef
  end.

(** [variables[name] = v] *)
Definition writeVar (variables : store) (name : string) (v : value) : store :=
  <[name := v]> variables.

(** ** [ParserContext]

    [throwError] prints the location and ends the process: it never
    returns.  The fields only feed the report. *)

Record ParserContext : Type := {
  ctxAdventure : string;
  ctxScene : string;
  ctxOption : string;
  ctxIdentifier : string;
}.

Definition throwError {A} (location message : string) : result A :=
  Throw (ParserError location message).

(** Calling [context.throwError] when no context was passed. *)
Definition throwErrorVia {A} (context : option ParserContext)
    (location message : string) : result A :=
  match context with
  | Some _ => throwError location message
  | None =>
      Throw (TypeError
               "Cannot read properties of undefined (reading 'throwError')")
  end.

(** ** identifiers.js *)

Module Identifier.

Definition asIdentifier (namespace name : string) : string :=
  namespace +:+ ":" +:+ name.

(** [s.split(':', 3)] *)
Definition splitColon3 (s : string) : list string :=
  firstn 3 (Str.splitOn ":" s).

Definition parseIdentifier (identifierString defaultNamespace : string)
    (context : option ParserContext) : result string :=
  let parts := splitColon3 identifierString in
  _ ← (if (2 <? length parts)%nat
       then throwErrorVia context "identifier"
              ("Malformed identifier " +:+ identifierString +:+ ".")
       else Ok tt);
  match parts with
  | [p0; p1] => Ok (asIdentifier p0 p1)
  | _ => Ok (asIdentifier defaultNamespace (hd "undefined" parts))
  end.

(** [/^([a-zA-Z0-9_]+):([a-zA-Z0-9_]+)$/.test(candidate)] *)
Definition isValidIdentifier (candidateIdentifier : string) : bool :=
  let (ns, r) := Str.span Str.isWord candidateIdentifier in
  match r with
  | String ":" name =>
      negb (Str.isEmpty ns) && negb (Str.isEmpty name)
      && Str.all Str.isWord name
  | _ => false
  end.

Definition getIdentifierNamespace (identifier : string) : result string :=
  match splitColon3 identifier with
  | [p0; _] => Ok p0
  | _ => Throw (JsError ("Malformed identifier: " +:+ identifier))
  end.

Definition getIdentifierName (identifier : string) : result string :=
  match splitColon3 identifier with
  | [_; p1] => Ok p1
  | _ => Throw (JsError ("Malformed identifier: " +:+ identifier))
  end.

(** [Identifier.parse]: the name under which the other modules call it. *)
Definition parse := parseIdentifier.

End Identifier.

(** ** variables.js: [Action] *)

Module Action.

(** An entry of [outputQueue]: a number, a variable (the source tags it
    with a leading ['v']), or another token (an operator or a stray
    parenthesis). *)
Inductive item : Type :=
| INum (x : float)
| IVar (name : string)
| ITok (token : string).

Record t : Type := {
  variableName : string;
  operator : string;
  outputQueue : list item;      (** what the closure [evaluator] captured *)
}.

(** [s.trim()] *)
Fixpoint trimStart (s : string) : string :=
  match s with
  | String c s' => if Str.isSpace c then trimStart s' else s
  | EmptyString => EmptyString
  end.

Fixpoint trimEnd (s : string) : string :=
  match s with
  | EmptyString => EmptyString
  | String c s' =>
      match trimEnd s' with
      | EmptyString => if Str.isSpace c then EmptyString else String c EmptyString
      | r => String c r
      end
  end.

Definition trim (s : string) : string := trimEnd (trimStart s).

Definition isOpChar (c : ascii) : bool :=
  Str.isChar "+" c || Str.isChar "-" c || Str.isChar "*" c || Str.isChar "/" c.

(** [action.match(actionRegex)]: the expression has three groups, a lazy
    run of any characters, an optional one of [+ - * /] followed by [=],
    and a greedy run of any characters; the result holds the three groups
    of the leftmost match.  [g1] collects the first group; a line
    terminator, which [.] does not match, restarts the search after it. *)
Fixpoint matchActionFrom (g1 : string) (s : string)
  : option (string * string * string) :=
  match s with
  | EmptyString => None
  | String c s' =>
      let rest r := fst (Str.span (fun d => negb (Str.isLineTerminator d)) r) in
      match s' with
      | String "=" s'' =>
          if isOpChar c
          then Some (g1, String c "=", rest s'')
          else if Str.isChar "=" c then Some (g1, "=", rest s')
          else if Str.isLineTerminator c then matchActionFrom "" s'
          else matchActionFrom (g1 +:+ String c "") s'
      | _ =>
          if Str.isChar "=" c then Some (g1, "=", rest s')
          else if Str.isLineTerminator c then matchActionFrom "" s'
          else matchActionFrom (g1 +:+ String c "") s'
      end
  end.

Definition matchAction (action : string) := matchActionFrom "" action.

(** The accepted mathematical operators: [operators[token]]. *)
Definition operators (token : string) : option (value -> value -> value) :=
  if String.eqb token "+" then Some Js.add
  else if String.eqb token "-" then Some Js.sub
  else if String.eqb token "*" then Some Js.mul
  else if String.eqb token "/" then Some Js.div
  else if String.eqb token "%" then Some Js.rem
  else None.

Definition isOperator (token : string) : bool :=
  match operators token with Some _ => true | None => false end.

Definition isIdentStart (c : ascii) : bool := Str.isAlpha c || Str.isChar "_" c.
Definition isIdentChar (c : ascii) : bool :=
  Str.isAlpha c || Str.isDigit c || Str.isChar "_" c || Str.isChar ":" c.
Definition isSymbol (c : ascii) : bool :=
  isOpChar c || Str.isChar "%" c || Str.isChar "(" c || Str.isChar ")" c.

(** One match of [actionTokenRegex] at the head of [s], if any: the token
    and what follows it.
    [/\d+(\.\d+)?|[a-zA-Z_][a-zA-Z0-9_:]*|[+\-*/%()]/] *)
Definition actionTokenAt (s : string) : option (string * string) :=
  match s with
  | EmptyString => None
  | String c s' =>
      if Str.isDigit c then
        let (int, r) := Str.span Str.isDigit s in
        match r with
        | String "." r' =>
            let (frac, r'') := Str.span Str.isDigit r' in
            if Str.isEmpty frac then Some (int, r)
            else Some (int +:+ "." +:+ frac, r'')
        | _ => Some (int, r)
        end
      else if isIdentStart c then
        let (w, r) := Str.span isIdentChar s' in Some (String c w, r)
      else if isSymbol c then Some (String c "", s')
      else None
  end.

(** [expression.match(actionTokenRegex)] with the [g] flag: every match,
    left to right; characters that start no match are skipped. *)
Fixpoint actionTokens (fuel : nat) (s : string) : list string :=
  match fuel with
  | O => []
  | S fuel' =>
      match s with
      | EmptyString => []
      | String _ s' =>
          match actionTokenAt s with
          | Some (tok, r) => tok :: actionTokens fuel' r
          | None => actionTokens fuel' s'
          end
      end
  end.

Definition tokenize (expression : string) : list string :=
  actionTokens (String.length expression) expression.

(** [numberRegex = /^\d+(\.\d+)?$/] *)
Definition numberRegex (token : string) : bool :=
  let (int, r) := Str.span Str.isDigit token in
  negb (Str.isEmpty int) &&
  match r with
  | EmptyString => true
  | String "." r' => negb (Str.isEmpty r') && Str.all Str.isDigit r'
  | _ => false
  end.

(** [variableRegex = /^[a-zA-Z_][a-zA-Z0-9_:]*$/] *)
Definition variableRegex (token : string) : bool :=
  match token with
  | String c r => isIdentStart c && Str.all isIdentChar r
  | EmptyString => false
  end.

(** [parseFloat(token)] on a token that matched [numberRegex]. *)
Definition parseFloat (token : string) : float :=
  match Num.parseDecimal token with
  | Some x => x
  | None => nan
  end.

(** The inner [while] of the operator case: while the stack's top is an
    operator and the incoming token is [+] or [-], move the top to the
    queue. *)
Fixpoint popOperators (token : string) (outputQueue : list item)
    (operatorStack : list string) : list item * list string :=
  match operatorStack with
  | top :: below =>
      if isOperator top && (String.eqb token "+" || String.eqb token "-")
      then popOperators token (outputQueue ++ [ITok top]) below
      else (outputQueue, operatorStack)
  | [] => (outputQueue, operatorStack)
  end.

(** The [while] of the [')'] case: move tokens to the queue until the top
    is ['(']. *)
Fixpoint popToParen (outputQueue : list item) (operatorStack : list string)
  : list item * list string :=
  match operatorStack with
  | top :: below =>
      if String.eqb top "(" then (outputQueue, operatorStack)
      else popToParen (outputQueue ++ [ITok top]) below
  | [] => (outputQueue, operatorStack)
  end.

(** The body of [for (const token of tokens)]; the operator stack has its
    top at the head. *)
Definition shuntToken (expression defaultNamespace : string)
    (st : list item * list string) (token : string)
  : result (list item * list string) :=
  let (outputQueue, operatorStack) := st in
  if numberRegex token then
    Ok (outputQueue ++ [INum (parseFloat token)], operatorStack)
  else if variableRegex token then
    name ← Identifier.parse token defaultNamespace None;
    Ok (outputQueue ++ [IVar name], operatorStack)
  else if isOperator token then
    let (q, ops) := popOperators token outputQueue operatorStack in
    Ok (q, token :: ops)
  else if String.eqb token "(" then
    Ok (outputQueue, token :: operatorStack)
  else if String.eqb token ")" then
    let (q, ops) := popToParen outputQueue operatorStack in
    match ops with
    | _ :: below => Ok (q, below)       (* the popped token is ['('] *)
    | [] => throwError "adventure" ("Mismatched parentheses: " +:+ expression)
    end
  else Ok st.

Fixpoint shunt (expression defaultNamespace : string)
    (st : list item * list string) (tokens : list string)
  : result (list item * list string) :=
  match tokens with
  | [] => Ok st
  | token :: rest =>
      st' ← shuntToken expression defaultNamespace st token;
      shunt expression defaultNamespace st' rest
  end.

(** The compile-time half of [createEvaluator]: the postfix queue. *)
Definition compile (expression defaultNamespace : string)
  : result (list item) :=
  match tokenize expression with
  | [] => throwError "adventure" ("Invalid expression: " +:+ expression)
  | tokens =>
      '(outputQueue, operatorStack) ←
          shunt expression defaultNamespace ([], []) tokens;
      (* pop remaining operators onto the output queue *)
      Ok (outputQueue ++ map ITok operatorStack)
  end.

(** [stack.pop()]: the top, or [undefined] from an empty stack. *)
Definition pop (stack : list value) : value * list value :=
  match stack with
  | v :: below => (v, below)
  | [] => (VUndef, [])
  end.

(** The body of [outputQueue.forEach]; the value stack has its top at the
    head.  The last case only logs. *)
Definition evalItem (variables : store) (stack : list value) (i : item)
  : result (list value) :=
  match i with
  | INum x => Ok (VNum x :: stack)
  | IVar name =>
      match readVar variables name with
      | VUndef => Throw (usedBeforeAssignment name)
      | v => Ok (v :: stack)
      end
  | ITok token =>
      match operators token with
      | Some f =>
          let (b, s1) := pop stack in
          let (a, s2) := pop s1 in
          Ok (f a b :: s2)
      | None => Ok stack
      end
  end.

Fixpoint evalQueue (variables : store) (stack : list value)
    (outputQueue : list item) : result (list value) :=
  match outputQueue with
  | [] => Ok stack
  | i :: rest =>
      stack' ← evalItem variables stack i;
      evalQueue variables stack' rest
  end.

(** The closure [createEvaluator] returns: [stack[0]] is the bottom of the
    stack, [undefined] when the stack is empty. *)
Definition evaluator (outputQueue : list item) (variables : store)
  : result value :=
  stack ← evalQueue variables [] outputQueue;
  Ok (List.last stack VUndef).

(** [new Action(action, variables, defaultNamespace, context)] *)
Definition new (action defaultNamespace : string) : result t :=
  match matchAction action with
  | None => throwError "adventure" ("Malformed action: " +:+ action)
  | Some (m1, m2, m3) =>
      name ← Identifier.parse (trim m1) defaultNamespace None;
      queue ← compile (trim m3) defaultNamespace;
      Ok {| variableName := name; operator := trim m2; outputQueue := queue |}
  end.

(** [action.evaluate()]: the store after it. *)
Definition evaluate (a : t) (variables : store) : result store :=
  value ← evaluator (outputQueue a) variables;
  let name := variableName a in
  let old := readVar variables name in
  let op := operator a in
  if String.eqb op "=" then Ok (writeVar variables name value)
  else if String.eqb op "+=" then Ok (writeVar variables name (Js.add old value))
  else if String.eqb op "-=" then Ok (writeVar variables name (Js.sub old value))
  else if String.eqb op "*=" then Ok (writeVar variables name (Js.mul old value))
  else if String.eqb op "/=" then Ok (writeVar variables name (Js.div old value))
  else Ok variables.

(** [actions.split(separatorRegex)] with [separatorRegex = /[,;]/] *)
Fixpoint splitSeparators (s : string) : list string :=
  match s with
  | EmptyString => [EmptyString]
  | String d s' =>
      if Str.isChar "," d || Str.isChar ";" d
      then EmptyString :: splitSeparators s'
      else match splitSeparators s' with
           | p :: ps => String d p :: ps
           | [] => [String d EmptyString]
           end
  end.

(** [Action.parseActions]; [None] stands for an absent field. *)
Definition parseActions (actions : option string) (defaultNamespace : string)
  : result (list t) :=
  match actions with
  | None | Some EmptyString => Ok []
  | Some actions =>
      mapM (fun action =>
              new (trim (Str.filter (Str.isNot " ") action)) defaultNamespace)
           (splitSeparators actions)
  end.

(** [actions.forEach((action) => action.evaluate())] *)
Fixpoint evaluateAll (actions : list t) (variables : store) : result store :=
  match actions with
  | [] => Ok variables
  | a :: rest => variables' ← evaluate a variables; evaluateAll rest variables'
  end.

End Action.

(** ** variables.js: [Conditional], the shunting-yard class

    [createEvaluator] compiles the condition to a postfix queue and returns
    a closure that runs the queue on a value stack. *)

Module Conditional.

Import Action.

Record t : Type := {
  outputQueue : list item;      (** what the closure [evaluator] captured *)
}.

(** One match of [numberRangeRegex] at the head of [s]: the three groups
    [\w+], [\d+], [\d+] around [=] and [..], and what follows the match. *)
Definition numberRangeAt (s : string)
  : option (string * string * string * string) :=
  let (varName, r1) := Str.span Str.isWord s in
  if Str.isEmpty varName then None
  else match r1 with
       | String "=" r2 =>
           let (start, r3) := Str.span Str.isDigit r2 in
           if Str.isEmpty start then None
           else match r3 with
                | String "." (String "." r4) =>
                    let (end_, r5) := Str.span Str.isDigit r4 in
                    if Str.isEmpty end_ then None
                    else Some (varName, start, end_, r5)
                | _ => None
                end
       | _ => None
       end.

(** [.replace(numberRangeRegex, ...)] with the [g] flag: every match,
    left to right, becomes [(var>=start&&var<=end)]. *)
Fixpoint replaceRanges (fuel : nat) (s : string) : string :=
  match fuel with
  | O => s
  | S fuel' =>
      match s with
      | EmptyString => EmptyString
      | String c s' =>
          match numberRangeAt s with
          | Some (varName, start, end_, r) =>
              "(" +:+ varName +:+ ">=" +:+ start +:+ "&&"
                  +:+ varName +:+ "<=" +:+ end_ +:+ ")"
                  +:+ replaceRanges fuel' r
          | None => String c (replaceRanges fuel' s')
          end
      end
  end.

Definition isDashDigit (c : ascii) : bool := Str.isChar "-" c || Str.isDigit c.

(** One match of [conditionalTokenRegex] at the head of [s]; the
    alternatives in the order of the source: a word, [>=], [<=], [==],
    [=], [&&], [||], a parenthesis, a run of dashes and digits. *)
Definition conditionalTokenAt (s : string) : option (string * string) :=
  match s with
  | EmptyString => None
  | String c s' =>
      if Str.isWord c then Some (Str.span Str.isWord s)
      else
        let two (tok : string) :=
          match Str.stripPrefix tok s with
          | Some r => Some (tok, r)
          | None => None
          end in
        match two ">=", two "<=", two "==" with
        | Some m, _, _ | None, Some m, _ | None, None, Some m => Some m
        | None, None, None =>
            if Str.isChar "=" c then Some ("=", s')
            else match two "&&", two "||" with
                 | Some m, _ | None, Some m => Some m
                 | None, None =>
                     if Str.isChar "(" c || Str.isChar ")" c
                     then Some (String c "", s')
                     else if isDashDigit c then Some (Str.span isDashDigit s)
                     else None
                 end
        end
  end.

Fixpoint conditionalTokens (fuel : nat) (s : string) : list string :=
  match fuel with
  | O => []
  | S fuel' =>
      match s with
      | EmptyString => []
      | String _ s' =>
          match conditionalTokenAt s with
          | Some (tok, r) => tok :: conditionalTokens fuel' r
          | None => conditionalTokens fuel' s'
          end
      end
  end.

(** The tokens of a condition: white space removed, ranges rewritten,
    then every match of [conditionalTokenRegex]. *)
Definition tokenize (conditional : string) : list string :=
  let s1 := Str.filter (fun c => negb (Str.isSpace c)) conditional in
  let s2 := replaceRanges (String.length s1) s1 in
  conditionalTokens (String.length s2) s2.

(** The table [operators]: precedence and function (every entry is
    left-associative). *)
Definition operators (token : string)
  : option (nat * (value -> value -> value)) :=
  if String.eqb token "&&" then Some (2%nat, Js.and)
  else if String.eqb token "||" then Some (1%nat, Js.or)
  else if String.eqb token ">=" then Some (3%nat, fun a b => VBool (Js.ge a b))
  else if String.eqb token "<=" then Some (3%nat, fun a b => VBool (Js.le a b))
  else if String.eqb token "==" then Some (3%nat, fun a b => VBool (Js.strictEq a b))
  else if String.eqb token "=" then Some (3%nat, fun a b => VBool (Js.strictEq a b))
  else None.

(** The inner [while] of the operator case: while the top of the stack is
    an operator of precedence at least that of [token], move it to the
    queue. *)
Fixpoint popOperators (prec : nat) (outputQueue : list item)
    (operatorStack : list string) : list item * list string :=
  match operatorStack with
  | top :: below =>
      match operators top with
      | Some (ptop, _) =>
          if (prec <=? ptop)%nat
          then popOperators prec (outputQueue ++ [ITok top]) below
          else (outputQueue, operatorStack)
      | None => (outputQueue, operatorStack)
      end
  | [] => (outputQueue, operatorStack)
  end.

(** The body of [for (const token of tokens)]. *)
Definition shuntToken (defaultNamespace : string)
    (st : list item * list string) (token : string)
  : result (list item * list string) :=
  let (outputQueue, operatorStack) := st in
  if numberRegex token then
    Ok (outputQueue ++ [INum (parseFloat token)], operatorStack)
  else if variableRegex token then
    name ← Identifier.parse token defaultNamespace None;
    Ok (outputQueue ++ [IVar name], operatorStack)
  else match operators token with
       | Some (prec, _) =>
           let (q, ops) := popOperators prec outputQueue operatorStack in
           Ok (q, token :: ops)
       | None =>
           if String.eqb token "(" then Ok (outputQueue, token :: operatorStack)
           else if String.eqb token ")" then
             let (q, ops) := popToParen outputQueue operatorStack in
             Ok (q, tl ops)             (* remove ['('] *)
           else Ok st
       end.

Fixpoint shunt (defaultNamespace : string)
    (st : list item * list string) (tokens : list string)
  : result (list item * list string) :=
  match tokens with
  | [] => Ok st
  | token :: rest =>
      st' ← shuntToken defaultNamespace st token;
      shunt defaultNamespace st' rest
  end.

(** The compile-time half of [createEvaluator]. *)
Definition compile (conditional defaultNamespace : string)
  : result (list item) :=
  match tokenize conditional with
  | [] => throwError "adventure" ("Malformed conditional: " +:+ conditional)
  | tokens =>
      '(outputQueue, operatorStack) ← shunt defaultNamespace ([], []) tokens;
      Ok (outputQueue ++ map ITok operatorStack)
  end.

(** The body of [for (const token of outputQueue)]. *)
Definition evalItem (variables : store) (stack : list value) (i : item)
  : result (list value) :=
  match i with
  | INum x => Ok (VNum x :: stack)
  | IVar name =>
      match readVar variables name with
      | VUndef => Throw (usedBeforeAssignment name)
      | v => Ok (v :: stack)
      end
  | ITok token =>
      match operators token with
      | Some (_, fn) =>
          let (b, s1) := pop stack in
          let (a, s2) := pop s1 in
          Ok (fn a b :: s2)
      | None => Ok stack
      end
  end.

Fixpoint evalQueue (variables : store) (stack : list value)
    (outputQueue : list item) : result (list value) :=
  match outputQueue with
  | [] => Ok stack
  | i :: rest =>
      stack' ← evalItem variables stack i;
      evalQueue variables stack' rest
  end.

(** The closure [createEvaluator] returns: [Boolean(stack[0])]. *)
Definition evaluator (outputQueue : list item) (variables : store)
  : result bool :=
  stack ← evalQueue variables [] outputQueue;
  Ok (Js.toBoolean (List.last stack VUndef)).

(** [new Conditional(expression, variables, defaultNamespace, context)] *)
Definition new (expression defaultNamespace : string) : result t :=
  queue ← compile expression defaultNamespace;
  Ok {| outputQueue := queue |}.

Definition evaluate (c : t) (variables : store) : result bool :=
  evaluator (outputQueue c) variables.

End Conditional.

(** ** variables.js: [Conditional], the Polish-notation class

    The class is written to tokenize the condition, rewrite ranges into
    comparisons, nest parenthesised groups and move every operator in
    front of its operands, and to walk that prefix form in [evaluate].
    It uses names that are bound nowhere, and the body of a class is
    strict code: the constructor and [evaluate] both end in a
    [ReferenceError] at the first of them, whatever they are given. *)

Module PrefixConditional.

(** What the constructor has set when it ends: [this.variables] is the
    store, [this.context] feeds reports only, and [this.tokens] is never
    reached. *)
Record t : Type := {
  defaultNamespace : string;
}.

(** [new Conditional(conditionExpression, variables, defaultNamespace,
    context)]: after the three fields and the tables [tokens] and
    [regexs], the first statement is
    [conditionExpressionSubstring = conditionExpression.replaceAll(" ", "")],
    an assignment to a name that no [let], [const], [var] or parameter
    declares. *)
Definition new (conditionExpression namespace : string) : result t :=
  Throw (ReferenceError "conditionExpressionSubstring is not defined").

(** [conditional.evaluate()]: the test of its first loop,
    [i < tokens.length], reads [tokens], which is a local of the
    constructor and is not bound here. *)
Definition evaluate (c : t) (variables : store) : result (value * t) :=
  Throw (ReferenceError "tokens is not defined").

End PrefixConditional.

(** ** The class [Conditional] as its users see it

    [adventure.js] and the engine use a [Conditional] through its
    constructor and [evaluate()] only.  [evaluate] returns a value that is
    tested for truth, and may change the instance. *)

Class ConditionalClass : Type := {
  cond : Type;
  condNew : string -> string -> result cond;
  condEvaluate : cond -> store -> result (value * cond);
}.

#[export] Instance postfixConditional : ConditionalClass := {|
  cond := Conditional.t;
  condNew := Conditional.new;
  condEvaluate c variables :=
    b ← Conditional.evaluate c variables; Ok (VBool b, c);
|}.

Definition prefixConditional : ConditionalClass := {|
  cond := PrefixConditional.t;
  condNew := PrefixConditional.new;
  condEvaluate := PrefixConditional.evaluate;
|}.

(** ** adventure.js: [Text] *)

Module Text.

Section WithConditional.
Context {C : ConditionalClass}.

(** An element of [this.tokens]: the three closures of the constructor. *)
Inductive token : Type :=
| VarToken (identifier : string)
    (** [() => variables[identifier]] *)
| CondToken (conditional : cond) (text1 : list token) (text2 : option (list token))
    (** [() => conditional.evaluate() ? text1.evaluate() : text2.evaluate()],
        with [''] for an absent [text2] *)
| LitToken (text : string).
    (** [() => token] *)

(** A [Text] is its array [tokens]. *)
Definition t : Type := list token.

(** One match of the splitting expression at the head of [s]: [${] or
    [?{], one or more characters other than [}], and [}]. *)
Definition markerAt (s : string) : option (string * string) :=
  match s with
  | String a (String "{" r) =>
      if Str.isChar "$" a || Str.isChar "?" a then
        let (body, r') := Str.span (Str.isNot "}") r in
        match r' with
        | String "}" r'' =>
            if Str.isEmpty body then None
            else Some (String a (String "{" body) +:+ "}", r'')
        | _ => None
        end
      else None
  | _ => None
  end.

(** [str.split(...)] on that expression, whose one group puts the
    markers themselves into the result; [piece] is the text since the last
    marker. *)
Fixpoint split (fuel : nat) (piece : string) (s : string) : list string :=
  match s with
  | EmptyString => [piece]
  | String c s' =>
      match fuel with
      | O => [piece +:+ s]
      | S fuel' =>
          match markerAt s with
          | Some (m, r) => piece :: m :: split fuel' "" r
          | None => split fuel' (piece +:+ String c "") s'
          end
      end
  end.

(** The first group of the leftmost match of [${], a lazy run of
    characters of one line, and [}]. *)
Fixpoint variableMatch (s : string) : option string :=
  match s with
  | EmptyString => None
  | String _ s' =>
      match Str.stripPrefix "${" s with
      | Some r =>
          let (g, r') :=
            Str.span (fun c => Str.isNot "}" c && negb (Str.isLineTerminator c)) r in
          match r' with
          | String "}" _ => Some g
          | _ => variableMatch s'
          end
      | None => variableMatch s'
      end
  end.

(** The greatest [k >= 1] with [m[k] = '}'], counted from [k]. *)
Fixpoint lastBrace (k : nat) (m : string) : option nat :=
  match m with
  | EmptyString => None
  | String c m' =>
      match lastBrace (S k) m' with
      | Some j => Some j
      | None => if Str.isChar "}" c && (1 <=? k)%nat then Some k else None
      end
  end.

(** The expression of the inline conditional matched at the head of [s],
    after [?{]: a group without [?], a [?], a group without [:], an
    optional [:] with a group without [}], and [}].  The second group is
    greedy: it first runs up to the colon, and gives back characters only to
    let the final [}] match. *)
Definition conditionalAt (s : string)
  : option (string * string * option string) :=
  let (g1, r1) := Str.span (Str.isNot "?") s in
  match r1 with
  | String "?" r2 =>
      if Str.isEmpty g1 then None
      else
        let (m, r3) := Str.span (Str.isNot ":") r2 in
        let shorter :=
          match lastBrace 0 m with
          | Some k => Some (g1, Str.take k m, None)
          | None => None
          end in
        if Str.isEmpty m then None
        else match r3 with
             | String ":" r4 =>
                 let (g3, r5) := Str.span (Str.isNot "}") r4 in
                 match r5 with
                 | String "}" _ =>
                     if Str.isEmpty g3 then shorter else Some (g1, m, Some g3)
                 | _ => shorter
                 end
             | _ => shorter
             end
  | _ => None
  end.

(** The groups of the leftmost match. *)
Fixpoint conditionalMatch (s : string)
  : option (string * string * option string) :=
  match s with
  | EmptyString => None
  | String _ s' =>
      match Str.stripPrefix "?{" s with
      | Some r =>
          match conditionalAt r with
          | Some g => Some g
          | None => conditionalMatch s'
          end
      | None => conditionalMatch s'
      end
  end.

(** [new Text(str, variables, defaultNamespace, context)].  The nested
    texts are built from parts of [str], so [fuel = length str] is never
    used up. *)
Fixpoint build (fuel : nat) (str defaultNamespace : string) : result t :=
  mapM (fun token =>
          match variableMatch token with
          | Some varName =>
              identifier ← Identifier.parse varName defaultNamespace None;
              Ok (VarToken identifier)
          | None =>
              match conditionalMatch token with
              | Some (g1, g2, g3) =>
                  match fuel with
                  | O => Throw OutOfFuel
                  | S fuel' =>
                      conditional ← condNew g1 defaultNamespace;
                      text1 ← build fuel' g2 defaultNamespace;
                      text2 ← match g3 with
                              | Some g => Some <$> build fuel' g defaultNamespace
                              | None => Ok None
                              end;
                      Ok (CondToken conditional text1 text2)
                  end
              | None => Ok (LitToken token)
              end
          end)
       (List.filter (fun piece => negb (Str.isEmpty piece))
                    (split (String.length str) "" str)).

Definition new (str defaultNamespace : string) : result t :=
  build (String.length str) str defaultNamespace.

(** [tokens.map((token) => token.evaluate()).join('')], by the [evaluate]
    of one token: the joined text, and the tokens afterwards. *)
Definition joinAll (evaluateOne : token -> result (string * token))
  : list token -> result (string * list token) :=
  fix go (l : list token) : result (string * list token) :=
    match l with
    | [] => Ok ("", [])
    | y :: r =>
        '(a, y') ← evaluateOne y;
        '(b, r') ← go r;
        Ok (a +:+ b, y' :: r')
    end.

(** The closure of a token: its value as [join] writes it, and the token
    with its conditional as [evaluate] left it. *)
Fixpoint evaluateToken (variables : store) (x : token) : result (string * token) :=
  match x with
  | VarToken identifier => Ok (Js.joined (readVar variables identifier), x)
  | LitToken text => Ok (text, x)
  | CondToken conditional text1 text2 =>
      '(v, conditional') ← condEvaluate conditional variables;
      if Js.toBoolean v then
        '(a, text1') ← joinAll (evaluateToken variables) text1;
        Ok (a, CondToken conditional' text1' text2)
      else
        match text2 with
        | Some text2 =>
            '(a, text2') ← joinAll (evaluateToken variables) text2;
            Ok (a, CondToken conditional' text1 (Some text2'))
        | None => Ok ("", CondToken conditional' text1 None)
        end
  end.

Definition evaluateTokens (variables : store)
  : list token -> result (string * list token) :=
  joinAll (evaluateToken variables).

(** [text.evaluate()]: the rendering, and the text with its conditionals
    as their [evaluate] left them. *)
Definition evaluate (text : t) (variables : store) : result (string * t) :=
  evaluateTokens variables text.

(** The rendering alone. *)
Definition render (text : t) (variables : store) : result string :=
  fst <$> evaluate text variables.

End WithConditional.

End Text.

(** ** adventure.js: the document model, as the linker leaves it

    An object that is shared and referred to from several places (a
    [Scene], an [Adventure]) is named by its key in the engine's registry;
    the linker put the [Scene] itself where the model has its key. *)

Module Model.

Section WithConditional.
Context {C : ConditionalClass}.

Record Option : Type := {
  label : Text.t;
  target : string;
  condition : option cond;
  alwaysVisible : bool;
  optionActions : list Action.t;
}.

Record Scene : Type := {
  adventure : string;
  name : string;
  identifier : string;
  title : Text.t;
  content : list Text.t;
  actions : list Action.t;
  options : list Option;
}.

Record Adventure : Type := {
  globalTop : option Text.t;
  globalBottom : option Text.t;
  startingScene : string;
}.

End WithConditional.

End Model.

(** Modelled from the spec: the class [FixedSizeStack] of
    [fixed-size-stack.js], which the engine requires and which is not among
    the sources.  The spec calls History a fixed-capacity stack where a
    push beyond the capacity discards the oldest entry; [pop] takes the
    most recent entry, and gives [undefined] on an empty stack as an
    array's [pop] does. *)
Module FixedSizeStack.

Record t (A : Type) : Type := {
  capacity : nat;
  items : list A;               (** the most recent entry first *)
}.
Arguments capacity {A} _.
Arguments items {A} _.

Definition new {A} (capacity : nat) : t A :=
  {| capacity := capacity; items := [] |}.

Definition push {A} (x : A) (s : t A) : t A :=
  {| capacity := capacity s; items := firstn (capacity s) (x :: items s) |}.

Definition pop {A} (s : t A) : option A * t A :=
  match items s with
  | [] => (None, s)
  | x :: below => (Some x, {| capacity := capacity s; items := below |})
  end.

End FixedSizeStack.

(** ** The engine: [AdventureEngine] *)

Module Engine.

Import Model.

Section WithConditional.
Context {C : ConditionalClass}.

Definition INKSPIRE_NAMESPACE : string := "inkspire".
Definition MAX_RETURN_HISTORY : nat := 16.

(** The engine's registries, the lines [read()] will deliver, and the
    lines given to [write], the first written first. *)
Record world : Type := {
  adventures : gmap string Adventure;
  scenes : gmap string Scene;
  variables : store;
  input : list string;
  output : list string;
}.

(** How a piece of the engine ends: it returns, it raises, or it waits in
    [await read()] for a line that the input does not hold. *)
Inductive outcome (A : Type) : Type :=
| Returned (a : A) (w : world)
| Raised (e : error) (w : world)
| Awaiting (w : world).
Arguments Returned {A} a w.
Arguments Raised {A} e w.
Arguments Awaiting {A} w.

Definition M (A : Type) : Type := world -> outcome A.

Definition ret {A} (a : A) : M A := fun w => Returned a w.

Definition bind {A B} (m : M A) (f : A -> M B) : M B := fun w =>
  match m w with
  | Returned a w' => f a w'
  | Raised e w' => Raised e w'
  | Awaiting w' => Awaiting w'
  end.

#[local] Instance M_ret : MRet M := @ret.
#[local] Instance M_bind : MBind M := fun A B f m => bind m f.

Definition raise {A} (e : error) : M A := fun w => Raised e w.

Definition lift {A} (r : result A) : M A :=
  match r with
  | Ok a => ret a
  | Throw e => raise e
  end.

Definition write (line : string) : M unit := fun w =>
  Returned tt {| adventures := adventures w; scenes := scenes w;
                 variables := variables w; input := input w;
                 output := output w ++ [line] |}.

Definition read : M string := fun w =>
  match input w with
  | [] => Awaiting w
  | line :: rest =>
      Returned line {| adventures := adventures w; scenes := scenes w;
                       variables := variables w; input := rest;
                       output := output w |}
  end.

Definition putScene (key : string) (scene : Scene) : M unit := fun w =>
  Returned tt {| adventures := adventures w;
                 scenes := <[key := scene]> (scenes w);
                 variables := variables w; input := input w;
                 output := output w |}.

Definition putAdventure (key : string) (adv : Adventure) : M unit := fun w =>
  Returned tt {| adventures := <[key := adv]> (adventures w);
                 scenes := scenes w;
                 variables := variables w; input := input w;
                 output := output w |}.

(** Reading a property of [undefined]. *)
Definition undefinedRead {A} (property : string) : M A :=
  raise (TypeError ("Cannot read properties of undefined (reading '"
                      +:+ property +:+ "')")).

(** [action.evaluate()] on the engine's store. *)
Definition evaluateAction (a : Action.t) : M unit := fun w =>
  match Action.evaluate a (variables w) with
  | Ok variables' =>
      Returned tt {| adventures := adventures w; scenes := scenes w;
                     variables := variables'; input := input w;
                     output := output w |}
  | Throw e => Raised e w
  end.

(** [actions.forEach((action) => action.evaluate())] *)
Fixpoint evaluateActions (l : list Action.t) : M unit :=
  match l with
  | [] => ret tt
  | a :: rest => evaluateAction a ;; evaluateActions rest
  end.

(** [text.evaluate()] on the engine's store: the rendering and the text
    afterwards. *)
Definition evaluateText (text : Text.t) : M (string * Text.t) := fun w =>
  match Text.evaluate text (variables w) with
  | Ok p => Returned p w
  | Throw e => Raised e w
  end.

(** [(text) && write(text.evaluate())] for an optional text. *)
Definition writeOptional (text : option Text.t) : M (option Text.t) :=
  match text with
  | Some text =>
      '(line, text') ← evaluateText text;
      write line ;; ret (Some text')
  | None => ret None
  end.

(** [content.map((line) => line.evaluate())] *)
Fixpoint evaluateTexts (l : list Text.t) : M (list string * list Text.t) :=
  match l with
  | [] => ret ([], [])
  | text :: rest =>
      '(line, text') ← evaluateText text;
      '(lines, rest') ← evaluateTexts rest;
      ret (line :: lines, text' :: rest')
  end.

Fixpoint writeAll (lines : list string) : M unit :=
  match lines with
  | [] => ret tt
  | line :: rest => write line ;; writeAll rest
  end.

(** [getChoice(numOptions)]: a turn of its loop reads one line. *)
Fixpoint getChoice (fuel : nat) (numOptions : nat) : M float :=
  match fuel with
  | O => raise OutOfFuel
  | S fuel' =>
      write "What do you do?" ;;
      line ← read;
      let response := Action.trim line in
      let choice := Num.ofString response in
      let n := Num.ofZ (Z.of_nat numOptions) in
      if (is_nan choice || (choice <? 1) || (n <? choice))%float then
        write ("Select one of the options by entering a number from 1 to "
                 +:+ Num.toString n +:+ ".") ;;
        getChoice fuel' numOptions
      else ret choice
  end.

(** The [options.forEach] that sorts the options: each option with its
    condition as [evaluate] left it, and whether it is available. *)
Fixpoint partition (l : list Option) : M (list (Option * bool)) :=
  match l with
  | [] => ret []
  | option :: rest =>
      '(available, condition') ←
         match condition option with
         | None => ret (true, None)
         | Some c => fun w =>
             match condEvaluate c (variables w) with
             | Ok (v, c') => Returned (Js.toBoolean v, Some c') w
             | Throw e => Raised e w
             end
         end;
      let option' := {| label := label option; target := target option;
                        condition := condition';
                        alwaysVisible := alwaysVisible option;
                        optionActions := optionActions option |} in
      rest' ← partition rest;
      ret ((option', available) :: rest')
  end.

Definition withLabel (option : Option) (label' : Text.t) : Option :=
  {| label := label'; target := target option; condition := condition option;
     alwaysVisible := alwaysVisible option;
     optionActions := optionActions option |}.

(** [availableOptions.forEach((option, i) => write(...))]: [i] counts the
    available options met so far. *)
Fixpoint writeAvailable (i : nat) (l : list (Option * bool))
  : M (list (Option * bool)) :=
  match l with
  | [] => ret []
  | (option, true) :: rest =>
      '(text, label') ← evaluateText (label option);
      write (Num.toString (Num.ofZ (Z.of_nat i + 1)) +:+ ": " +:+ text) ;;
      rest' ← writeAvailable (S i) rest;
      ret ((withLabel option label', true) :: rest')
  | (option, false) :: rest =>
      rest' ← writeAvailable i rest;
      ret ((option, false) :: rest')
  end.

(** The same for the unavailable options that are [alwaysVisible]. *)
Fixpoint writeUnavailable (l : list (Option * bool))
  : M (list (Option * bool)) :=
  match l with
  | [] => ret []
  | (option, false) :: rest =>
      option' ←
        (if alwaysVisible option then
           '(text, label') ← evaluateText (label option);
           write ("X: " +:+ text) ;; ret (withLabel option label')
         else ret option);
      rest' ← writeUnavailable rest;
      ret ((option', false) :: rest')
  | (option, true) :: rest =>
      rest' ← writeUnavailable rest;
      ret ((option, true) :: rest')
  end.

(** [availableOptions[response - 1]] *)
Definition chosen (availableOptions : list Option) (response : float)
  : option Option :=
  let index := (response - 1)%float in
  if Num.isInteger index && negb (get_sign index && negb (is_zero index))
  then nth_error availableOptions (Z.to_nat (Num.toZ index))
  else None.

Definition withTexts (scene : Scene) (title' : Text.t)
    (content' : list Text.t) (options' : list Option) : Scene :=
  {| adventure := adventure scene; name := name scene;
     identifier := identifier scene; title := title'; content := content';
     actions := actions scene; options := options' |}.

(** What a turn of [while (true)] decides. *)
Inductive next : Type :=
| Continue (history : FixedSizeStack.t string) (currentScene : option string)
| Return.

(** A turn of the loop of [runAdventure].  [currentScene] is [None] when
    the variable holds [undefined]. *)
Definition turn (fuel : nat) (history : FixedSizeStack.t string)
    (currentScene : option string) : M next :=
  w0 ← (fun w => Returned w w);
  match currentScene ≫= (fun key => (fun s => (key, s)) <$> scenes w0 !! key) with
  | None => undefinedRead "identifier"
  | Some (key, scene) =>
      ns ← lift (Identifier.getIdentifierNamespace (identifier scene));
      let control :=
        if String.eqb ns INKSPIRE_NAMESPACE then name scene else "" in
      if String.eqb control "switch" then raise (JsError "Not implemented")
      else if String.eqb control "fail" then write "You failed" ;; ret Return
      else if String.eqb control "pass" then write "You win" ;; ret Return
      else if String.eqb control "exit" then
        write "Program terminated" ;; raise ProcessExit
      else if String.eqb control "back" then
        let (popped, history') := FixedSizeStack.pop history in
        ret (Continue history' popped)
      else
        match adventures w0 !! adventure scene with
        | None => undefinedRead "globalTop"
        | Some adv =>
            evaluateActions (actions scene) ;;
            writeAll (repeat "" 11) ;;
            '(line, title') ← evaluateText (title scene);
            write line ;;
            globalTop' ← writeOptional (globalTop adv);
            '(lines, content') ← evaluateTexts (content scene);
            writeAll (List.filter (fun l => negb (Str.isEmpty l)) lines) ;;
            globalBottom' ← writeOptional (globalBottom adv);
            putAdventure (adventure scene)
              {| globalTop := globalTop'; globalBottom := globalBottom';
                 startingScene := startingScene adv |} ;;
            match options scene with
            | [option] =>
                '(text, label') ← evaluateText (label option);
                putScene key
                  (withTexts scene title' content' [withLabel option label']) ;;
                match text with
                | String c rest =>
                    write ("You " +:+ String (Str.lower c) rest)
                | EmptyString => ret tt
                end ;;
                write "Press enter to continue..." ;;
                _ ← read;
                evaluateActions (optionActions option) ;;
                ret (Continue history (Some (target option)))
            | options =>
                sorted ← partition options;
                write "" ;;
                write "You could..." ;;
                sorted ← writeAvailable 0 sorted;
                sorted ← writeUnavailable sorted;
                write "" ;;
                putScene key
                  (withTexts scene title' content' (map fst sorted)) ;;
                response ← getChoice fuel (length options);
                let availableOptions :=
                  map fst (List.filter snd sorted) in
                match chosen availableOptions response with
                | None => undefinedRead "actions"
                | Some chosenOption =>
                    evaluateActions (optionActions chosenOption) ;;
                    ret (Continue history (Some (target chosenOption)))
                end
            end
        end
  end.

Fixpoint loop (fuel : nat) (history : FixedSizeStack.t string)
    (currentScene : option string) : M unit :=
  match fuel with
  | O => raise OutOfFuel
  | S fuel' =>
      n ← turn fuel history currentScene;
      match n with
      | Continue history' currentScene' => loop fuel' history' currentScene'
      | Return => ret tt
      end
  end.

(** Calling [adventures.hasOwnProperty] when the registry has an entry of
    that name, which hides the method: the entry is an adventure, and no
    function. *)
Definition notAFunction : error :=
  TypeError "adventures.hasOwnProperty is not a function".

(** [runAdventure(adventureName)].  The entries of the registry are its
    own properties.  A turn that neither reads a line nor ends the run
    pops the history, so the budget below is not used up. *)
Definition runAdventure (adventureName : string) : M unit :=
  w ← (fun w => Returned w w);
  match adventures w !! "hasOwnProperty" with
  | Some _ => raise notAFunction
  | None =>
      match adventures w !! adventureName with
      | None =>
          write ("FAIL: No adventure of named " +:+ adventureName
                   +:+ " is loaded.")
      | Some adv =>
          loop (2 * length (input w) + MAX_RETURN_HISTORY + 2)
               (FixedSizeStack.new MAX_RETURN_HISTORY)
               (Some (startingScene adv))
      end
  end.

End WithConditional.

Arguments Returned {C A} a w.
Arguments Raised {C A} e w.
Arguments Awaiting {C A} w.

End Engine.

(** ** adventure.js: the constructors of the document model

    An adventure file holds the JSON of one adventure.  The fields have the
    types their constructors declare: a string, a number or a boolean that
    may be absent, an array of lines for the content of a scene, arrays of
    objects for scenes and options.  [None] is an absent field. *)

Module Json.

Module Option.
Record t : Type := {
  label : option string;
  target : option string;
  condition : option string;
  alwaysVisible : option bool;
  actions : option string;
}.
End Option.

Module Scene.
Record t : Type := {
  title : option string;
  name : option string;
  actions : option string;
  content : option (list string);
  options : option (list Option.t);
}.
End Scene.

Module Adventure.
Record t : Type := {
  title : option string;
  name : option string;
  author : option string;
  version : option float;
  requires : option string;
  actions : option string;
  globalTop : option string;
  globalBottom : option string;
  startingScene : option string;
  scenes : option (list Scene.t);
}.
End Adventure.

End Json.

(** An object used as a map whose keys are enumerated: the keys that are
    array indices come first, in ascending order, and the others follow in
    the order in which they were added.  The entries are the own
    properties of the object.  [get], [set] and [hasOwnProperty] are those
    of a key that [Object.prototype] does not name, as every identifier of
    a scene is, which holds a colon; the registry of adventures, whose
    keys are the names of the adventures, has operations of its own in
    [Setup]. *)

Module Obj.

Section Values.
Context {A : Type}.

(** The own properties, in the order in which they were added. *)
Definition t : Type := list (string * A).

(** [o[key]] *)
Fixpoint get (key : string) (o : t) : option A :=
  match o with
  | [] => None
  | (k, v) :: rest => if String.eqb k key then Some v else get key rest
  end.

(** [o.hasOwnProperty(key)] *)
Definition hasOwnProperty (key : string) (o : t) : bool :=
  match get key o with Some _ => true | None => false end.

(** [o[key] = v]: a key that is there keeps its place. *)
Fixpoint set (key : string) (v : A) (o : t) : t :=
  match o with
  | [] => [(key, v)]
  | (k, x) :: rest =>
      if String.eqb k key then (k, v) :: rest else (k, x) :: set key v rest
  end.

(** The number of a key that is an array index: the decimal text, without
    leading zeros, of an integer below [2^32 - 1]. *)
Definition arrayIndex (key : string) : option Z :=
  match key with
  | String c rest =>
      if (Str.isChar "0" c && Str.isEmpty rest)
         || (Str.between "1" "9" c && Str.all Str.isDigit rest)
      then
        let n := Num.digitsVal 0 key in
        if n <? 4294967295 then Some n else None
      else None
  | EmptyString => None
  end.

Fixpoint insertIndexed (n : Z) (e : string * A) (l : list (Z * (string * A)))
  : list (Z * (string * A)) :=
  match l with
  | [] => [(n, e)]
  | (m, x) :: rest =>
      if n <? m then (n, e) :: l else (m, x) :: insertIndexed n e rest
  end.

(** [Object.entries(o)] *)
Definition entries (o : t) : list (string * A) :=
  let indexed :=
    fold_right
      (fun e acc =>
         match arrayIndex (fst e) with
         | Some n => insertIndexed n e acc
         | None => acc
         end) [] o in
  map snd indexed
  ++ List.filter (fun e => match arrayIndex (fst e) with
                           | Some _ => false
                           | None => true
                           end) o.

End Values.

Arguments t A : clear implicits.

End Obj.

Module Build.

Import Model.

(** The truth of a string that may be absent: [(s) ? ... : ...]. *)
Definition given (s : option string) : bool :=
  match s with
  | Some (String _ _) => true
  | _ => false
  end.

(** [s.includes(':')] *)
Definition includesColon (s : string) : bool :=
  negb (Str.all (Str.isNot ":") s).

(** [new ParserContext()] *)
Definition newContext : ParserContext :=
  {| ctxAdventure := ""; ctxScene := ""; ctxOption := ""; ctxIdentifier := "" |}.

Section WithConditional.
Context {C : ConditionalClass}.

(** The object that [new Adventure] builds, before the linker puts the
    [Scene] in the place of [startingScene]. *)
Record Adventure : Type := {
  name : string;
  title : Text.t;
  version : float;
  author : Text.t;
  requires : list string;
  actions : list Action.t;
  globalTop : option Text.t;
  globalBottom : option Text.t;
  startingScene : string;
}.

(** [new Option(optionJSON, variableRegistry, defaultNamespace, context)] *)
Definition newOption (optionJSON : Json.Option.t) (defaultNamespace : string)
    (context : ParserContext) : result Option :=
  match Json.Option.label optionJSON with
  | None => throwError "option" "label is a required field."
  | Some label =>
      label' ← Text.new label defaultNamespace;
      match Json.Option.target optionJSON with
      | None | Some EmptyString =>
          throwError "option" "target is a required field."
      | Some target =>
          target' ← Identifier.parse target defaultNamespace (Some context);
          (* an empty condition stays as it is, and counts as none *)
          condition' ←
            (if given (Json.Option.condition optionJSON)
             then Some <$> condNew (default "" (Json.Option.condition optionJSON))
                                   defaultNamespace
             else Ok None);
          actions' ←
            Action.parseActions (Json.Option.actions optionJSON)
                                defaultNamespace;
          Ok {| label := label'; target := target'; condition := condition';
                alwaysVisible :=
                  default false (Json.Option.alwaysVisible optionJSON);
                optionActions := actions' |}
      end
  end.

(** [new Scene(sceneJSON, adventure, variableRegistry, context)], as the
    constructor of [Adventure] calls it: the adventure passed is the one
    under construction, [adventure] is its name. *)
Definition newScene (sceneJSON : Json.Scene.t) (adventure : string)
    (context : ParserContext) : result Scene :=
  let defaultNamespace := adventure in
  match Json.Scene.name sceneJSON with
  | None | Some EmptyString => throwError "scene" "name is a required field."
  | Some name =>
      if includesColon name
      then throwError "scene" "name cannot contain a colon."
      else
        match Json.Scene.title sceneJSON with
        | None | Some EmptyString =>
            throwError "scene" "title is a required field."
        | Some title =>
            title' ← Text.new title defaultNamespace;
            match Json.Scene.content sceneJSON with
            | None => throwError "scene" "content is a required field."
            | Some [] => throwError "scene" "invalid content: []"
            | Some content =>
                content' ←
                  mapM (fun line => Text.new line defaultNamespace) content;
                actions' ←
                  Action.parseActions (Json.Scene.actions sceneJSON)
                                      defaultNamespace;
                match Json.Scene.options sceneJSON with
                | None =>
                    Throw (TypeError
                      "Cannot read properties of undefined (reading 'map')")
                | Some options =>
                    options' ←
                      mapM (fun option =>
                              newOption option defaultNamespace context)
                           options;
                    Ok {| Model.adventure := adventure; Model.name := name;
                          identifier := "";      (* handled by the linker *)
                          Model.title := title'; content := content';
                          Model.actions := actions'; options := options' |}
                end
            end
        end
  end.

(** The loop over [scenesObjects]: every scene is built and registered
    under the identifier of its name in the adventure. *)
Fixpoint addScenes (name : string) (context : ParserContext)
    (scenesObjects : list Json.Scene.t) (sceneRegistry : Obj.t Scene)
  : result (Obj.t Scene) :=
  match scenesObjects with
  | [] => Ok sceneRegistry
  | sceneObject :: rest =>
      scene ← newScene sceneObject name context;
      let sceneIdentifier := Identifier.asIdentifier name (Model.name scene) in
      if Obj.hasOwnProperty sceneIdentifier sceneRegistry
      then throwError "adventure"
             ("Scene identifiers must be unique and " +:+ sceneIdentifier
                +:+ " is not.")
      else addScenes name context rest
             (Obj.set sceneIdentifier scene sceneRegistry)
  end.

(** [isValidVersionNumber] *)
Definition isValidVersionNumber (versionNumber : float) : bool :=
  (versionNumber =? 1)%float.

(** [requires.split(separatorRegex).map(n => n.trim()).filter(n => n)
    .filter(n => n !== 'inkspire')] *)
Definition requiredNames (requires : string) : list string :=
  List.filter (fun n => negb (String.eqb n "inkspire"))
    (List.filter (fun n => negb (Str.isEmpty n))
       (map Action.trim (Action.splitSeparators requires))).

(** [new Adventure(json, sceneRegistry, variableRegistry)]: the adventure,
    and the registry with its scenes. *)
Definition newAdventure (json : Json.Adventure.t) (sceneRegistry : Obj.t Scene)
  : result (Adventure * Obj.t Scene) :=
  let context := newContext in
  let undefinedLength {A} : result A :=
    Throw (TypeError "Cannot read properties of undefined (reading 'length')") in
  match Json.Adventure.name json with
  | None => undefinedLength
  | Some name =>
      if includesColon name
      then throwError "adventure" "name cannot contain a colon."
      else
        match Json.Adventure.title json with
        | None => undefinedLength
        | Some title =>
            title' ← Text.new title name;
            match Json.Adventure.version json with
            | None => throwError "adventure" "version is a required field."
            | Some version =>
                if is_zero version || is_nan version
                then throwError "adventure" "version is a required field."
                else if negb (isValidVersionNumber version)
                then throwError "adventure"
                       ("invalid version number: " +:+ Num.toString version)
                else
                  author' ← Text.new title name;
                  let requires' :=
                    if given (Json.Adventure.requires json)
                    then requiredNames
                           (default "" (Json.Adventure.requires json))
                    else [] in
                  actions' ←
                    Action.parseActions (Json.Adventure.actions json) name;
                  globalTop' ←
                    (if given (Json.Adventure.globalTop json)
                     then Some <$> Text.new title name else Ok None);
                  globalBottom' ←
                    (if given (Json.Adventure.globalBottom json)
                     then Some <$> Text.new title name else Ok None);
                  startingScene' ←
                    Identifier.parse
                      (default "start" (Json.Adventure.startingScene json))
                      name None;
                  match Json.Adventure.scenes json with
                  | None => Throw (TypeError "scenesObjects is not iterable")
                  | Some scenesObjects =>
                      sceneRegistry' ←
                        addScenes name context scenesObjects sceneRegistry;
                      Ok ({| name := name; title := title';
                             version := version; author := author';
                             requires := requires'; actions := actions';
                             globalTop := globalTop';
                             globalBottom := globalBottom';
                             startingScene := startingScene' |},
                          sceneRegistry')
                  end
            end
        end
  end.

End WithConditional.

End Build.

(** ** The engine: construction, loading and linking

    [loadFile], which reads the files of an adventure and of those it
    requires, is left out with the file system and the promises it works
    on; [loadAdventure] takes the adventure that [loadFile] builds of a
    file. *)

Module Setup.

Import Model.

Section WithConditional.
Context {C : ConditionalClass}.

(** The registries of an engine. *)
Record engine : Type := {
  adventures : Obj.t Build.Adventure;
  scenes : Obj.t Scene;
  variables : store;
}.

(** The adventure of the reserved namespace. *)
Definition control (title name : string) : Json.Scene.t :=
  {| Json.Scene.title := Some title; Json.Scene.name := Some name;
     Json.Scene.actions := None; Json.Scene.content := Some ["TODO"];
     Json.Scene.options := Some [] |}.

Definition inkspireSystem : Json.Adventure.t :=
  {| Json.Adventure.title := Some "Inkspire System";
     Json.Adventure.name := Some Engine.INKSPIRE_NAMESPACE;
     Json.Adventure.author := Some "Lightning";
     Json.Adventure.version := Some 1%float;
     Json.Adventure.requires := None;
     Json.Adventure.actions := None;
     Json.Adventure.globalTop := None;
     Json.Adventure.globalBottom := None;
     Json.Adventure.startingScene := Some "exit";
     Json.Adventure.scenes :=
       Some [ control "Unfinished Switch Scene" "switch";
              control "Unfinished Fail Scene" "fail";
              control "Unfinished Completion Scene" "pass";
              control "Unfinished Exit Scene" "exit";
              control "Unfinished Back Scene" "back" ] |}.

(** [adventures.hasOwnProperty(key)]: the method is the one of
    [Object.prototype], unless the registry has an entry named
    [hasOwnProperty], which hides it and is no function.  The key
    [__proto__] is never an own property here, see [assignAdventure]. *)
Definition ownsAdventure (key : string) (adventures : Obj.t Build.Adventure)
  : result bool :=
  if Obj.hasOwnProperty "hasOwnProperty" adventures
  then Throw Engine.notAFunction
  else Ok (Obj.hasOwnProperty key adventures).

(** [adventures[key] = adventure]: the key [__proto__] names the prototype
    of the registry, which the assignment replaces by the adventure, and
    gives the registry no entry; every other key becomes or stays an
    entry. *)
Definition assignAdventure (key : string) (adventure : Build.Adventure)
    (adventures : Obj.t Build.Adventure) : Obj.t Build.Adventure :=
  if String.eqb key "__proto__" then adventures
  else Obj.set key adventure adventures.

(** [loadAdventure(adventure)] *)
Definition loadAdventure (adventure : Build.Adventure) (e : engine)
  : result engine :=
  let adventureName := Build.name adventure in
  loaded ← ownsAdventure adventureName (adventures e);
  if (loaded : bool) then Throw ProcessExit
  else Ok {| adventures :=
               assignAdventure adventureName adventure (adventures e);
             scenes := scenes e; variables := variables e |}.

(** [loadAdventure(new Adventure(json, this.scenes, this.variables))], the
    two steps that [loadFile] takes with the JSON of a file. *)
Definition load (json : Json.Adventure.t) (e : engine) : result engine :=
  '(adventure, scenes') ← Build.newAdventure json (scenes e);
  loadAdventure adventure
    {| adventures := adventures e; scenes := scenes'; variables := variables e |}.

(** [new AdventureEngine({ read, write })] *)
Definition newEngine : result engine :=
  load inkspireSystem {| adventures := []; scenes := []; variables := ∅ |}.

(** [x = scenes[identifier]; x.identifier = identifier], the two steps of
    the linker at a reference. *)
Definition resolve (identifier : string) (scenes : Obj.t Scene)
  : result (Obj.t Scene) :=
  match Obj.get identifier scenes with
  | Some scene =>
      Ok (Obj.set identifier
            {| adventure := adventure scene; name := name scene;
               identifier := identifier; title := title scene;
               content := content scene; actions := actions scene;
               options := options scene |} scenes)
  | None =>
      Throw (TypeError
               "Cannot set properties of undefined (setting 'identifier')")
  end.

(** The first loop of [linkAdventures], over the entries of
    [this.adventures]. *)
Fixpoint linkStarts (entries : list (string * Build.Adventure))
    (scenes : Obj.t Scene) (variables : store)
  : result (Obj.t Scene * store) :=
  match entries with
  | [] => Ok (scenes, variables)
  | (_, adventure) :: rest =>
      variables' ← Action.evaluateAll (Build.actions adventure) variables;
      scenes' ← resolve (Build.startingScene adventure) scenes;
      linkStarts rest scenes' variables'
  end.

(** The inner loop, over the options of a scene. *)
Fixpoint linkOptions (options : list Option) (scenes : Obj.t Scene)
  : result (Obj.t Scene) :=
  match options with
  | [] => Ok scenes
  | option :: rest =>
      scenes' ← resolve (target option) scenes;
      linkOptions rest scenes'
  end.

(** The second loop, over the entries of [scenes] as they were when the
    loop began. *)
Fixpoint linkScenes (entries : list (string * Scene)) (scenes : Obj.t Scene)
  : result (Obj.t Scene) :=
  match entries with
  | [] => Ok scenes
  | (_, scene) :: rest =>
      scenes' ← linkOptions (options scene) scenes;
      linkScenes rest scenes'
  end.

(** [linkAdventures()] *)
Definition linkAdventures (e : engine) : result engine :=
  '(scenes1, variables') ←
     linkStarts (Obj.entries (adventures e)) (scenes e) (variables e);
  scenes2 ← linkScenes (Obj.entries scenes1) scenes1;
  Ok {| adventures := adventures e; scenes := scenes2;
        variables := variables' |}.

(** The registries as [runAdventure] reads them, with the lines to be
    read. *)
Definition world (e : engine) (input : list string) : Engine.world :=
  {| Engine.adventures :=
       list_to_map
         (map (fun '(key, a) =>
                 (key, {| globalTop := Build.globalTop a;
                          globalBottom := Build.globalBottom a;
                          startingScene := Build.startingScene a |}))
              (adventures e));
     Engine.scenes := list_to_map (scenes e);
     Engine.variables := variables e;
     Engine.input := input;
     Engine.output := [] |}.

End WithConditional.

End Setup.

(* ================================================================= *)
(** * The vocabulary of the properties *)

(** ** Compiling and evaluating in one step, as the tests of the sources
    do *)

Module Run.

(** Compiling and running in one step, as the tests of the sources do. *)
Definition runAction (action ns : string) (variables : store) : result store :=
  a ← Action.new action ns; Action.evaluate a variables.

Definition renderText `{ConditionalClass} (str ns : string) (variables : store)
  : result string :=
  t ← Text.new str ns; Text.render t variables.

(** Compiling and evaluating in one step, as the tests of the sources do. *)
Definition runPostfix (condition ns : string) (variables : store)
  : result bool :=
  c ← Conditional.new condition ns; Conditional.evaluate c variables.


End Run.

(** ** What a string or a compiled expression holds *)

Module Reads.

(** The number of colons of a string. *)
Fixpoint colons (s : string) : nat :=
  match s with
  | EmptyString => 0%nat
  | String c s' => ((if Str.ascii_eqb ":" c then 1 else 0) + colons s')%nat
  end.

(** The queue reads a variable that the store gives no value. *)
Definition readsUndefined (variables : store) (q : list Action.item) : Prop :=
  exists name, In (Action.IVar name) q /\ readVar variables name = VUndef.

(** The first variable of the queue that the store gives no value. *)
Fixpoint firstUndefined (variables : store) (q : list Action.item)
  : option string :=
  match q with
  | [] => None
  | Action.IVar name :: rest =>
      match readVar variables name with
      | VUndef => Some name
      | _ => firstUndefined variables rest
      end
  | _ :: rest => firstUndefined variables rest
  end.

End Reads.

(** ** Conditions as expressions

    The compiled form of the shunting-yard class is set against the
    expression it stands for: a tree of comparisons under [!], [&&] and
    [||]. *)

Module Expr.

(** [Eq1] is [=], [Eq2] is [==]. *)
Inductive comparison : Type := Eq1 | Eq2 | Ge | Le | Lt | Gt.

Inductive operand : Type :=
| Num (x : float)
| Var (name : string).

Inductive t : Type :=
| Cmp (c : comparison) (a b : operand)
| Not (e : t)
| And (l r : t)
| Or (l r : t).

Definition compareFloats (c : comparison) (x y : float) : bool :=
  match c with
  | Eq1 | Eq2 => (x =? y)%float
  | Ge => (y <=? x)%float
  | Le => (x <=? y)%float
  | Lt => (x <? y)%float
  | Gt => (y <? x)%float
  end.

Definition num (variables : store) (o : operand) : float :=
  match o with
  | Num x => x
  | Var name => Js.toNumber (readVar variables name)
  end.

(** The truth value of an expression. *)
Fixpoint denote (variables : store) (e : t) : bool :=
  match e with
  | Cmp c a b => compareFloats c (num variables a) (num variables b)
  | Not e => negb (denote variables e)
  | And l r => denote variables l && denote variables r
  | Or l r => denote variables l || denote variables r
  end.

(** Every variable of the expression holds a number. *)
Definition operandOk (variables : store) (o : operand) : Prop :=
  match o with
  | Num _ => True
  | Var name => exists x, readVar variables name = VNum x
  end.

Fixpoint defined (variables : store) (e : t) : Prop :=
  match e with
  | Cmp _ a b => operandOk variables a /\ operandOk variables b
  | Not e => defined variables e
  | And l r | Or l r => defined variables l /\ defined variables r
  end.

(** *** The postfix form, as the shunting-yard class holds it *)

Definition symbol (c : comparison) : string :=
  match c with
  | Eq1 => "="
  | Eq2 => "=="
  | Ge => ">="
  | Le => "<="
  | Lt => "<"
  | Gt => ">"
  end.

Definition itemOf (o : operand) : Action.item :=
  match o with
  | Num x => Action.INum x
  | Var n => Action.IVar n
  end.

Fixpoint postfix (e : t) : list Action.item :=
  match e with
  | Cmp c a b => [itemOf a; itemOf b; Action.ITok (symbol c)]
  | Not e => postfix e ++ [Action.ITok "!"]
  | And l r => postfix l ++ postfix r ++ [Action.ITok "&&"]
  | Or l r => postfix l ++ postfix r ++ [Action.ITok "||"]
  end.

(** The expressions the class has operators for: no [<], [>], [!]. *)
Fixpoint shared (e : t) : Prop :=
  match e with
  | Cmp (Lt | Gt) _ _ => False
  | Cmp _ _ _ => True
  | Not _ => False
  | And l r | Or l r => shared l /\ shared r
  end.

(** [v=lo..hi] as an expression. *)
Definition range (v : string) (lo hi : float) : Expr.t :=
  And (Cmp Ge (Var v) (Num lo)) (Cmp Le (Var v) (Num hi)).

Definition equals (c : comparison) (v : string) (x : float) : Expr.t :=
  Cmp c (Var v) (Num x).


End Expr.

(** ** The conditions, stores and texts of the examples *)

Module Cases.

Import Run Expr.

(** The store of the second test: [x = 5], [y = 13], [z = 0]. *)
Definition store3 (x y z : float) : store :=
  <[ "test:x" := VNum x ]> (<[ "test:y" := VNum y ]> {[ "test:z" := VNum z ]}).

(** The conditions of the tests that both copies of [variables.js] carry,
    as expressions. *)
Definition test1 : Expr.t :=
  Or (And (range "test:x" 4 7) (range "test:y" 12 15)) (equals Eq1 "test:z" 1).
Definition test4 : Expr.t :=
  Or (And (range "test:a" 4 6) (range "test:b" 2 4)) (equals Eq1 "test:c" 10).
Definition test6 : Expr.t := equals Eq2 "test:x" 10.
Definition test8 : Expr.t :=
  Or (And (range "test:x" 4 6)
          (Or (range "test:y" 10 20) (equals Eq1 "test:z" 2)))
     (equals Eq1 "test:z" 1).
Definition test9 : Expr.t :=
  Or (And (range "test:x" 4 6) (range "test:y" 12 15)) (equals Eq1 "test:z" 1).

Definition compilesTo (condition : string) (e : Expr.t) : Prop :=
  Conditional.new condition "test"
  = Ok {| Conditional.outputQueue := postfix e |}.

(** What the four renderings of the two fragments are. *)
Definition rendersWithColon (C : ConditionalClass) : Prop :=
  renderText "?{x==1?yes|no}" "test" {[ "test:x" := VNum 1 ]} = Ok "yes|no"
  /\ renderText "?{x==1?yes|no}" "test" {[ "test:x" := VNum 0 ]} = Ok ""
  /\ renderText "?{x==1?yes:no}" "test" {[ "test:x" := VNum 1 ]} = Ok "yes"
  /\ renderText "?{x==1?yes:no}" "test" {[ "test:x" := VNum 0 ]} = Ok "no".

(** The nine tests of conditions, for a function that compiles and
    evaluates, with its results read as booleans. *)
Definition conditionalTests
    (run : string -> string -> store -> result bool) : Prop :=
  run "((x=4..7 && y=12..15) || z=1)" "test" (store3 3 12 0) = Ok false
  /\ run "((x=4..7 && y=12..15) || z=1)" "test" (store3 5 13 0) = Ok true
  /\ run "((x=4..7 && y=12..15) || z=1)" "test" (store3 8 10 1) = Ok true
  /\ run "((a=4..6 && b=2..4) || c=10)" "test"
       (<[ "test:a" := VNum 5 ]>
          (<[ "test:b" := VNum 3 ]> {[ "test:c" := VNum 10 ]}))
     = Ok true
  /\ run "((a=4..6 && b=2..4) || c=10)" "test"
       (<[ "test:a" := VNum 2 ]>
          (<[ "test:b" := VNum 1 ]> {[ "test:c" := VNum 0 ]}))
     = Ok false
  /\ run "(x==10)" "test" {[ "test:x" := VNum 10 ]} = Ok true
  /\ run "(x==10)" "test" {[ "test:x" := VNum 5 ]} = Ok false
  /\ run "((x=4..6 && (y=10..20 || z=2)) || z=1)" "test" (store3 5 15 1)
     = Ok true
  /\ run "((x=4..6 && y=12..15) || z=1)" "test" {[ "test:x" := VNum 5 ]}
     = Throw (usedBeforeAssignment "test:y").

End Cases.

(** ** Worlds for the engine *)

Module Worlds.

Import Model Engine.

(** How a run ended, and what it wrote. *)
Inductive ending : Type :=
| Ends
| Fails (e : error)
| Waits.

Definition endingOf `{ConditionalClass} {A} (o : outcome A) : ending :=
  match o with
  | Returned _ _ => Ends
  | Raised e _ => Fails e
  | Awaiting _ => Waits
  end.

Definition outputOf `{ConditionalClass} {A} (o : outcome A) : list string :=
  match o with
  | Returned _ w | Raised _ w | Awaiting w => output w
  end.

Section WithConditional.
Context {C : ConditionalClass}.

(** The objects the constructors of [adventure.js] make of their
    arguments. *)
Definition text (str ns : string) : Text.t :=
  match Text.new str ns with
  | Ok t => t
  | Throw _ => []
  end.

Definition conditional (condition ns : string) : option cond :=
  match condNew condition ns with
  | Ok c => Some c
  | Throw _ => None
  end.

Definition optionTo (label target : string) (condition : option string)
  : Option :=
  {| label := text label "adventure";
     target :=
       match Identifier.parse target "adventure" None with
       | Ok t => t
       | Throw _ => ""
       end;
     condition := condition ≫= (fun c => conditional c "adventure");
     alwaysVisible := false;
     optionActions := [] |}.

(** The scenes that the engine's constructor registers for the reserved
    namespace, and the adventure that owns them. *)
Definition control (name title : string) : string * Scene :=
  ("inkspire:" +:+ name,
   {| adventure := "inkspire"; name := name;
      identifier := "inkspire:" +:+ name;
      title := text title "inkspire"; content := [text "TODO" "inkspire"];
      actions := []; options := [] |}).

Definition inkspireScenes : list (string * Scene) :=
  [ control "switch" "Unfinished Switch Scene";
    control "fail" "Unfinished Fail Scene";
    control "pass" "Unfinished Completion Scene";
    control "exit" "Unfinished Exit Scene";
    control "back" "Unfinished Back Scene" ].

(** An adventure named [adventure] of one scene, [start], with the given
    options, loaded and linked, with a store and the lines to be read. *)
Definition oneScene (options : list Option) (variables : store)
    (input : list string) : world :=
  {| adventures :=
       {[ "inkspire" := {| globalTop := None; globalBottom := None;
                           startingScene := "inkspire:exit" |};
          "adventure" := {| globalTop := None; globalBottom := None;
                            startingScene := "adventure:start" |} ]};
     scenes :=
       list_to_map
         (("adventure:start",
           {| adventure := "adventure"; name := "start";
              identifier := "adventure:start";
              title := text "Start" "adventure";
              content := [text "A room." "adventure"];
              actions := []; options := options |}) :: inkspireScenes);
     variables := variables;
     input := input;
     output := [] |}.

(** A world whose scene has one option, which leads to [inkspire:back]. *)
Definition backWorld (input : list string) : world :=
  oneScene [optionTo "Go back" "inkspire:back" None] ∅ input.

(** A world whose scene has two options, the second under a condition
    that does not hold. *)
Definition choiceWorld (input : list string) : world :=
  oneScene [ optionTo "Win" "inkspire:pass" None;
             optionTo "Use the key" "inkspire:fail" (Some "key==1") ]
           {[ "adventure:key" := VNum 0 ]} input.

End WithConditional.

(** What the scene [start] writes before its options: eleven empty lines,
    the title and the content. *)
Definition heading : list string :=
  repeat "" 11 ++ ["Start"; "A room."].

Definition undefinedProperty (property : string) : error :=
  TypeError ("Cannot read properties of undefined (reading '"
               +:+ property +:+ "')").

(** What the run to [inkspire:back] does, under a class of conditions. *)
Definition backRun (C : ConditionalClass) : Prop :=
  let run := runAdventure "adventure" (backWorld [""]) in
  endingOf run = Fails (undefinedProperty "identifier")
  /\ outputOf run
     = heading ++ ["You go back"; "Press enter to continue..."].

(** What the run with the two options does on an input line. *)
Definition choiceRun (C : ConditionalClass) (line : string) (e : ending)
  : Prop :=
  let run := runAdventure "adventure" (choiceWorld [line]) in
  endingOf run = e
  /\ outputOf run
     = heading ++ [""; "You could..."; "1: Win"; ""; "What do you do?"]
               ++ match e with
                  | Ends => ["You win"]
                  | _ => []
                  end.

End Worlds.

(** ** Shapes of strings and queues *)

Module Shapes.

(** A word of one character or more: what [[a-zA-Z0-9_]+] matches in
    full. *)
Definition nonEmptyWord (s : string) : bool :=
  negb (Str.isEmpty s) && Str.all Str.isWord s.

(** The string has no [=]. *)
Definition noEquals (s : string) : bool := Str.all (Str.isNot "=") s.

(** The string has no brace: no marker of a variable or of an inline
    conditional begins in it. *)
Definition noBrace (s : string) : bool := Str.all (Str.isNot "{") s.

(** A piece of literal text: one character or more, no brace. *)
Definition plainPiece (t : string) : bool :=
  negb (Str.isEmpty t)
  && Str.all (fun c => Str.isNot "{" c && Str.isNot "}" c) t.

(** The string has no colon. *)
Definition noColon (t : string) : bool := Str.all (Str.isNot ":") t.

(** The characters of a condition: none opens or closes a marker or ends
    the condition of an inline conditional. *)
Definition quiet (c : ascii) : bool :=
  Str.isNot "{" c && Str.isNot "}" c && Str.isNot "?" c.

(** The variables of a queue are names of the namespace [ns]. *)
Definition localQueue (ns : string) (q : list Action.item) : Prop :=
  forall name, In (Action.IVar name) q ->
    exists w, name = Identifier.asIdentifier ns w /\ Reads.colons w = 0%nat.

(** How an evaluator ends when a variable of its queue has no value. *)
Definition raisesUndefined {A} (variables : store) (q : list Action.item)
    (r : result A) : Prop :=
  exists name, In (Action.IVar name) q /\ readVar variables name = VUndef
               /\ r = Throw (usedBeforeAssignment name).

(** Calling a method of a context that was not passed. *)
Definition undefinedThrowError : error :=
  TypeError "Cannot read properties of undefined (reading 'throwError')".

(** The errors of the constructor of [Action] on a string with a [=]. *)
Definition expressionError (e : error) : Prop :=
  (exists expression,
      e = ParserError "adventure" ("Invalid expression: " +:+ expression)
      \/ e = ParserError "adventure"
               ("Mismatched parentheses: " +:+ expression))
  \/ e = undefinedThrowError.

End Shapes.

(** ** Arithmetic expressions

    The expressions of actions as the grammar of infix notation has them:
    an expression is a chain of terms under [+] and [-], a term is a chain
    of atoms under [*], [/] and [%], and an atom is a numeral, a variable
    or an expression in parentheses. *)

Module Arith.

Import Action.

Inductive addop : Type := Plus | Minus.
Inductive mulop : Type := Times | Divide | Modulo.

Inductive atom : Type :=
| Lit (text : string)             (** a numeral *)
| Ref (text : string)             (** a variable, as it is written *)
| Group (e : expr)
with term : Type :=
| Atom (a : atom)
| Mul (a : atom) (op : mulop) (t : term)    (** [a op t] *)
with expr : Type :=
| Term (t : term)
| Add (e : expr) (op : addop) (t : term).   (** [e op t] *)

Scheme atom_ind' := Induction for atom Sort Prop
  with term_ind' := Induction for term Sort Prop
  with expr_ind' := Induction for expr Sort Prop.
Combined Scheme arith_ind from atom_ind', term_ind', expr_ind'.

Definition addText (op : addop) : string :=
  match op with Plus => "+" | Minus => "-" end.

Definition mulText (op : mulop) : string :=
  match op with Times => "*" | Divide => "/" | Modulo => "%" end.

(** The expression as it is written, without spaces. *)
Fixpoint textA (a : atom) : string :=
  match a with
  | Lit t | Ref t => t
  | Group e => "(" +:+ textE e +:+ ")"
  end
with textT (t : term) : string :=
  match t with
  | Atom a => textA a
  | Mul a op t => textA a +:+ mulText op +:+ textT t
  end
with textE (e : expr) : string :=
  match e with
  | Term t => textT t
  | Add e op t => textE e +:+ addText op +:+ textT t
  end.

(** Its tokens. *)
Fixpoint tokensA (a : atom) : list string :=
  match a with
  | Lit t | Ref t => [t]
  | Group e => "(" :: tokensE e ++ [")"]
  end
with tokensT (t : term) : list string :=
  match t with
  | Atom a => tokensA a
  | Mul a op t => tokensA a ++ mulText op :: tokensT t
  end
with tokensE (e : expr) : list string :=
  match e with
  | Term t => tokensT t
  | Add e op t => tokensE e ++ addText op :: tokensT t
  end.

(** The numerals are those of [numberRegex], the variables those of
    [variableRegex] with at most one colon. *)
Fixpoint wellFormedA (a : atom) : bool :=
  match a with
  | Lit t => numberRegex t
  | Ref t => variableRegex t && (Reads.colons t <=? 1)%nat
  | Group e => wellFormedE e
  end
with wellFormedT (t : term) : bool :=
  match t with
  | Atom a => wellFormedA a
  | Mul a _ t => wellFormedA a && wellFormedT t
  end
with wellFormedE (e : expr) : bool :=
  match e with
  | Term t => wellFormedT t
  | Add e _ t => wellFormedE e && wellFormedT t
  end.

(** What may follow a numeral or a variable in the text: nothing, or an
    operator or a parenthesis. *)
Definition separated (r : string) : Prop :=
  match r with
  | EmptyString => True
  | String c _ => isSymbol c = true
  end.

(** The identifier of a variable written [t] in the namespace [ns]. *)
Definition qualify (ns t : string) : string :=
  match Reads.colons t with
  | O => Identifier.asIdentifier ns t
  | _ => t
  end.

Section InNamespace.
Variable ns : string.

(** The postfix form: operands first, then the operator. *)
Fixpoint postfixA (a : atom) : list item :=
  match a with
  | Lit t => [INum (parseFloat t)]
  | Ref t => [IVar (qualify ns t)]
  | Group e => postfixE e
  end
with postfixT (t : term) : list item :=
  match t with
  | Atom a => postfixA a
  | Mul a op t => postfixA a ++ postfixT t ++ [ITok (mulText op)]
  end
with postfixE (e : expr) : list item :=
  match e with
  | Term t => postfixT t
  | Add e op t => postfixE e ++ postfixT t ++ [ITok (addText op)]
  end.

(** The shunting yard after a term: the operands of a chain under [*],
    [/] and [%] are on the queue, and its operators are stacked, the last
    on top. *)
Fixpoint queuedT (t : term) : list item :=
  match t with
  | Atom a => postfixA a
  | Mul a _ t => postfixA a ++ queuedT t
  end.

Fixpoint stackedT (t : term) : list string :=
  match t with
  | Atom _ => []
  | Mul _ op t => stackedT t ++ [mulText op]
  end.

(** The same after an expression: all but the last term is on the queue in
    postfix form, and the last [+] or [-] is stacked below the operators of
    the last term. *)
Definition queuedE (e : expr) : list item :=
  match e with
  | Term t => queuedT t
  | Add e _ t => postfixE e ++ queuedT t
  end.

Definition stackedE (e : expr) : list string :=
  match e with
  | Term t => stackedT t
  | Add _ op t => stackedT t ++ [addText op]
  end.

Variable variables : store.

Definition addFn (op : addop) : value -> value -> value :=
  match op with Plus => Js.add | Minus => Js.sub end.

Definition mulFn (op : mulop) : value -> value -> value :=
  match op with Times => Js.mul | Divide => Js.div | Modulo => Js.rem end.

(** The value of an expression in which a chain under [+] and [-] groups
    to the left, [(a - b) - c], and a chain under [*], [/] and [%] groups
    to the right, [a / (b / c)]. *)
Fixpoint valueA (a : atom) : value :=
  match a with
  | Lit t => VNum (parseFloat t)
  | Ref t => readVar variables (qualify ns t)
  | Group e => valueE e
  end
with valueT (t : term) : value :=
  match t with
  | Atom a => valueA a
  | Mul a op t => mulFn op (valueA a) (valueT t)
  end
with valueE (e : expr) : value :=
  match e with
  | Term t => valueT t
  | Add e op t => addFn op (valueE e) (valueT t)
  end.

(** Every variable of the expression has a value. *)
Fixpoint assignedA (a : atom) : Prop :=
  match a with
  | Lit _ => True
  | Ref t => readVar variables (qualify ns t) <> VUndef
  | Group e => assignedE e
  end
with assignedT (t : term) : Prop :=
  match t with
  | Atom a => assignedA a
  | Mul a _ t => assignedA a /\ assignedT t
  end
with assignedE (e : expr) : Prop :=
  match e with
  | Term t => assignedT t
  | Add e _ t => assignedE e /\ assignedT t
  end.

End InNamespace.

(** The stack on which the shunting yard starts, or starts again after a
    parenthesis: no operator is on its top. *)
Definition freeTop (stack : list string) : Prop :=
  match stack with
  | [] => True
  | top :: _ => isOperator top = false
  end.

(** The operators of actions. *)
Inductive assignment : Type := Set_ | AddTo | SubtractFrom | MultiplyBy | DivideBy.

Definition assignText (op : assignment) : string :=
  match op with
  | Set_ => "="
  | AddTo => "+="
  | SubtractFrom => "-="
  | MultiplyBy => "*="
  | DivideBy => "/="
  end.

(** What the operator makes of the old value of the target and the value
    of the expression. *)
Definition assigned (op : assignment) (old v : value) : value :=
  match op with
  | Set_ => v
  | AddTo => Js.add old v
  | SubtractFrom => Js.sub old v
  | MultiplyBy => Js.mul old v
  | DivideBy => Js.div old v
  end.

(** A target as actions usually name it: a variable with at most one
    colon. *)
Definition wellFormedTarget (x : string) : bool :=
  variableRegex x && (Reads.colons x <=? 1)%nat.

(** The characters of the text of a well-formed expression. *)
Definition isExpressionChar (c : ascii) : bool :=
  Str.isDigit c || Str.isChar "." c || isIdentChar c || isSymbol c.

(** The action [x op e] as a record, and as a text. *)
Definition statement : Type := string * assignment * expr.

Definition statementText (s : statement) : string :=
  let '(x, op, e) := s in x +:+ assignText op +:+ textE e.

Definition wellFormedStatement (s : statement) : bool :=
  let '(x, _, e) := s in wellFormedTarget x && wellFormedE e.

(** A list of actions as the field [actions] holds it: the actions, with
    a semicolon between one and the next. *)
Fixpoint scriptText (l : list statement) : string :=
  match l with
  | [] => ""
  | [s] => statementText s
  | s :: rest => statementText s +:+ ";" +:+ scriptText rest
  end.

(** The action that the constructor makes of it. *)
Definition compiled (ns : string) (s : statement) : Action.t :=
  let '(x, op, e) := s in
  {| variableName := qualify ns x; operator := assignText op;
     outputQueue := postfixE ns e |}.

(** The store after an action. *)
Definition step (ns : string) (variables : store) (s : statement) : store :=
  let '(x, op, e) := s in
  <[ qualify ns x := assigned op (readVar variables (qualify ns x))
                              (valueE ns variables e) ]> variables.

(** The store after the actions of a list, one after the other. *)
Definition runAll (ns : string) (l : list statement) (variables : store)
  : store :=
  fold_left (step ns) l variables.

(** Every action of the list finds the variables of its expression
    assigned when its turn comes. *)
Fixpoint assignedAll (ns : string) (l : list statement) (variables : store)
  : Prop :=
  match l with
  | [] => True
  | s :: rest =>
      assignedE ns variables (snd s)
      /\ assignedAll ns rest (step ns variables s)
  end.

(** The characters of the text of an action. *)
Definition isStatementChar (c : ascii) : bool :=
  isExpressionChar c || Str.isChar "=" c.

End Arith.

(** ** The dialogue of [getChoice] *)

Module Dialogue.

Import Model Engine.

Definition prompt : string := "What do you do?".

Definition hint (numOptions : nat) : string :=
  "Select one of the options by entering a number from 1 to "
    +:+ Num.toString (Num.ofZ (Z.of_nat numOptions)) +:+ ".".

(** The number that [getChoice] reads from a line. *)
Definition answer (line : string) : float := Num.ofString (Action.trim line).

(** The test under which [getChoice] asks again. *)
Definition rejected (numOptions : nat) (line : string) : bool :=
  (is_nan (answer line) || (answer line <? 1)
   || (Num.ofZ (Z.of_nat numOptions) <? answer line))%float.

(** What is written for the lines that were rejected. *)
Definition rejections (numOptions : nat) (lines : list string) : list string :=
  flat_map (fun _ => [prompt; hint numOptions]) lines.

(** The world with other lines to read and more lines written. *)
Definition said `{ConditionalClass} (w : world) (input' written : list string)
  : world :=
  {| adventures := adventures w; scenes := scenes w; variables := variables w;
     input := input'; output := output w ++ written |}.

End Dialogue.

(** ** Documents and registries *)

Module Documents.

Import Model.

(** The text that [new Text] makes of a string without braces. *)
Definition literal `{ConditionalClass} (t : string) : Text.t :=
  if Str.isEmpty t then [] else [Text.LitToken t].

(** The JSON of an adventure with a name, a title, the version [1] and no
    scenes, and nothing else. *)
Definition minimal (name title : string) : Json.Adventure.t :=
  {| Json.Adventure.title := Some title;
     Json.Adventure.name := Some name;
     Json.Adventure.author := None;
     Json.Adventure.version := Some 1%float;
     Json.Adventure.requires := None;
     Json.Adventure.actions := None;
     Json.Adventure.globalTop := None;
     Json.Adventure.globalBottom := None;
     Json.Adventure.startingScene := None;
     Json.Adventure.scenes := Some [] |}.

(** The adventure that the constructor makes of it. *)
Definition minimalAdventure `{ConditionalClass} (name title : string)
  : Build.Adventure :=
  {| Build.name := name; Build.title := literal title;
     Build.version := 1%float; Build.author := literal title;
     Build.requires := []; Build.actions := [];
     Build.globalTop := None; Build.globalBottom := None;
     Build.startingScene := Identifier.asIdentifier name "start" |}.

Definition undefinedLength : error :=
  TypeError "Cannot read properties of undefined (reading 'length')".

(** What the linker raises at a reference to a scene that is not
    registered. *)
Definition danglingReference : error :=
  TypeError "Cannot set properties of undefined (setting 'identifier')".

(** The reference [identifier] is resolved in a registry: the scene under
    that key carries the key as its identifier. *)
Definition resolved `{ConditionalClass} (identifier : string)
    (scenes : Obj.t Scene) : Prop :=
  exists scene, Obj.get identifier scenes = Some scene
                /\ Model.identifier scene = identifier.

(** Two scenes that differ at most in the identifier. *)
Definition relinked `{ConditionalClass} (s s' : Scene) : Prop :=
  adventure s' = adventure s /\ name s' = name s /\ title s' = title s
  /\ content s' = content s /\ actions s' = actions s
  /\ options s' = options s.

(** The registry [scenes'] is [scenes] with more identifiers set: it has
    the same keys, and under each key the same scene but for an identifier
    that, once it is the key, stays the key. *)
Definition furtherLinked `{ConditionalClass} (scenes scenes' : Obj.t Scene)
  : Prop :=
  forall key,
    match Obj.get key scenes with
    | Some s => exists s', Obj.get key scenes' = Some s' /\ relinked s s'
                           /\ (identifier s = key -> identifier s' = key)
    | None => Obj.get key scenes' = None
    end.

End Documents.

(** ** What holds of the registries while an adventure runs *)

Module Running.

Import Model Engine.

#[local] Existing Instance Engine.M_ret.
#[local] Existing Instance Engine.M_bind.

Section WithConditional.
Context {C : ConditionalClass}.

(** The scene under [key] is one the loop can enter: it is registered
    under [key] and carries [key] as its identifier. *)
Definition enterable (w : world) (key : string) : Prop :=
  exists scene, scenes w !! key = Some scene /\ identifier scene = key.

(** The registries of a linked engine: every key of a scene is an
    identifier with one colon, the adventure of every scene is loaded, and
    the target of every option is a scene that can be entered. *)
Definition linked (w : world) : Prop :=
  forall key scene, scenes w !! key = Some scene ->
    Reads.colons key = 1%nat
    /\ is_Some (adventures w !! adventure scene)
    /\ forall option, In option (options scene) -> enterable w (target option).

(** A piece of the engine that, when it returns, has left the two
    registries as they were and returns a value for which [Q] holds. *)
Definition keeps {A} (m : M A) (Q : A -> Prop) : Prop :=
  forall w a w', m w = Returned a w' ->
    scenes w' = scenes w /\ adventures w' = adventures w /\ Q a.

(** The targets of the options of a menu. *)
Definition targets (sorted : list (Option * bool)) : list string :=
  map (fun p => target (fst p)) sorted.

(** The registries are linked, and the scene under [key] is the one of
    the adventure [a] whose options lead to [ts]. *)
Definition current (key a : string) (ts : list string) (w : world) : Prop :=
  linked w
  /\ exists scene, scenes w !! key = Some scene /\ identifier scene = key
                   /\ adventure scene = a /\ map target (options scene) = ts.

(** A piece of the engine that, when it returns, has kept that, and
    returns a value for which [Q] holds. *)
Definition steady {A} (key a : string) (ts : list string) (m : M A)
    (Q : A -> Prop) : Prop :=
  forall w x w', current key a ts w -> m w = Returned x w' ->
    current key a ts w' /\ Q x.

(** A turn goes on from where it was, to one of the targets [ts]. *)
Definition leadsTo (history : FixedSizeStack.t string) (ts : list string)
    (n : next) : Prop :=
  exists key', n = Continue history (Some key') /\ In key' ts.

(** The part of a turn that plays a scene of an adventure: what [turn]
    does with a scene that is none of the reserved ones. *)
Definition play (fuel : nat) (history : FixedSizeStack.t string)
    (key : string) (scene : Scene) (adv : Adventure) : M next :=
  evaluateActions (actions scene) ;;
  writeAll (repeat "" 11) ;;
  '(line, title') ← evaluateText (title scene);
  write line ;;
  globalTop' ← writeOptional (globalTop adv);
  '(lines, content') ← evaluateTexts (content scene);
  writeAll (List.filter (fun l => negb (Str.isEmpty l)) lines) ;;
  globalBottom' ← writeOptional (globalBottom adv);
  putAdventure (adventure scene)
    {| globalTop := globalTop'; globalBottom := globalBottom';
       startingScene := startingScene adv |} ;;
  match options scene with
  | [option] =>
      '(text, label') ← evaluateText (label option);
      putScene key
        (withTexts scene title' content' [withLabel option label']) ;;
      match text with
      | String c rest =>
          write ("You " +:+ String (Str.lower c) rest)
      | EmptyString => ret tt
      end ;;
      write "Press enter to continue..." ;;
      _ ← read;
      evaluateActions (optionActions option) ;;
      ret (Continue history (Some (target option)))
  | options =>
      sorted ← partition options;
      write "" ;;
      write "You could..." ;;
      sorted ← writeAvailable 0 sorted;
      sorted ← writeUnavailable sorted;
      write "" ;;
      putScene key
        (withTexts scene title' content' (map fst sorted)) ;;
      response ← getChoice fuel (length options);
      let availableOptions :=
        map fst (List.filter snd sorted) in
      match chosen availableOptions response with
      | None => undefinedRead "actions"
      | Some chosenOption =>
          evaluateActions (optionActions chosenOption) ;;
          ret (Continue history (Some (target chosenOption)))
      end
  end.

(** The errors of evaluating a condition. *)
Definition conditionError (e : error) : Prop :=
  exists c variables, condEvaluate c variables = Throw e.

(** The errors of evaluating an action, a text or a condition. *)
Definition evaluationError (e : error) : Prop :=
  (exists name, e = usedBeforeAssignment name) \/ conditionError e.

(** The errors of playing a scene: those, and the one of a choice beyond
    the options that are available. *)
Definition playError (e : error) : Prop :=
  evaluationError e \/ e = Worlds.undefinedProperty "actions".

(** The errors of the loop: those, the ends at [inkspire:switch] and
    [inkspire:exit], and the one of going on from [inkspire:back]. *)
Definition loopError (e : error) : Prop :=
  playError e \/ e = JsError "Not implemented" \/ e = ProcessExit
  \/ e = Worlds.undefinedProperty "identifier".

(** The errors of a run: those, and the one of a registry whose entry
    [hasOwnProperty] hides the method. *)
Definition runError (e : error) : Prop :=
  loopError e \/ e = notAFunction.

(** A piece of the engine that, on an input of [bound] lines at most,
    reads [n] lines or more when it returns, and raises only errors for
    which [E] holds. *)
Definition sound {A} (bound n : nat) (m : M A) (E : error -> Prop) : Prop :=
  forall w, (length (input w) <= bound)%nat ->
    match m w with
    | Returned _ w' => (length (input w') + n <= length (input w))%nat
    | Raised e _ => E e
    | Awaiting _ => True
    end.

(** A world without its scenes, and an outcome in such a world: what a
    piece of the engine returned or raised, the adventures, the variables,
    and what was read and written. *)
Definition forget (w : world) : world :=
  {| adventures := adventures w; scenes := ∅; variables := variables w;
     input := input w; output := output w |}.

Definition seen {A} (o : outcome A) : outcome A :=
  match o with
  | Returned a w => Returned a (forget w)
  | Raised e w => Raised e (forget w)
  | Awaiting w => Awaiting (forget w)
  end.

(** Two pieces of the engine that end alike in worlds that differ in
    their scenes only. *)
Definition alike {A} (m1 m2 : M A) : Prop :=
  forall w1 w2, forget w1 = forget w2 -> seen (m1 w1) = seen (m2 w2).

(** The option under another condition, or none, and the scene whose one
    option is that one. *)
Definition recondition (only : Option) (condition' : option cond)
  : Option :=
  {| label := label only; target := target only;
     condition := condition'; alwaysVisible := alwaysVisible only;
     optionActions := optionActions only |}.

Definition withOption (scene : Scene) (only : Option) : Scene :=
  {| adventure := adventure scene; name := name scene;
     identifier := identifier scene; title := title scene;
     content := content scene; actions := actions scene;
     options := [only] |}.

Definition withScene (w : world) (key : string) (scene : Scene) : world :=
  {| adventures := adventures w; scenes := <[key := scene]> (scenes w);
     variables := variables w; input := input w; output := output w |}.

(** The reserved scene that a scene is, if it is one: its name when its
    identifier is of the reserved namespace. *)
Definition reserved (scene : Scene) : result string :=
  ns ← Identifier.getIdentifierNamespace (identifier scene);
  Ok (if String.eqb ns INKSPIRE_NAMESPACE then name scene else "").

(** The same on the registries of an engine that is being set up. *)
Definition registered (e : Setup.engine) : Prop :=
  forall key scene, Obj.get key (Setup.scenes e) = Some scene ->
    Reads.colons key = 1%nat
    /\ Obj.hasOwnProperty (adventure scene) (Setup.adventures e) = true.

(** An engine as the program builds it: made by the constructor, with
    adventures loaded one after the other, none of them under the name
    [__proto__], which gives the registry no entry (see
    [Setup.assignAdventure]). *)
Inductive built : Setup.engine -> Prop :=
| built_new e : Setup.newEngine = Ok e -> built e
| built_load e json e' :
    built e -> Json.Adventure.name json <> Some "__proto__" ->
    Setup.load json e = Ok e' -> built e'.

End WithConditional.

End Running.

(** ** An adventure for the examples *)

Module Samples.

Import Model.

Definition choice (label target : string) (condition actions : option string)
  : Json.Option.t :=
  {| Json.Option.label := Some label; Json.Option.target := Some target;
     Json.Option.condition := condition; Json.Option.alwaysVisible := None;
     Json.Option.actions := actions |}.

Definition room (name title line : string) (options : list Json.Option.t)
  : Json.Scene.t :=
  {| Json.Scene.title := Some title; Json.Scene.name := Some name;
     Json.Scene.actions := None; Json.Scene.content := Some [line];
     Json.Scene.options := Some options |}.

(** A cellar of two scenes: the stairs lead down to a hall, and the door
    of the hall opens with the key that is found on the way down. *)
Definition cellar : Json.Adventure.t :=
  {| Json.Adventure.title := Some "The Cellar";
     Json.Adventure.name := Some "cellar";
     Json.Adventure.author := Some "Nobody";
     Json.Adventure.version := Some 1%float;
     Json.Adventure.requires := None;
     Json.Adventure.actions := Some "key = 0";
     Json.Adventure.globalTop := Some "It is dark.";
     Json.Adventure.globalBottom := None;
     Json.Adventure.startingScene := None;
     Json.Adventure.scenes :=
       Some [ room "start" "Stairs" "You stand on the stairs."
                [ choice "Go down" "hall" None (Some "key = 1") ];
              room "hall" "Hall" "There is a door."
                [ choice "Open the door" "inkspire:pass" (Some "key==1") None;
                  choice "Go back up" "start" None None ] ] |}.

(** The engine that a setup gave, or one without anything when the setup
    failed. *)
Definition engineOf `{ConditionalClass} (r : result Setup.engine)
  : Setup.engine :=
  match r with
  | Ok e => e
  | Throw _ => {| Setup.adventures := []; Setup.scenes := [];
                  Setup.variables := ∅ |}
  end.

(** The world in which a piece of the engine ends. *)
Definition worldOf `{ConditionalClass} {A} (o : Engine.outcome A)
  : Engine.world :=
  match o with
  | Engine.Returned _ w | Engine.Raised _ w | Engine.Awaiting w => w
  end.

(** The engine as it is constructed, with the cellar loaded, and linked,
    under the shunting-yard class of conditions. *)
Definition fresh : @Setup.engine postfixConditional :=
  Eval vm_compute in engineOf Setup.newEngine.
Definition loaded : @Setup.engine postfixConditional :=
  Eval vm_compute in engineOf (Setup.load cellar fresh).
Definition ready : @Setup.engine postfixConditional :=
  Eval vm_compute in engineOf (Setup.linkAdventures loaded).

(** The scene of the stairs and its option, as the linker leaves them,
    and a condition that does not hold on the stairs. *)
Definition goDown : @Option postfixConditional :=
  {| label := [Text.LitToken "Go down"]; target := "cellar:hall";
     condition := None; alwaysVisible := false;
     optionActions :=
       [ {| Action.variableName := "cellar:key"; Action.operator := "=";
            Action.outputQueue := [Action.INum 1] |} ] |}.

Definition stairs : @Scene postfixConditional :=
  {| adventure := "cellar"; name := "start"; identifier := "cellar:start";
     title := [Text.LitToken "Stairs"];
     content := [[Text.LitToken "You stand on the stairs."]];
     actions := []; options := [goDown] |}.

Definition locked : Conditional.t :=
  {| Conditional.outputQueue :=
       [Action.IVar "cellar:key"; Action.INum 1; Action.ITok "=="] |}.

(** The world after the turn on the stairs, when enter is pressed. *)
Definition downstairs : @Engine.world postfixConditional :=
  Eval vm_compute in
    worldOf (Engine.turn 1 (FixedSizeStack.new 16) (Some "cellar:start")
               (Setup.world ready [""])).

(** The world in which the run of the reserved adventure ends. *)
Definition terminated : @Engine.world postfixConditional :=
  Eval vm_compute in
    worldOf (Engine.runAdventure "inkspire" (Setup.world ready [])).

(** A world in which only lines are to be read. *)
Definition reading (input : list string) : @Engine.world postfixConditional :=
  {| Engine.adventures := ∅; Engine.scenes := ∅; Engine.variables := ∅;
     Engine.input := input; Engine.output := [] |}.

(** The world after [getChoice] among two options, on four lines. *)
Definition answered : @Engine.world postfixConditional :=
  Eval vm_compute in
    worldOf (Engine.getChoice 4 2 (reading ["two"; "7"; " 2 "; "1"])).

End Samples.

(** ** Conditions as they are written

    A condition in infix notation, for the shunting-yard class: a chain of
    conjunctions under [||], a conjunction is a chain of propositions
    under [&&], and a proposition compares two operands, gives a range to
    one, or is a condition in parentheses.  An operand is a numeral of
    digits or a name. *)

Module Logic.

Import Action.

Inductive relation : Type := Equal | Same | AtLeast | AtMost.

Inductive prop : Type :=
| Compare (a : string) (r : relation) (b : string)   (** [a r b] *)
| Between (v lo hi : string)                         (** [v=lo..hi] *)
| Paren (d : disj)
with conj : Type :=
| One (p : prop)
| Both (c : conj) (p : prop)                         (** [c && p] *)
with disj : Type :=
| Just (c : conj)
| Either (d : disj) (c : conj).                      (** [d || c] *)

Scheme prop_ind' := Induction for prop Sort Prop
  with conj_ind' := Induction for conj Sort Prop
  with disj_ind' := Induction for disj Sort Prop.
Combined Scheme logic_ind from prop_ind', conj_ind', disj_ind'.

Definition relText (r : relation) : string :=
  match r with
  | Equal => "="
  | Same => "=="
  | AtLeast => ">="
  | AtMost => "<="
  end.

(** The condition as it is written, without white space. *)
Fixpoint textP (p : prop) : string :=
  match p with
  | Compare a r b => a +:+ relText r +:+ b
  | Between v lo hi => v +:+ "=" +:+ lo +:+ ".." +:+ hi
  | Paren d => "(" +:+ textD d +:+ ")"
  end
with textC (c : conj) : string :=
  match c with
  | One p => textP p
  | Both c p => textC c +:+ "&&" +:+ textP p
  end
with textD (d : disj) : string :=
  match d with
  | Just c => textC c
  | Either d c => textD d +:+ "||" +:+ textC c
  end.

(** The same with every range [v=lo..hi] written [(v>=lo&&v<=hi)]. *)
Fixpoint plainP (p : prop) : string :=
  match p with
  | Compare a r b => a +:+ relText r +:+ b
  | Between v lo hi =>
      "(" +:+ v +:+ ">=" +:+ lo +:+ "&&" +:+ v +:+ "<=" +:+ hi +:+ ")"
  | Paren d => "(" +:+ plainD d +:+ ")"
  end
with plainC (c : conj) : string :=
  match c with
  | One p => plainP p
  | Both c p => plainC c +:+ "&&" +:+ plainP p
  end
with plainD (d : disj) : string :=
  match d with
  | Just c => plainC c
  | Either d c => plainD d +:+ "||" +:+ plainC c
  end.

(** Its tokens. *)
Fixpoint tokensP (p : prop) : list string :=
  match p with
  | Compare a r b => [a; relText r; b]
  | Between v lo hi => ["("; v; ">="; lo; "&&"; v; "<="; hi; ")"]
  | Paren d => "(" :: tokensD d ++ [")"]
  end
with tokensC (c : conj) : list string :=
  match c with
  | One p => tokensP p
  | Both c p => tokensC c ++ "&&" :: tokensP p
  end
with tokensD (d : disj) : list string :=
  match d with
  | Just c => tokensC c
  | Either d c => tokensD d ++ "||" :: tokensC c
  end.

(** A numeral: one digit or more. *)
Definition isNumeral (w : string) : bool :=
  negb (Str.isEmpty w) && Str.all Str.isDigit w.

(** A name: a word that begins with a letter or an underscore. *)
Definition isName (w : string) : bool :=
  match w with
  | String c _ => isIdentStart c && Str.all Str.isWord w
  | EmptyString => false
  end.

Definition isOperand (w : string) : bool := isNumeral w || isName w.

Fixpoint wellFormedP (p : prop) : bool :=
  match p with
  | Compare a _ b => isOperand a && isOperand b
  | Between v lo hi => isOperand v && isNumeral lo && isNumeral hi
  | Paren d => wellFormedD d
  end
with wellFormedC (c : conj) : bool :=
  match c with
  | One p => wellFormedP p
  | Both c p => wellFormedC c && wellFormedP p
  end
with wellFormedD (d : disj) : bool :=
  match d with
  | Just c => wellFormedC c
  | Either d c => wellFormedD d && wellFormedC c
  end.

(** What may follow a condition in a text: nothing, or [&&], [||] or a
    closing parenthesis. *)
Definition isClosing (c : ascii) : bool :=
  Str.isChar "&" c || Str.isChar "|" c || Str.isChar ")" c.

Definition followed (r : string) : Prop :=
  match r with
  | EmptyString => True
  | String c _ => isClosing c = true
  end.

(** What may follow a word: no character of a word. *)
Definition stops (r : string) : Prop :=
  match r with
  | EmptyString => True
  | String c _ => Str.isWord c = false
  end.

(** The text goes on as a range does after its word: [=], digits, [..]
    and a digit. *)
Definition rangeTail (r : string) : bool :=
  match r with
  | String "=" r2 =>
      let (start, r3) := Str.span Str.isDigit r2 in
      negb (Str.isEmpty start)
      && match r3 with
         | String "." (String "." r4) =>
             negb (Str.isEmpty (fst (Str.span Str.isDigit r4)))
         | _ => false
         end
  | _ => false
  end.

(** The text of a condition with white space anywhere. *)
Definition unspaced (s : string) : string :=
  Str.filter (fun c => negb (Str.isSpace c)) s.

Section InNamespace.
Variable ns : string.

(** The entry of the queue for an operand. *)
Definition itemOf (w : string) : item :=
  if isNumeral w then INum (parseFloat w)
  else IVar (Identifier.asIdentifier ns w).

(** The postfix form. *)
Fixpoint postfixP (p : prop) : list item :=
  match p with
  | Compare a r b => [itemOf a; itemOf b; ITok (relText r)]
  | Between v lo hi =>
      [itemOf v; itemOf lo; ITok ">="; itemOf v; itemOf hi; ITok "<=";
       ITok "&&"]
  | Paren d => postfixD d
  end
with postfixC (c : conj) : list item :=
  match c with
  | One p => postfixP p
  | Both c p => postfixC c ++ postfixP p ++ [ITok "&&"]
  end
with postfixD (d : disj) : list item :=
  match d with
  | Just c => postfixC c
  | Either d c => postfixD d ++ postfixC c ++ [ITok "||"]
  end.

(** The shunting yard after a condition: what is on the queue, and the
    operators that are stacked, the last on top. *)
Definition queuedP (p : prop) : list item :=
  match p with
  | Compare a _ b => [itemOf a; itemOf b]
  | _ => postfixP p
  end.

Definition stackedP (p : prop) : list string :=
  match p with
  | Compare _ r _ => [relText r]
  | _ => []
  end.

Definition queuedC (c : conj) : list item :=
  match c with
  | One p => queuedP p
  | Both c p => postfixC c ++ queuedP p
  end.

Definition stackedC (c : conj) : list string :=
  match c with
  | One p => stackedP p
  | Both _ p => stackedP p ++ ["&&"]
  end.

Definition queuedD (d : disj) : list item :=
  match d with
  | Just c => queuedC c
  | Either d c => postfixD d ++ queuedC c
  end.

Definition stackedD (d : disj) : list string :=
  match d with
  | Just c => stackedC c
  | Either _ c => stackedC c ++ ["||"]
  end.

Variable variables : store.

(** The value of an operand. *)
Definition valueOf (w : string) : value :=
  if isNumeral w then VNum (parseFloat w)
  else readVar variables (Identifier.asIdentifier ns w).

Definition relFn (r : relation) : value -> value -> bool :=
  match r with
  | Equal | Same => Js.strictEq
  | AtLeast => Js.ge
  | AtMost => Js.le
  end.

(** The truth of a condition: [&&] binds more than [||], and a range holds
    its two bounds. *)
Fixpoint truthP (p : prop) : bool :=
  match p with
  | Compare a r b => relFn r (valueOf a) (valueOf b)
  | Between v lo hi =>
      Js.ge (valueOf v) (valueOf lo) && Js.le (valueOf v) (valueOf hi)
  | Paren d => truthD d
  end
with truthC (c : conj) : bool :=
  match c with
  | One p => truthP p
  | Both c p => truthC c && truthP p
  end
with truthD (d : disj) : bool :=
  match d with
  | Just c => truthC c
  | Either d c => truthD d || truthC c
  end.

(** Every operand has a value. *)
Definition assignedOperand (w : string) : Prop := valueOf w <> VUndef.

Fixpoint assignedP (p : prop) : Prop :=
  match p with
  | Compare a _ b => assignedOperand a /\ assignedOperand b
  | Between v _ _ => assignedOperand v
  | Paren d => assignedD d
  end
with assignedC (c : conj) : Prop :=
  match c with
  | One p => assignedP p
  | Both c p => assignedC c /\ assignedP p
  end
with assignedD (d : disj) : Prop :=
  match d with
  | Just c => assignedC c
  | Either d c => assignedD d /\ assignedC c
  end.

End InNamespace.

(** The operators on a stack are of precedence [p] or more. *)
Definition atLeast (p : nat) (token : string) : bool :=
  match Conditional.operators token with
  | Some (q, _) => (p <=? q)%nat
  | None => false
  end.

(** The top of a stack is no operator of precedence [p] or more. *)
Definition below (p : nat) (stack : list string) : Prop :=
  match stack with
  | [] => True
  | top :: _ => atLeast p top = false
  end.

End Logic.

(* ================================================================= *)
(** * Properties *)

(** ** Identifiers *)

Module IdentifierFacts.

Import Identifier Reads.

Lemma splitOn_nonempty c s : Str.splitOn c s <> [].
Proof.
  destruct s as [|d s]; simpl; [discriminate|].
  destruct (Str.ascii_eqb c d); [discriminate|].
  destruct (Str.splitOn c s); discriminate.
Qed.

Lemma splitOn_length s : length (Str.splitOn ":" s) = S (colons s).
Proof.
  induction s as [|d s IH]; simpl; [reflexivity|].
  destruct (Str.ascii_eqb ":" d); simpl.
  - now rewrite IH.
  - destruct (Str.splitOn ":" s) eqn:E; simpl in *; [discriminate|exact IH].
Qed.

Lemma ascii_eqb_eq a b : Str.ascii_eqb a b = true -> a = b.
Proof.
  unfold Str.ascii_eqb, Str.code. intros H%N.eqb_eq.
  rewrite <- (ascii_N_embedding a), <- (ascii_N_embedding b). now rewrite H.
Qed.

Lemma splitOn_no_colon s : colons s = 0%nat -> Str.splitOn ":" s = [s].
Proof.
  induction s as [|d s IH]; simpl; [reflexivity|].
  destruct (Str.ascii_eqb ":" d); simpl; [discriminate|].
  intros H. now rewrite (IH H).
Qed.

Lemma splitOn_one_colon s :
  colons s = 1%nat ->
  exists a b, Str.splitOn ":" s = [a; b] /\ a +:+ ":" +:+ b = s.
Proof.
  induction s as [|d s IH]; simpl; [discriminate|].
  destruct (Str.ascii_eqb ":" d) eqn:E; simpl.
  - intros [= H]. exists "", s. rewrite (splitOn_no_colon _ H).
    apply ascii_eqb_eq in E. subst d. split; reflexivity.
  - intros H. destruct (IH H) as (a & b & -> & <-).
    exists (String d a), b. split; reflexivity.
Qed.

(** What [parseIdentifier] does, by the number of colons of its input. *)
Lemma parseIdentifier_by_colons raw ns ctx :
  parseIdentifier raw ns ctx =
  match colons raw with
  | 0%nat => Ok (ns +:+ ":" +:+ raw)
  | 1%nat => Ok raw
  | _ => throwErrorVia ctx "identifier" ("Malformed identifier " +:+ raw +:+ ".")
  end.
Proof.
  unfold parseIdentifier, splitColon3.
  destruct (colons raw) as [|[|n]] eqn:E.
  - rewrite (splitOn_no_colon _ E). reflexivity.
  - destruct (splitOn_one_colon _ E) as (a & b & -> & <-). reflexivity.
  - pose proof (splitOn_length raw) as L. rewrite E in L.
    destruct (Str.splitOn ":" raw) as [|x [|y [|z l]]]; simpl in L; try lia.
    simpl. destruct ctx; reflexivity.
Qed.

(** C9 at the failing input.  For a raw string without a colon,
    [parse(raw, ns)] is [ns:raw], and with exactly one colon it is [raw]
    itself.  With more than one colon the call goes to
    [context.throwError('identifier', 'Malformed identifier raw.')]: that
    is the report of the malformed identifier when a context was passed,
    and when none was, as in [parse("a:b:x", "ns")], the call raises the
    TypeError of reading [throwError] of [undefined] and reports
    nothing. *)
Theorem parseIdentifier_law :
  (forall raw ns ctx,
      parseIdentifier raw ns ctx =
      match colons raw, ctx with
      | 0%nat, _ => Ok (ns +:+ ":" +:+ raw)
      | 1%nat, _ => Ok raw
      | _, Some _ =>
          Throw (ParserError "identifier"
                   ("Malformed identifier " +:+ raw +:+ "."))
      | _, None =>
          Throw (TypeError
                   "Cannot read properties of undefined (reading 'throwError')")
      end)
  /\ parse "x" "ns" None = Ok "ns:x"
  /\ parse "a:x" "ns" None = Ok "a:x"
  /\ parse "a:b:x" "ns" None
     = Throw (TypeError
                "Cannot read properties of undefined (reading 'throwError')")
  /\ (forall c, parse "a:b:x" "ns" (Some c)
                = Throw (ParserError "identifier"
                           "Malformed identifier a:b:x.")).
Proof.
  split; [|repeat split].
  intros raw ns ctx. rewrite (parseIdentifier_by_colons raw ns ctx).
  destruct (colons raw) as [|[|n]]; destruct ctx; reflexivity.
Qed.

End IdentifierFacts.

(** ** Reading a variable that has no value *)

Module UndefinedFacts.

Import Reads.

Lemma readVar_absent (variables : store) name :
  variables !! name = None -> readVar variables name = VUndef.
Proof. unfold readVar. now intros ->. Qed.

Lemma action_evalQueue_undefined variables q : forall stack,
  readsUndefined variables q ->
  exists name, readVar variables name = VUndef /\
    Action.evalQueue variables stack q = Throw (usedBeforeAssignment name).
Proof.
  induction q as [|i q IH]; intros stack (name & Hin & Hu).
  - destruct Hin.
  - assert (Hrest : i <> Action.IVar name -> readsUndefined variables q).
    { intros Hne. exists name. split; [|exact Hu].
      destruct Hin as [->|Hin]; [contradiction|exact Hin]. }
    destruct i as [x|n|token]; simpl.
    + apply IH, Hrest. discriminate.
    + destruct (readVar variables n) eqn:E.
      * apply IH, Hrest. intros [= ->]. congruence.
      * apply IH, Hrest. intros [= ->]. congruence.
      * exists n. split; [exact E|reflexivity].
    + destruct (Action.operators token) as [f|].
      * destruct (Action.pop stack) as [b s1].
        destruct (Action.pop s1) as [a s2]. apply IH, Hrest. discriminate.
      * apply IH, Hrest. discriminate.
Qed.

Lemma conditional_evalQueue_undefined variables q : forall stack,
  readsUndefined variables q ->
  exists name, readVar variables name = VUndef /\
    Conditional.evalQueue variables stack q = Throw (usedBeforeAssignment name).
Proof.
  induction q as [|i q IH]; intros stack (name & Hin & Hu).
  - destruct Hin.
  - assert (Hrest : i <> Action.IVar name -> readsUndefined variables q).
    { intros Hne. exists name. split; [|exact Hu].
      destruct Hin as [->|Hin]; [contradiction|exact Hin]. }
    destruct i as [x|n|token]; simpl.
    + apply IH, Hrest. discriminate.
    + destruct (readVar variables n) eqn:E.
      * apply IH, Hrest. intros [= ->]. congruence.
      * apply IH, Hrest. intros [= ->]. congruence.
      * exists n. split; [exact E|reflexivity].
    + destruct (Conditional.operators token) as [[p f]|].
      * destruct (Action.pop stack) as [b s1].
        destruct (Action.pop s1) as [a s2]. apply IH, Hrest. discriminate.
      * apply IH, Hrest. discriminate.
Qed.

(** The shunting-yard evaluator raises at the first variable of the queue
    that has no value, and nowhere else. *)
Lemma conditional_evalQueue_first variables q : forall stack name,
  firstUndefined variables q = Some name ->
  Conditional.evalQueue variables stack q = Throw (usedBeforeAssignment name).
Proof.
  induction q as [|i q IH]; intros stack name; [discriminate|].
  destruct i as [x|n|token]; cbn [firstUndefined Conditional.evalQueue
                                   Conditional.evalItem].
  - intros H. cbn [mbind result_bind]. now apply IH.
  - destruct (readVar variables n) eqn:E.
    + intros H. cbn [mbind result_bind]. now apply IH.
    + intros H. cbn [mbind result_bind]. now apply IH.
    + now intros [= ->].
  - intros H. destruct (Conditional.operators token) as [[p f]|].
    + destruct (Action.pop stack) as [b s1].
      destruct (Action.pop s1) as [a s2]. cbn [mbind result_bind].
      now apply IH.
    + cbn [mbind result_bind]. now apply IH.
Qed.

Lemma conditional_evalQueue_none variables q : forall stack,
  firstUndefined variables q = None ->
  exists stack', Conditional.evalQueue variables stack q = Ok stack'.
Proof.
  induction q as [|i q IH]; intros stack; [now exists stack|].
  destruct i as [x|n|token]; cbn [firstUndefined Conditional.evalQueue
                                   Conditional.evalItem].
  - intros H. cbn [mbind result_bind]. now apply IH.
  - destruct (readVar variables n) eqn:E.
    + intros H. cbn [mbind result_bind]. now apply IH.
    + intros H. cbn [mbind result_bind]. now apply IH.
    + discriminate.
  - intros H. destruct (Conditional.operators token) as [[p f]|].
    + destruct (Action.pop stack) as [b s1].
      destruct (Action.pop s1) as [a s2]. cbn [mbind result_bind].
      now apply IH.
    + cbn [mbind result_bind]. now apply IH.
Qed.

Lemma firstUndefined_app variables q1 q2 :
  firstUndefined variables (q1 ++ q2)
  = match firstUndefined variables q1 with
    | Some name => Some name
    | None => firstUndefined variables q2
    end.
Proof.
  induction q1 as [|i q1 IH]; [reflexivity|].
  destruct i as [x|n|token]; cbn [app firstUndefined]; try exact IH.
  destruct (readVar variables n); auto.
Qed.

(** What [evaluate] of a condition does, by the first variable without a
    value. *)
Lemma conditional_evaluate_first c variables :
  match firstUndefined variables (Conditional.outputQueue c) with
  | Some name =>
      Conditional.evaluate c variables = Throw (usedBeforeAssignment name)
  | None => exists b, Conditional.evaluate c variables = Ok b
  end.
Proof.
  unfold Conditional.evaluate, Conditional.evaluator.
  destruct (firstUndefined variables (Conditional.outputQueue c)) as [name|]
    eqn:E.
  - now rewrite (conditional_evalQueue_first _ _ [] name E).
  - destruct (conditional_evalQueue_none _ _ [] E) as (stack' & ->).
    cbn [mbind result_bind]. eauto.
Qed.

End UndefinedFacts.

Module UndefinedLaw.

Import Reads Run UndefinedFacts.

(** C4, as stated, fails for [Text]: a text that interpolates a variable
    never written renders, with nothing in place of the variable, and
    raises no error. *)
Lemma text_renders_unwritten_variable :
  renderText "Gold: ${gold}" "test" ∅ = Ok "Gold: ".
Proof. vm_compute. reflexivity. Qed.

(** C4 (amended). Undefined-variable law.  Evaluating an [Action] or a
    [Conditional] of the shunting-yard class whose compiled expression
    reads a variable without a value in the store raises the
    undefined-variable error ("used before assignment") and returns no
    default; the action [c=undefinedVar+1] fails when [test:undefinedVar]
    is absent from the store.  A [Text] does not raise for an interpolated
    variable: the fragment of a variable without a value renders as the
    empty string. *)
Theorem undefined_variable_law :
  (forall a variables,
      readsUndefined variables (Action.outputQueue a) ->
      exists name, readVar variables name = VUndef /\
        Action.evaluate a variables = Throw (usedBeforeAssignment name))
  /\ (forall c variables,
      readsUndefined variables (Conditional.outputQueue c) ->
      exists name, readVar variables name = VUndef /\
        Conditional.evaluate c variables = Throw (usedBeforeAssignment name))
  /\ (forall (C : ConditionalClass) identifier variables,
      readVar variables identifier = VUndef ->
      Text.evaluate [Text.VarToken identifier] variables
      = Ok ("", [Text.VarToken identifier]))
  /\ runAction "c=undefinedVar+1" "test" {[ "undefinedVar" := VNum 7 ]}
     = Throw (usedBeforeAssignment "test:undefinedVar").
Proof.
  repeat split.
  - intros a variables H. unfold Action.evaluate, Action.evaluator.
    destruct (action_evalQueue_undefined variables _ [] H) as (n & Hn & ->).
    exists n. split; [exact Hn|reflexivity].
  - intros c variables H. unfold Conditional.evaluate, Conditional.evaluator.
    destruct (conditional_evalQueue_undefined variables _ [] H) as (n & Hn & ->).
    exists n. split; [exact Hn|reflexivity].
  - intros C identifier variables H. unfold Text.evaluate. simpl.
    rewrite H. reflexivity.
Qed.

(** The law at an instance: [c = x + 1] on the empty store. *)
Lemma undefined_variable_law_witness :
  exists name, readVar (∅ : store) name = VUndef /\
    Action.evaluate
      {| Action.variableName := "test:c"; Action.operator := "=";
         Action.outputQueue :=
           [Action.IVar "test:x"; Action.INum 1; Action.ITok "+"] |} ∅
    = Throw (usedBeforeAssignment name).
Proof.
  apply (proj1 undefined_variable_law).
  exists "test:x". split; [left; reflexivity|reflexivity].
Defined.

End UndefinedLaw.

(** ** Actions *)

Module ActionFacts.

Import Action Run.

(** An incoming [*], [/] or [%] moves nothing from the operator stack to
    the queue, whatever is stacked: only [+] and [-] do. *)
Lemma popOperators_only_additive token q ops :
  String.eqb token "+" || String.eqb token "-" = false ->
  popOperators token q ops = (q, ops).
Proof.
  intros H. destruct ops as [|top below]; simpl; [reflexivity|].
  rewrite H, andb_false_r. reflexivity.
Qed.

(** C2 at a failing input.  A chain of divisions is compiled with the
    operators in reverse, so that [y=8/4/2] stores [8/(4/2) = 4] where
    infix evaluation with left-associative [/] gives [(8/4)/2 = 1].  The
    example of the claim, [(7-2)*x+7] with [x = 4], does give [27]. *)
Theorem division_chain_groups_right :
  compile "8/4/2" "test"
  = Ok [INum 8; INum 4; INum 2; ITok "/"; ITok "/"]
  /\ runAction "y=8/4/2" "test" ∅ = Ok {[ "test:y" := VNum 4 ]}
  /\ ((8 / 4) / 2)%float = 1%float
  /\ runAction "y=(7-2)*x+7" "test" {[ "test:x" := VNum 4 ]}
     = Ok (<[ "test:y" := VNum 27 ]> {[ "test:x" := VNum 4 ]}).
Proof. vm_compute. repeat split. Qed.

(** Once the expression has a value, [evaluate] writes and does not
    raise: the target of a compound operator is read without the test
    that guards the variables of the expression. *)
Lemma evaluate_writes a variables v :
  evaluator (outputQueue a) variables = Ok v ->
  exists variables', evaluate a variables = Ok variables'.
Proof.
  intros H. unfold evaluate. rewrite H. cbn.
  repeat match goal with
         | |- context [if ?b then _ else _] => destruct b
         end; eauto.
Qed.

(** C7 at a failing input.  The compound action [a+=1], run on a store
    that holds no [test:a], raises nothing: it reads [undefined], adds and
    writes [NaN]. *)
Theorem compound_on_unassigned_target :
  runAction "a+=1" "test" ∅ = Ok {[ "test:a" := VNum nan ]}
  /\ runAction "a*=2" "test" ∅ = Ok {[ "test:a" := VNum nan ]}.
Proof. vm_compute. repeat split. Qed.

End ActionFacts.

(** ** The shunting-yard evaluator on postfix forms *)

Module PostfixFacts.

Import Expr.

Lemma evalItem_operand variables stack o :
  operandOk variables o ->
  Conditional.evalItem variables stack (itemOf o)
  = Ok (VNum (num variables o) :: stack).
Proof.
  destruct o as [x|n]; simpl; [reflexivity|].
  intros [x Hx]. rewrite Hx. reflexivity.
Qed.

(** Running the postfix form of an expression pushes its truth value. *)
Lemma evalQueue_postfix e variables :
  shared e -> defined variables e -> forall stack rest,
  Conditional.evalQueue variables stack (postfix e ++ rest)
  = Conditional.evalQueue variables (VBool (denote variables e) :: stack) rest.
Proof.
  induction e as [c a b|e IH|l IHl r IHr|l IHl r IHr];
    intros Sh D stack rest.
  - destruct D as [Da Db]. cbn [postfix app Conditional.evalQueue].
    rewrite (evalItem_operand _ _ _ Da). cbn [mbind result_bind].
    rewrite (evalItem_operand _ _ _ Db). cbn [mbind result_bind].
    destruct c; try destruct Sh; reflexivity.
  - destruct Sh.
  - destruct Sh as [Sl Sr], D as [Dl Dr]. cbn [postfix].
    rewrite <- !app_assoc, (IHl Sl Dl), (IHr Sr Dr). cbn.
    destruct (denote variables l); reflexivity.
  - destruct Sh as [Sl Sr], D as [Dl Dr]. cbn [postfix].
    rewrite <- !app_assoc, (IHl Sl Dl), (IHr Sr Dr). cbn.
    destruct (denote variables l); reflexivity.
Qed.

Lemma evaluate_postfix e variables :
  shared e -> defined variables e ->
  Conditional.evaluate {| Conditional.outputQueue := postfix e |} variables
  = Ok (denote variables e).
Proof.
  intros Sh D. unfold Conditional.evaluate, Conditional.evaluator.
  cbn [Conditional.outputQueue].
  rewrite <- (app_nil_r (postfix e)), (evalQueue_postfix e _ Sh D).
  reflexivity.
Qed.

End PostfixFacts.

(** ** The two classes of conditions *)

Module Conditionals.

Import Reads Run Expr Cases UndefinedFacts.

Lemma tests_compile :
  compilesTo "((x=4..7 && y=12..15) || z=1)" test1
  /\ compilesTo "((a=4..6 && b=2..4) || c=10)" test4
  /\ compilesTo "(x==10)" test6
  /\ compilesTo "((x=4..6 && (y=10..20 || z=2)) || z=1)" test8
  /\ compilesTo "((x=4..6 && y=12..15) || z=1)" test9.
Proof. vm_compute. repeat split. Qed.


(** C1, as stated, fails: with [x = 1] the left operand of
    [x==0 && y==1] is false, and evaluating the condition still raises the
    undefined-variable error for [y], which only the right operand
    mentions; likewise for [x==1 || y==1], whose left operand is true. *)
Lemma right_operand_variable_is_read :
  runPostfix "x==0 && y==1" "test" {[ "test:x" := VNum 1 ]}
  = Throw (usedBeforeAssignment "test:y")
  /\ runPostfix "x==1 || y==1" "test" {[ "test:x" := VNum 1 ]}
     = Throw (usedBeforeAssignment "test:y").
Proof. vm_compute. repeat split. Qed.

(** C3 at a failing input.  The shunting-yard class rewrites the
    two-sided range only: [x=4..] and [x=..7] reach its tokenizer as they
    are, which drops the dots, and compile to the equalities [x = 4] and
    [x = 7].  With [x = 5], inside both ranges, it answers [false].  The
    two-sided range holds its two bounds, and the class gives the results
    of the claim's examples. *)
Theorem one_sided_ranges :
  Conditional.tokenize "x=4.." = ["x"; "="; "4"]
  /\ Conditional.tokenize "x=..7" = ["x"; "="; "7"]
  /\ (forall x,
        runPostfix "x=4.." "test" {[ "test:x" := VNum x ]} = Ok (x =? 4)%float
        /\ runPostfix "x=..7" "test" {[ "test:x" := VNum x ]} = Ok (x =? 7)%float
        /\ runPostfix "x=4..7" "test" {[ "test:x" := VNum x ]}
           = Ok ((4 <=? x) && (x <=? 7))%float)
  /\ runPostfix "x=4.." "test" {[ "test:x" := VNum 5 ]} = Ok false
  /\ runPostfix "x=..7" "test" {[ "test:x" := VNum 5 ]} = Ok false
  /\ runPostfix "(x=4..7 && y=12..15) || z=1" "test" (store3 5 13 0) = Ok true
  /\ runPostfix "(x=4..7 && y=12..15) || z=1" "test" (store3 3 12 0) = Ok false.
Proof.
  split; [reflexivity|]. split; [reflexivity|].
  split; [|vm_compute; repeat split].
  intros x.
  assert (Dx : forall o, o = Var "test:x" \/ (exists y, o = Num y) ->
                         operandOk {[ "test:x" := VNum x ]} o).
  { intros o [->|[y ->]]; simpl; [|exact I]. exists x. reflexivity. }
  assert (Dv := Dx (Var "test:x") (or_introl eq_refl)).
  assert (Dn := fun y => Dx (Num y) (or_intror (ex_intro _ y eq_refl))).
  unfold runPostfix.
  split; [|split].
  - change (Conditional.new "x=4.." "test")
      with (Ok {| Conditional.outputQueue := postfix (equals Eq1 "test:x" 4) |}).
    cbn [mbind result_bind].
    rewrite PostfixFacts.evaluate_postfix; [reflexivity|exact I|split; auto].
  - change (Conditional.new "x=..7" "test")
      with (Ok {| Conditional.outputQueue := postfix (equals Eq1 "test:x" 7) |}).
    cbn [mbind result_bind].
    rewrite PostfixFacts.evaluate_postfix; [reflexivity|exact I|split; auto].
  - change (Conditional.new "x=4..7" "test")
      with (Ok {| Conditional.outputQueue := postfix (range "test:x" 4 7) |}).
    cbn [mbind result_bind].
    rewrite PostfixFacts.evaluate_postfix;
      [reflexivity|simpl; tauto|split; split; auto].
Qed.

End Conditionals.

(** ** Texts *)

Module TextFacts.

Import Run Cases.

(** A conditional fragment renders the text of the branch that the truth
    of its condition selects, and nothing when that branch is absent. *)
Lemma conditional_fragment `{ConditionalClass} conditional text1 text2
    variables v conditional' :
  condEvaluate conditional variables = Ok (v, conditional') ->
  fst <$> Text.evaluateToken variables (Text.CondToken conditional text1 text2)
  = if Js.toBoolean v then Text.render text1 variables
    else match text2 with
         | Some text2 => Text.render text2 variables
         | None => Ok ""
         end.
Proof.
  intros E. cbn [Text.evaluateToken]. rewrite E. cbn [mbind result_bind].
  unfold Text.render, Text.evaluate, Text.evaluateTokens.
  destruct (Js.toBoolean v).
  - destruct (Text.joinAll (Text.evaluateToken variables) text1) as [[a t]|];
      reflexivity.
  - destruct text2 as [text2|]; [|reflexivity].
    destruct (Text.joinAll (Text.evaluateToken variables) text2) as [[a t]|];
      reflexivity.
Qed.

(** C8 at a failing input.  The expression that takes an inline
    conditional apart separates the two texts by a colon, not by a pipe:
    in [?{x==1?yes|no}] the whole of [yes|no] is the first text and there
    is no second one.  With [x = 1] the fragment renders [yes|no], with
    [x = 0] it renders nothing; written with a colon it renders [yes] and
    [no]. *)
Theorem pipe_is_not_the_separator :
  Text.conditionalMatch "?{x==1?yes|no}" = Some ("x==1", "yes|no", None)
  /\ Text.conditionalMatch "?{x==1?yes:no}" = Some ("x==1", "yes", Some "no")
  /\ rendersWithColon postfixConditional.
Proof. vm_compute. repeat split. Qed.

End TextFacts.

(** ** The engine *)

Module EngineFacts.

Import Model Engine Worlds.

(** No turn of the loop pushes on the history: a turn that goes on leaves
    the history as it was, or popped. *)
Lemma turn_never_pushes `{ConditionalClass} fuel history currentScene w
    history' currentScene' w' :
  turn fuel history currentScene w
  = Returned (Continue history' currentScene') w' ->
  history' = history \/ history' = snd (FixedSizeStack.pop history).
Proof.
  unfold turn, mbind, M_bind, bind, ret, raise, undefinedRead, lift.
  repeat (match goal with
          | |- context [match ?x with _ => _ end] => destruct x eqn:?
          | |- context [if ?x then _ else _] => destruct x eqn:?
          end; try discriminate).
  all: intros [= <- <- <-]; auto.
Qed.

(** The history of a run, empty at the start, is empty at every turn. *)
Lemma history_stays_empty `{ConditionalClass} fuel history currentScene w
    history' currentScene' w' :
  FixedSizeStack.items history = [] ->
  turn fuel history currentScene w
  = Returned (Continue history' currentScene') w' ->
  FixedSizeStack.items history' = [].
Proof.
  intros E T. destruct (turn_never_pushes _ _ _ _ _ _ _ T) as [->| ->].
  - exact E.
  - unfold FixedSizeStack.pop. rewrite E. exact E.
Qed.

(** C5 at a failing input.  The scene [start] has one option, which
    leads to [inkspire:back].  The engine renders the scene, waits for the
    acknowledgement and moves to [inkspire:back] without pushing [start]:
    the history is empty, [pop] gives [undefined], and the next turn fails
    on reading the identifier of the current scene instead of entering
    [start] again. *)
Theorem back_finds_no_history :
  backRun postfixConditional /\ backRun prefixConditional.
Proof. vm_compute. repeat split. Qed.

(** C6 at a failing input.  Of the two options of [start] only the first
    is available, and it alone is numbered.  [getChoice] is given the
    number of all options: the answer [2] is accepted, selects nothing
    among the available options, and the turn fails on reading the actions
    of the chosen option instead of asking again.  The answer [1] selects
    the available option. *)
Theorem choice_beyond_available :
  choiceRun postfixConditional "2" (Fails (undefinedProperty "actions"))
  /\ choiceRun postfixConditional "1" Ends.
Proof. vm_compute. repeat split. Qed.

End EngineFacts.

(** ** The tests of the sources

    [testActions] and [testConditionals] of [variables.js], run on the
    model: every assertion holds, with the shunting-yard class for the
    conditions. *)

Module SourceTests.

Import Run Cases.

Example testActions :
  runAction "a=10" "test" ∅ = Ok {[ "test:a" := VNum 10 ]}
  /\ runAction "a=0" "test" ∅ = Ok {[ "test:a" := VNum 0 ]}
  /\ runAction "b+=3" "test" {[ "test:b" := VNum 5 ]}
     = Ok {[ "test:b" := VNum 8 ]}
  /\ runAction "y=x*3+1" "test" {[ "test:x" := VNum 2 ]}
     = Ok (<[ "test:y" := VNum 7 ]> {[ "test:x" := VNum 2 ]})
  /\ runAction "y=x*3+7" "test" {[ "test:x" := VNum 0 ]}
     = Ok (<[ "test:y" := VNum 7 ]> {[ "test:x" := VNum 0 ]})
  /\ runAction "z/=4" "test" {[ "test:z" := VNum 20 ]}
     = Ok {[ "test:z" := VNum 5 ]}
  /\ runAction "invalid-action" "test" ∅
     = Throw (ParserError "adventure" "Malformed action: invalid-action")
  /\ runAction "y=(7-2)*x+7" "test" {[ "test:x" := VNum 4 ]}
     = Ok (<[ "test:y" := VNum 27 ]> {[ "test:x" := VNum 4 ]})
  /\ runAction "c=undefinedVar+1" "test" {[ "undefinedVar" := VNum 7 ]}
     = Throw (usedBeforeAssignment "test:undefinedVar").
Proof. vm_compute. repeat split. Qed.

Example testConditionals : conditionalTests runPostfix.
Proof. vm_compute. repeat split. Qed.

End SourceTests.

(** ** The embedding at work

    Values of the definitions on inputs whose results JavaScript fixes:
    numerals, printed numbers and remainders, the tokens of the two
    tokenizers, and texts. *)

Module Checks.

Import Run.

Example numerals :
  map Num.ofString
      [ "2"; ""; "abc"; "1.5"; "0x10"; "1e3"; "-2"; "+.5"; "5."; ".";
        "Infinity"; "-Infinity"; "1e"; "0b101"; "12px"; "1e-2"; "007";
        "0.1"; "9007199254740993" ]
  = [ 2; 0; nan; 1.5; 16; 1000; -2; 0.5; 5; nan; infinity; neg_infinity;
      nan; 5; nan; 0.01; 7; 0.1; 9007199254740992 ]%float
  /\ Num.parseDecimal "0.30000000000000004" = Some (0.1 + 0.2)%float
  /\ Num.parseDecimal "-2.5" = Some (-2.5)%float
  /\ Num.parseDecimal "1e3" = None.
Proof. vm_compute. repeat split. Qed.

Example printed_numbers :
  map Num.toString
      [ 5; 0.1; 27; 1e21; 123456789012345680000; 0.000001; 1e-7; 1.5e-7;
        0.1 + 0.2; 1e23; 5e-324; 1.7976931348623157e308; 100; 4.35; -2.5;
        nan; 0; -0; 0.5; 123.456; 1e300; 2e-5; 1024; infinity ]%float
  = [ "5"; "0.1"; "27"; "1e+21"; "123456789012345680000"; "0.000001";
      "1e-7"; "1.5e-7"; "0.30000000000000004"; "1e+23"; "5e-324";
      "1.7976931348623157e+308"; "100"; "4.35"; "-2.5"; "NaN"; "0"; "0";
      "0.5"; "123.456"; "1e+300"; "0.00002"; "1024"; "Infinity" ].
Proof. vm_compute. reflexivity. Qed.

Example remainders :
  Num.rem 7 3 = 1%float /\ Num.rem (-7) 3 = (-1)%float
  /\ Num.rem 5.5 2 = 1.5%float /\ Num.rem 1 0 = nan
  /\ Num.rem 0.3 0.1 = 0.09999999999999998%float
  /\ Num.rem 7 infinity = 7%float.
Proof. vm_compute. repeat split. Qed.

Example action_tokens :
  Action.matchAction "health -= damage + strength"
  = Some ("health ", "-=", " damage + strength")
  /\ Action.matchAction "a==3" = Some ("a", "=", "=3")
  /\ Action.matchAction "no operator" = None
  /\ Action.tokenize "3.5*(a:b+_x1)%2"
     = ["3.5"; "*"; "("; "a:b"; "+"; "_x1"; ")"; "%"; "2"]
  /\ Action.compile "(7-2)*x+7" "test"
     = Ok [ Action.INum 7; Action.INum 2; Action.ITok "-";
            Action.IVar "test:x"; Action.ITok "*"; Action.INum 7;
            Action.ITok "+" ]
  /\ Action.compile "(1+2" "test"
     = Ok [Action.INum 1; Action.INum 2; Action.ITok "+"; Action.ITok "("]
  /\ Action.compile "1+2)" "test"
     = Throw (ParserError "adventure" "Mismatched parentheses: 1+2)").
Proof. vm_compute. repeat split. Qed.

Example conditional_tokens :
  Conditional.tokenize "((x=4..7 && y=12..15) || z=1)"
  = [ "("; "("; "("; "x"; ">="; "4"; "&&"; "x"; "<="; "7"; ")"; "&&"; "(";
      "y"; ">="; "12"; "&&"; "y"; "<="; "15"; ")"; ")"; "||"; "z"; "=";
      "1"; ")" ]
  /\ Conditional.tokenize "x < 5 && !y" = ["x"; "5"; "&&"; "y"]
  /\ Conditional.tokenize "x=0.5..1.5" = ["x"; "="; "0"; "5"; "1"; "5"]
  /\ Conditional.compile "a==1 || b==2 && c==3" "t"
     = Ok [ Action.IVar "t:a"; Action.INum 1; Action.ITok "==";
            Action.IVar "t:b"; Action.INum 2; Action.ITok "==";
            Action.IVar "t:c"; Action.INum 3; Action.ITok "==";
            Action.ITok "&&"; Action.ITok "||" ].
Proof. vm_compute. repeat split. Qed.

Example texts :
  Text.split 100 "" "a${x}b?{c}${}" = ["a"; "${x}"; "b"; "?{c}"; "${}"]
  /\ renderText "You have ${gold} gold." "t" {[ "t:gold" := VNum 12.5 ]}
     = Ok "You have 12.5 gold."
  /\ renderText "a?{x==1?yes}b" "t" {[ "t:x" := VNum 1 ]} = Ok "ayesb"
  /\ renderText "a?{x==1?yes}b" "t" {[ "t:x" := VNum 0 ]} = Ok "ab"
  /\ renderText "" "t" ∅ = Ok "".
Proof. vm_compute. repeat split. Qed.

End Checks.

(** ** More on identifiers *)

Module IdentifierMore.
Import Identifier Reads Shapes IdentifierFacts.

Lemma append_nil_l b : "" +:+ b = b.
Proof. reflexivity. Qed.

Lemma append_cons c a b : String c a +:+ b = String c (a +:+ b).
Proof. reflexivity. Qed.

Lemma colons_app a b : colons (a +:+ b) = (colons a + colons b)%nat.
Proof.
  induction a as [|c a IH]; [reflexivity|].
  rewrite append_cons. simpl. rewrite IH. lia.
Qed.

Lemma colons_asIdentifier ns name :
  colons (asIdentifier ns name) = S (colons ns + colons name).
Proof.
  unfold asIdentifier. rewrite !colons_app. simpl. lia.
Qed.

Lemma splitOn_joined a b :
  colons a = 0%nat -> colons b = 0%nat ->
  Str.splitOn ":" (a +:+ ":" +:+ b) = [a; b].
Proof.
  intros Ha Hb. induction a as [|c a IH].
  - rewrite append_nil_l, append_cons, append_nil_l. simpl.
    now rewrite (splitOn_no_colon _ Hb).
  - rewrite append_cons. simpl in *.
    destruct (Str.ascii_eqb ":" c); simpl in *; [discriminate|].
    now rewrite (IH Ha).
Qed.

Lemma accessors_by_colons id :
  match colons id with
  | 1%nat => exists ns name,
      getIdentifierNamespace id = Ok ns /\ getIdentifierName id = Ok name
      /\ asIdentifier ns name = id /\ colons ns = 0%nat /\ colons name = 0%nat
  | _ => getIdentifierNamespace id
         = Throw (JsError ("Malformed identifier: " +:+ id))
         /\ getIdentifierName id
            = Throw (JsError ("Malformed identifier: " +:+ id))
  end.
Proof.
  unfold getIdentifierNamespace, getIdentifierName, splitColon3.
  destruct (colons id) as [|[|n]] eqn:E.
  - rewrite (splitOn_no_colon _ E). split; reflexivity.
  - destruct (splitOn_one_colon _ E) as (a & b & Hs & Hj). rewrite Hs.
    exists a, b. repeat split; try exact Hj.
    + subst id. rewrite !colons_app in E. simpl in E. lia.
    + subst id. rewrite !colons_app in E. simpl in E. lia.
  - pose proof (splitOn_length id) as L. rewrite E in L.
    destruct (Str.splitOn ":" id) as [|x [|y [|z l]]]; simpl in L; try lia.
    split; reflexivity.
Qed.

Lemma accessors_of_from ns name :
  colons ns = 0%nat -> colons name = 0%nat ->
  getIdentifierNamespace (asIdentifier ns name) = Ok ns
  /\ getIdentifierName (asIdentifier ns name) = Ok name.
Proof.
  intros Hn Hm. unfold getIdentifierNamespace, getIdentifierName, splitColon3.
  unfold asIdentifier. rewrite (splitOn_joined _ _ Hn Hm). split; reflexivity.
Qed.

Lemma span_all p s r :
  Str.all p s = true ->
  match r with String c _ => p c = false | EmptyString => True end ->
  Str.span p (s +:+ r) = (s, r).
Proof.
  intros Hs Hr. induction s as [|c s IH].
  - rewrite append_nil_l. destruct r as [|d r]; [reflexivity|].
    simpl. now rewrite Hr.
  - rewrite append_cons. simpl in *. apply andb_true_iff in Hs as [-> Hs].
    now rewrite (IH Hs).
Qed.

Lemma all_app p a b : Str.all p (a +:+ b) = Str.all p a && Str.all p b.
Proof.
  induction a as [|c a IH]; [reflexivity|].
  rewrite append_cons. simpl. rewrite IH. now rewrite andb_assoc.
Qed.

Lemma span_not_all ns name :
  Str.all Str.isWord ns = false ->
  match snd (Str.span Str.isWord (ns +:+ ":" +:+ name)) with
  | String ":" name' => Str.all Str.isWord name' = false
  | _ => True
  end.
Proof.
  induction ns as [|c ns IH]; [discriminate|]. intros Hw.
  rewrite append_cons. simpl in *.
  destruct (Str.isWord c) eqn:Hc; simpl in *.
  - specialize (IH Hw).
    destruct (Str.span Str.isWord (ns +:+ ":" +:+ name)) as [a r]. exact IH.
  - destruct c as [[] [] [] [] [] [] [] []]; try exact I.
    rewrite all_app. simpl. now rewrite andb_false_r.
Qed.

Lemma isValid_from ns name :
  isValidIdentifier (asIdentifier ns name)
  = nonEmptyWord ns && nonEmptyWord name.
Proof.
  unfold isValidIdentifier, asIdentifier, nonEmptyWord.
  destruct (Str.all Str.isWord ns) eqn:Hw.
  - rewrite (span_all _ _ _ Hw); [|reflexivity].
    rewrite append_cons, append_nil_l.
    rewrite andb_true_r, andb_assoc. reflexivity.
  - rewrite andb_false_r. simpl.
    pose proof (span_not_all ns name Hw) as H.
    destruct (Str.span Str.isWord (ns +:+ ":" +:+ name)) as [a r].
    simpl in H. destruct r as [|d r]; [reflexivity|].
    destruct d as [[] [] [] [] [] [] [] []]; try reflexivity.
    rewrite H. now rewrite andb_false_r.
Qed.

End IdentifierMore.

(** ** The tokens of an arithmetic expression *)

Module ArithFacts.

Import Action Arith Reads IdentifierMore.

(** *** Reading the tokens back from the text *)

Lemma symbol_classes c :
  isSymbol c = true ->
  Str.isDigit c = false /\ isIdentStart c = false /\ isIdentChar c = false
  /\ Str.isChar "." c = false.
Proof.
  destruct c as [[] [] [] [] [] [] [] []]; try discriminate; repeat split.
Qed.

Lemma identStart_not_digit c : isIdentStart c = true -> Str.isDigit c = false.
Proof.
  destruct c as [[] [] [] [] [] [] [] []]; try discriminate; reflexivity.
Qed.

Lemma separated_stops p r :
  (forall c, isSymbol c = true -> p c = false) ->
  separated r ->
  match r with String c _ => p c = false | EmptyString => True end.
Proof. intros Hp. destruct r; simpl; auto. Qed.

Lemma span_spec p s :
  let (a, b) := Str.span p s in
  s = a +:+ b /\ Str.all p a = true
  /\ match b with String c _ => p c = false | EmptyString => True end.
Proof.
  induction s as [|c s IH]; simpl; [repeat split|].
  destruct (p c) eqn:Hc.
  - destruct (Str.span p s) as [a b]. destruct IH as (-> & Ha & Hb).
    repeat split; simpl; auto. now rewrite Hc.
  - repeat split. exact Hc.
Qed.

Lemma append_assoc a b c : (a +:+ b) +:+ c = a +:+ b +:+ c.
Proof.
  induction a as [|x a IH]; [reflexivity|].
  rewrite !append_cons. now rewrite IH.
Qed.

Lemma append_nil_r a : a +:+ "" = a.
Proof.
  induction a as [|x a IH]; [reflexivity|]. rewrite append_cons. now rewrite IH.
Qed.

(** Texts are brought to the form [c1 :: c2 :: ... (a +:+ (b +:+ ...))]. *)
Create Rewrite HintDb flat.
#[export] Hint Rewrite append_assoc append_cons append_nil_l : flat.

Lemma lex_number t r :
  numberRegex t = true -> separated r ->
  actionTokenAt (t +:+ r) = Some (t, r).
Proof.
  unfold numberRegex. intros Hn Hr.
  pose proof (span_spec Str.isDigit t) as Hs.
  destruct (Str.span Str.isDigit t) as [int rest].
  destruct Hs as (-> & Hint & _).
  apply andb_true_iff in Hn as [Hne Hrest].
  destruct int as [|d int]; [discriminate|]. clear Hne.
  simpl in Hint. apply andb_true_iff in Hint as [Hd Hint].
  assert (Hstop : forall q, separated q ->
            match q with String c _ => Str.isDigit c = false | "" => True end).
  { intros q. apply separated_stops. intros c Hc.
    now destruct (symbol_classes c Hc). }
  destruct rest as [|c rest].
  - rewrite append_nil_r. rewrite append_cons.
    unfold actionTokenAt. rewrite Hd.
    change (String d (int +:+ r)) with (String d int +:+ r).
    rewrite (span_all Str.isDigit (String d int) r);
      [|simpl; now rewrite Hd|now apply Hstop].
    destruct r as [|c r]; [reflexivity|].
    simpl in Hr. destruct (symbol_classes c Hr) as (_ & _ & _ & Hdot).
    destruct c as [[] [] [] [] [] [] [] []]; try reflexivity; discriminate.
  - destruct c as [[] [] [] [] [] [] [] []]; try discriminate.
    apply andb_true_iff in Hrest as [Hne Hfrac].
    rewrite append_assoc. rewrite (append_cons _ int).
    unfold actionTokenAt. rewrite Hd.
    change (String d (int +:+ String "." rest +:+ r))
      with (String d int +:+ (String "." rest +:+ r)).
    rewrite (span_all Str.isDigit (String d int) (String "." rest +:+ r));
      [|simpl; now rewrite Hd|reflexivity].
    rewrite append_cons.
    rewrite (span_all Str.isDigit rest r Hfrac); [|now apply Hstop].
    destruct rest as [|e rest]; [discriminate|]. simpl Str.isEmpty. cbv iota.
    reflexivity.
Qed.

Lemma lex_variable t r :
  variableRegex t = true -> separated r ->
  actionTokenAt (t +:+ r) = Some (t, r).
Proof.
  unfold variableRegex. destruct t as [|c w]; [discriminate|].
  intros Hv Hr. apply andb_true_iff in Hv as [Hc Hw].
  rewrite append_cons. unfold actionTokenAt.
  rewrite (identStart_not_digit c Hc), Hc.
  rewrite (span_all isIdentChar w r Hw); [reflexivity|].
  apply separated_stops; [|exact Hr]. intros d Hd.
  now destruct (symbol_classes d Hd) as (_ & _ & ? & _).
Qed.

Lemma lex_symbol c r :
  isSymbol c = true -> actionTokenAt (String c r) = Some (String c "", r).
Proof.
  intros Hc. unfold actionTokenAt.
  destruct (symbol_classes c Hc) as (-> & -> & _ & _). now rewrite Hc.
Qed.

Lemma actionTokens_step fuel t r :
  t <> "" -> actionTokenAt (t +:+ r) = Some (t, r) ->
  actionTokens (S fuel) (t +:+ r) = t :: actionTokens fuel r.
Proof.
  intros Ht H. destruct t as [|c t]; [contradiction|].
  rewrite append_cons in *. cbn [actionTokens]. rewrite H. reflexivity.
Qed.

End ArithFacts.

(** ** The tokenizer of actions on the text of an expression *)

Module ArithCompile.

Import Action Arith Reads IdentifierMore ArithFacts.

Lemma numberRegex_nonempty t : numberRegex t = true -> t <> "".
Proof. now destruct t. Qed.

Lemma variableRegex_nonempty t : variableRegex t = true -> t <> "".
Proof. now destruct t. Qed.

Lemma variable_not_number t : variableRegex t = true -> numberRegex t = false.
Proof.
  destruct t as [|c w]; [discriminate|]. unfold variableRegex, numberRegex.
  intros [Hc _]%andb_true_iff. simpl.
  now rewrite (identStart_not_digit c Hc).
Qed.

Lemma mulText_symbol op : exists c, mulText op = String c "" /\ isSymbol c = true.
Proof. destruct op; eexists; split; reflexivity. Qed.

Lemma addText_symbol op : exists c, addText op = String c "" /\ isSymbol c = true.
Proof. destruct op; eexists; split; reflexivity. Qed.

Lemma lex_one fuel c r :
  isSymbol c = true ->
  actionTokens (S fuel) (String c r) = String c "" :: actionTokens fuel r.
Proof.
  intros Hc. cbn [actionTokens]. now rewrite (lex_symbol c r Hc).
Qed.

(** The tokenizer reads the tokens of an expression back from its text. *)
Lemma lex_arith :
  (forall a, wellFormedA a = true -> forall r fuel,
      separated r -> (length (tokensA a) <= fuel)%nat ->
      actionTokens fuel (textA a +:+ r)
      = tokensA a ++ actionTokens (fuel - length (tokensA a)) r)
  /\ (forall t, wellFormedT t = true -> forall r fuel,
      separated r -> (length (tokensT t) <= fuel)%nat ->
      actionTokens fuel (textT t +:+ r)
      = tokensT t ++ actionTokens (fuel - length (tokensT t)) r)
  /\ (forall e, wellFormedE e = true -> forall r fuel,
      separated r -> (length (tokensE e) <= fuel)%nat ->
      actionTokens fuel (textE e +:+ r)
      = tokensE e ++ actionTokens (fuel - length (tokensE e)) r).
Proof.
  apply arith_ind.
  - intros t Hw r fuel Hr Hf. simpl in *.
    destruct fuel as [|fuel]; [lia|].
    rewrite (actionTokens_step fuel t r (numberRegex_nonempty t Hw)
               (lex_number t r Hw Hr)).
    simpl. now rewrite Nat.sub_0_r.
  - intros t Hw r fuel Hr Hf. simpl in *.
    apply andb_true_iff in Hw as [Hv _].
    destruct fuel as [|fuel]; [lia|].
    rewrite (actionTokens_step fuel t r (variableRegex_nonempty t Hv)
               (lex_variable t r Hv Hr)).
    simpl. now rewrite Nat.sub_0_r.
  - intros e IH Hw r fuel Hr Hf. cbn [textA tokensA wellFormedA] in *.
    cbn [length] in Hf. rewrite length_app in Hf. cbn [length] in Hf.
    destruct fuel as [|fuel]; [lia|].
    autorewrite with flat.
    rewrite (lex_one fuel "(" _ eq_refl).
    rewrite (IH Hw (String ")" r) fuel); [|reflexivity|lia].
    destruct (fuel - length (tokensE e))%nat as [|fuel'] eqn:E; [lia|].
    rewrite (lex_one fuel' ")" r eq_refl).
    cbn [app length]. rewrite <- app_assoc. cbn [app].
    f_equal. f_equal. f_equal. f_equal. rewrite length_app. simpl. lia.
  - intros a IH Hw r fuel Hr Hf. now apply IH.
  - intros a IHa op t IHt Hw r fuel Hr Hf.
    cbn [textT tokensT wellFormedT] in *.
    apply andb_true_iff in Hw as [Hwa Hwt].
    rewrite length_app in Hf. cbn [length] in Hf.
    destruct (mulText_symbol op) as (c & Hop & Hc). rewrite Hop.
    autorewrite with flat.
    rewrite (IHa Hwa _ fuel); [|exact Hc|lia].
    destruct (fuel - length (tokensA a))%nat as [|fuel'] eqn:E; [lia|].
    rewrite (lex_one fuel' c _ Hc).
    rewrite (IHt Hwt r fuel' Hr); [|lia].
    rewrite <- app_assoc. cbn [app].
    f_equal. f_equal. f_equal. f_equal. rewrite length_app. simpl. lia.
  - intros t IH Hw r fuel Hr Hf. now apply IH.
  - intros e IHe op t IHt Hw r fuel Hr Hf.
    cbn [textE tokensE wellFormedE] in *.
    apply andb_true_iff in Hw as [Hwe Hwt].
    rewrite length_app in Hf. cbn [length] in Hf.
    destruct (addText_symbol op) as (c & Hop & Hc). rewrite Hop.
    autorewrite with flat.
    rewrite (IHe Hwe _ fuel); [|exact Hc|lia].
    destruct (fuel - length (tokensE e))%nat as [|fuel'] eqn:E; [lia|].
    rewrite (lex_one fuel' c _ Hc).
    rewrite (IHt Hwt r fuel' Hr); [|lia].
    rewrite <- app_assoc. cbn [app].
    f_equal. f_equal. f_equal. f_equal. rewrite length_app. simpl. lia.
Qed.

Lemma length_append a b :
  String.length (a +:+ b) = (String.length a + String.length b)%nat.
Proof.
  induction a as [|c a IH]; [reflexivity|].
  rewrite append_cons. simpl. now rewrite IH.
Qed.

Lemma tokens_shorter :
  (forall a, wellFormedA a = true ->
      (1 <= length (tokensA a) <= String.length (textA a))%nat)
  /\ (forall t, wellFormedT t = true ->
      (1 <= length (tokensT t) <= String.length (textT t))%nat)
  /\ (forall e, wellFormedE e = true ->
      (1 <= length (tokensE e) <= String.length (textE e))%nat).
Proof.
  apply arith_ind; cbn [textA textT textE tokensA tokensT tokensE
                        wellFormedA wellFormedT wellFormedE].
  - intros t Hw. destruct t; [discriminate|]. simpl. lia.
  - intros t [Hw _]%andb_true_iff. destruct t; [discriminate|]. simpl. lia.
  - intros e IH Hw. specialize (IH Hw). cbn [length].
    rewrite length_app, !length_append. simpl. lia.
  - auto.
  - intros a IHa op t IHt [Ha Ht]%andb_true_iff.
    specialize (IHa Ha). specialize (IHt Ht).
    rewrite length_app, !length_append. cbn [length].
    destruct op; simpl; lia.
  - auto.
  - intros e IHe op t IHt [He Ht]%andb_true_iff.
    specialize (IHe He). specialize (IHt Ht).
    rewrite length_app, !length_append. cbn [length].
    destruct op; simpl; lia.
Qed.

Lemma tokenize_text e :
  wellFormedE e = true -> tokenize (textE e) = tokensE e.
Proof.
  intros Hw. unfold tokenize.
  destruct tokens_shorter as (_ & _ & Hl). specialize (Hl e Hw).
  destruct lex_arith as (_ & _ & Hx).
  rewrite <- (append_nil_r (textE e)) at 2.
  rewrite (Hx e Hw "" _ I); [|lia].
  destruct (_ - _)%nat; simpl; now rewrite app_nil_r.
Qed.

End ArithCompile.

(** ** The shunting yard and the evaluator of actions on an
    expression *)

Module ArithShunt.

Import Action Arith Reads IdentifierFacts IdentifierMore ArithFacts ArithCompile.

Lemma shunt_app ex ns st l1 l2 :
  shunt ex ns st (l1 ++ l2)
  = (st' ← shunt ex ns st l1; shunt ex ns st' l2).
Proof.
  revert st. induction l1 as [|x l1 IH]; intros st; [reflexivity|].
  cbn [app shunt]. destruct (shuntToken ex ns st x); [|reflexivity].
  cbn. apply IH.
Qed.

Lemma shuntToken_number ex ns q stk t :
  numberRegex t = true ->
  shuntToken ex ns (q, stk) t = Ok (q ++ [INum (parseFloat t)], stk).
Proof. intros H. unfold shuntToken. now rewrite H. Qed.

Lemma shuntToken_variable ex ns q stk t :
  variableRegex t = true -> (colons t <= 1)%nat ->
  shuntToken ex ns (q, stk) t = Ok (q ++ [IVar (qualify ns t)], stk).
Proof.
  intros H Hc. unfold shuntToken.
  rewrite (variable_not_number t H), H. unfold Identifier.parse.
  rewrite parseIdentifier_by_colons. unfold qualify, Identifier.asIdentifier.
  destruct (colons t) as [|[|n]]; [reflexivity|reflexivity|lia].
Qed.

Lemma shuntToken_mul ex ns q stk op :
  shuntToken ex ns (q, stk) (mulText op) = Ok (q, mulText op :: stk).
Proof.
  unfold shuntToken.
  assert (E : popOperators (mulText op) q stk = (q, stk))
    by (apply ActionFacts.popOperators_only_additive; now destruct op).
  destruct op; cbn -[popOperators] in *; now rewrite E.
Qed.

Lemma popOperators_all token q ops base :
  String.eqb token "+" || String.eqb token "-" = true ->
  forallb isOperator ops = true -> freeTop base ->
  popOperators token q (ops ++ base) = (q ++ map ITok ops, base).
Proof.
  intros Ht. revert q. induction ops as [|o ops IH]; intros q Ho Hb.
  - cbn [app map]. rewrite app_nil_r. destruct base as [|top below];
      [reflexivity|]. simpl in *. now rewrite Hb.
  - cbn [forallb] in Ho. apply andb_true_iff in Ho as [Ho Hops].
    cbn [app popOperators]. rewrite Ho, Ht. cbn [andb].
    rewrite (IH _ Hops Hb). cbn [map]. now rewrite <- app_assoc.
Qed.

Lemma shuntToken_add ex ns q ops base op :
  forallb isOperator ops = true -> freeTop base ->
  shuntToken ex ns (q, ops ++ base) (addText op)
  = Ok (q ++ map ITok ops, addText op :: base).
Proof.
  intros Ho Hb. unfold shuntToken.
  assert (E : popOperators (addText op) q (ops ++ base)
              = (q ++ map ITok ops, base))
    by (apply popOperators_all; auto; now destruct op).
  destruct op; cbn -[popOperators] in *; now rewrite E.
Qed.

Lemma popToParen_all q ops stk :
  forallb isOperator ops = true ->
  popToParen q (ops ++ "(" :: stk) = (q ++ map ITok ops, "(" :: stk).
Proof.
  revert q. induction ops as [|o ops IH]; intros q Ho.
  - cbn. now rewrite app_nil_r.
  - cbn [forallb] in Ho. apply andb_true_iff in Ho as [Ho Hops].
    cbn [app popToParen].
    assert (E : String.eqb o "(" = false).
    { destruct (String.eqb_spec o "(") as [->|]; [discriminate|reflexivity]. }
    rewrite E, (IH _ Hops). cbn [map]. now rewrite <- app_assoc.
Qed.

Lemma shuntToken_close ex ns q ops stk :
  forallb isOperator ops = true ->
  shuntToken ex ns (q, ops ++ "(" :: stk) ")" = Ok (q ++ map ITok ops, stk).
Proof.
  intros Ho. unfold shuntToken. cbn -[popToParen].
  now rewrite (popToParen_all q ops stk Ho).
Qed.

Lemma stackedT_operators t : forallb isOperator (stackedT t) = true.
Proof.
  induction t as [a|a op t IH]; [reflexivity|]. simpl.
  rewrite forallb_app, IH. now destruct op.
Qed.

Lemma stackedE_operators e : forallb isOperator (stackedE e) = true.
Proof.
  destruct e as [t|e op t]; simpl; [apply stackedT_operators|].
  rewrite forallb_app, stackedT_operators. now destruct op.
Qed.

Lemma postfixT_split ns t :
  postfixT ns t = queuedT ns t ++ map ITok (stackedT t).
Proof.
  induction t as [a|a op t IH]; simpl; [now rewrite app_nil_r|].
  rewrite IH, map_app. now rewrite <- !app_assoc.
Qed.

Lemma postfixE_split ns e :
  postfixE ns e = queuedE ns e ++ map ITok (stackedE e).
Proof.
  destruct e as [t|e op t]; simpl; [apply postfixT_split|].
  rewrite postfixT_split, map_app. now rewrite <- !app_assoc.
Qed.

(** The shunting yard on the tokens of an expression. *)
Lemma shunt_arith ex ns :
  (forall a, wellFormedA a = true -> forall q stk,
      shunt ex ns (q, stk) (tokensA a) = Ok (q ++ postfixA ns a, stk))
  /\ (forall t, wellFormedT t = true -> forall q stk,
      shunt ex ns (q, stk) (tokensT t)
      = Ok (q ++ queuedT ns t, stackedT t ++ stk))
  /\ (forall e, wellFormedE e = true -> forall q base, freeTop base ->
      shunt ex ns (q, base) (tokensE e)
      = Ok (q ++ queuedE ns e, stackedE e ++ base)).
Proof.
  apply arith_ind; cbn [tokensA tokensT tokensE wellFormedA wellFormedT
                        wellFormedE postfixA queuedT stackedT queuedE stackedE].
  - intros t Hw q stk. cbn [shunt].
    now rewrite (shuntToken_number _ _ _ _ _ Hw).
  - intros t [Hv Hc%Nat.leb_le]%andb_true_iff q stk. cbn [shunt].
    now rewrite (shuntToken_variable _ _ _ _ _ Hv Hc).
  - intros e IH Hw q stk.
    change ("(" :: tokensE e ++ [")"]) with (["("] ++ tokensE e ++ [")"]).
    rewrite shunt_app.
    change (shunt ex ns (q, stk) ["("])
      with (Ok (q, "(" :: stk) : result (list item * list string)).
    cbn [mbind result_bind]. rewrite shunt_app.
    rewrite (IH Hw q ("(" :: stk) eq_refl). cbn [mbind result_bind shunt].
    rewrite (shuntToken_close _ _ _ _ _ (stackedE_operators e)).
    cbn [mbind result_bind]. now rewrite <- app_assoc, <- postfixE_split.
  - intros a IH Hw q stk. rewrite (IH Hw). now rewrite app_nil_l.
  - intros a IHa op t IHt [Ha Ht]%andb_true_iff q stk.
    rewrite shunt_app, (IHa Ha). cbn [mbind result_bind shunt].
    rewrite shuntToken_mul. cbn [mbind result_bind].
    rewrite (IHt Ht). now rewrite <- !app_assoc.
  - intros t IH Hw q base Hb. now apply IH.
  - intros e IHe op t IHt [He Ht]%andb_true_iff q base Hb.
    rewrite shunt_app, (IHe He q base Hb). cbn [mbind result_bind shunt].
    rewrite (shuntToken_add _ _ _ _ _ _ (stackedE_operators e) Hb).
    cbn [mbind result_bind]. rewrite (IHt Ht).
    rewrite postfixE_split. now rewrite <- !app_assoc.
Qed.

Lemma tokensE_nonempty e : wellFormedE e = true -> tokensE e <> [].
Proof.
  intros Hw. destruct tokens_shorter as (_ & _ & H). specialize (H e Hw).
  destruct (tokensE e); [simpl in H; lia|discriminate].
Qed.

(** The compiler turns the text of an expression into its postfix form. *)
Lemma compile_text e ns :
  wellFormedE e = true -> compile (textE e) ns = Ok (postfixE ns e).
Proof.
  intros Hw. unfold compile. rewrite (tokenize_text e Hw).
  pose proof (tokensE_nonempty e Hw) as Hne.
  destruct (shunt_arith (textE e) ns) as (_ & _ & H).
  specialize (H e Hw [] [] I).
  destruct (tokensE e) as [|x l]; [contradiction|].
  rewrite H. cbn [mbind result_bind]. cbn [app].
  now rewrite app_nil_r, <- postfixE_split.
Qed.

(** Running the postfix form pushes the value of the expression. *)
Lemma evalQueue_arith ns variables :
  (forall a, assignedA ns variables a -> forall stack rest,
      evalQueue variables stack (postfixA ns a ++ rest)
      = evalQueue variables (valueA ns variables a :: stack) rest)
  /\ (forall t, assignedT ns variables t -> forall stack rest,
      evalQueue variables stack (postfixT ns t ++ rest)
      = evalQueue variables (valueT ns variables t :: stack) rest)
  /\ (forall e, assignedE ns variables e -> forall stack rest,
      evalQueue variables stack (postfixE ns e ++ rest)
      = evalQueue variables (valueE ns variables e :: stack) rest).
Proof.
  apply arith_ind; cbn [postfixA postfixT postfixE assignedA assignedT
                        assignedE valueA valueT valueE].
  - reflexivity.
  - intros t Hd stack rest. cbn [app evalQueue evalItem].
    destruct (readVar variables (qualify ns t)); try reflexivity.
    contradiction.
  - auto.
  - auto.
  - intros a IHa op t IHt [Ha Ht] stack rest.
    rewrite <- !app_assoc, (IHa Ha), (IHt Ht). now destruct op.
  - auto.
  - intros e IHe op t IHt [He Ht] stack rest.
    rewrite <- !app_assoc, (IHe He), (IHt Ht). now destruct op.
Qed.

Lemma evaluator_arith ns variables e :
  assignedE ns variables e ->
  evaluator (postfixE ns e) variables = Ok (valueE ns variables e).
Proof.
  intros Hd. unfold evaluator.
  destruct (evalQueue_arith ns variables) as (_ & _ & H).
  rewrite <- (app_nil_r (postfixE ns e)), (H e Hd). reflexivity.
Qed.

End ArithShunt.

(** ** An action, from its text to the store it leaves *)

Module ActionLaw.

Import Action Arith Reads IdentifierFacts IdentifierMore ArithFacts
       ArithCompile ArithShunt Run.

Lemma all_weaken (p q : ascii -> bool) s :
  (forall c, p c = true -> q c = true) ->
  Str.all p s = true -> Str.all q s = true.
Proof.
  intros Hpq. induction s as [|c s IH]; [reflexivity|]. simpl.
  intros [Hc Hs]%andb_true_iff. now rewrite (Hpq c Hc), (IH Hs).
Qed.

Lemma number_chars t :
  numberRegex t = true -> Str.all isExpressionChar t = true.
Proof.
  unfold numberRegex. intros Hn.
  pose proof (span_spec Str.isDigit t) as Hs.
  destruct (Str.span Str.isDigit t) as [int rest].
  destruct Hs as (-> & Hint & _).
  apply andb_true_iff in Hn as [_ Hrest].
  rewrite all_app. apply andb_true_iff. split.
  - revert Hint. apply all_weaken. intros c Hc. unfold isExpressionChar.
    now rewrite Hc.
  - destruct rest as [|c rest]; [reflexivity|].
    destruct c as [[] [] [] [] [] [] [] []]; try discriminate.
    apply andb_true_iff in Hrest as [_ Hfrac]. simpl.
    revert Hfrac. apply all_weaken. intros c Hc. unfold isExpressionChar.
    now rewrite Hc.
Qed.

Lemma identStart_identChar c : isIdentStart c = true -> isIdentChar c = true.
Proof.
  destruct c as [[] [] [] [] [] [] [] []]; try discriminate; reflexivity.
Qed.

Lemma variable_identChars t :
  variableRegex t = true -> Str.all isIdentChar t = true.
Proof.
  destruct t as [|c w]; [discriminate|]. unfold variableRegex.
  intros [Hc Hw]%andb_true_iff. simpl.
  now rewrite (identStart_identChar c Hc), Hw.
Qed.

Lemma variable_chars t :
  variableRegex t = true -> Str.all isExpressionChar t = true.
Proof.
  intros H. apply variable_identChars in H. revert H. apply all_weaken.
  intros c Hc. unfold isExpressionChar. rewrite Hc. now rewrite !orb_true_r.
Qed.

Lemma text_chars :
  (forall a, wellFormedA a = true -> Str.all isExpressionChar (textA a) = true)
  /\ (forall t, wellFormedT t = true ->
        Str.all isExpressionChar (textT t) = true)
  /\ (forall e, wellFormedE e = true ->
        Str.all isExpressionChar (textE e) = true).
Proof.
  apply arith_ind; cbn [textA textT textE wellFormedA wellFormedT wellFormedE].
  - apply number_chars.
  - intros t [Hv _]%andb_true_iff. now apply variable_chars.
  - intros e IH Hw. rewrite !all_app, (IH Hw). reflexivity.
  - auto.
  - intros a IHa op t IHt [Ha Ht]%andb_true_iff.
    rewrite !all_app, (IHa Ha), (IHt Ht). now destruct op.
  - auto.
  - intros e IHe op t IHt [He Ht]%andb_true_iff.
    rewrite !all_app, (IHe He), (IHt Ht). now destruct op.
Qed.

Lemma expressionChar_plain c :
  isExpressionChar c = true ->
  Str.isSpace c = false /\ Str.isLineTerminator c = false.
Proof.
  destruct c as [[] [] [] [] [] [] [] []]; try discriminate; split; reflexivity.
Qed.

Lemma identChar_plain c :
  isIdentChar c = true ->
  isOpChar c = false /\ Str.isChar "=" c = false
  /\ Str.isLineTerminator c = false /\ Str.isSpace c = false.
Proof.
  destruct c as [[] [] [] [] [] [] [] []]; try discriminate; repeat split.
Qed.

Lemma trimStart_plain s :
  Str.all (fun c => negb (Str.isSpace c)) s = true -> trimStart s = s.
Proof.
  destruct s as [|c s]; [reflexivity|]. simpl.
  intros [Hc _]%andb_true_iff. apply negb_true_iff in Hc. now rewrite Hc.
Qed.

Lemma trimEnd_plain s :
  Str.all (fun c => negb (Str.isSpace c)) s = true -> trimEnd s = s.
Proof.
  induction s as [|c s IH]; [reflexivity|]. simpl.
  intros [Hc Hs]%andb_true_iff. apply negb_true_iff in Hc.
  rewrite (IH Hs), Hc. now destruct s.
Qed.

Lemma trim_plain s :
  Str.all (fun c => negb (Str.isSpace c)) s = true -> trim s = s.
Proof.
  intros H. unfold trim. rewrite (trimStart_plain s H). now apply trimEnd_plain.
Qed.

Lemma trim_expression s :
  Str.all isExpressionChar s = true -> trim s = s.
Proof.
  intros H. apply trim_plain. revert H. apply all_weaken. intros c Hc.
  destruct (expressionChar_plain c Hc) as [-> _]. reflexivity.
Qed.

Lemma trim_identifier s : Str.all isIdentChar s = true -> trim s = s.
Proof.
  intros H. apply trim_plain. revert H. apply all_weaken. intros c Hc.
  destruct (identChar_plain c Hc) as (_ & _ & _ & ->). reflexivity.
Qed.

Lemma line_expression s :
  Str.all isExpressionChar s = true ->
  fst (Str.span (fun d => negb (Str.isLineTerminator d)) s) = s.
Proof.
  intros H. rewrite <- (append_nil_r s) at 1.
  rewrite (span_all _ s ""); [reflexivity| |exact I].
  revert H. apply all_weaken. intros c Hc.
  destruct (expressionChar_plain c Hc) as [_ ->]. reflexivity.
Qed.

Lemma matchActionFrom_skip g1 c s :
  isOpChar c = false -> Str.isChar "=" c = false ->
  Str.isLineTerminator c = false ->
  matchActionFrom g1 (String c s) = matchActionFrom (g1 +:+ String c "") s.
Proof.
  intros H1 H2 H3. cbn [matchActionFrom]. rewrite H1, H2, H3.
  destruct s as [|d s]; [reflexivity|].
  destruct d as [[] [] [] [] [] [] [] []]; reflexivity.
Qed.

Lemma matchActionFrom_target x : forall g1 r,
  Str.all isIdentChar x = true ->
  matchActionFrom g1 (x +:+ r) = matchActionFrom (g1 +:+ x) r.
Proof.
  induction x as [|c x IH]; intros g1 r Hx.
  - now rewrite append_nil_l, append_nil_r.
  - simpl in Hx. apply andb_true_iff in Hx as [Hc Hx].
    destruct (identChar_plain c Hc) as (H1 & H2 & H3 & _).
    rewrite append_cons, (matchActionFrom_skip _ _ _ H1 H2 H3), (IH _ _ Hx).
    now rewrite append_assoc.
Qed.

Lemma matchActionFrom_operator g1 op s :
  matchActionFrom g1 (assignText op +:+ s)
  = Some (g1, assignText op,
          fst (Str.span (fun d => negb (Str.isLineTerminator d)) s)).
Proof.
  destruct op; cbn [assignText]; autorewrite with flat; cbn [matchActionFrom];
    try reflexivity.
  destruct s as [|d s]; [reflexivity|].
  destruct d as [[] [] [] [] [] [] [] []]; reflexivity.
Qed.

Lemma matchAction_text x op s :
  Str.all isIdentChar x = true -> Str.all isExpressionChar s = true ->
  matchAction (x +:+ assignText op +:+ s) = Some (x, assignText op, s).
Proof.
  intros Hx Hs. unfold matchAction.
  rewrite (matchActionFrom_target x "" _ Hx), append_nil_l.
  now rewrite matchActionFrom_operator, (line_expression s Hs).
Qed.

(** The action [x op e], from its text to the store it leaves. *)
Lemma runAction_text x op e ns variables :
  wellFormedTarget x = true -> wellFormedE e = true ->
  assignedE ns variables e ->
  runAction (x +:+ assignText op +:+ textE e) ns variables
  = Ok (<[ qualify ns x :=
             assigned op (readVar variables (qualify ns x))
                      (valueE ns variables e) ]> variables).
Proof.
  intros [Hx Hc%Nat.leb_le]%andb_true_iff He Hd.
  destruct text_chars as (_ & _ & Hchars). specialize (Hchars e He).
  pose proof (variable_identChars x Hx) as Hxi.
  unfold runAction, new.
  rewrite (matchAction_text x op _ Hxi Hchars).
  rewrite (trim_identifier x Hxi), (trim_expression _ Hchars).
  unfold Identifier.parse. rewrite parseIdentifier_by_colons.
  assert (Hq : match colons x with
               | 0%nat => Ok (ns +:+ ":" +:+ x)
               | 1%nat => Ok x
               | _ => throwErrorVia None "identifier"
                        ("Malformed identifier " +:+ x +:+ ".")
               end = Ok (qualify ns x)).
  { unfold qualify, Identifier.asIdentifier.
    destruct (colons x) as [|[|n]]; [reflexivity|reflexivity|lia]. }
  rewrite Hq. cbn [mbind result_bind].
  rewrite (compile_text e ns He). cbn [mbind result_bind].
  unfold evaluate. cbn [outputQueue variableName operator].
  rewrite (evaluator_arith ns variables e Hd). cbn [mbind result_bind].
  destruct op; reflexivity.
Qed.

End ActionLaw.

(** ** The match of an action and the ways its evaluator ends *)

Module ActionMore.

Import Action Reads IdentifierFacts IdentifierMore Run.

Lemma matchActionFrom_none s : forall g1,
  matchActionFrom g1 s = None <-> Str.all (Str.isNot "=") s = true.
Proof.
  induction s as [|c s IH]; intros g1; [split; reflexivity|].
  cbn [matchActionFrom Str.all].
  assert (E : Str.isNot "=" c = negb (Str.isChar "=" c)).
  { unfold Str.isNot, Str.isChar, Str.ascii_eqb. now rewrite N.eqb_sym. }
  rewrite E.
  destruct (Str.isChar "=" c) eqn:Hc; cbn [negb andb].
  - split; [|discriminate].
    destruct s as [|d s]; [discriminate|].
    destruct d as [[] [] [] [] [] [] [] []]; try discriminate.
    destruct (isOpChar c); discriminate.
  - assert (R : forall g, (if Str.isLineTerminator c
                            then matchActionFrom "" s
                            else matchActionFrom g s) = None
                          <-> Str.all (Str.isNot "=") s = true).
    { intros g. destruct (Str.isLineTerminator c); apply IH. }
    destruct s as [|d s]; [apply R|].
    destruct d as [[] [] [] [] [] [] [] []]; try apply R.
    split; [|discriminate]. destruct (isOpChar c); [discriminate|].
    intros H. exfalso. apply R in H. discriminate.
Qed.

Lemma matchActionFrom_operator_set s : forall g1 m1 m2 m3,
  matchActionFrom g1 s = Some (m1, m2, m3) ->
  In m2 ["="; "+="; "-="; "*="; "/="].
Proof.
  induction s as [|c s IH]; intros g1 m1 m2 m3; [discriminate|].
  cbn [matchActionFrom].
  assert (R : forall g, (if Str.isChar "=" c then
                           Some (g1, "=", fst (Str.span (fun d => negb (Str.isLineTerminator d)) s))
                         else if Str.isLineTerminator c
                         then matchActionFrom "" s
                         else matchActionFrom g s) = Some (m1, m2, m3) ->
                        In m2 ["="; "+="; "-="; "*="; "/="]).
  { intros g. destruct (Str.isChar "=" c); [intros [= _ <- _]; now left|].
    destruct (Str.isLineTerminator c); apply IH. }
  destruct s as [|d s]; [apply R|].
  destruct d as [[] [] [] [] [] [] [] []]; try apply R.
  destruct (isOpChar c) eqn:Hc; [|apply R].
  intros [= _ <- _].
  destruct c as [[] [] [] [] [] [] [] []]; try discriminate; simpl; tauto.
Qed.

Lemma new_operator action ns a :
  new action ns = Ok a -> In (operator a) ["="; "+="; "-="; "*="; "/="].
Proof.
  unfold new. destruct (matchAction action) as [[[m1 m2] m3]|] eqn:E;
    [|discriminate].
  apply matchActionFrom_operator_set in E.
  destruct (Identifier.parse (trim m1) ns None); [|discriminate].
  cbn [mbind result_bind].
  destruct (compile (trim m3) ns); [|discriminate].
  cbn [mbind result_bind]. intros [= <-]. cbn [operator].
  simpl in E. destruct E as [<-|[<-|[<-|[<-|[<-|[]]]]]]; simpl; tauto.
Qed.

Lemma evalQueue_outcome variables q : forall stack,
  (exists stack', evalQueue variables stack q = Ok stack')
  \/ (exists name, In (IVar name) q /\ readVar variables name = VUndef
        /\ evalQueue variables stack q = Throw (usedBeforeAssignment name)).
Proof.
  induction q as [|i q IH]; intros stack; [left; now eexists|].
  cbn [evalQueue].
  assert (Hgo : forall stack',
             (exists s, evalQueue variables stack' q = Ok s)
             \/ (exists name, In (IVar name) (i :: q)
                   /\ readVar variables name = VUndef
                   /\ evalQueue variables stack' q
                      = Throw (usedBeforeAssignment name))).
  { intros stack'. destruct (IH stack') as [H|(n & Hin & Hu & H)]; [now left|].
    right. exists n. repeat split; auto. now right. }
  destruct i as [x|name|token]; cbn [evalItem].
  - apply Hgo.
  - destruct (readVar variables name) eqn:E; try apply Hgo.
    right. exists name. repeat split; auto. now left.
  - destruct (operators token); [|apply Hgo].
    destruct (pop stack) as [b s1]. destruct (pop s1) as [a s2]. apply Hgo.
Qed.

End ActionMore.

(** ** The variables of a compiled condition *)

Module ConditionalMore.

Import Action Reads Shapes IdentifierFacts IdentifierMore.

Lemma word_no_colon c : Str.isWord c = true -> Str.ascii_eqb ":" c = false.
Proof.
  destruct c as [[] [] [] [] [] [] [] []]; try discriminate; reflexivity.
Qed.

Lemma dashDigit_no_colon c :
  Conditional.isDashDigit c = true -> Str.ascii_eqb ":" c = false.
Proof.
  destruct c as [[] [] [] [] [] [] [] []]; try discriminate; reflexivity.
Qed.

Lemma all_no_colon p s :
  (forall c, p c = true -> Str.ascii_eqb ":" c = false) ->
  Str.all p s = true -> colons s = 0%nat.
Proof.
  intros Hp. induction s as [|c s IH]; [reflexivity|]. simpl.
  intros [Hc Hs]%andb_true_iff. now rewrite (Hp c Hc), (IH Hs).
Qed.

Lemma span_all_fst p s : Str.all p (fst (Str.span p s)) = true.
Proof.
  induction s as [|c s IH]; [reflexivity|]. simpl.
  destruct (p c) eqn:Hc; [|reflexivity].
  destruct (Str.span p s) as [a b]. simpl in *. now rewrite Hc.
Qed.

Lemma conditionalTokenAt_no_colon s tok r :
  Conditional.conditionalTokenAt s = Some (tok, r) -> colons tok = 0%nat.
Proof.
  unfold Conditional.conditionalTokenAt. destruct s as [|c s]; [discriminate|].
  destruct (Str.isWord c) eqn:Hw.
  - intros [= E]. apply (f_equal fst) in E.
    change (fst (tok, r)) with tok in E. subst tok.
    pose proof (span_all_fst Str.isWord (String c s)) as H.
    revert H. apply all_no_colon, word_no_colon.
  - destruct (Str.stripPrefix ">=" (String c s)) eqn:E1;
      [now intros [= <- _]|].
    destruct (Str.stripPrefix "<=" (String c s)) eqn:E2;
      [now intros [= <- _]|].
    destruct (Str.stripPrefix "==" (String c s)) eqn:E3;
      [now intros [= <- _]|].
    destruct (Str.isChar "=" c); [now intros [= <- _]|].
    destruct (Str.stripPrefix "&&" (String c s)) eqn:E4;
      [now intros [= <- _]|].
    destruct (Str.stripPrefix "||" (String c s)) eqn:E5;
      [now intros [= <- _]|].
    destruct (Str.isChar "(" c || Str.isChar ")" c) eqn:E6.
    + intros [= <- _]. simpl.
      destruct c as [[] [] [] [] [] [] [] []]; try discriminate; reflexivity.
    + destruct (Conditional.isDashDigit c) eqn:E7; [|discriminate].
      intros [= E]. apply (f_equal fst) in E.
      change (fst (tok, r)) with tok in E. subst tok.
      pose proof (span_all_fst Conditional.isDashDigit (String c s)) as H.
      revert H. apply all_no_colon, dashDigit_no_colon.
Qed.

Lemma conditionalTokens_no_colon fuel : forall s,
  Forall (fun tok => colons tok = 0%nat) (Conditional.conditionalTokens fuel s).
Proof.
  induction fuel as [|fuel IH]; intros s; [constructor|].
  cbn [Conditional.conditionalTokens]. destruct s as [|c s]; [constructor|].
  destruct (Conditional.conditionalTokenAt (String c s)) as [[tok r]|] eqn:E;
    [|apply IH].
  constructor; [|apply IH]. now apply conditionalTokenAt_no_colon in E.
Qed.

Lemma localQueue_app ns q1 q2 :
  localQueue ns q1 -> localQueue ns q2 -> localQueue ns (q1 ++ q2).
Proof.
  intros H1 H2 name [H|H]%in_app_or; auto.
Qed.

Lemma localQueue_tokens ns l : localQueue ns (map ITok l).
Proof.
  intros name H. apply in_map_iff in H as (x & [=] & _).
Qed.

Lemma popOperators_queue prec q ops :
  exists moved, fst (Conditional.popOperators prec q ops) = q ++ map ITok moved.
Proof.
  revert q. induction ops as [|top below IH]; intros q.
  - exists []. simpl. now rewrite app_nil_r.
  - cbn [Conditional.popOperators].
    destruct (Conditional.operators top) as [[ptop f]|];
      [|exists []; simpl; now rewrite app_nil_r].
    destruct (prec <=? ptop)%nat;
      [|exists []; simpl; now rewrite app_nil_r].
    destruct (IH (q ++ [ITok top])) as (moved & ->).
    exists (top :: moved). now rewrite <- app_assoc.
Qed.

Lemma popToParen_queue q ops :
  exists moved, fst (popToParen q ops) = q ++ map ITok moved.
Proof.
  revert q. induction ops as [|top below IH]; intros q.
  - exists []. simpl. now rewrite app_nil_r.
  - cbn [popToParen].
    destruct (String.eqb top "("); [exists []; simpl; now rewrite app_nil_r|].
    destruct (IH (q ++ [ITok top])) as (moved & ->).
    exists (top :: moved). now rewrite <- app_assoc.
Qed.

Lemma shuntToken_local ns q ops token :
  colons token = 0%nat -> localQueue ns q ->
  exists q' ops', Conditional.shuntToken ns (q, ops) token = Ok (q', ops')
                  /\ localQueue ns q'.
Proof.
  intros Hc Hq. unfold Conditional.shuntToken.
  destruct (numberRegex token).
  { eexists _, _. split; [reflexivity|]. apply localQueue_app; [exact Hq|].
    intros name [[=]|[]]. }
  destruct (variableRegex token).
  { unfold Identifier.parse. rewrite parseIdentifier_by_colons, Hc.
    eexists _, _. split; [reflexivity|]. apply localQueue_app; [exact Hq|].
    intros name [[= <-]|[]]. now exists token. }
  destruct (Conditional.operators token) as [[prec f]|].
  { destruct (popOperators_queue prec q ops) as (moved & Hm).
    destruct (Conditional.popOperators prec q ops) as [q' ops'].
    simpl in Hm. subst q'. eexists _, _. split; [reflexivity|].
    apply localQueue_app; [exact Hq|apply localQueue_tokens]. }
  destruct (String.eqb token "(").
  { eexists _, _. split; [reflexivity|exact Hq]. }
  destruct (String.eqb token ")").
  { destruct (popToParen_queue q ops) as (moved & Hm).
    destruct (popToParen q ops) as [q' ops'].
    simpl in Hm. subst q'. eexists _, _. split; [reflexivity|].
    apply localQueue_app; [exact Hq|apply localQueue_tokens]. }
  eexists _, _. split; [reflexivity|exact Hq].
Qed.

Lemma shunt_local ns tokens : forall q ops,
  Forall (fun tok => colons tok = 0%nat) tokens -> localQueue ns q ->
  exists q' ops', Conditional.shunt ns (q, ops) tokens = Ok (q', ops')
                  /\ localQueue ns q'.
Proof.
  induction tokens as [|token rest IH]; intros q ops Hc Hq.
  - eexists _, _. split; [reflexivity|exact Hq].
  - inversion Hc as [|? ? Ht Hrest]; subst.
    destruct (shuntToken_local ns q ops token Ht Hq) as (q1 & ops1 & E & H1).
    cbn [Conditional.shunt]. rewrite E. cbn [mbind result_bind].
    now apply IH.
Qed.

Lemma compile_local conditional ns :
  match Conditional.tokenize conditional with
  | [] => Conditional.compile conditional ns
          = Throw (ParserError "adventure"
                     ("Malformed conditional: " +:+ conditional))
  | _ => exists q, Conditional.compile conditional ns = Ok q
                   /\ localQueue ns q
  end.
Proof.
  unfold Conditional.compile.
  pose proof (conditionalTokens_no_colon
                (String.length
                   (Conditional.replaceRanges
                      (String.length
                         (Str.filter (fun c => negb (Str.isSpace c)) conditional))
                      (Str.filter (fun c => negb (Str.isSpace c)) conditional)))
                (Conditional.replaceRanges
                   (String.length
                      (Str.filter (fun c => negb (Str.isSpace c)) conditional))
                   (Str.filter (fun c => negb (Str.isSpace c)) conditional)))
    as Hc.
  fold (Conditional.tokenize conditional) in Hc.
  destruct (Conditional.tokenize conditional) as [|t l]; [reflexivity|].
  destruct (shunt_local ns (t :: l) [] [] Hc) as (q & ops & E & Hq).
  { intros name []. }
  rewrite E. cbn [mbind result_bind]. eexists. split; [reflexivity|].
  apply localQueue_app; [exact Hq|apply localQueue_tokens].
Qed.

End ConditionalMore.

(** ** Texts without markers, and texts of one variable *)

Module TextMore.

Import Action Arith Reads IdentifierFacts IdentifierMore ArithFacts
       ArithCompile ActionLaw Run.

Section WithConditional.
Context {C : ConditionalClass}.

Lemma isNot_false c d : Str.isNot c d = false -> d = c.
Proof.
  unfold Str.isNot. intros H%negb_false_iff. symmetry. now apply ascii_eqb_eq.
Qed.

Lemma markerAt_plain s :
  Str.all (Str.isNot "{") s = true -> Text.markerAt s = None.
Proof.
  destruct s as [|a [|b r]]; try reflexivity. cbn [Str.all].
  intros [_ [Hb _]%andb_true_iff]%andb_true_iff.
  destruct b as [[] [] [] [] [] [] [] []]; try reflexivity. discriminate.
Qed.

Lemma split_plain s : forall fuel piece,
  Str.all (Str.isNot "{") s = true -> Text.split fuel piece s = [piece +:+ s].
Proof.
  induction s as [|c s IH]; intros fuel piece H.
  - rewrite append_nil_r. now destruct fuel.
  - destruct fuel as [|fuel]; [reflexivity|]. cbn [Text.split].
    rewrite (markerAt_plain _ H). cbn [Str.all] in H.
    apply andb_true_iff in H as [_ H]. rewrite (IH _ _ H).
    rewrite append_assoc. reflexivity.
Qed.

Lemma stripPrefix_brace a s :
  Str.all (Str.isNot "{") s = true ->
  Str.stripPrefix (String a "{") s = None.
Proof.
  destruct s as [|x [|y r]]; cbn [Str.stripPrefix Str.all].
  - reflexivity.
  - intros _. now destruct (Str.ascii_eqb a x).
  - intros [_ [Hy _]%andb_true_iff]%andb_true_iff.
    destruct (Str.ascii_eqb a x); [|reflexivity].
    destruct y as [[] [] [] [] [] [] [] []]; try reflexivity. discriminate.
Qed.

Lemma variableMatch_plain s :
  Str.all (Str.isNot "{") s = true -> Text.variableMatch s = None.
Proof.
  induction s as [|c s IH]; [reflexivity|]. intros H.
  cbn [Text.variableMatch]. rewrite (stripPrefix_brace "$" _ H).
  cbn [Str.all] in H. apply andb_true_iff in H as [_ H]. now apply IH.
Qed.

Lemma conditionalMatch_plain s :
  Str.all (Str.isNot "{") s = true -> Text.conditionalMatch s = None.
Proof.
  induction s as [|c s IH]; [reflexivity|]. intros H.
  cbn [Text.conditionalMatch]. rewrite (stripPrefix_brace "?" _ H).
  cbn [Str.all] in H. apply andb_true_iff in H as [_ H]. now apply IH.
Qed.

Lemma new_plain str ns :
  Str.all (Str.isNot "{") str = true ->
  Text.new str ns = Ok (if Str.isEmpty str then [] else [Text.LitToken str]).
Proof.
  intros H. unfold Text.new.
  assert (E : forall fuel, Text.build fuel str ns
                = Ok (if Str.isEmpty str then [] else [Text.LitToken str])).
  { intros fuel.
    destruct fuel; cbn [Text.build];
      rewrite (split_plain str _ "" H), append_nil_l;
      (destruct str as [|c str]; [reflexivity|]);
      cbn [List.filter Str.isEmpty negb mapM];
      rewrite (variableMatch_plain _ H), (conditionalMatch_plain _ H);
      reflexivity. }
  apply E.
Qed.

Lemma renderText_plain str ns variables :
  Str.all (Str.isNot "{") str = true ->
  renderText str ns variables = Ok str.
Proof.
  intros H. unfold renderText. rewrite (new_plain str ns H).
  cbn [mbind result_bind]. destruct str as [|c str]; [reflexivity|].
  cbn. now rewrite append_nil_r.
Qed.

Lemma identChar_text c :
  isIdentChar c = true ->
  Str.isNot "}" c = true /\ Str.isLineTerminator c = false.
Proof.
  destruct c as [[] [] [] [] [] [] [] []]; try discriminate; split; reflexivity.
Qed.

Lemma markerAt_variable x r :
  x <> "" -> Str.all isIdentChar x = true ->
  Text.markerAt ("${" +:+ x +:+ "}" +:+ r) = Some ("${" +:+ x +:+ "}", r).
Proof.
  intros Hne Hx. autorewrite with flat. cbn [Text.markerAt]. cbn [Str.isChar orb].
  change (Str.ascii_eqb "$" "$" || Str.ascii_eqb "?" "$") with true. cbv iota.
  rewrite (span_all (Str.isNot "}") x (String "}" r)); [|
    revert Hx; apply all_weaken; intros c Hc; apply (identChar_text c Hc)
    | reflexivity].
  destruct x as [|c x]; [contradiction|]. cbn [Str.isEmpty].
  autorewrite with flat. reflexivity.
Qed.

Lemma variableMatch_variable x :
  Str.all isIdentChar x = true ->
  Text.variableMatch ("${" +:+ x +:+ "}") = Some x.
Proof.
  intros Hx. autorewrite with flat. cbn [Text.variableMatch Str.stripPrefix].
  change (Str.ascii_eqb "$" "$") with true. cbv iota.
  change (Str.ascii_eqb "{" "{") with true. cbv iota.
  rewrite (span_all _ x "}"); [reflexivity| |reflexivity].
  revert Hx. apply all_weaken. intros c Hc.
  destruct (identChar_text c Hc) as [-> ->]. reflexivity.
Qed.

Lemma new_variable x ns :
  wellFormedTarget x = true ->
  Text.new ("${" +:+ x +:+ "}") ns = Ok [Text.VarToken (qualify ns x)].
Proof.
  intros [Hx Hc%Nat.leb_le]%andb_true_iff.
  pose proof (variable_identChars x Hx) as Hxi.
  pose proof (variableRegex_nonempty x Hx) as Hne.
  unfold Text.new.
  assert (L : exists n, String.length ("${" +:+ x +:+ "}") = S n)
    by (autorewrite with flat; simpl; eauto).
  destruct L as (n & L). rewrite L. cbn [Text.build]. rewrite L.
  assert (S' : Text.split (S n) "" ("${" +:+ x +:+ "}")
               = [""; "${" +:+ x +:+ "}"; ""]).
  { rewrite <- (append_nil_r ("${" +:+ x +:+ "}")) at 1.
    rewrite append_assoc, append_assoc.
    remember ("${" +:+ x +:+ "}" +:+ "") as s eqn:Es.
    assert (M := markerAt_variable x "" Hne Hxi). rewrite <- Es in M.
    destruct s as [|c s]; [discriminate|].
    cbn [Text.split]. rewrite M. now destruct n. }
  rewrite S'. cbn [List.filter Str.isEmpty negb].
  destruct ("${" +:+ x +:+ "}") as [|c s] eqn:Es; [discriminate|].
  cbn [Str.isEmpty negb mapM]. rewrite <- Es.
  rewrite (variableMatch_variable x Hxi).
  unfold Identifier.parse. rewrite parseIdentifier_by_colons.
  unfold qualify, Identifier.asIdentifier.
  destruct (colons x) as [|[|k]]; [reflexivity|reflexivity|lia].
Qed.

(** What an action assigns to a variable, a text that interpolates the
    variable shows. *)
Lemma show_assigned x e ns variables :
  wellFormedTarget x = true -> wellFormedE e = true ->
  assignedE ns variables e ->
  exists variables',
    runAction (x +:+ "=" +:+ textE e) ns variables = Ok variables'
    /\ renderText ("${" +:+ x +:+ "}") ns variables'
       = Ok (Js.joined (valueE ns variables e)).
Proof.
  intros Hx He Hd. eexists. split.
  - apply (runAction_text x Set_ e ns variables Hx He Hd).
  - unfold renderText. rewrite (new_variable x ns Hx).
    cbn [mbind result_bind]. cbn. unfold readVar.
    rewrite lookup_insert_eq. cbn [assigned]. now rewrite append_nil_r.
Qed.

End WithConditional.

End TextMore.

(** ** The loop of [getChoice] *)

Module ChoiceFacts.

Import Model Engine Dialogue.

Lemma no_number_between_one_and_zero x :
  (is_nan x || (x <? 1) || (0 <? x))%float = true.
Proof.
  unfold is_nan. rewrite FloatAxioms.eqb_spec, !FloatAxioms.ltb_spec.
  change (Prim2SF 1) with (S754_finite false 4503599627370496 (-52)).
  change (Prim2SF 0) with (S754_zero false).
  destruct (Prim2SF x) as [s|s| |s m e]; try destruct s;
    try reflexivity;
    change (SFltb (S754_finite true m e)
              (S754_finite false 4503599627370496 (-52))) with true;
    change (SFltb (S754_zero false) (S754_finite false m e)) with true;
    now rewrite ?orb_true_r.
Qed.

Section WithConditional.
Context {C : ConditionalClass}.

Lemma said_said (w : world) i1 o1 i2 o2 :
  said (said w i1 o1) i2 o2 = said w i2 (o1 ++ o2).
Proof. unfold said. cbn. now rewrite <- app_assoc. Qed.

Lemma getChoice_step fuel numOptions (w : world) line rest :
  input w = line :: rest ->
  getChoice (S fuel) numOptions w
  = if rejected numOptions line
    then getChoice fuel numOptions (said w rest [prompt; hint numOptions])
    else Returned (answer line) (said w rest [prompt]).
Proof.
  intros Hi. cbn [getChoice]. unfold mbind, M_bind, bind, write, read.
  cbn [input]. rewrite Hi.
  fold (answer line).
  change (is_nan (answer line) || (answer line <? 1)
          || (Num.ofZ (Z.of_nat numOptions) <? answer line))%float
    with (rejected numOptions line).
  destruct (rejected numOptions line); [|reflexivity].
  cbn. unfold said. cbn. now rewrite <- app_assoc.
Qed.

Lemma getChoice_waits fuel numOptions (w : world) :
  input w = [] ->
  getChoice (S fuel) numOptions w = Awaiting (said w [] [prompt]).
Proof.
  intros Hi. cbn [getChoice]. unfold mbind, M_bind, bind, write, read.
  cbn [input]. rewrite Hi. reflexivity.
Qed.

(** What [getChoice] has done when it returns. *)
Lemma getChoice_returns fuel numOptions : forall (w : world) c w',
  getChoice fuel numOptions w = Returned c w' ->
  exists before line,
    input w = before ++ line :: input w'
    /\ forallb (rejected numOptions) before = true
    /\ rejected numOptions line = false
    /\ c = answer line
    /\ w' = said w (input w') (rejections numOptions before ++ [prompt]).
Proof.
  induction fuel as [|fuel IH]; intros w c w' H; [discriminate|].
  destruct (input w) as [|line rest] eqn:Hi.
  - rewrite (getChoice_waits _ _ _ Hi) in H. discriminate.
  - rewrite (getChoice_step _ _ _ _ _ Hi) in H.
    destruct (rejected numOptions line) eqn:Hr.
    + destruct (IH _ _ _ H) as (before & l & Hin & Hb & Hl & Hc & Hw).
      exists (line :: before), l. cbn [input said] in Hin.
      repeat split; auto.
      * now rewrite Hin.
      * cbn. now rewrite Hr, Hb.
      * rewrite Hw, said_said. reflexivity.
    + injection H as <- <-. exists [], line. repeat split; auto.
Qed.

Lemma rejected_none line : rejected 0 line = true.
Proof.
  unfold rejected. change (Num.ofZ (Z.of_nat 0)) with 0%float.
  apply no_number_between_one_and_zero.
Qed.

Lemma getChoice_none fuel (w : world) c w' :
  getChoice fuel 0 w <> Returned c w'.
Proof.
  intros H. apply getChoice_returns in H as (before & line & _ & _ & Hl & _).
  now rewrite rejected_none in Hl.
Qed.

End WithConditional.

End ChoiceFacts.

(** ** Objects as maps, and what the constructors build *)

Module ObjFacts.

Lemma string_eqb_refl k : String.eqb k k = true.
Proof. apply String.eqb_refl. Qed.

Lemma get_set_eq {A} k (v : A) o : Obj.get k (Obj.set k v o) = Some v.
Proof.
  induction o as [|[k' x] o IH]; cbn [Obj.set Obj.get].
  - now rewrite string_eqb_refl.
  - destruct (String.eqb k' k) eqn:E; cbn [Obj.get]; rewrite E; auto.
Qed.

Lemma get_set_ne {A} k k' (v : A) o :
  k <> k' -> Obj.get k' (Obj.set k v o) = Obj.get k' o.
Proof.
  intros Hne. induction o as [|[k0 x] o IH]; cbn [Obj.set Obj.get].
  - destruct (String.eqb_spec k k'); [contradiction|reflexivity].
  - destruct (String.eqb_spec k0 k) as [->|]; cbn [Obj.get].
    + destruct (String.eqb_spec k k'); [contradiction|reflexivity].
    + now rewrite IH.
Qed.

Lemma hasOwnProperty_false {A} k (o : Obj.t A) :
  Obj.hasOwnProperty k o = false -> Obj.get k o = None.
Proof. unfold Obj.hasOwnProperty. now destruct (Obj.get k o). Qed.

End ObjFacts.

Module BuildFacts.

Import Model Build ObjFacts.

Section WithConditional.
Context {C : ConditionalClass}.

(** What a scene that was built holds of its JSON. *)
Lemma newScene_fields json adventure context scene :
  newScene json adventure context = Ok scene ->
  Json.Scene.name json = Some (Model.name scene)
  /\ Model.name scene <> ""
  /\ includesColon (Model.name scene) = false
  /\ Model.adventure scene = adventure
  /\ identifier scene = "".
Proof.
  unfold newScene.
  destruct (Json.Scene.name json) as [[|c n]|]; try discriminate.
  destruct (includesColon (String c n)) eqn:Ec; [discriminate|].
  destruct (Json.Scene.title json) as [[|d t]|]; try discriminate.
  destruct (Text.new (String d t) adventure); [|discriminate].
  cbn [mbind result_bind].
  destruct (Json.Scene.content json) as [[|l ls]|]; try discriminate.
  destruct (mapM _ (l :: ls)); [|discriminate]. cbn [mbind result_bind].
  destruct (Action.parseActions _ _); [|discriminate].
  cbn [mbind result_bind].
  destruct (Json.Scene.options json); [|discriminate].
  destruct (mapM _ _); [|discriminate]. cbn [mbind result_bind].
  intros [= <-]. cbn. repeat split; auto; discriminate.
Qed.

Lemma addScenes_registry name context l : forall reg reg',
  addScenes name context l reg = Ok reg' ->
  (forall k s, Obj.get k reg = Some s -> Obj.get k reg' = Some s)
  /\ (forall j, In j l -> exists s,
        newScene j name context = Ok s
        /\ Obj.get (Identifier.asIdentifier name (Model.name s)) reg' = Some s)
  /\ (forall k s, Obj.get k reg' = Some s ->
        Obj.get k reg = Some s
        \/ exists j, In j l /\ newScene j name context = Ok s
                     /\ k = Identifier.asIdentifier name (Model.name s)).
Proof.
  induction l as [|j l IH]; intros reg reg'; cbn [addScenes].
  - intros [= <-]. repeat split; auto. intros j [].
  - destruct (newScene j name context) as [s|] eqn:Es; [|discriminate].
    cbn [mbind result_bind].
    destruct (Obj.hasOwnProperty _ reg) eqn:Eh; [discriminate|].
    apply hasOwnProperty_false in Eh. intros H.
    destruct (IH _ _ H) as (Hkeep & Hall & Honly).
    assert (Hnew : Obj.get (Identifier.asIdentifier name (Model.name s)) reg'
                   = Some s)
      by (apply Hkeep, get_set_eq).
    repeat split.
    + intros k s0 Hk. apply Hkeep.
      destruct (string_dec (Identifier.asIdentifier name (Model.name s)) k)
        as [<-|Hne]; [congruence|].
      now rewrite get_set_ne.
    + intros j0 [<-|Hin]; [exists s; split; assumption|].
      apply Hall, Hin.
    + intros k s0 Hk. destruct (Honly k s0 Hk) as [Hset|(j0 & Hin & Hj & ->)].
      * destruct (string_dec (Identifier.asIdentifier name (Model.name s)) k)
          as [<-|Hne].
        -- rewrite get_set_eq in Hset. injection Hset as <-.
           right. exists j. repeat split; auto. now left.
        -- rewrite get_set_ne in Hset by assumption. now left.
      * right. exists j0. repeat split; auto. now right.
Qed.

(** The adventure that was built, in terms of its JSON. *)
Lemma newAdventure_fields json reg adv reg' :
  newAdventure json reg = Ok (adv, reg') ->
  exists title scenesObjects,
    Json.Adventure.name json = Some (name adv)
    /\ includesColon (name adv) = false
    /\ Json.Adventure.title json = Some title
    /\ Text.new title (name adv) = Ok (Build.title adv)
    /\ Json.Adventure.version json = Some (version adv)
    /\ isValidVersionNumber (version adv) = true
    /\ author adv = Build.title adv
    /\ globalTop adv
       = (if given (Json.Adventure.globalTop json)
          then Some (Build.title adv) else None)
    /\ globalBottom adv
       = (if given (Json.Adventure.globalBottom json)
          then Some (Build.title adv) else None)
    /\ Identifier.parse (default "start" (Json.Adventure.startingScene json))
                        (name adv) None
       = Ok (startingScene adv)
    /\ Action.parseActions (Json.Adventure.actions json) (name adv)
       = Ok (Build.actions adv)
    /\ Json.Adventure.scenes json = Some scenesObjects
    /\ addScenes (name adv) newContext scenesObjects reg = Ok reg'.
Proof.
  unfold newAdventure.
  destruct (Json.Adventure.name json) as [n|]; [|discriminate].
  destruct (includesColon n) eqn:Ec; [discriminate|].
  destruct (Json.Adventure.title json) as [t|]; [|discriminate].
  destruct (Text.new t n) as [t'|] eqn:Et; [|discriminate].
  cbn [mbind result_bind].
  destruct (Json.Adventure.version json) as [v|]; [|discriminate].
  destruct (is_zero v || is_nan v); [discriminate|].
  destruct (isValidVersionNumber v) eqn:Ev; [|discriminate].
  cbn [negb]. cbn [mbind result_bind].
  destruct (Action.parseActions _ n) as [acts|] eqn:Ea; [|discriminate].
  cbn [mbind result_bind].
  destruct (given (Json.Adventure.globalTop json));
    destruct (given (Json.Adventure.globalBottom json));
    rewrite ?Et; cbn [fmap result_fmap mbind result_bind];
    (destruct (Identifier.parse _ n None) as [st|] eqn:Es; [|discriminate]);
    cbn [mbind result_bind];
    (destruct (Json.Adventure.scenes json) as [l|]; [|discriminate]);
    (destruct (addScenes n _ l reg) as [r|] eqn:Er; [|discriminate]);
    cbn [mbind result_bind]; intros [= <- <-]; cbn;
    exists t, l; repeat split; auto.
Qed.

End WithConditional.

End BuildFacts.

(** ** The adventure of a name and a title *)

Module DocumentFacts.

Import Model Build Documents ObjFacts BuildFacts IdentifierFacts Reads.

Section WithConditional.
Context {C : ConditionalClass}.

Lemma newAdventure_minimal name title reg :
  includesColon name = false -> Str.all (Str.isNot "{") title = true ->
  newAdventure (minimal name title) reg = Ok (minimalAdventure name title, reg).
Proof.
  intros Hn Ht. unfold newAdventure, minimal, minimalAdventure.
  cbn [Json.Adventure.name Json.Adventure.title Json.Adventure.version
       Json.Adventure.requires Json.Adventure.actions
       Json.Adventure.globalTop Json.Adventure.globalBottom
       Json.Adventure.startingScene Json.Adventure.scenes].
  rewrite Hn, (TextMore.new_plain title name Ht).
  cbn [mbind result_bind]. fold (literal title).
  change (is_zero 1 || is_nan 1) with false. cbv iota.
  change (negb (isValidVersionNumber 1)) with false. cbv iota.
  cbn [given Action.parseActions mbind result_bind default].
  unfold Identifier.parse. rewrite parseIdentifier_by_colons.
  cbn [colons]. cbn. reflexivity.
Qed.

End WithConditional.

End DocumentFacts.

(** ** The linker *)

Module LinkFacts.

Import Model Build Setup Documents ObjFacts.

Section WithConditional.
Context {C : ConditionalClass}.

Lemma relinked_refl (s : Scene) : relinked s s.
Proof. repeat split. Qed.

Lemma relinked_trans (s1 s2 s3 : Scene) :
  relinked s1 s2 -> relinked s2 s3 -> relinked s1 s3.
Proof.
  intros (a1 & b1 & c1 & d1 & e1 & f1) (a2 & b2 & c2 & d2 & e2 & f2).
  repeat split; congruence.
Qed.

Lemma furtherLinked_refl (o : Obj.t Scene) : furtherLinked o o.
Proof.
  intros k. destruct (Obj.get k o) as [s|] eqn:E; [|reflexivity].
  exists s. repeat split; auto.
Qed.

Lemma furtherLinked_trans (o1 o2 o3 : Obj.t Scene) :
  furtherLinked o1 o2 -> furtherLinked o2 o3 -> furtherLinked o1 o3.
Proof.
  intros H12 H23 k. specialize (H12 k). specialize (H23 k).
  destruct (Obj.get k o1) as [s1|].
  - destruct H12 as (s2 & E2 & R12 & I12). rewrite E2 in H23.
    destruct H23 as (s3 & E3 & R23 & I23). exists s3.
    split; [exact E3|]. split; [eapply relinked_trans; eassumption|auto].
  - now rewrite H12 in H23.
Qed.

Lemma resolved_further (o o' : Obj.t Scene) k :
  furtherLinked o o' -> resolved k o -> resolved k o'.
Proof.
  intros H (s & E & I). specialize (H k). rewrite E in H.
  destruct H as (s' & E' & _ & I'). exists s'. auto.
Qed.

Lemma resolve_spec id (o o' : Obj.t Scene) :
  resolve id o = Ok o' -> furtherLinked o o' /\ resolved id o'.
Proof.
  unfold resolve. destruct (Obj.get id o) as [s|] eqn:E; [|discriminate].
  intros [= <-]. split.
  - intros k. destruct (string_dec id k) as [<-|Hne].
    + rewrite E, get_set_eq. eexists. split; [reflexivity|].
      split; [repeat split|auto].
    + rewrite get_set_ne by assumption.
      destruct (Obj.get k o) as [s0|]; [|reflexivity].
      exists s0. repeat split; auto.
  - eexists. split; [apply get_set_eq|reflexivity].
Qed.

Lemma linkOptions_spec opts : forall (o o' : Obj.t Scene),
  linkOptions opts o = Ok o' ->
  furtherLinked o o' /\ forall opt, In opt opts -> resolved (target opt) o'.
Proof.
  induction opts as [|opt opts IH]; intros o o'; cbn [linkOptions].
  - intros [= <-]. split; [apply furtherLinked_refl|intros ? []].
  - destruct (resolve (target opt) o) as [o1|] eqn:E; [|discriminate].
    cbn [mbind result_bind]. intros H.
    destruct (resolve_spec _ _ _ E) as [F1 R1].
    destruct (IH _ _ H) as [F2 R2]. split.
    + eapply furtherLinked_trans; eassumption.
    + intros x [<-|Hin]; [|auto]. eapply resolved_further; eassumption.
Qed.

Lemma linkScenes_spec entries : forall (o o' : Obj.t Scene),
  linkScenes entries o = Ok o' ->
  furtherLinked o o'
  /\ forall k s opt, In (k, s) entries -> In opt (options s) ->
       resolved (target opt) o'.
Proof.
  induction entries as [|[k s] entries IH]; intros o o'; cbn [linkScenes].
  - intros [= <-]. split; [apply furtherLinked_refl|intros ? ? ? []].
  - destruct (linkOptions (options s) o) as [o1|] eqn:E; [|discriminate].
    cbn [mbind result_bind]. intros H.
    destruct (linkOptions_spec _ _ _ E) as [F1 R1].
    destruct (IH _ _ H) as [F2 R2]. split.
    + eapply furtherLinked_trans; eassumption.
    + intros k0 s0 opt [[= <- <-]|Hin] Hopt.
      * eapply resolved_further; [exact F2|]. now apply R1.
      * eapply R2; eassumption.
Qed.

Lemma linkStarts_spec entries : forall (o o' : Obj.t Scene) v v',
  linkStarts entries o v = Ok (o', v') ->
  furtherLinked o o'
  /\ forall k a, In (k, a) entries -> resolved (startingScene a) o'.
Proof.
  induction entries as [|[k a] entries IH]; intros o o' v v';
    cbn [linkStarts].
  - intros [= <- <-]. split; [apply furtherLinked_refl|intros ? ? []].
  - destruct (Action.evaluateAll (actions a) v) as [v1|]; [|discriminate].
    cbn [mbind result_bind].
    destruct (resolve (startingScene a) o) as [o1|] eqn:E; [|discriminate].
    cbn [mbind result_bind]. intros H.
    destruct (resolve_spec _ _ _ E) as [F1 R1].
    destruct (IH _ _ _ _ H) as [F2 R2]. split.
    + eapply furtherLinked_trans; eassumption.
    + intros k0 a0 [[= <- <-]|Hin].
      * eapply resolved_further; eassumption.
      * eapply R2; eassumption.
Qed.

Lemma insertIndexed_In {A} n (e : string * A) l x :
  In x (Obj.insertIndexed n e l) <-> x = (n, e) \/ In x l.
Proof.
  induction l as [|[m y] l IH]; cbn [Obj.insertIndexed].
  - simpl. intuition.
  - destruct (n <? m); simpl in *; intuition.
Qed.

Lemma entries_In {A} (o : Obj.t A) x : In x o -> In x (Obj.entries o).
Proof.
  unfold Obj.entries. intros Hin. apply in_or_app.
  destruct (Obj.arrayIndex (fst x)) as [n|] eqn:E.
  - left. apply in_map_iff. exists (n, x). split; [reflexivity|].
    induction o as [|y o IH]; [destruct Hin|]. cbn [fold_right].
    destruct Hin as [->|Hin].
    + rewrite E. apply insertIndexed_In. now left.
    + destruct (Obj.arrayIndex (fst y));
        [apply insertIndexed_In; right|]; auto.
  - right. apply filter_In. split; [exact Hin|]. now rewrite E.
Qed.

Lemma get_In {A} k (o : Obj.t A) v : Obj.get k o = Some v -> In (k, v) o.
Proof.
  induction o as [|[k' x] o IH]; [discriminate|]. cbn [Obj.get].
  destruct (String.eqb_spec k' k) as [->|].
  - intros [= ->]. now left.
  - intros H. right. auto.
Qed.

(** What the linker has done when it returns. *)
Lemma linkAdventures_spec (e e' : engine) :
  linkAdventures e = Ok e' ->
  adventures e' = adventures e
  /\ furtherLinked (scenes e) (scenes e')
  /\ (forall k a, In (k, a) (adventures e) ->
        resolved (startingScene a) (scenes e'))
  /\ (forall k s opt, Obj.get k (scenes e') = Some s -> In opt (options s) ->
        resolved (target opt) (scenes e')).
Proof.
  unfold linkAdventures.
  destruct (linkStarts _ (scenes e) (variables e)) as [[o1 v1]|] eqn:E1;
    [|discriminate].
  cbn [mbind result_bind].
  destruct (linkScenes (Obj.entries o1) o1) as [o2|] eqn:E2; [|discriminate].
  cbn [mbind result_bind]. intros [= <-]. cbn [adventures scenes].
  destruct (linkStarts_spec _ _ _ _ _ E1) as [F1 R1].
  destruct (linkScenes_spec _ _ _ E2) as [F2 R2].
  split; [reflexivity|]. split; [eapply furtherLinked_trans; eassumption|].
  split.
  - intros k a Hin. eapply resolved_further; [exact F2|].
    eapply R1. apply entries_In, Hin.
  - intros k s opt Hk Hopt. pose proof (F2 k) as Fk.
    destruct (Obj.get k o1) as [s1|] eqn:Ek; [|congruence].
    destruct Fk as (s' & Es' & (_ & _ & _ & _ & _ & Ho) & _).
    assert (s' = s) by congruence. subst s'.
    eapply (R2 k s1); [apply entries_In, get_In, Ek|]. now rewrite <- Ho.
Qed.

End WithConditional.

End LinkFacts.

(** ** From the registries of the loader to those of a run *)

Module SetupFacts.

Import Model Build Setup Documents Running ObjFacts BuildFacts LinkFacts
       IdentifierFacts IdentifierMore Reads.

Section WithConditional.
Context {C : ConditionalClass}.

Lemma includesColon_colons s : includesColon s = false -> colons s = 0%nat.
Proof.
  unfold includesColon. intros H%negb_false_iff.
  induction s as [|c s IH]; [reflexivity|]. simpl in *.
  apply andb_true_iff in H as [Hc Hs]. rewrite (IH Hs).
  unfold Str.isNot in Hc. apply negb_true_iff in Hc. now rewrite Hc.
Qed.

Lemma hasOwnProperty_set {A} k k' (v : A) o :
  Obj.hasOwnProperty k' o = true ->
  Obj.hasOwnProperty k' (Obj.set k v o) = true.
Proof.
  unfold Obj.hasOwnProperty. destruct (string_dec k k') as [<-|Hne].
  - now rewrite get_set_eq.
  - now rewrite get_set_ne.
Qed.

Lemma hasOwnProperty_set_eq {A} k (v : A) o :
  Obj.hasOwnProperty k (Obj.set k v o) = true.
Proof. unfold Obj.hasOwnProperty. now rewrite get_set_eq. Qed.

Lemma assignAdventure_other k (v : Build.Adventure) o :
  k <> "__proto__" -> assignAdventure k v o = Obj.set k v o.
Proof.
  intros Hk. unfold assignAdventure.
  destruct (String.eqb_spec k "__proto__"); [contradiction|reflexivity].
Qed.

Lemma assignAdventure_proto (v : Build.Adventure) o :
  assignAdventure "__proto__" v o = o.
Proof. reflexivity. Qed.

Lemma hasOwnProperty_assign k k' (v : Build.Adventure) o :
  Obj.hasOwnProperty k' o = true ->
  Obj.hasOwnProperty k' (assignAdventure k v o) = true.
Proof.
  unfold assignAdventure. destruct (String.eqb k "__proto__"); [auto|].
  apply hasOwnProperty_set.
Qed.

(** What a load that returns has done. *)
Lemma load_spec json (e e' : engine) :
  load json e = Ok e' ->
  exists adv,
    newAdventure json (scenes e) = Ok (adv, scenes e')
    /\ Obj.hasOwnProperty (name adv) (adventures e) = false
    /\ adventures e' = assignAdventure (name adv) adv (adventures e)
    /\ variables e' = variables e
    /\ Obj.hasOwnProperty "hasOwnProperty" (adventures e) = false.
Proof.
  unfold load. destruct (newAdventure json (scenes e)) as [[adv reg]|];
    [|discriminate].
  cbn [mbind result_bind]. unfold loadAdventure, ownsAdventure.
  cbn [adventures scenes].
  destruct (Obj.hasOwnProperty "hasOwnProperty" (adventures e)) eqn:M;
    [discriminate|].
  cbn [mbind result_bind].
  destruct (Obj.hasOwnProperty (name adv) (adventures e)) eqn:E;
    [discriminate|].
  intros [= <-]. exists adv. repeat split; auto.
Qed.

(** The name under which a JSON is loaded. *)
Lemma load_name json (e e' : engine) adv :
  newAdventure json (scenes e) = Ok (adv, scenes e') ->
  Json.Adventure.name json = Some (name adv).
Proof.
  intros Hn. now destruct (newAdventure_fields _ _ _ _ Hn) as (t & l & N & _).
Qed.

Lemma load_registered json (e e' : engine) :
  Json.Adventure.name json <> Some "__proto__" ->
  registered e -> load json e = Ok e' -> registered e'.
Proof.
  intros P R H. destruct (load_spec _ _ _ H) as (adv & Hn & _ & Ha & _).
  assert (Hp : name adv <> "__proto__")
    by (intros Hp; apply P; now rewrite (load_name _ _ _ _ Hn), Hp).
  rewrite (assignAdventure_other _ _ _ Hp) in Ha.
  destruct (newAdventure_fields _ _ _ _ Hn)
    as (t & l & _ & Hc & _ & _ & _ & _ & _ & _ & _ & _ & _ & _ & Hadd).
  destruct (addScenes_registry _ _ _ _ _ Hadd) as (_ & _ & Honly).
  intros k s Hk. rewrite Ha.
  destruct (Honly k s Hk) as [Hold|(j & _ & Hj & ->)].
  - destruct (R k s Hold) as [Hk1 Hown]. split; [exact Hk1|].
    now apply hasOwnProperty_set.
  - destruct (newScene_fields _ _ _ _ Hj) as (_ & _ & Hsc & Hadv & _).
    split.
    + rewrite colons_asIdentifier, (includesColon_colons _ Hc),
        (includesColon_colons _ Hsc). reflexivity.
    + rewrite Hadv. apply hasOwnProperty_set_eq.
Qed.

(** The system adventure is loaded in every engine. *)
Lemma built_system (e : engine) :
  built e -> Obj.hasOwnProperty Engine.INKSPIRE_NAMESPACE (adventures e) = true.
Proof.
  induction 1 as [e H|e json e' _ IH _ H].
  - unfold newEngine in H.
    destruct (load_spec _ _ _ H) as (adv & Hn & _ & -> & _).
    pose proof (load_name _ _ _ _ Hn) as Hname.
    cbn in Hname. injection Hname as <-. apply hasOwnProperty_set_eq.
  - destruct (load_spec _ _ _ H) as (adv & _ & _ & -> & _).
    now apply hasOwnProperty_assign.
Qed.

(** Once loaded, a name is taken. *)
Lemma load_again json json' (e e' e'' : engine) :
  Json.Adventure.name json <> Some "__proto__" ->
  load json e = Ok e' ->
  Json.Adventure.name json' = Json.Adventure.name json ->
  load json' e' <> Ok e''.
Proof.
  intros P H Hname H'.
  destruct (load_spec _ _ _ H) as (adv & Hn & _ & Ha & _).
  destruct (load_spec _ _ _ H') as (adv' & Hn' & Hfree & _).
  pose proof (load_name _ _ _ _ Hn) as N.
  pose proof (load_name _ _ _ _ Hn') as N'.
  assert (Hp : name adv <> "__proto__")
    by (intros Hp; apply P; now rewrite N, Hp).
  rewrite Hname, N in N'. injection N' as N'.
  rewrite Ha, (assignAdventure_other _ _ _ Hp), <- N',
    hasOwnProperty_set_eq in Hfree.
  discriminate Hfree.
Qed.

Lemma built_registered (e : engine) : built e -> registered e.
Proof.
  induction 1 as [e H|e json e' _ IH P H].
  - unfold newEngine in H. revert H. apply load_registered; [discriminate|].
    intros k s. discriminate.
  - revert H. now apply load_registered.
Qed.

Lemma link_registered (e e' : engine) :
  registered e -> linkAdventures e = Ok e' -> registered e'.
Proof.
  intros R H. destruct (linkAdventures_spec _ _ H) as (Ha & F & _ & _).
  intros k s Hk. pose proof (F k) as Fk. rewrite Ha.
  destruct (Obj.get k (scenes e)) as [s0|] eqn:E; [|congruence].
  destruct Fk as (s' & Es' & (Hadv & _) & _).
  assert (s' = s) by congruence. subst s'.
  destruct (R k s0 E) as [Hk1 Hown]. split; [exact Hk1|]. now rewrite Hadv.
Qed.

Lemma lookup_list_to_map {A} (o : Obj.t A) k :
  (list_to_map o : gmap string A) !! k = Obj.get k o.
Proof.
  induction o as [|[k' v] o IH]; [reflexivity|].
  cbn [list_to_map foldr Obj.get]. cbn.
  destruct (String.eqb_spec k' k) as [->|Hne].
  - apply lookup_insert_eq.
  - rewrite lookup_insert_ne by assumption. exact IH.
Qed.

Lemma lookup_world_scenes (e : engine) input k :
  Engine.scenes (world e input) !! k = Obj.get k (scenes e).
Proof. apply lookup_list_to_map. Qed.

Lemma lookup_world_adventures (e : engine) input k :
  Obj.hasOwnProperty k (adventures e) = true ->
  is_Some (Engine.adventures (world e input) !! k).
Proof.
  unfold world. cbn [Engine.adventures]. rewrite lookup_list_to_map.
  unfold Obj.hasOwnProperty.
  induction (adventures e) as [|[k' a] o IH]; [discriminate|].
  cbn [map Obj.get]. destruct (String.eqb k' k); [eauto|exact IH].
Qed.

Lemma lookup_world_start (e : engine) input k adv :
  Engine.adventures (world e input) !! k = Some adv ->
  exists a, In (k, a) (adventures e)
            /\ Build.startingScene a = Model.startingScene adv.
Proof.
  unfold world. cbn [Engine.adventures]. rewrite lookup_list_to_map.
  induction (adventures e) as [|[k' a] o IH]; [discriminate|].
  cbn [map Obj.get]. destruct (String.eqb_spec k' k) as [->|Hne].
  - intros [= <-]. exists a. split; [now left|reflexivity].
  - intros H. destruct (IH H) as (a0 & Hin & Hs). exists a0. split; auto.
    now right.
Qed.

(** The registries of an engine that was built and linked. *)
Lemma linked_world (e e' : engine) input :
  built e -> linkAdventures e = Ok e' -> linked (world e' input).
Proof.
  intros B H. pose proof (link_registered _ _ (built_registered _ B) H) as R.
  destruct (linkAdventures_spec _ _ H) as (_ & _ & _ & Hopt).
  intros k s Hk. rewrite lookup_world_scenes in Hk.
  destruct (R k s Hk) as [Hk1 Hown]. split; [exact Hk1|].
  split; [now apply lookup_world_adventures|].
  intros opt Hin. destruct (Hopt k s opt Hk Hin) as (s' & Es' & Hid).
  exists s'. now rewrite lookup_world_scenes.
Qed.

End WithConditional.

End SetupFacts.

(** ** What the pieces of a turn leave as it was *)

Module RunFacts.

Import Model Engine Running.

#[local] Existing Instance Engine.M_ret.
#[local] Existing Instance Engine.M_bind.

Section WithConditional.
Context {C : ConditionalClass}.

Lemma keeps_ret {A} (a : A) (Q : A -> Prop) : Q a -> keeps (ret a) Q.
Proof. intros Ha w b w' [= <- <-]. auto. Qed.

Lemma keeps_mret {A} (a : A) (Q : A -> Prop) : Q a -> keeps (mret a) Q.
Proof. apply keeps_ret. Qed.

Lemma keeps_bind {A B} (m : M A) (f : A -> M B) (Q : A -> Prop)
    (R : B -> Prop) :
  keeps m Q -> (forall a, Q a -> keeps (f a) R) -> keeps (m ≫= f) R.
Proof.
  intros Hm Hf w b w'. unfold mbind, M_bind, bind.
  destruct (m w) as [a w1|e w1|w1] eqn:E; try discriminate.
  intros H. destruct (Hm _ _ _ E) as (S1 & A1 & Qa).
  destruct (Hf a Qa _ _ _ H) as (S2 & A2 & Rb).
  repeat split; congruence.
Qed.

Lemma keeps_weaken {A} (m : M A) (Q R : A -> Prop) :
  keeps m Q -> (forall a, Q a -> R a) -> keeps m R.
Proof.
  intros Hm HQR w a w' E. destruct (Hm _ _ _ E) as (? & ? & ?). auto.
Qed.

Lemma keeps_write line : keeps (write line) (fun _ => True).
Proof. intros w a w' [= <- <-]. auto. Qed.

Lemma keeps_read : keeps read (fun _ => True).
Proof.
  intros w a w'. unfold read. destruct (input w); [discriminate|].
  intros [= <- <-]. auto.
Qed.

Lemma keeps_raise {A} e (Q : A -> Prop) : keeps (raise e) Q.
Proof. intros w a w'. discriminate. Qed.

Lemma keeps_evaluateAction a : keeps (evaluateAction a) (fun _ => True).
Proof.
  intros w x w'. unfold evaluateAction.
  destruct (Action.evaluate a (variables w)); [|discriminate].
  intros [= <- <-]. auto.
Qed.

Lemma keeps_evaluateActions l : keeps (evaluateActions l) (fun _ => True).
Proof.
  induction l as [|a l IH]; cbn [evaluateActions].
  - now apply keeps_ret.
  - eapply keeps_bind; [apply keeps_evaluateAction|]. intros _ _. exact IH.
Qed.

Lemma keeps_evaluateText text : keeps (evaluateText text) (fun _ => True).
Proof.
  intros w x w'. unfold evaluateText.
  destruct (Text.evaluate text (variables w)); [|discriminate].
  intros [= <- <-]. auto.
Qed.

Lemma keeps_writeAll lines : keeps (writeAll lines) (fun _ => True).
Proof.
  induction lines as [|l lines IH]; cbn [writeAll].
  - now apply keeps_ret.
  - eapply keeps_bind; [apply keeps_write|]. intros _ _. exact IH.
Qed.

Lemma keeps_writeOptional text : keeps (writeOptional text) (fun _ => True).
Proof.
  destruct text as [text|]; cbn [writeOptional]; [|now apply keeps_ret].
  eapply keeps_bind; [apply keeps_evaluateText|]. intros [line text'] _.
  eapply keeps_bind; [apply keeps_write|]. intros _ _. now apply keeps_ret.
Qed.

Lemma keeps_evaluateTexts l : keeps (evaluateTexts l) (fun _ => True).
Proof.
  induction l as [|t l IH]; cbn [evaluateTexts].
  - now apply keeps_ret.
  - eapply keeps_bind; [apply keeps_evaluateText|]. intros [line text'] _.
    eapply keeps_bind; [exact IH|]. intros [lines rest'] _.
    now apply keeps_ret.
Qed.

Lemma keeps_getChoice fuel n : keeps (getChoice fuel n) (fun _ => True).
Proof.
  induction fuel as [|fuel IH]; cbn [getChoice]; [apply keeps_raise|].
  eapply keeps_bind; [apply keeps_write|]. intros _ _.
  eapply keeps_bind; [apply keeps_read|]. intros line _.
  destruct (_ || _)%float.
  - eapply keeps_bind; [apply keeps_write|]. intros _ _. exact IH.
  - now apply keeps_ret.
Qed.

Lemma keeps_partition l :
  keeps (partition l) (fun sorted => targets sorted = map target l).
Proof.
  induction l as [|o l IH]; cbn [partition].
  - now apply keeps_ret.
  - eapply (keeps_bind _ _ (fun _ => True)).
    + destruct (condition o) as [c|]; [|now apply keeps_ret].
      intros w a w'. destruct (condEvaluate c (variables w)) as [[v c']|];
        [|discriminate].
      intros [= <- <-]. auto.
    + intros [available condition'] _.
      eapply keeps_bind; [exact IH|]. intros rest' Hr.
      apply keeps_ret. unfold targets in *. cbn. now rewrite Hr.
Qed.

Lemma keeps_writeAvailable l : forall i,
  keeps (writeAvailable i l) (fun sorted => targets sorted = targets l).
Proof.
  induction l as [|[o b] l IH]; intros i; cbn [writeAvailable].
  - now apply keeps_ret.
  - destruct b.
    + eapply keeps_bind; [apply keeps_evaluateText|]. intros [text label'] _.
      eapply keeps_bind; [apply keeps_write|]. intros _ _.
      eapply keeps_bind; [apply IH|]. intros rest' Hr.
      apply keeps_ret. unfold targets in *. cbn. now rewrite Hr.
    + eapply keeps_bind; [apply IH|]. intros rest' Hr.
      apply keeps_ret. unfold targets in *. cbn. now rewrite Hr.
Qed.

Lemma keeps_writeUnavailable l :
  keeps (writeUnavailable l) (fun sorted => targets sorted = targets l).
Proof.
  induction l as [|[o b] l IH]; cbn [writeUnavailable].
  - now apply keeps_ret.
  - destruct b.
    + eapply keeps_bind; [apply IH|]. intros rest' Hr.
      apply keeps_ret. unfold targets in *. cbn. now rewrite Hr.
    + eapply (keeps_bind _ _ (fun o' => target o' = target o)).
      * destruct (alwaysVisible o); [|now apply keeps_ret].
        eapply keeps_bind; [apply keeps_evaluateText|].
        intros [text label'] _.
        eapply keeps_bind; [apply keeps_write|]. intros _ _.
        now apply keeps_ret.
      * intros o' Ho. eapply keeps_bind; [apply IH|]. intros rest' Hr.
        apply keeps_ret. unfold targets in *. cbn. now rewrite Hr, Ho.
Qed.

(** A turn at a registered scene: the reserved scenes apart, it plays the
    scene. *)
Lemma turn_play fuel history key (w : world) scene :
  scenes w !! key = Some scene ->
  turn fuel history (Some key) w
  = match reserved scene with
    | Throw e => Raised e w
    | Ok control =>
        (if String.eqb control "switch" then raise (JsError "Not implemented")
         else if String.eqb control "fail" then write "You failed" ;; ret Return
         else if String.eqb control "pass" then write "You win" ;; ret Return
         else if String.eqb control "exit" then
           write "Program terminated" ;; raise ProcessExit
         else if String.eqb control "back" then
           let (popped, history') := FixedSizeStack.pop history in
           ret (Continue history' popped)
         else
           match adventures w !! adventure scene with
           | None => undefinedRead "globalTop"
           | Some adv => play fuel history key scene adv
           end) w
    end.
Proof.
  intros Hs. unfold turn, reserved.
  unfold mbind at 1. unfold M_bind at 1. unfold bind at 1.
  cbn [mbind option_bind]. rewrite Hs. cbn [fmap option_fmap option_map].
  unfold mbind at 1. unfold M_bind at 1. unfold bind at 1.
  destruct (Identifier.getIdentifierNamespace (identifier scene)) as [ns|e];
    reflexivity.
Qed.

Lemma bind_returned {A B} (m : M A) (f : A -> M B) (w : world) b w' :
  (m ≫= f) w = Returned b w' ->
  exists a w1, m w = Returned a w1 /\ f a w1 = Returned b w'.
Proof.
  unfold mbind, M_bind, bind. destruct (m w) as [a w1|e w1|w1];
    [|discriminate|discriminate].
  intros E. now exists a, w1.
Qed.

End WithConditional.

End RunFacts.

(** ** Scenes without options *)

Module DeadEnd.

Import Model Engine Dialogue Running ChoiceFacts RunFacts.

#[local] Existing Instance Engine.M_ret.
#[local] Existing Instance Engine.M_bind.

Lemma String_eqb_true a b : String.eqb a b = true -> a = b.
Proof. apply String.eqb_eq. Qed.

Section WithConditional.
Context {C : ConditionalClass}.

Lemma play_none fuel history key scene adv (w : world) n w' :
  options scene = [] -> play fuel history key scene adv w <> Returned n w'.
Proof.
  intros Ho E. unfold play in E. rewrite Ho in E.
  repeat first
    [ apply bind_returned in E as (? & ? & ? & E)
    | match type of E with
      | context [let '(_, _) := ?p in _] => destruct p
      end ].
  match goal with
  | G : getChoice _ _ _ = Returned _ _ |- _ => now apply getChoice_none in G
  end.
Qed.

Lemma no_option_goes_on fuel history key (w : world) scene history' next' w' :
  scenes w !! key = Some scene -> options scene = [] ->
  turn fuel history (Some key) w = Returned (Continue history' next') w' ->
  reserved scene = Ok "back".
Proof.
  intros Hs Ho. rewrite (turn_play _ _ _ _ _ Hs).
  destruct (reserved scene) as [control|e]; [|discriminate].
  destruct (String.eqb control "switch"); [discriminate|].
  destruct (String.eqb control "fail"); [discriminate|].
  destruct (String.eqb control "pass"); [discriminate|].
  destruct (String.eqb control "exit"); [discriminate|].
  destruct (String.eqb control "back") eqn:Eb.
  - intros _. apply String_eqb_true in Eb. now subst.
  - destruct (adventures w !! adventure scene) as [adv|]; [|discriminate].
    intros E. exfalso. revert E. now apply play_none.
Qed.

End WithConditional.

End DeadEnd.

(** ** What the pieces of a turn keep linked *)

Module TurnFacts.

Import Model Engine Running RunFacts.

#[local] Existing Instance Engine.M_ret.
#[local] Existing Instance Engine.M_bind.

Section WithConditional.
Context {C : ConditionalClass}.

Lemma enterable_same (w w' : world) k :
  scenes w' = scenes w -> enterable w k -> enterable w' k.
Proof. intros E (s & Hs & Hi). exists s. now rewrite E. Qed.

Lemma linked_same (w w' : world) :
  scenes w' = scenes w -> adventures w' = adventures w ->
  linked w -> linked w'.
Proof.
  intros Es Ea L k s Hk. rewrite Es in Hk. destruct (L k s Hk) as (H1 & H2 & H3).
  rewrite Ea. repeat split; auto. intros o Ho.
  apply (enterable_same w); auto.
Qed.

Lemma steady_keeps {A} key a ts (m : M A) (Q : A -> Prop) :
  keeps m Q -> steady key a ts m Q.
Proof.
  intros K w x w' (L & s & Hs & Hi & Ha & Ht) E.
  destruct (K _ _ _ E) as (Es & Ea & Qx). split; [|exact Qx].
  split; [now apply (linked_same w)|]. exists s. now rewrite Es.
Qed.

Lemma steady_bind {A B} key a ts (m : M A) (f : A -> M B) (Q : A -> Prop)
    (R : B -> Prop) :
  steady key a ts m Q -> (forall x, Q x -> steady key a ts (f x) R) ->
  steady key a ts (m ≫= f) R.
Proof.
  intros Hm Hf w b w' Hc. unfold mbind, M_bind, bind.
  destruct (m w) as [x w1|e w1|w1] eqn:E; try discriminate.
  intros H. destruct (Hm _ _ _ Hc E) as (Hc1 & Qx).
  exact (Hf x Qx _ _ _ Hc1 H).
Qed.

Lemma steady_ret {A} key a ts (x : A) (Q : A -> Prop) :
  Q x -> steady key a ts (ret x) Q.
Proof. intros Hx. now apply steady_keeps, keeps_ret. Qed.

Lemma steady_putAdventure key a ts k adv :
  steady key a ts (putAdventure k adv) (fun _ => True).
Proof.
  intros w x w' (L & s & Hs & Hi & Ha & Ht) [= <- <-]. split; [|exact I].
  split.
  - intros k0 s0 Hk. cbn [scenes] in Hk. destruct (L k0 s0 Hk) as (H1 & H2 & H3).
    repeat split; auto. cbn [adventures].
    destruct (decide (k = adventure s0)) as [->|Hne].
    + rewrite lookup_insert_eq. eauto.
    + now rewrite lookup_insert_ne.
  - exists s. auto.
Qed.

Lemma steady_putScene key a ts scene' :
  identifier scene' = key -> adventure scene' = a ->
  map target (options scene') = ts ->
  steady key a ts (putScene key scene') (fun _ => True).
Proof.
  intros Hi' Ha' Ht' w x w' (L & s & Hs & Hi & Ha & Ht) [= <- <-].
  split; [|exact I].
  assert (Hent : forall t, enterable w t ->
            enterable {| adventures := adventures w;
                         scenes := <[key:=scene']> (scenes w);
                         variables := variables w; input := input w;
                         output := output w |} t).
  { intros t (st & Hst & Hit). unfold enterable. cbn [scenes].
    destruct (decide (key = t)) as [<-|Hne].
    - exists scene'. rewrite lookup_insert_eq. auto.
    - exists st. now rewrite lookup_insert_ne. }
  split.
  - intros k0 s0 Hk. cbn [scenes adventures] in *.
    destruct (decide (key = k0)) as [<-|Hne].
    + rewrite lookup_insert_eq in Hk. injection Hk as <-.
      destruct (L key s Hs) as (H1 & H2 & H3). rewrite Ha', <- Ha.
      repeat split; auto. intros o Ho. apply Hent.
      assert (Hin : In (target o) (map target (options s)))
        by (rewrite Ht, <- Ht'; now apply in_map).
      apply in_map_iff in Hin as (o0 & Eo & Hin). rewrite <- Eo. now apply H3.
    + rewrite lookup_insert_ne in Hk by assumption.
      destruct (L k0 s0 Hk) as (H1 & H2 & H3). repeat split; auto.
  - exists scene'. cbn [scenes]. rewrite lookup_insert_eq. auto.
Qed.

Lemma chosen_In (l : list Option) response o :
  chosen l response = Some o -> In o l.
Proof.
  unfold chosen. destruct (_ && _); [|discriminate]. apply nth_error_In.
Qed.

End WithConditional.

End TurnFacts.

(** ** A turn in a linked world *)

Module TurnInvariant.

Import Model Engine Running RunFacts TurnFacts DeadEnd.

#[local] Existing Instance Engine.M_ret.
#[local] Existing Instance Engine.M_bind.

Section WithConditional.
Context {C : ConditionalClass}.

Lemma steady_play fuel history key scene adv :
  identifier scene = key ->
  steady key (adventure scene) (map target (options scene))
    (play fuel history key scene adv)
    (leadsTo history (map target (options scene))).
Proof.
  intros Hi. unfold play.
  eapply steady_bind; [apply steady_keeps, keeps_evaluateActions|].
  intros _ _.
  eapply steady_bind; [apply steady_keeps, keeps_writeAll|]. intros _ _.
  eapply steady_bind; [apply steady_keeps, keeps_evaluateText|].
  intros [line title'] _.
  eapply steady_bind; [apply steady_keeps, keeps_write|]. intros _ _.
  eapply steady_bind; [apply steady_keeps, keeps_writeOptional|].
  intros globalTop' _.
  eapply steady_bind; [apply steady_keeps, keeps_evaluateTexts|].
  intros [lines content'] _.
  eapply steady_bind; [apply steady_keeps, keeps_writeAll|]. intros _ _.
  eapply steady_bind; [apply steady_keeps, keeps_writeOptional|].
  intros globalBottom' _.
  eapply steady_bind; [apply steady_putAdventure|]. intros _ _.
  destruct (options scene) as [|option [|option2 rest]] eqn:Ho.
  - (* no option *)
    eapply steady_bind; [apply steady_keeps, keeps_partition|].
    intros sorted Hs.
    eapply steady_bind; [apply steady_keeps, keeps_write|]. intros _ _.
    eapply steady_bind; [apply steady_keeps, keeps_write|]. intros _ _.
    eapply steady_bind; [apply steady_keeps, keeps_writeAvailable|].
    intros sorted1 Hs1.
    eapply steady_bind; [apply steady_keeps, keeps_writeUnavailable|].
    intros sorted2 Hs2.
    eapply steady_bind; [apply steady_keeps, keeps_write|]. intros _ _.
    eapply steady_bind.
    { apply steady_putScene; [exact Hi|reflexivity|].
      cbn [options withTexts]. rewrite map_map.
      change (map (fun x => target (fst x)) sorted2) with (targets sorted2).
      now rewrite Hs2, Hs1, Hs. }
    intros _ _.
    eapply steady_bind; [apply steady_keeps, keeps_getChoice|].
    intros response _. cbv zeta.
    destruct (chosen _ response) as [chosenOption|] eqn:Ec;
      [|apply steady_keeps, keeps_raise].
    eapply steady_bind; [apply steady_keeps, keeps_evaluateActions|].
    intros _ _. apply steady_ret. exists (target chosenOption).
    split; [reflexivity|].
    apply chosen_In in Ec. apply in_map_iff in Ec as ([o b] & <- & Hin).
    apply filter_In in Hin as [Hin _].
    assert (In (target o) (targets sorted2))
      by (unfold targets; apply in_map_iff; exists (o, b); auto).
    now rewrite Hs2, Hs1, Hs in *.
  - (* one option *)
    eapply steady_bind; [apply steady_keeps, keeps_evaluateText|].
    intros [text label'] _.
    eapply steady_bind;
      [apply steady_putScene; [exact Hi|reflexivity|reflexivity]|].
    intros _ _.
    eapply (steady_bind _ _ _ _ _ (fun _ => True)).
    { destruct text; [now apply steady_ret|apply steady_keeps, keeps_write]. }
    intros _ _.
    eapply steady_bind; [apply steady_keeps, keeps_write|]. intros _ _.
    eapply steady_bind; [apply steady_keeps, keeps_read|]. intros _ _.
    eapply steady_bind; [apply steady_keeps, keeps_evaluateActions|].
    intros _ _. apply steady_ret. exists (target option).
    split; [reflexivity|now left].
  - (* a menu *)
    eapply steady_bind; [apply steady_keeps, keeps_partition|].
    intros sorted Hs.
    eapply steady_bind; [apply steady_keeps, keeps_write|]. intros _ _.
    eapply steady_bind; [apply steady_keeps, keeps_write|]. intros _ _.
    eapply steady_bind; [apply steady_keeps, keeps_writeAvailable|].
    intros sorted1 Hs1.
    eapply steady_bind; [apply steady_keeps, keeps_writeUnavailable|].
    intros sorted2 Hs2.
    eapply steady_bind; [apply steady_keeps, keeps_write|]. intros _ _.
    eapply steady_bind.
    { apply steady_putScene; [exact Hi|reflexivity|].
      cbn [options withTexts]. rewrite map_map.
      change (map (fun x => target (fst x)) sorted2) with (targets sorted2).
      now rewrite Hs2, Hs1, Hs. }
    intros _ _.
    eapply steady_bind; [apply steady_keeps, keeps_getChoice|].
    intros response _. cbv zeta.
    destruct (chosen _ response) as [chosenOption|] eqn:Ec;
      [|apply steady_keeps, keeps_raise].
    eapply steady_bind; [apply steady_keeps, keeps_evaluateActions|].
    intros _ _. apply steady_ret. exists (target chosenOption).
    split; [reflexivity|].
    apply chosen_In in Ec. apply in_map_iff in Ec as ([o b] & <- & Hin).
    apply filter_In in Hin as [Hin _].
    assert (In (target o) (targets sorted2))
      by (unfold targets; apply in_map_iff; exists (o, b); auto).
    now rewrite Hs2, Hs1, Hs in *.
Qed.

(** A turn in a linked world, at a scene that can be entered and with
    the empty history of a run, leaves a linked world and the empty
    history, and goes on at a scene that can be entered, or from
    [inkspire:back] at none. *)
Lemma turn_linked fuel history key (w : world) history' next' w' :
  linked w -> enterable w key -> FixedSizeStack.items history = [] ->
  turn fuel history (Some key) w = Returned (Continue history' next') w' ->
  linked w' /\ FixedSizeStack.items history' = []
  /\ match next' with
     | Some key' => enterable w' key'
     | None => True
     end.
Proof.
  intros L (scene & Hs & Hi) Hh. rewrite (turn_play _ _ _ _ _ Hs).
  destruct (reserved scene) as [control|e]; [|discriminate].
  destruct (String.eqb control "switch"); [discriminate|].
  destruct (String.eqb control "fail"); [discriminate|].
  destruct (String.eqb control "pass"); [discriminate|].
  destruct (String.eqb control "exit"); [discriminate|].
  destruct (String.eqb control "back").
  - unfold FixedSizeStack.pop. rewrite Hh. intros [= <- <- <-]. auto.
  - destruct (adventures w !! adventure scene) as [adv|]; [|discriminate].
    intros E.
    destruct (steady_play fuel history key scene adv Hi w
                (Continue history' next') w') as [Hc Hn]; [|exact E|].
    { split; [exact L|]. exists scene. auto. }
    destruct Hn as (key' & [= -> ->] & Hin).
    destruct Hc as (L' & scene' & Hs' & _ & _ & Ht).
    split; [exact L'|]. split; [exact Hh|].
    rewrite <- Ht in Hin. apply in_map_iff in Hin as (o & <- & Hin).
    destruct (L' key scene' Hs') as (_ & _ & H3). now apply H3.
Qed.

End WithConditional.

End TurnInvariant.

(** ** The ways the constructors and evaluators of the language end *)

Module OutcomeFacts.

Import Action Reads Shapes IdentifierFacts IdentifierMore ActionMore Run.

Lemma parse_qualified raw ns ctx id :
  colons ns = 0%nat ->
  Identifier.parseIdentifier raw ns ctx = Ok id ->
  colons id = 1%nat
  /\ (forall ns' ctx', Identifier.parseIdentifier id ns' ctx' = Ok id)
  /\ (colons raw = 0%nat -> id = Identifier.asIdentifier ns raw).
Proof.
  intros Hn. rewrite parseIdentifier_by_colons.
  destruct (colons raw) as [|[|n]] eqn:E.
  - intros [= <-].
    assert (H1 : colons (ns +:+ ":" +:+ raw) = 1%nat).
    { rewrite !colons_app. simpl. lia. }
    split; [exact H1|]. split; [|reflexivity].
    intros ns' ctx'. rewrite parseIdentifier_by_colons. now rewrite H1.
  - intros [= <-]. split; [exact E|]. split; [|discriminate].
    intros ns' ctx'. rewrite parseIdentifier_by_colons. now rewrite E.
  - destruct ctx; discriminate.
Qed.

Lemma parse_none_error token ns e :
  Identifier.parse token ns None = Throw e -> e = undefinedThrowError.
Proof.
  unfold Identifier.parse. rewrite parseIdentifier_by_colons.
  destruct (colons token) as [|[|n]]; try discriminate.
  now intros [= <-].
Qed.

Lemma shuntToken_error expression ns st token e :
  shuntToken expression ns st token = Throw e ->
  e = ParserError "adventure" ("Mismatched parentheses: " +:+ expression)
  \/ e = undefinedThrowError.
Proof.
  unfold shuntToken. destruct st as [q ops].
  destruct (numberRegex token); [discriminate|].
  destruct (variableRegex token).
  - destruct (Identifier.parse token ns None) eqn:E; [discriminate|].
    cbn [mbind result_bind]. intros [= <-]. right.
    eapply parse_none_error; eassumption.
  - destruct (isOperator token).
    + destruct (popOperators token q ops); discriminate.
    + destruct (String.eqb token "("); [discriminate|].
      destruct (String.eqb token ")"); [|discriminate].
      destruct (popToParen q ops) as [q' [|o ops']]; [|discriminate].
      intros [= <-]. now left.
Qed.

Lemma shunt_error expression ns tokens : forall st e,
  shunt expression ns st tokens = Throw e ->
  e = ParserError "adventure" ("Mismatched parentheses: " +:+ expression)
  \/ e = undefinedThrowError.
Proof.
  induction tokens as [|token tokens IH]; intros st e; [discriminate|].
  cbn [shunt].
  destruct (shuntToken expression ns st token) as [st'|e'] eqn:E;
    cbn [mbind result_bind].
  - apply IH.
  - intros [= <-]. eapply shuntToken_error; eassumption.
Qed.

Lemma compile_error expression ns e :
  compile expression ns = Throw e ->
  e = ParserError "adventure" ("Invalid expression: " +:+ expression)
  \/ e = ParserError "adventure" ("Mismatched parentheses: " +:+ expression)
  \/ e = undefinedThrowError.
Proof.
  unfold compile. destruct (tokenize expression) as [|t ts].
  - intros [= <-]. now left.
  - destruct (shunt expression ns ([], []) (t :: ts)) as [[q ops]|e'] eqn:E;
      cbn [mbind result_bind]; [discriminate|].
    intros [= <-]. right. eapply shunt_error; eassumption.
Qed.

Lemma new_error action ns e :
  new action ns = Throw e ->
  (e = ParserError "adventure" ("Malformed action: " +:+ action)
   /\ noEquals action = true)
  \/ (noEquals action = false
      /\ expressionError e).
Proof.
  unfold new, matchAction.
  destruct (matchActionFrom "" action) as [[[m1 m2] m3]|] eqn:Em.
  - assert (Hn : noEquals action = false).
    { unfold noEquals. destruct (Str.all (Str.isNot "=") action) eqn:Ha;
        [|reflexivity].
      apply (matchActionFrom_none action "") in Ha. congruence. }
    destruct (Identifier.parse (trim m1) ns None) as [name|e1] eqn:E1;
      cbn [mbind result_bind].
    + destruct (compile (trim m3) ns) as [q|e2] eqn:E2;
        cbn [mbind result_bind]; [discriminate|].
      intros [= <-]. right. split; [exact Hn|].
      destruct (compile_error _ _ _ E2) as [-> | [-> | ->]].
      * left. eexists. left. reflexivity.
      * left. eexists. right. reflexivity.
      * now right.
    + intros [= <-]. right. split; [exact Hn|]. right.
      eapply parse_none_error; eassumption.
  - intros [= <-]. left. split; [reflexivity|].
    now apply (matchActionFrom_none action "").
Qed.

Lemma new_malformed action ns :
  noEquals action = true ->
  new action ns
  = Throw (ParserError "adventure" ("Malformed action: " +:+ action)).
Proof.
  intros H. unfold new, matchAction.
  apply (matchActionFrom_none action "") in H. now rewrite H.
Qed.

Lemma new_target action ns a :
  colons ns = 0%nat -> new action ns = Ok a ->
  colons (variableName a) = 1%nat.
Proof.
  intros Hn. unfold new.
  destruct (matchAction action) as [[[m1 m2] m3]|]; [|discriminate].
  destruct (Identifier.parse (trim m1) ns None) as [name|] eqn:E;
    [|discriminate].
  cbn [mbind result_bind].
  destruct (compile (trim m3) ns); [|discriminate].
  cbn [mbind result_bind]. intros [= <-]. cbn [variableName].
  now destruct (parse_qualified _ _ _ _ Hn E).
Qed.

Lemma evaluate_outcome action ns a variables :
  new action ns = Ok a ->
  (exists v, evaluate a variables = Ok (<[variableName a := v]> variables))
  \/ raisesUndefined variables (outputQueue a) (evaluate a variables).
Proof.
  intros Hnew. pose proof (new_operator _ _ _ Hnew) as Hop.
  unfold evaluate, evaluator.
  destruct (evalQueue_outcome variables (outputQueue a) [])
    as [[stack E]|(name & Hin & Hu & E)]; rewrite E; cbn [mbind result_bind].
  - left. unfold writeVar. simpl in Hop.
    destruct Hop as [<-|[<-|[<-|[<-|[<-|[]]]]]]; cbn; eexists; reflexivity.
  - right. exists name. auto.
Qed.

(** The same for the conditions of the shunting-yard class. *)
Lemma conditional_evalQueue_outcome variables q : forall stack,
  (exists stack', Conditional.evalQueue variables stack q = Ok stack')
  \/ (exists name, In (IVar name) q /\ readVar variables name = VUndef
        /\ Conditional.evalQueue variables stack q
           = Throw (usedBeforeAssignment name)).
Proof.
  induction q as [|i q IH]; intros stack; [left; now eexists|].
  cbn [Conditional.evalQueue].
  assert (Hgo : forall stack',
             (exists s, Conditional.evalQueue variables stack' q = Ok s)
             \/ (exists name, In (IVar name) (i :: q)
                   /\ readVar variables name = VUndef
                   /\ Conditional.evalQueue variables stack' q
                      = Throw (usedBeforeAssignment name))).
  { intros stack'. destruct (IH stack') as [H|(n & Hin & Hu & H)]; [now left|].
    right. exists n. repeat split; auto. now right. }
  destruct i as [x|name|token]; cbn [Conditional.evalItem].
  - apply Hgo.
  - destruct (readVar variables name) eqn:E; try apply Hgo.
    right. exists name. repeat split; auto. now left.
  - destruct (Conditional.operators token) as [[p f]|]; [|apply Hgo].
    destruct (pop stack) as [b s1]. destruct (pop s1) as [a s2]. apply Hgo.
Qed.

Lemma conditional_evaluate_outcome c variables :
  (exists b, Conditional.evaluate c variables = Ok b)
  \/ raisesUndefined variables (Conditional.outputQueue c)
       (Conditional.evaluate c variables).
Proof.
  unfold Conditional.evaluate, Conditional.evaluator.
  destruct (conditional_evalQueue_outcome variables
              (Conditional.outputQueue c) [])
    as [[stack E]|(name & Hin & Hu & E)]; rewrite E; cbn [mbind result_bind].
  - left. now eexists.
  - right. exists name. auto.
Qed.

End OutcomeFacts.

(** ** The errors of the linker *)

Module LinkErrors.

Import Model Setup Shapes Documents OutcomeFacts.

Section WithConditional.
Context {C : ConditionalClass}.

Lemma action_evaluate_error a variables e :
  Action.evaluate a variables = Throw e ->
  exists name, e = usedBeforeAssignment name.
Proof.
  unfold Action.evaluate, Action.evaluator.
  destruct (ActionMore.evalQueue_outcome variables (Action.outputQueue a) [])
    as [[stack E]|(name & _ & _ & E)]; rewrite E; cbn [mbind result_bind].
  - destruct (String.eqb (Action.operator a) "="); [discriminate|].
    destruct (String.eqb (Action.operator a) "+="); [discriminate|].
    destruct (String.eqb (Action.operator a) "-="); [discriminate|].
    destruct (String.eqb (Action.operator a) "*="); [discriminate|].
    destruct (String.eqb (Action.operator a) "/="); discriminate.
  - intros [= <-]. eauto.
Qed.

Lemma evaluateAll_error l : forall variables e,
  Action.evaluateAll l variables = Throw e ->
  exists name, e = usedBeforeAssignment name.
Proof.
  induction l as [|a l IH]; intros variables e; [discriminate|].
  cbn [Action.evaluateAll].
  destruct (Action.evaluate a variables) as [v|e'] eqn:E;
    cbn [mbind result_bind]; [apply IH|].
  intros [= <-]. eapply action_evaluate_error; eassumption.
Qed.

Lemma resolve_error id (o : Obj.t Scene) e :
  resolve id o = Throw e -> e = danglingReference.
Proof.
  unfold resolve. destruct (Obj.get id o); [discriminate|].
  now intros [= <-].
Qed.

Lemma linkStarts_error entries : forall (o : Obj.t Scene) v e,
  linkStarts entries o v = Throw e ->
  e = danglingReference \/ exists name, e = usedBeforeAssignment name.
Proof.
  induction entries as [|[k a] entries IH]; intros o v e; [discriminate|].
  cbn [linkStarts].
  destruct (Action.evaluateAll (Build.actions a) v) as [v1|e1] eqn:E1;
    cbn [mbind result_bind].
  - destruct (resolve (Build.startingScene a) o) as [o1|e2] eqn:E2;
      cbn [mbind result_bind]; [apply IH|].
    intros [= <-]. left. eapply resolve_error; eassumption.
  - intros [= <-]. right. eapply evaluateAll_error; eassumption.
Qed.

Lemma linkOptions_error opts : forall (o : Obj.t Scene) e,
  linkOptions opts o = Throw e -> e = danglingReference.
Proof.
  induction opts as [|opt opts IH]; intros o e; [discriminate|].
  cbn [linkOptions].
  destruct (resolve (target opt) o) as [o1|e1] eqn:E1;
    cbn [mbind result_bind]; [apply IH|].
  intros [= <-]. eapply resolve_error; eassumption.
Qed.

Lemma linkScenes_error entries : forall (o : Obj.t Scene) e,
  linkScenes entries o = Throw e -> e = danglingReference.
Proof.
  induction entries as [|[k s] entries IH]; intros o e; [discriminate|].
  cbn [linkScenes].
  destruct (linkOptions (options s) o) as [o1|e1] eqn:E1;
    cbn [mbind result_bind]; [apply IH|].
  intros [= <-]. eapply linkOptions_error; eassumption.
Qed.

Lemma linkAdventures_error (e : engine) err :
  linkAdventures e = Throw err ->
  err = danglingReference \/ exists name, err = usedBeforeAssignment name.
Proof.
  unfold linkAdventures.
  destruct (linkStarts _ (scenes e) (variables e)) as [[o1 v1]|e1] eqn:E1;
    cbn [mbind result_bind].
  - destruct (linkScenes (Obj.entries o1) o1) as [o2|e2] eqn:E2;
      cbn [mbind result_bind]; [discriminate|].
    intros [= <-]. left. eapply linkScenes_error; eassumption.
  - intros [= <-]. eapply linkStarts_error; eassumption.
Qed.

End WithConditional.

End LinkErrors.

(** ** The lines a turn reads and the errors it raises *)

Module SoundFacts.

Import Model Engine Running RunFacts.

#[local] Existing Instance Engine.M_ret.
#[local] Existing Instance Engine.M_bind.

Section WithConditional.
Context {C : ConditionalClass}.

Lemma sound_bind {A B} b n1 n2 (m : M A) (f : A -> M B) (E : error -> Prop) :
  sound b n1 m E ->
  (forall a, (n1 <= b)%nat -> sound (b - n1) n2 (f a) E) ->
  sound b (n1 + n2) (m ≫= f) E.
Proof.
  intros Hm Hf w Hw. unfold mbind, M_bind, bind.
  specialize (Hm w Hw). destruct (m w) as [a w1|e w1|w1]; auto.
  assert (H1 : (n1 <= b)%nat) by lia.
  assert (H2 : (length (input w1) <= b - n1)%nat) by lia.
  specialize (Hf a H1 w1 H2). destruct (f a w1) as [x w2|e w2|w2]; auto.
  lia.
Qed.

Lemma sound_weaken {A} b b' n n' (m : M A) (E : error -> Prop) :
  sound b n m E -> (b' <= b)%nat -> (n' <= n)%nat -> sound b' n' m E.
Proof.
  intros Hm Hb Hn w Hw. assert (H : (length (input w) <= b)%nat) by lia.
  specialize (Hm w H). destruct (m w); auto. lia.
Qed.

(** A step that reads nothing, then the rest. *)
Lemma sound_then {A B} b n (m : M A) (f : A -> M B) (E : error -> Prop) :
  sound b 0 m E -> (forall a, sound b n (f a) E) -> sound b n (m ≫= f) E.
Proof.
  intros Hm Hf. apply (sound_bind b 0 n m f E Hm).
  intros a _. rewrite Nat.sub_0_r. apply Hf.
Qed.

(** What is left to do after the lines were read. *)
Lemma sound_after {A B} b n (m : M A) (f : A -> M B) (E : error -> Prop) :
  sound b n m E -> (forall a, sound b 0 (f a) E) -> sound b n (m ≫= f) E.
Proof.
  intros Hm Hf. rewrite <- (Nat.add_0_r n).
  apply (sound_bind b n 0 m f E Hm).
  intros a _. eapply sound_weaken; [apply Hf|lia|lia].
Qed.

Lemma sound_ret {A} b (a : A) E : sound b 0 (ret a) E.
Proof. intros w _. cbn. lia. Qed.

Lemma sound_write b line E : sound b 0 (write line) E.
Proof. intros w _. cbn. lia. Qed.

Lemma sound_read b E : sound b 1 read E.
Proof.
  intros w _. unfold read. destruct (input w) as [|l r]; cbn; [exact I|lia].
Qed.

Lemma sound_raise {A} b n e (E : error -> Prop) :
  E e -> sound (A := A) b n (raise e) E.
Proof. intros He w _. exact He. Qed.

Lemma sound_putScene b key scene E : sound b 0 (putScene key scene) E.
Proof. intros w _. cbn. lia. Qed.

Lemma sound_putAdventure b key adv E : sound b 0 (putAdventure key adv) E.
Proof. intros w _. cbn. lia. Qed.

Lemma sound_writeAll b lines E : sound b 0 (writeAll lines) E.
Proof.
  induction lines as [|l lines IH]; cbn [writeAll]; [apply sound_ret|].
  apply sound_then; [apply sound_write|]. intros _. exact IH.
Qed.

Lemma sound_evaluateAction b a : sound b 0 (evaluateAction a) playError.
Proof.
  intros w _. unfold evaluateAction.
  destruct (Action.evaluate a (variables w)) as [v|e] eqn:E; cbn; [lia|].
  left. left. eapply LinkErrors.action_evaluate_error. eassumption.
Qed.

Lemma sound_evaluateActions b l : sound b 0 (evaluateActions l) playError.
Proof.
  induction l as [|a l IH]; cbn [evaluateActions]; [apply sound_ret|].
  apply sound_then; [apply sound_evaluateAction|]. intros _. exact IH.
Qed.

(** A text raises only what one of its conditions raises. *)
Lemma evaluateToken_error variables : forall x e,
  Text.evaluateToken variables x = Throw e -> conditionError e.
Proof.
  fix IH 1. intros x e. destruct x as [identifier|c text1 text2|text];
    cbn [Text.evaluateToken]; try discriminate.
  assert (J : forall l : list Text.token,
             (forall y, In y l -> forall e,
                Text.evaluateToken variables y = Throw e -> conditionError e) ->
             forall e, Text.joinAll (Text.evaluateToken variables) l = Throw e ->
                       conditionError e).
  { clear. induction l as [|y r IHr]; intros Hl e; [discriminate|].
    cbn [Text.joinAll].
    destruct (Text.evaluateToken variables y) as [[a y']|e1] eqn:E1;
      cbn [mbind result_bind].
    - destruct (Text.joinAll (Text.evaluateToken variables) r)
        as [[b' r']|e2] eqn:E2; cbn [mbind result_bind]; [discriminate|].
      intros [= <-]. apply IHr; [|reflexivity].
      intros z Hz. apply Hl. now right.
    - intros [= <-]. apply (Hl y); [now left|exact E1]. }
  destruct (condEvaluate c variables) as [[v c']|e1] eqn:E1;
    cbn [mbind result_bind].
  - destruct (Js.toBoolean v).
    + destruct (Text.joinAll (Text.evaluateToken variables) text1)
        as [[a t1]|e2] eqn:E2; cbn [mbind result_bind]; [discriminate|].
      intros [= <-]. revert E2. apply J.
      clear -IH. induction text1 as [|y r IHr]; intros z [].
      * subst z. apply IH.
      * now apply IHr.
    + destruct text2 as [text2|]; [|discriminate].
      destruct (Text.joinAll (Text.evaluateToken variables) text2)
        as [[a t2]|e2] eqn:E2; cbn [mbind result_bind]; [discriminate|].
      intros [= <-]. revert E2. apply J.
      clear -IH. induction text2 as [|y r IHr]; intros z [].
      * subst z. apply IH.
      * now apply IHr.
  - intros [= <-]. exists c, variables. exact E1.
Qed.

Lemma evaluate_text_error text variables e :
  Text.evaluate text variables = Throw e -> conditionError e.
Proof.
  unfold Text.evaluate, Text.evaluateTokens. revert e.
  induction text as [|y r IH]; intros e; [discriminate|].
  cbn [Text.joinAll].
  destruct (Text.evaluateToken variables y) as [[a y']|e1] eqn:E1;
    cbn [mbind result_bind].
  - destruct (Text.joinAll (Text.evaluateToken variables) r)
      as [[b' r']|e2] eqn:E2; cbn [mbind result_bind]; [discriminate|].
    intros [= <-]. now apply IH.
  - intros [= <-]. eapply evaluateToken_error. eassumption.
Qed.

Lemma sound_evaluateText b text : sound b 0 (evaluateText text) playError.
Proof.
  intros w _. unfold evaluateText.
  destruct (Text.evaluate text (variables w)) as [p|e] eqn:E; cbn; [lia|].
  left. right. eapply evaluate_text_error. eassumption.
Qed.

Lemma sound_writeOptional b text : sound b 0 (writeOptional text) playError.
Proof.
  destruct text as [text|]; cbn [writeOptional]; [|apply sound_ret].
  apply sound_then; [apply sound_evaluateText|]. intros [line text'].
  apply sound_then; [apply sound_write|]. intros _. apply sound_ret.
Qed.

Lemma sound_evaluateTexts b l : sound b 0 (evaluateTexts l) playError.
Proof.
  induction l as [|t l IH]; cbn [evaluateTexts]; [apply sound_ret|].
  apply sound_then; [apply sound_evaluateText|]. intros [line text'].
  apply sound_then; [exact IH|]. intros [lines rest']. apply sound_ret.
Qed.

Lemma sound_partition b l : sound b 0 (partition l) playError.
Proof.
  induction l as [|o l IH]; cbn [partition]; [apply sound_ret|].
  apply sound_then.
  - destruct (condition o) as [c|]; [|apply sound_ret].
    intros w _. destruct (condEvaluate c (variables w)) as [[v c']|e] eqn:E;
      cbn; [lia|].
    left. right. exists c, (variables w). exact E.
  - intros [available condition'].
    apply sound_then; [exact IH|]. intros rest'. apply sound_ret.
Qed.

Lemma sound_writeAvailable b l : forall i,
  sound b 0 (writeAvailable i l) playError.
Proof.
  induction l as [|[o a] l IH]; intros i; cbn [writeAvailable];
    [apply sound_ret|].
  destruct a.
  - apply sound_then; [apply sound_evaluateText|]. intros [text label'].
    apply sound_then; [apply sound_write|]. intros _.
    apply sound_then; [apply IH|]. intros rest'. apply sound_ret.
  - apply sound_then; [apply IH|]. intros rest'. apply sound_ret.
Qed.

Lemma sound_writeUnavailable b l : sound b 0 (writeUnavailable l) playError.
Proof.
  induction l as [|[o a] l IH]; cbn [writeUnavailable]; [apply sound_ret|].
  destruct a.
  - apply sound_then; [apply IH|]. intros rest'. apply sound_ret.
  - apply sound_then.
    + destruct (alwaysVisible o); [|apply sound_ret].
      apply sound_then; [apply sound_evaluateText|]. intros [text label'].
      apply sound_then; [apply sound_write|]. intros _. apply sound_ret.
    + intros o'. apply sound_then; [apply IH|]. intros rest'.
      apply sound_ret.
Qed.

(** With a budget above the number of lines, [getChoice] reads a line or
    waits for one. *)
Lemma sound_getChoice fuel numOptions E : forall b,
  (b < fuel)%nat -> sound b 1 (getChoice fuel numOptions) E.
Proof.
  induction fuel as [|fuel IH]; intros b Hb; [lia|]. cbn [getChoice].
  apply sound_then; [apply sound_write|]. intros _.
  change 1%nat with (1 + 0)%nat.
  apply sound_bind; [apply sound_read|]. intros line H1. cbv zeta.
  destruct (_ || _)%float; [|apply sound_ret].
  apply sound_then; [apply sound_write|]. intros _.
  eapply sound_weaken; [apply (IH (b - 1)%nat); lia|lia|lia].
Qed.

(** Playing a scene reads a line or more, and raises only the errors of
    playing. *)
Lemma sound_play fuel history key scene adv b :
  (b < fuel)%nat -> sound b 1 (play fuel history key scene adv) playError.
Proof.
  intros Hb. unfold play.
  apply sound_then; [apply sound_evaluateActions|]. intros _.
  apply sound_then; [apply sound_writeAll|]. intros _.
  apply sound_then; [apply sound_evaluateText|]. intros [line title'].
  apply sound_then; [apply sound_write|]. intros _.
  apply sound_then; [apply sound_writeOptional|]. intros globalTop'.
  apply sound_then; [apply sound_evaluateTexts|]. intros [lines content'].
  apply sound_then; [apply sound_writeAll|]. intros _.
  apply sound_then; [apply sound_writeOptional|]. intros globalBottom'.
  apply sound_then; [apply sound_putAdventure|]. intros _.
  assert (Menu : forall options,
    sound b 1
      (sorted ← partition options;
       write "" ;;
       write "You could..." ;;
       sorted ← writeAvailable 0 sorted;
       sorted ← writeUnavailable sorted;
       write "" ;;
       putScene key (withTexts scene title' content' (map fst sorted)) ;;
       response ← getChoice fuel (length options);
       let availableOptions := map fst (List.filter snd sorted) in
       match chosen availableOptions response with
       | None => undefinedRead "actions"
       | Some chosenOption =>
           evaluateActions (optionActions chosenOption) ;;
           ret (Continue history (Some (target chosenOption)))
       end) playError).
  { intros options.
    apply sound_then; [apply sound_partition|]. intros sorted.
    apply sound_then; [apply sound_write|]. intros _.
    apply sound_then; [apply sound_write|]. intros _.
    apply sound_then; [apply sound_writeAvailable|]. intros sorted1.
    apply sound_then; [apply sound_writeUnavailable|]. intros sorted2.
    apply sound_then; [apply sound_write|]. intros _.
    apply sound_then; [apply sound_putScene|]. intros _.
    apply sound_after; [now apply sound_getChoice|]. intros response.
    cbv zeta. destruct (chosen _ response) as [chosenOption|].
    - apply sound_then; [apply sound_evaluateActions|]. intros _.
      apply sound_ret.
    - apply sound_raise. now right. }
  destruct (options scene) as [|option [|option2 rest]]; try apply Menu.
  apply sound_then; [apply sound_evaluateText|]. intros [text label'].
  apply sound_then; [apply sound_putScene|]. intros _.
  apply sound_then.
  { destruct text; [apply sound_ret|apply sound_write]. }
  intros _.
  apply sound_then; [apply sound_write|]. intros _.
  apply sound_after; [apply sound_read|]. intros _.
  apply sound_then; [apply sound_evaluateActions|]. intros _.
  apply sound_ret.
Qed.

End WithConditional.

End SoundFacts.

(** ** The errors of the loop *)

Module RunErrors.

Import Model Engine Running RunFacts TurnFacts TurnInvariant SoundFacts Reads.

#[local] Existing Instance Engine.M_ret.
#[local] Existing Instance Engine.M_bind.

Section WithConditional.
Context {C : ConditionalClass}.

(** The scene that a linked world enters is none whose identifier is
    malformed. *)
Lemma reserved_linked (w : world) key scene :
  linked w -> scenes w !! key = Some scene -> identifier scene = key ->
  exists control, reserved scene = Ok control.
Proof.
  intros L Hs Hi. destruct (L key scene Hs) as (Hc & _ & _).
  unfold reserved. rewrite Hi.
  pose proof (IdentifierMore.accessors_by_colons key) as A. rewrite Hc in A.
  destruct A as (ns & name & -> & _). cbn [mbind result_bind]. eauto.
Qed.

(** A turn in a linked world at a scene that can be entered: with the
    empty history and a budget above the number of lines, a turn that goes
    on to a scene has read a line, and a turn that raises raises an error
    of a run. *)
Lemma turn_sound fuel history key (w : world) :
  linked w -> enterable w key -> FixedSizeStack.items history = [] ->
  (length (input w) < fuel)%nat ->
  match turn fuel history (Some key) w with
  | Returned (Continue _ (Some _)) w' =>
      (length (input w') < length (input w))%nat
  | Returned _ _ => True
  | Raised e _ =>
      playError e \/ e = JsError "Not implemented" \/ e = ProcessExit
  | Awaiting _ => True
  end.
Proof.
  intros L (scene & Hs & Hi) Hh Hf. rewrite (turn_play _ _ _ _ _ Hs).
  destruct (reserved_linked w key scene L Hs Hi) as (control & ->).
  destruct (String.eqb control "switch"); [right; left; reflexivity|].
  destruct (String.eqb control "fail"); [exact I|].
  destruct (String.eqb control "pass"); [exact I|].
  destruct (String.eqb control "exit"); [right; right; reflexivity|].
  destruct (String.eqb control "back").
  - unfold FixedSizeStack.pop. rewrite Hh. exact I.
  - destruct (L key scene Hs) as (_ & [adv Ha] & _). rewrite Ha.
    pose proof (sound_play fuel history key scene adv (length (input w)) Hf w
                  (Nat.le_refl _)) as P.
    destruct (play fuel history key scene adv w) as [[h' [k'|]|] w'|e w'|w'];
      auto. lia.
Qed.

(** The loop of [runAdventure] in a linked world. *)
Lemma loop_errors fuel : forall history currentScene (w : world) e w',
  linked w -> FixedSizeStack.items history = [] ->
  match currentScene with
  | Some key => enterable w key /\ (length (input w) + 2 <= fuel)%nat
  | None => (1 <= fuel)%nat
  end ->
  loop fuel history currentScene w = Raised e w' -> loopError e.
Proof.
  induction fuel as [|fuel IH]; intros history currentScene w e w' L Hh Hc.
  { destruct currentScene as [key|]; [destruct Hc|]; lia. }
  cbn [loop]. unfold mbind, M_bind, bind.
  destruct currentScene as [key|].
  - destruct Hc as [He Hf].
    pose proof (turn_sound (S fuel) history key w L He Hh ltac:(lia)) as T.
    destruct (turn (S fuel) history (Some key) w) as [n w1|e1 w1|w1] eqn:E;
      [|intros [= <- <-]|discriminate].
    + destruct n as [history' next'|]; [|discriminate].
      destruct (turn_linked _ _ _ _ _ _ _ L He Hh E) as (L1 & Hh1 & Hn).
      apply IH; [exact L1|exact Hh1|].
      destruct next' as [key'|]; [split; [exact Hn|lia]|lia].
    + destruct T as [T|[T|T]]; [now left|right; now left|].
      right. right. now left.
  - cbn. intros [= <- <-]. right. right. right. reflexivity.
Qed.

(** A run in a linked world whose adventures start at scenes that can be
    entered. *)
Lemma runAdventure_errors adventureName (w : world) e w' :
  linked w ->
  (forall name adv, adventures w !! name = Some adv ->
     enterable w (startingScene adv)) ->
  runAdventure adventureName w = Raised e w' -> runError e.
Proof.
  intros L Hstart. unfold runAdventure.
  unfold mbind at 1. unfold M_bind at 1. unfold bind at 1.
  destruct (adventures w !! "hasOwnProperty") as [hidden|] eqn:Eh.
  { intros [= <- _]. now right. }
  destruct (adventures w !! adventureName) as [adv|] eqn:Ea; [|discriminate].
  intros R. left. revert R.
  apply loop_errors; [exact L|reflexivity|].
  split; [eapply Hstart; eassumption|]. unfold MAX_RETURN_HISTORY. lia.
Qed.

End WithConditional.

End RunErrors.

(** ** Actions in a list *)

Module ScriptFacts.

Import Action Arith Reads IdentifierFacts IdentifierMore ArithFacts
       ArithCompile ArithShunt ActionLaw Run.

(** The constructor on the text of an action. *)
Lemma new_text x op e ns :
  wellFormedTarget x = true -> wellFormedE e = true ->
  new (x +:+ assignText op +:+ textE e) ns
  = Ok {| variableName := qualify ns x; operator := assignText op;
          outputQueue := postfixE ns e |}.
Proof.
  intros [Hx Hc%Nat.leb_le]%andb_true_iff He.
  destruct text_chars as (_ & _ & Hchars). specialize (Hchars e He).
  pose proof (variable_identChars x Hx) as Hxi.
  unfold new.
  rewrite (matchAction_text x op _ Hxi Hchars).
  rewrite (trim_identifier x Hxi), (trim_expression _ Hchars).
  unfold Identifier.parse. rewrite parseIdentifier_by_colons.
  assert (Hq : match colons x with
               | 0%nat => Ok (ns +:+ ":" +:+ x)
               | 1%nat => Ok x
               | _ => throwErrorVia None "identifier"
                        ("Malformed identifier " +:+ x +:+ ".")
               end = Ok (qualify ns x)).
  { unfold qualify, Identifier.asIdentifier.
    destruct (colons x) as [|[|n]]; [reflexivity|reflexivity|lia]. }
  rewrite Hq. cbn [mbind result_bind].
  rewrite (compile_text e ns He). cbn [mbind result_bind].
  now destruct op.
Qed.

Lemma evaluate_text x op e ns variables :
  assignedE ns variables e ->
  evaluate {| variableName := qualify ns x; operator := assignText op;
              outputQueue := postfixE ns e |} variables
  = Ok (step ns variables (x, op, e)).
Proof.
  intros Hd. unfold evaluate. cbn [outputQueue variableName operator].
  rewrite (evaluator_arith ns variables e Hd). cbn [mbind result_bind].
  destruct op; reflexivity.
Qed.

(** *** The text of an action holds no space and no separator *)

Lemma statementChar_plain c :
  isStatementChar c = true ->
  Str.isSpace c = false /\ Str.isNot " " c = true
  /\ Str.isChar "," c || Str.isChar ";" c = false.
Proof.
  destruct c as [[] [] [] [] [] [] [] []]; try discriminate; repeat split.
Qed.

Lemma expression_statementChars s :
  Str.all isExpressionChar s = true -> Str.all isStatementChar s = true.
Proof.
  apply all_weaken. intros c Hc. unfold isStatementChar. now rewrite Hc.
Qed.

Lemma statement_chars s :
  wellFormedStatement s = true ->
  Str.all isStatementChar (statementText s) = true.
Proof.
  destruct s as [[x op] e]. cbn [wellFormedStatement statementText].
  intros [[Hx _]%andb_true_iff He]%andb_true_iff.
  destruct text_chars as (_ & _ & Hchars).
  rewrite !all_app.
  rewrite (expression_statementChars x (variable_chars x Hx)).
  rewrite (expression_statementChars _ (Hchars e He)).
  now destruct op.
Qed.

Lemma filter_plain s :
  Str.all isStatementChar s = true -> Str.filter (Str.isNot " ") s = s.
Proof.
  induction s as [|c s IH]; [reflexivity|]. simpl.
  intros [Hc Hs]%andb_true_iff.
  destruct (statementChar_plain c Hc) as (_ & -> & _). now rewrite (IH Hs).
Qed.

Lemma trim_statement s : Str.all isStatementChar s = true -> trim s = s.
Proof.
  intros H. apply trim_plain. revert H. apply all_weaken. intros c Hc.
  now destruct (statementChar_plain c Hc) as (-> & _ & _).
Qed.

Lemma splitSeparators_nonempty s : splitSeparators s <> [].
Proof.
  destruct s as [|c s]; [discriminate|]. simpl.
  destruct (_ || _); [discriminate|].
  now destruct (splitSeparators s).
Qed.

Lemma splitSeparators_plain t : forall r,
  Str.all isStatementChar t = true ->
  splitSeparators (t +:+ r)
  = match splitSeparators r with
    | p :: ps => (t +:+ p) :: ps
    | [] => [t]
    end.
Proof.
  induction t as [|c t IH]; intros r Ht.
  - rewrite append_nil_l. destruct (splitSeparators r) eqn:E; [|reflexivity].
    now destruct (splitSeparators_nonempty r).
  - simpl in Ht. apply andb_true_iff in Ht as [Hc Ht].
    rewrite append_cons. cbn [splitSeparators].
    destruct (statementChar_plain c Hc) as (_ & _ & ->).
    rewrite (IH r Ht). now destruct (splitSeparators r).
Qed.

Lemma splitSeparators_script l :
  forallb wellFormedStatement l = true -> l <> [] ->
  splitSeparators (scriptText l) = map statementText l.
Proof.
  induction l as [|s l IH]; intros Hw Hne; [contradiction|].
  cbn [forallb] in Hw. apply andb_true_iff in Hw as [Hs Hl].
  pose proof (statement_chars s Hs) as Hc.
  destruct l as [|s' l].
  - cbn [scriptText map]. rewrite <- (append_nil_r (statementText s)) at 1.
    rewrite (splitSeparators_plain _ "" Hc). cbn. now rewrite append_nil_r.
  - change (scriptText (s :: s' :: l))
      with (statementText s +:+ ";" +:+ scriptText (s' :: l)).
    rewrite (splitSeparators_plain _ _ Hc).
    rewrite append_cons, append_nil_l. cbn [splitSeparators].
    cbn [Str.isChar Str.ascii_eqb orb]. 
    change (Str.isChar "," ";" || Str.isChar ";" ";") with true. cbv iota.
    rewrite append_nil_r. rewrite (IH Hl ltac:(discriminate)). reflexivity.
Qed.

Lemma scriptText_nonempty l :
  forallb wellFormedStatement l = true -> l <> [] -> scriptText l <> "".
Proof.
  destruct l as [|[[x op] e] l]; [contradiction|]. intros Hw _.
  cbn [forallb wellFormedStatement] in Hw.
  apply andb_true_iff in Hw as [[[Hx _]%andb_true_iff _]%andb_true_iff _].
  destruct x as [|c x]; [discriminate|].
  destruct l; cbn [scriptText statementText]; now rewrite append_cons.
Qed.

Lemma mapM_statements ns l :
  forallb wellFormedStatement l = true ->
  mapM (fun action => new (trim (Str.filter (Str.isNot " ") action)) ns)
       (map statementText l)
  = Ok (map (compiled ns) l).
Proof.
  induction l as [|s l IH]; intros Hw; [reflexivity|].
  cbn [forallb] in Hw. apply andb_true_iff in Hw as [Hs Hl].
  pose proof (statement_chars s Hs) as Hc.
  cbn [map mapM]. rewrite (filter_plain _ Hc), (trim_statement _ Hc).
  destruct s as [[x op] e]. cbn [wellFormedStatement] in Hs.
  apply andb_true_iff in Hs as [Hx He].
  cbn [statementText]. rewrite (new_text x op e ns Hx He).
  cbn [mbind result_bind]. rewrite (IH Hl). reflexivity.
Qed.

Lemma parseActions_script ns l :
  forallb wellFormedStatement l = true ->
  parseActions (Some (scriptText l)) ns = Ok (map (compiled ns) l).
Proof.
  intros Hw. destruct l as [|s l]; [reflexivity|].
  pose proof (scriptText_nonempty (s :: l) Hw ltac:(discriminate)) as Hne.
  unfold parseActions.
  destruct (scriptText (s :: l)) as [|c t] eqn:E; [contradiction|].
  rewrite <- E. rewrite (splitSeparators_script _ Hw ltac:(discriminate)).
  now apply mapM_statements.
Qed.

Lemma evaluateAll_script ns l : forall variables,
  assignedAll ns l variables ->
  evaluateAll (map (compiled ns) l) variables = Ok (runAll ns l variables).
Proof.
  induction l as [|[[x op] e] l IH]; intros variables Ha; [reflexivity|].
  destruct Ha as [He Hl]. cbn [map evaluateAll compiled].
  cbn [snd] in He. rewrite (evaluate_text x op e ns variables He).
  cbn [mbind result_bind]. now rewrite (IH _ Hl).
Qed.

(** A separator at the end leaves an action that is empty. *)
Lemma splitSeparators_last s c :
  Str.isChar "," c || Str.isChar ";" c = true ->
  exists p l, splitSeparators (s +:+ String c "") = p :: l ++ [""].
Proof.
  intros Hc. induction s as [|d s (p & l & IH)].
  - rewrite append_nil_l. cbn [splitSeparators]. rewrite Hc.
    now exists "", [].
  - rewrite append_cons. cbn [splitSeparators]. rewrite IH.
    destruct (Str.isChar "," d || Str.isChar ";" d).
    + now exists "", (p :: l).
    + now exists (String d p), l.
Qed.

Lemma mapM_throw {A B} (f : A -> result B) l x :
  In x l -> isThrow (f x) = true -> isThrow (mapM f l) = true.
Proof.
  intros Hin Hx. induction l as [|y l IH]; [destruct Hin|].
  cbn [mapM]. destruct (f y) as [b|e] eqn:E; [|reflexivity].
  cbn [mbind result_bind]. destruct Hin as [->|Hin].
  - rewrite E in Hx. discriminate.
  - specialize (IH Hin). now destruct (mapM f l).
Qed.

Lemma parseActions_trailing s c ns :
  Str.isChar "," c || Str.isChar ";" c = true ->
  isThrow (parseActions (Some (s +:+ String c "")) ns) = true.
Proof.
  intros Hc. destruct (splitSeparators_last s c Hc) as (p & l & E).
  unfold parseActions.
  destruct (s +:+ String c "") as [|d t] eqn:Et.
  - destruct s; discriminate.
  - rewrite E. apply (mapM_throw _ _ "").
    + right. apply in_or_app. right. now left.
    + reflexivity.
Qed.

End ScriptFacts.

(** ** A scene of one option *)

Module OnlyOption.

Import Model Engine Running RunFacts.

#[local] Existing Instance Engine.M_ret.
#[local] Existing Instance Engine.M_bind.

Section WithConditional.
Context {C : ConditionalClass}.

Lemma alike_bind {A B} (m1 m2 : M A) (f1 f2 : A -> M B) :
  alike m1 m2 -> (forall a, alike (f1 a) (f2 a)) ->
  alike (m1 ≫= f1) (m2 ≫= f2).
Proof.
  intros Hm Hf w1 w2 Hw. unfold mbind, M_bind, bind.
  specialize (Hm w1 w2 Hw).
  destruct (m1 w1) as [a1 u1|e1 u1|u1], (m2 w2) as [a2 u2|e2 u2|u2];
    unfold seen in Hm; try discriminate Hm;
    try (unfold seen; congruence).
  assert (Ea : a1 = a2) by congruence.
  assert (Eu : forget u1 = forget u2) by congruence.
  subst a2. now apply Hf.
Qed.

Lemma alike_ret {A} (a : A) : alike (ret a) (ret a).
Proof. intros w1 w2 Hw. unfold ret, seen. now rewrite Hw. Qed.

Lemma alike_raise {A} e : alike (raise (A := A) e) (raise e).
Proof. intros w1 w2 Hw. unfold raise, seen. now rewrite Hw. Qed.

Lemma alike_write line : alike (write line) (write line).
Proof.
  intros [a1 s1 v1 i1 o1] [a2 s2 v2 i2 o2] [= -> -> -> ->]. reflexivity.
Qed.

Lemma alike_read : alike read read.
Proof.
  intros [a1 s1 v1 i1 o1] [a2 s2 v2 i2 o2] [= -> -> -> ->].
  unfold read. cbn [input]. now destruct i2.
Qed.

Lemma alike_putScene key scene1 scene2 :
  alike (putScene key scene1) (putScene key scene2).
Proof.
  intros [a1 s1 v1 i1 o1] [a2 s2 v2 i2 o2] [= -> -> -> ->]. reflexivity.
Qed.

Lemma alike_putAdventure key adv :
  alike (putAdventure key adv) (putAdventure key adv).
Proof.
  intros [a1 s1 v1 i1 o1] [a2 s2 v2 i2 o2] [= -> -> -> ->]. reflexivity.
Qed.

Lemma alike_evaluateAction a : alike (evaluateAction a) (evaluateAction a).
Proof.
  intros [a1 s1 v1 i1 o1] [a2 s2 v2 i2 o2] [= -> -> -> ->].
  unfold evaluateAction. cbn [variables].
  now destruct (Action.evaluate a v2).
Qed.

Lemma alike_evaluateActions l : alike (evaluateActions l) (evaluateActions l).
Proof.
  induction l as [|a l IH]; cbn [evaluateActions]; [apply alike_ret|].
  apply alike_bind; [apply alike_evaluateAction|]. intros _. exact IH.
Qed.

Lemma alike_evaluateText text : alike (evaluateText text) (evaluateText text).
Proof.
  intros [a1 s1 v1 i1 o1] [a2 s2 v2 i2 o2] [= -> -> -> ->].
  unfold evaluateText. cbn [variables].
  now destruct (Text.evaluate text v2).
Qed.

Lemma alike_writeAll lines : alike (writeAll lines) (writeAll lines).
Proof.
  induction lines as [|l lines IH]; cbn [writeAll]; [apply alike_ret|].
  apply alike_bind; [apply alike_write|]. intros _. exact IH.
Qed.

Lemma alike_writeOptional text :
  alike (writeOptional text) (writeOptional text).
Proof.
  destruct text as [text|]; cbn [writeOptional]; [|apply alike_ret].
  apply alike_bind; [apply alike_evaluateText|]. intros [line text'].
  apply alike_bind; [apply alike_write|]. intros _. apply alike_ret.
Qed.

Lemma alike_evaluateTexts l : alike (evaluateTexts l) (evaluateTexts l).
Proof.
  induction l as [|t l IH]; cbn [evaluateTexts]; [apply alike_ret|].
  apply alike_bind; [apply alike_evaluateText|]. intros [line text'].
  apply alike_bind; [exact IH|]. intros [lines rest']. apply alike_ret.
Qed.

(** Playing a scene of one option: the condition of the option is not
    looked at. *)
Lemma alike_play fuel history key scene adv only condition' :
  options scene = [only] ->
  alike (play fuel history key scene adv)
        (play fuel history key
           (withOption scene (recondition only condition')) adv).
Proof.
  intros Ho. unfold play. rewrite Ho.
  cbn [withOption recondition actions title content adventure options label
       optionActions target].
  apply alike_bind; [apply alike_evaluateActions|]. intros _.
  apply alike_bind; [apply alike_writeAll|]. intros _.
  apply alike_bind; [apply alike_evaluateText|]. intros [line title'].
  apply alike_bind; [apply alike_write|]. intros _.
  apply alike_bind; [apply alike_writeOptional|]. intros globalTop'.
  apply alike_bind; [apply alike_evaluateTexts|]. intros [lines content'].
  apply alike_bind; [apply alike_writeAll|]. intros _.
  apply alike_bind; [apply alike_writeOptional|]. intros globalBottom'.
  apply alike_bind; [apply alike_putAdventure|]. intros _.
  apply alike_bind; [apply alike_evaluateText|]. intros [text label'].
  apply alike_bind; [apply alike_putScene|]. intros _.
  apply alike_bind.
  { destruct text; [apply alike_ret|apply alike_write]. }
  intros _.
  apply alike_bind; [apply alike_write|]. intros _.
  apply alike_bind; [apply alike_read|]. intros _.
  apply alike_bind; [apply alike_evaluateActions|]. intros _.
  apply alike_ret.
Qed.

Lemma forget_withScene (w : world) key scene :
  forget (withScene w key scene) = forget w.
Proof. reflexivity. Qed.

(** A turn at a scene of one option, and the turn at that scene with
    another condition on the option. *)
Lemma turn_unconditional fuel history key (w : world) scene only
    condition' :
  scenes w !! key = Some scene -> options scene = [only] ->
  seen (turn fuel history (Some key) w)
  = seen (turn fuel history (Some key)
            (withScene w key
               (withOption scene (recondition only condition')))).
Proof.
  intros Hs Ho. rewrite (turn_play _ _ _ _ _ Hs).
  rewrite (turn_play _ _ _ _
             (withOption scene (recondition only condition'))).
  2:{ cbn [scenes withScene]. apply lookup_insert_eq. }
  change (reserved (withOption scene (recondition only condition')))
    with (reserved scene).
  set (w' := withScene w key _).
  assert (Hw : forget w = forget w') by reflexivity.
  destruct (reserved scene) as [control|e]; [|unfold seen; now rewrite Hw].
  destruct (String.eqb control "switch"); [now apply alike_raise|].
  destruct (String.eqb control "fail").
  { apply (alike_bind _ _ _ _ (alike_write _) (fun _ => alike_ret _) _ _ Hw). }
  destruct (String.eqb control "pass").
  { apply (alike_bind _ _ _ _ (alike_write _) (fun _ => alike_ret _) _ _ Hw). }
  destruct (String.eqb control "exit").
  { apply (alike_bind _ _ _ _ (alike_write _) (fun _ => alike_raise _) _ _ Hw). }
  destruct (String.eqb control "back").
  { destruct (FixedSizeStack.pop history). now apply alike_ret. }
  cbn [adventures withScene adventure withOption] in *.
  change (adventures w') with (adventures w).
  destruct (adventures w !! adventure scene) as [adv|];
    [|now apply alike_raise].
  now apply alike_play.
Qed.

End WithConditional.

End OnlyOption.

(** ** The ranges in the text of a condition *)

Module ConditionLex.

Import Action Logic Reads IdentifierMore ArithFacts ArithCompile.

(** *** Classes of characters *)

Lemma closing_not_word c : isClosing c = true -> Str.isWord c = false.
Proof.
  destruct c as [[] [] [] [] [] [] [] []]; try discriminate; reflexivity.
Qed.

Lemma followed_stops r : followed r -> stops r.
Proof. destruct r as [|c r]; [auto|]. apply closing_not_word. Qed.

Lemma digit_word c : Str.isDigit c = true -> Str.isWord c = true.
Proof.
  destruct c as [[] [] [] [] [] [] [] []]; try discriminate; reflexivity.
Qed.

Lemma not_word_not_digit c : Str.isWord c = false -> Str.isDigit c = false.
Proof.
  destruct (Str.isDigit c) eqn:E; [|reflexivity].
  intros H. now rewrite (digit_word c E) in H.
Qed.

Lemma all_implies (p q : ascii -> bool) s :
  (forall c, p c = true -> q c = true) ->
  Str.all p s = true -> Str.all q s = true.
Proof.
  intros Hpq. induction s as [|c s IH]; [reflexivity|]. simpl.
  intros [Hc Hs]%andb_true_iff. now rewrite (Hpq c Hc), (IH Hs).
Qed.

Lemma operand_word w :
  isOperand w = true -> w <> "" /\ Str.all Str.isWord w = true.
Proof.
  unfold isOperand, isNumeral, isName.
  intros [[Hn Hd]%andb_true_iff|H]%orb_true_iff.
  - split; [now destruct w|]. revert Hd. apply all_implies, digit_word.
  - destruct w as [|c w]; [discriminate|].
    apply andb_true_iff in H as [_ H]. split; [discriminate|exact H].
Qed.

Lemma numeral_operand w : isNumeral w = true -> isOperand w = true.
Proof. intros H. unfold isOperand. now rewrite H. Qed.

Lemma relText_head r :
  exists c s, relText r = String c s /\ Str.isWord c = false.
Proof. destruct r; eexists _, _; split; reflexivity. Qed.

(** *** The rewriting of ranges *)

Lemma numberRangeAt_other c s :
  Str.isWord c = false -> Conditional.numberRangeAt (String c s) = None.
Proof. intros H. unfold Conditional.numberRangeAt. simpl. now rewrite H. Qed.

Lemma replace_other fuel c s :
  Str.isWord c = false ->
  Conditional.replaceRanges (S fuel) (String c s)
  = String c (Conditional.replaceRanges fuel s).
Proof.
  intros H. cbn [Conditional.replaceRanges].
  now rewrite (numberRangeAt_other c s H).
Qed.

Lemma numberRangeAt_word w r :
  w <> "" -> Str.all Str.isWord w = true -> stops r ->
  rangeTail r = false ->
  Conditional.numberRangeAt (w +:+ r) = None.
Proof.
  intros Hne Hw Hr Ht. unfold Conditional.numberRangeAt.
  rewrite (span_all Str.isWord w r Hw Hr).
  destruct w as [|c w]; [contradiction|]. cbn [Str.isEmpty].
  unfold rangeTail in Ht.
  destruct r as [|d r]; [reflexivity|].
  destruct d as [[] [] [] [] [] [] [] []]; try reflexivity.
  destruct (Str.span Str.isDigit r) as [start r3].
  destruct (Str.isEmpty start); [reflexivity|]. cbn [negb andb] in Ht.
  destruct r3 as [|e r3]; [reflexivity|].
  destruct e as [[] [] [] [] [] [] [] []]; try reflexivity.
  destruct r3 as [|f r3]; [reflexivity|].
  destruct f as [[] [] [] [] [] [] [] []]; try reflexivity.
  destruct (Str.span Str.isDigit r3) as [end_ r5]. cbn [fst] in Ht.
  now destruct (Str.isEmpty end_).
Qed.

(** A word that no range begins in is left as it is. *)
Lemma replace_word w : forall r fuel,
  Str.all Str.isWord w = true -> stops r -> rangeTail r = false ->
  (String.length w <= fuel)%nat ->
  Conditional.replaceRanges fuel (w +:+ r)
  = w +:+ Conditional.replaceRanges (fuel - String.length w) r.
Proof.
  induction w as [|c w IH]; intros r fuel Hw Hr Ht Hf.
  - rewrite !append_nil_l. simpl. now rewrite Nat.sub_0_r.
  - destruct fuel as [|fuel]; [simpl in Hf; lia|].
    pose proof (numberRangeAt_word (String c w) r ltac:(discriminate) Hw Hr Ht)
      as E.
    rewrite append_cons in *. cbn [Conditional.replaceRanges]. rewrite E.
    simpl in Hw. apply andb_true_iff in Hw as [_ Hw].
    rewrite (IH r fuel Hw Hr Ht); [reflexivity|simpl in Hf; lia].
Qed.

Lemma numeral_span lo r :
  isNumeral lo = true ->
  match r with String c _ => Str.isDigit c = false | EmptyString => True end ->
  Str.span Str.isDigit (lo +:+ r) = (lo, r) /\ Str.isEmpty lo = false.
Proof.
  unfold isNumeral. intros [Hn Hd]%andb_true_iff Hr.
  split; [now apply span_all|]. now apply negb_true_iff.
Qed.

Lemma numberRangeAt_range v lo hi r :
  isOperand v = true -> isNumeral lo = true -> isNumeral hi = true ->
  stops r ->
  Conditional.numberRangeAt (v +:+ "=" +:+ lo +:+ ".." +:+ hi +:+ r)
  = Some (v, lo, hi, r).
Proof.
  intros Hv Hlo Hhi Hr. destruct (operand_word v Hv) as [Hne Hw].
  unfold Conditional.numberRangeAt.
  rewrite (span_all Str.isWord v _ Hw); [|reflexivity].
  destruct v as [|c v]; [contradiction|]. cbn [Str.isEmpty].
  rewrite append_cons, append_nil_l.
  destruct (numeral_span lo (".." +:+ hi +:+ r) Hlo eq_refl) as [-> ->].
  rewrite !append_cons, append_nil_l.
  destruct (numeral_span hi r Hhi) as [-> ->]; [|reflexivity].
  destruct r as [|d r]; [exact I|]. now apply not_word_not_digit.
Qed.

(** *** What follows a word in a comparison *)

Lemma stops_rel r b s : stops (relText r +:+ b +:+ s).
Proof. destruct r; reflexivity. Qed.

Lemma operand_head b :
  isOperand b = true ->
  exists c w, b = String c w
              /\ ((Str.isDigit c = true /\ isNumeral b = true)
                  \/ (Str.isDigit c = false /\ isName b = true)).
Proof.
  unfold isOperand. intros [H|H]%orb_true_iff.
  - destruct b as [|c w]; [discriminate|]. exists c, w. split; [reflexivity|].
    left. split; [|exact H]. unfold isNumeral in H. simpl in H.
    now apply andb_true_iff in H as [H _].
  - destruct b as [|c w]; [discriminate|]. exists c, w. split; [reflexivity|].
    right. split; [|exact H]. unfold isName in H.
    apply andb_true_iff in H as [H _]. now apply identStart_not_digit.
Qed.

Lemma followed_no_dot s :
  followed s ->
  match s with
  | String "." (String "." _) => False
  | _ => True
  end.
Proof.
  destruct s as [|c s]; [auto|]. simpl.
  destruct c as [[] [] [] [] [] [] [] []]; try discriminate; auto.
Qed.

Lemma rangeTail_rel r b s :
  isOperand b = true -> followed s ->
  rangeTail (relText r +:+ b +:+ s) = false.
Proof.
  intros Hb Hs. destruct r; try reflexivity.
  cbn [relText]. rewrite append_cons, append_nil_l. cbn [rangeTail].
  destruct (operand_head b Hb) as (c & w & E & [[Hc Hn]|[Hc Hn]]).
  - destruct (numeral_span b s Hn) as [-> ->].
    { destruct s as [|d s]; [exact I|].
      apply not_word_not_digit. now apply closing_not_word. }
    cbn [negb andb]. pose proof (followed_no_dot s Hs) as D.
    destruct s as [|d s]; [reflexivity|].
    destruct d as [[] [] [] [] [] [] [] []]; try reflexivity.
    destruct s as [|e s]; [reflexivity|].
    destruct e as [[] [] [] [] [] [] [] []]; try reflexivity.
    destruct D.
  - subst b. rewrite append_cons. simpl. now rewrite Hc.
Qed.

Lemma rangeTail_followed s : followed s -> rangeTail s = false.
Proof.
  destruct s as [|c s]; [reflexivity|]. simpl.
  destruct c as [[] [] [] [] [] [] [] []]; try discriminate; reflexivity.
Qed.

(** *** The rewriting on the text of a condition *)

Lemma length_relText r : (1 <= String.length (relText r) <= 2)%nat.
Proof. destruct r; simpl; lia. Qed.

Lemma replace_rel r : forall s fuel,
  (String.length (relText r) <= fuel)%nat ->
  Conditional.replaceRanges fuel (relText r +:+ s)
  = relText r
    +:+ Conditional.replaceRanges (fuel - String.length (relText r)) s.
Proof.
  intros s fuel Hf.
  destruct r; cbn [relText String.length] in *; autorewrite with flat.
  - destruct fuel as [|fuel]; [lia|].
    rewrite replace_other by reflexivity. simpl. now rewrite Nat.sub_0_r.
  - destruct fuel as [|[|fuel]]; try lia.
    rewrite !replace_other by reflexivity. simpl. now rewrite Nat.sub_0_r.
  - destruct fuel as [|[|fuel]]; try lia.
    rewrite !replace_other by reflexivity. simpl. now rewrite Nat.sub_0_r.
  - destruct fuel as [|[|fuel]]; try lia.
    rewrite !replace_other by reflexivity. simpl. now rewrite Nat.sub_0_r.
Qed.

Lemma replace_text :
  (forall p, wellFormedP p = true -> forall s fuel, followed s ->
      (String.length (textP p +:+ s) <= fuel)%nat ->
      exists fuel', (String.length s <= fuel')%nat
        /\ Conditional.replaceRanges fuel (textP p +:+ s)
           = plainP p +:+ Conditional.replaceRanges fuel' s)
  /\ (forall c, wellFormedC c = true -> forall s fuel, followed s ->
      (String.length (textC c +:+ s) <= fuel)%nat ->
      exists fuel', (String.length s <= fuel')%nat
        /\ Conditional.replaceRanges fuel (textC c +:+ s)
           = plainC c +:+ Conditional.replaceRanges fuel' s)
  /\ (forall d, wellFormedD d = true -> forall s fuel, followed s ->
      (String.length (textD d +:+ s) <= fuel)%nat ->
      exists fuel', (String.length s <= fuel')%nat
        /\ Conditional.replaceRanges fuel (textD d +:+ s)
           = plainD d +:+ Conditional.replaceRanges fuel' s).
Proof.
  apply logic_ind; cbn [textP textC textD plainP plainC plainD
                        wellFormedP wellFormedC wellFormedD].
  - (* a comparison *)
    intros a r b [Ha Hb]%andb_true_iff s fuel Hs Hf.
    destruct (operand_word a Ha) as [_ Hwa].
    destruct (operand_word b Hb) as [_ Hwb].
    rewrite !append_assoc in *. rewrite !length_append in Hf.
    rewrite (replace_word a _ fuel Hwa (stops_rel r b s)
               (rangeTail_rel r b s Hb Hs)) by lia.
    rewrite replace_rel by lia.
    rewrite (replace_word b s _ Hwb (followed_stops s Hs)
               (rangeTail_followed s Hs)) by lia.
    eexists. split; [|rewrite !append_assoc; reflexivity]. lia.
  - (* a range *)
    intros v lo hi [[Hv Hlo]%andb_true_iff Hhi]%andb_true_iff s fuel Hs Hf.
    rewrite !append_assoc in *.
    pose proof (numberRangeAt_range v lo hi s Hv Hlo Hhi (followed_stops s Hs))
      as E.
    destruct (operand_word v Hv) as [Hne _].
    destruct v as [|c v]; [contradiction|].
    rewrite append_cons in *. cbn [String.length] in Hf.
    destruct fuel as [|fuel]; [lia|].
    cbn [Conditional.replaceRanges]. rewrite E.
    exists fuel. split.
    + rewrite !length_append in Hf. lia.
    + now autorewrite with flat.
  - (* parentheses *)
    intros d IH Hw s fuel Hs Hf. autorewrite with flat in *.
    cbn [String.length] in Hf.
    destruct fuel as [|fuel]; [lia|].
    rewrite replace_other by reflexivity.
    destruct (IH Hw (String ")" s) fuel eq_refl) as (fuel1 & H1 & ->); [lia|].
    cbn [String.length] in H1. destruct fuel1 as [|fuel1]; [lia|].
    rewrite replace_other by reflexivity.
    exists fuel1. split; [lia|now autorewrite with flat].
  - auto.
  - (* a conjunction *)
    intros c IHc p IHp [Hc Hp]%andb_true_iff s fuel Hs Hf.
    autorewrite with flat in *.
    destruct (IHc Hc (String "&" (String "&" (textP p +:+ s))) fuel eq_refl Hf)
      as (fuel1 & H1 & ->).
    cbn [String.length] in H1. destruct fuel1 as [|[|fuel1]]; try lia.
    rewrite !replace_other by reflexivity.
    destruct (IHp Hp s fuel1 Hs) as (fuel2 & H2 & ->); [lia|].
    exists fuel2. split; [exact H2|now autorewrite with flat].
  - auto.
  - (* a disjunction *)
    intros d IHd c IHc [Hd Hc]%andb_true_iff s fuel Hs Hf.
    autorewrite with flat in *.
    destruct (IHd Hd (String "|" (String "|" (textC c +:+ s))) fuel eq_refl Hf)
      as (fuel1 & H1 & ->).
    cbn [String.length] in H1. destruct fuel1 as [|[|fuel1]]; try lia.
    rewrite !replace_other by reflexivity.
    destruct (IHc Hc s fuel1 Hs) as (fuel2 & H2 & ->); [lia|].
    exists fuel2. split; [exact H2|now autorewrite with flat].
Qed.

End ConditionLex.

(** ** The tokens of a condition *)

Module ConditionTokens.

Import Action Logic Reads IdentifierMore ArithFacts ArithCompile ConditionLex.

Lemma tokenAt_word w r :
  w <> "" -> Str.all Str.isWord w = true -> stops r ->
  Conditional.conditionalTokenAt (w +:+ r) = Some (w, r).
Proof.
  intros Hne Hw Hr. destruct w as [|c w]; [contradiction|].
  pose proof (span_all Str.isWord (String c w) r Hw Hr) as E.
  rewrite append_cons in *. unfold Conditional.conditionalTokenAt.
  simpl in Hw. apply andb_true_iff in Hw as [Hc _]. rewrite Hc.
  now rewrite E.
Qed.

Lemma tokenAt_rel r s :
  match s with String "=" _ => False | _ => True end ->
  Conditional.conditionalTokenAt (relText r +:+ s) = Some (relText r, s).
Proof.
  intros Hs. destruct r; try reflexivity.
  cbn [relText]. rewrite append_cons, append_nil_l.
  destruct s as [|c s]; [reflexivity|].
  destruct c as [[] [] [] [] [] [] [] []]; try reflexivity. destruct Hs.
Qed.

Lemma tokens_step fuel t r :
  t <> "" -> Conditional.conditionalTokenAt (t +:+ r) = Some (t, r) ->
  Conditional.conditionalTokens (S fuel) (t +:+ r)
  = t :: Conditional.conditionalTokens fuel r.
Proof.
  intros Ht H. destruct t as [|c t]; [contradiction|].
  rewrite append_cons in *. cbn [Conditional.conditionalTokens].
  now rewrite H.
Qed.

Lemma tokens_word fuel w r :
  isOperand w = true -> stops r ->
  Conditional.conditionalTokens (S fuel) (w +:+ r)
  = w :: Conditional.conditionalTokens fuel r.
Proof.
  intros Hw Hr. destruct (operand_word w Hw) as [Hne Ha].
  apply tokens_step; [exact Hne|]. now apply tokenAt_word.
Qed.

Lemma operand_not_equals b s :
  isOperand b = true ->
  match b +:+ s with String "=" _ => False | _ => True end.
Proof.
  intros Hb. destruct (operand_word b Hb) as [Hne Ha].
  destruct b as [|c b]; [contradiction|]. rewrite append_cons.
  simpl in Ha. apply andb_true_iff in Ha as [Hc _].
  destruct c as [[] [] [] [] [] [] [] []]; try exact I; discriminate.
Qed.

Lemma tokens_rel fuel r b s :
  isOperand b = true ->
  Conditional.conditionalTokens (S fuel) (relText r +:+ b +:+ s)
  = relText r :: Conditional.conditionalTokens fuel (b +:+ s).
Proof.
  intros Hb. apply tokens_step; [now destruct r|].
  apply tokenAt_rel. now apply operand_not_equals.
Qed.

Lemma tokens_open fuel r :
  Conditional.conditionalTokens (S fuel) (String "(" r)
  = "(" :: Conditional.conditionalTokens fuel r.
Proof. reflexivity. Qed.

Lemma tokens_close fuel r :
  Conditional.conditionalTokens (S fuel) (String ")" r)
  = ")" :: Conditional.conditionalTokens fuel r.
Proof. reflexivity. Qed.

Lemma tokens_and fuel r :
  Conditional.conditionalTokens (S fuel) (String "&" (String "&" r))
  = "&&" :: Conditional.conditionalTokens fuel r.
Proof. reflexivity. Qed.

Lemma tokens_or fuel r :
  Conditional.conditionalTokens (S fuel) (String "|" (String "|" r))
  = "||" :: Conditional.conditionalTokens fuel r.
Proof. reflexivity. Qed.

Lemma length_operand w : isOperand w = true -> (1 <= String.length w)%nat.
Proof.
  intros H. destruct (operand_word w H) as [Hne _].
  destruct w; [contradiction|]. simpl. lia.
Qed.

(** The tokenizer reads the tokens of a condition back from its text. *)
Lemma lex_condition :
  (forall p, wellFormedP p = true -> forall s fuel, followed s ->
      (String.length (plainP p +:+ s) <= fuel)%nat ->
      exists fuel', (String.length s <= fuel')%nat
        /\ Conditional.conditionalTokens fuel (plainP p +:+ s)
           = tokensP p ++ Conditional.conditionalTokens fuel' s)
  /\ (forall c, wellFormedC c = true -> forall s fuel, followed s ->
      (String.length (plainC c +:+ s) <= fuel)%nat ->
      exists fuel', (String.length s <= fuel')%nat
        /\ Conditional.conditionalTokens fuel (plainC c +:+ s)
           = tokensC c ++ Conditional.conditionalTokens fuel' s)
  /\ (forall d, wellFormedD d = true -> forall s fuel, followed s ->
      (String.length (plainD d +:+ s) <= fuel)%nat ->
      exists fuel', (String.length s <= fuel')%nat
        /\ Conditional.conditionalTokens fuel (plainD d +:+ s)
           = tokensD d ++ Conditional.conditionalTokens fuel' s).
Proof.
  apply logic_ind; cbn [plainP plainC plainD tokensP tokensC tokensD
                        wellFormedP wellFormedC wellFormedD].
  - (* a comparison *)
    intros a r b [Ha Hb]%andb_true_iff s fuel Hs Hf.
    pose proof (length_operand a Ha) as La.
    pose proof (length_operand b Hb) as Lb.
    pose proof (length_relText r) as Lr.
    rewrite !append_assoc in *. rewrite !length_append in Hf.
    destruct fuel as [|[|[|fuel]]]; try lia.
    rewrite (tokens_word _ a _ Ha (stops_rel r b s)).
    rewrite (tokens_rel _ r b s Hb).
    rewrite (tokens_word _ b s Hb (followed_stops s Hs)).
    exists fuel. split; [lia|reflexivity].
  - (* a range *)
    intros v lo hi [[Hv Hlo]%andb_true_iff Hhi]%andb_true_iff s fuel Hs Hf.
    pose proof (numeral_operand lo Hlo) as Ol.
    pose proof (numeral_operand hi Hhi) as Oh.
    pose proof (length_operand v Hv) as Lv.
    pose proof (length_operand lo Ol) as Ll.
    pose proof (length_operand hi Oh) as Lh.
    autorewrite with flat in *. cbn [String.length] in Hf.
    rewrite !length_append in Hf. cbn [String.length] in Hf.
    rewrite !length_append in Hf. cbn [String.length] in Hf.
    rewrite !length_append in Hf. cbn [String.length] in Hf.
    rewrite !length_append in Hf. cbn [String.length] in Hf.
    do 9 (destruct fuel as [|fuel]; [lia|]).
    rewrite tokens_open.
    rewrite (tokens_word _ v) by (assumption || reflexivity).
    rewrite (tokens_rel _ AtLeast lo _ Ol : Conditional.conditionalTokens _
               (String ">" (String "=" (lo +:+ _))) = _).
    rewrite (tokens_word _ lo) by (assumption || reflexivity).
    rewrite tokens_and.
    rewrite (tokens_word _ v) by (assumption || reflexivity).
    rewrite (tokens_rel _ AtMost hi _ Oh : Conditional.conditionalTokens _
               (String "<" (String "=" (hi +:+ _))) = _).
    rewrite (tokens_word _ hi) by (assumption || reflexivity).
    rewrite tokens_close.
    exists fuel. split; [lia|reflexivity].
  - (* parentheses *)
    intros d IH Hw s fuel Hs Hf. autorewrite with flat in *.
    cbn [String.length] in Hf.
    destruct fuel as [|fuel]; [lia|].
    rewrite tokens_open.
    destruct (IH Hw (String ")" s) fuel eq_refl) as (fuel1 & H1 & ->); [lia|].
    cbn [String.length] in H1. destruct fuel1 as [|fuel1]; [lia|].
    rewrite tokens_close.
    exists fuel1. split; [lia|]. cbn [app]. now rewrite <- app_assoc.
  - auto.
  - (* a conjunction *)
    intros c IHc p IHp [Hc Hp]%andb_true_iff s fuel Hs Hf.
    autorewrite with flat in *.
    destruct (IHc Hc (String "&" (String "&" (plainP p +:+ s))) fuel eq_refl Hf)
      as (fuel1 & H1 & ->).
    cbn [String.length] in H1. destruct fuel1 as [|fuel1]; [lia|].
    rewrite tokens_and.
    destruct (IHp Hp s fuel1 Hs) as (fuel2 & H2 & ->); [lia|].
    exists fuel2. split; [exact H2|]. now rewrite <- app_assoc.
  - auto.
  - (* a disjunction *)
    intros d IHd c IHc [Hd Hc]%andb_true_iff s fuel Hs Hf.
    autorewrite with flat in *.
    destruct (IHd Hd (String "|" (String "|" (plainC c +:+ s))) fuel eq_refl Hf)
      as (fuel1 & H1 & ->).
    cbn [String.length] in H1. destruct fuel1 as [|fuel1]; [lia|].
    rewrite tokens_or.
    destruct (IHc Hc s fuel1 Hs) as (fuel2 & H2 & ->); [lia|].
    exists fuel2. split; [exact H2|]. now rewrite <- app_assoc.
Qed.

Lemma replace_done fuel : Conditional.replaceRanges fuel "" = "".
Proof. now destruct fuel. Qed.

Lemma tokens_done fuel : Conditional.conditionalTokens fuel "" = [].
Proof. now destruct fuel. Qed.

(** The tokens of a condition, from its text with white space anywhere. *)
Lemma tokenize_condition d s :
  wellFormedD d = true -> unspaced s = textD d ->
  Conditional.tokenize s = tokensD d.
Proof.
  intros Hw Hs. unfold Conditional.tokenize. fold (unspaced s). rewrite Hs.
  destruct replace_text as (_ & _ & R). destruct lex_condition as (_ & _ & L).
  destruct (R d Hw "" (String.length (textD d)) I) as (f1 & _ & E1).
  { now rewrite append_nil_r. }
  rewrite append_nil_r, replace_done, append_nil_r in E1. rewrite E1.
  destruct (L d Hw "" (String.length (plainD d)) I) as (f2 & _ & E2).
  { now rewrite append_nil_r. }
  rewrite append_nil_r, tokens_done, app_nil_r in E2. exact E2.
Qed.

End ConditionTokens.

(** ** Conditions, from their text to their value *)

Module ConditionLaw.

Import Action Logic Reads IdentifierFacts IdentifierMore ArithFacts
       ArithCompile ConditionalMore ConditionLex ConditionTokens Run.

(** *** The shunting yard on the tokens of a condition *)

Lemma shunt_tokens_app ns st l1 l2 :
  Conditional.shunt ns st (l1 ++ l2)
  = (st' ← Conditional.shunt ns st l1; Conditional.shunt ns st' l2).
Proof.
  revert st. induction l1 as [|x l1 IH]; intros st; [reflexivity|].
  cbn [app Conditional.shunt].
  destruct (Conditional.shuntToken ns st x); [|reflexivity].
  cbn. apply IH.
Qed.

Lemma numeral_number w : isNumeral w = true -> numberRegex w = true.
Proof.
  unfold isNumeral, numberRegex. intros [Hn Hd]%andb_true_iff.
  rewrite <- (append_nil_r w) at 1.
  rewrite (span_all Str.isDigit w "" Hd I). now rewrite Hn.
Qed.

Lemma word_identChar c : Str.isWord c = true -> isIdentChar c = true.
Proof.
  destruct c as [[] [] [] [] [] [] [] []]; try discriminate; reflexivity.
Qed.

Lemma name_variable w :
  isName w = true ->
  isNumeral w = false /\ numberRegex w = false /\ variableRegex w = true
  /\ colons w = 0%nat.
Proof.
  unfold isName. destruct w as [|c w]; [discriminate|].
  intros [Hc Hw]%andb_true_iff.
  pose proof (identStart_not_digit c Hc) as Hd.
  repeat split.
  - unfold isNumeral. simpl. now rewrite Hd.
  - unfold numberRegex. simpl. now rewrite Hd.
  - unfold variableRegex. rewrite Hc. simpl in Hw.
    apply andb_true_iff in Hw as [_ Hw]. simpl.
    revert Hw. apply all_implies, word_identChar.
  - revert Hw. apply all_no_colon, word_no_colon.
Qed.

Lemma shuntToken_operand ns q stk w :
  isOperand w = true ->
  Conditional.shuntToken ns (q, stk) w = Ok (q ++ [itemOf ns w], stk).
Proof.
  unfold isOperand, itemOf. intros [H|H]%orb_true_iff.
  - unfold Conditional.shuntToken. now rewrite (numeral_number w H), H.
  - destruct (name_variable w H) as (Hn & Hr & Hv & Hc).
    unfold Conditional.shuntToken. rewrite Hr, Hv, Hn.
    unfold Identifier.parse. rewrite parseIdentifier_by_colons, Hc.
    reflexivity.
Qed.

Lemma popOperators_atLeast prec q ops base :
  forallb (atLeast prec) ops = true -> below prec base ->
  Conditional.popOperators prec q (ops ++ base) = (q ++ map ITok ops, base).
Proof.
  revert q. induction ops as [|o ops IH]; intros q Ho Hb.
  - cbn [app map]. rewrite app_nil_r. destruct base as [|top below'];
      [reflexivity|]. cbn [Conditional.popOperators]. unfold below, atLeast in Hb.
    destruct (Conditional.operators top) as [[ptop f]|]; [|reflexivity].
    now rewrite Hb.
  - cbn [forallb] in Ho. apply andb_true_iff in Ho as [Ho Hops].
    cbn [app Conditional.popOperators]. unfold atLeast in Ho.
    destruct (Conditional.operators o) as [[po f]|]; [|discriminate].
    rewrite Ho, (IH _ Hops Hb). cbn [map]. now rewrite <- app_assoc.
Qed.

(** An operator of precedence [prec] sends the stacked operators of that
    precedence or more to the queue, and is stacked. *)
Lemma shuntToken_operator ns q ops base token prec f :
  Conditional.operators token = Some (prec, f) ->
  numberRegex token = false -> variableRegex token = false ->
  forallb (atLeast prec) ops = true -> below prec base ->
  Conditional.shuntToken ns (q, ops ++ base) token
  = Ok (q ++ map ITok ops, token :: base).
Proof.
  intros Hop Hn Hv Ho Hb. unfold Conditional.shuntToken.
  rewrite Hn, Hv, Hop. now rewrite (popOperators_atLeast prec q ops base Ho Hb).
Qed.

Lemma operator_not_paren prec o :
  atLeast prec o = true -> String.eqb o "(" = false.
Proof.
  unfold atLeast. destruct (String.eqb_spec o "(") as [->|]; [|reflexivity].
  discriminate.
Qed.

Lemma popToParen_operators prec q ops stk :
  forallb (atLeast prec) ops = true ->
  popToParen q (ops ++ "(" :: stk) = (q ++ map ITok ops, "(" :: stk).
Proof.
  revert q. induction ops as [|o ops IH]; intros q Ho.
  - cbn. now rewrite app_nil_r.
  - cbn [forallb] in Ho. apply andb_true_iff in Ho as [Ho Hops].
    cbn [app popToParen]. rewrite (operator_not_paren prec o Ho), (IH _ Hops).
    cbn [map]. now rewrite <- app_assoc.
Qed.

Lemma shuntToken_closing ns prec q ops stk :
  forallb (atLeast prec) ops = true ->
  Conditional.shuntToken ns (q, ops ++ "(" :: stk) ")"
  = Ok (q ++ map ITok ops, stk).
Proof.
  intros Ho. unfold Conditional.shuntToken. cbn -[popToParen].
  now rewrite (popToParen_operators prec q ops stk Ho).
Qed.

Lemma shuntToken_opening ns q stk :
  Conditional.shuntToken ns (q, stk) "(" = Ok (q, "(" :: stk).
Proof. reflexivity. Qed.

Lemma relText_operator r :
  exists f, Conditional.operators (relText r) = Some (3%nat, f)
            /\ numberRegex (relText r) = false
            /\ variableRegex (relText r) = false.
Proof. destruct r; eexists; repeat split. Qed.

Lemma atLeast_weaken p p' o :
  (p' <= p)%nat -> atLeast p o = true -> atLeast p' o = true.
Proof.
  unfold atLeast. intros Hp. destruct (Conditional.operators o) as [[po f]|];
    [|discriminate].
  intros H%Nat.leb_le. apply Nat.leb_le. lia.
Qed.

Lemma all_atLeast_weaken p p' l :
  (p' <= p)%nat -> forallb (atLeast p) l = true ->
  forallb (atLeast p') l = true.
Proof.
  intros Hp. induction l as [|o l IH]; [reflexivity|]. cbn [forallb].
  intros [Ho Hl]%andb_true_iff. now rewrite (atLeast_weaken p p' o Hp Ho), IH.
Qed.

Lemma below_weaken p p' stk : (p <= p')%nat -> below p stk -> below p' stk.
Proof.
  intros Hp. destruct stk as [|top stk]; [auto|]. unfold below, atLeast.
  destruct (Conditional.operators top) as [[po f]|]; [|auto].
  intros H%Nat.leb_gt. apply Nat.leb_gt. lia.
Qed.

Lemma stackedP_operators p : forallb (atLeast 3) (stackedP p) = true.
Proof. destruct p as [a r b|v lo hi|d]; try reflexivity. now destruct r. Qed.

Lemma stackedC_operators c : forallb (atLeast 2) (stackedC c) = true.
Proof.
  destruct c as [p|c p]; cbn [stackedC].
  - apply (all_atLeast_weaken 3); [lia|apply stackedP_operators].
  - rewrite forallb_app, (all_atLeast_weaken 3 2 _ ltac:(lia)
                            (stackedP_operators p)).
    reflexivity.
Qed.

Lemma stackedD_operators d : forallb (atLeast 1) (stackedD d) = true.
Proof.
  destruct d as [c|d c]; cbn [stackedD].
  - apply (all_atLeast_weaken 2); [lia|apply stackedC_operators].
  - rewrite forallb_app, (all_atLeast_weaken 2 1 _ ltac:(lia)
                            (stackedC_operators c)).
    reflexivity.
Qed.

Lemma postfixP_split ns p :
  postfixP ns p = queuedP ns p ++ map ITok (stackedP p).
Proof. destruct p; cbn; now rewrite ?app_nil_r. Qed.

Lemma postfixC_split ns c :
  postfixC ns c = queuedC ns c ++ map ITok (stackedC c).
Proof.
  destruct c as [p|c p]; cbn [postfixC queuedC stackedC];
    [apply postfixP_split|].
  rewrite postfixP_split, map_app. now rewrite <- !app_assoc.
Qed.

Lemma postfixD_split ns d :
  postfixD ns d = queuedD ns d ++ map ITok (stackedD d).
Proof.
  destruct d as [c|d c]; cbn [postfixD queuedD stackedD];
    [apply postfixC_split|].
  rewrite postfixC_split, map_app. now rewrite <- !app_assoc.
Qed.

(** The range, whose tokens are those of a conjunction in parentheses. *)
Lemma shunt_range ns q stk v lo hi :
  isOperand v = true -> isNumeral lo = true -> isNumeral hi = true ->
  Conditional.shunt ns (q, stk) (tokensP (Between v lo hi))
  = Ok (q ++ postfixP ns (Between v lo hi), stk).
Proof.
  intros Hv Hlo%numeral_operand Hhi%numeral_operand.
  cbn [tokensP postfixP Conditional.shunt].
  rewrite shuntToken_opening. cbn [mbind result_bind].
  rewrite (shuntToken_operand _ _ _ v Hv). cbn [mbind result_bind].
  rewrite (shuntToken_operator ns _ [] ("(" :: stk) ">=" 3 _ eq_refl eq_refl
             eq_refl eq_refl eq_refl).
  cbn [mbind result_bind map]. rewrite app_nil_r.
  rewrite (shuntToken_operand _ _ _ lo Hlo). cbn [mbind result_bind].
  rewrite (shuntToken_operator ns _ [">="] ("(" :: stk) "&&" 2 _ eq_refl
             eq_refl eq_refl eq_refl eq_refl).
  cbn [mbind result_bind map].
  rewrite (shuntToken_operand _ _ _ v Hv). cbn [mbind result_bind].
  rewrite (shuntToken_operator ns _ [] ("&&" :: "(" :: stk) "<=" 3 _ eq_refl
             eq_refl eq_refl eq_refl eq_refl).
  cbn [mbind result_bind map]. rewrite app_nil_r.
  rewrite (shuntToken_operand _ _ _ hi Hhi). cbn [mbind result_bind].
  rewrite (shuntToken_closing ns 2 _ ["<="; "&&"] stk eq_refl).
  cbn [mbind result_bind map]. now rewrite <- !app_assoc.
Qed.

Lemma shunt_condition ns :
  (forall p, wellFormedP p = true -> forall q base, below 3 base ->
      Conditional.shunt ns (q, base) (tokensP p)
      = Ok (q ++ queuedP ns p, stackedP p ++ base))
  /\ (forall c, wellFormedC c = true -> forall q base, below 2 base ->
      Conditional.shunt ns (q, base) (tokensC c)
      = Ok (q ++ queuedC ns c, stackedC c ++ base))
  /\ (forall d, wellFormedD d = true -> forall q base, below 1 base ->
      Conditional.shunt ns (q, base) (tokensD d)
      = Ok (q ++ queuedD ns d, stackedD d ++ base)).
Proof.
  apply logic_ind; cbn [wellFormedP wellFormedC wellFormedD].
  - (* a comparison *)
    intros a r b [Ha Hb]%andb_true_iff q base Hbase.
    cbn [tokensP queuedP stackedP Conditional.shunt].
    rewrite (shuntToken_operand _ _ _ a Ha). cbn [mbind result_bind].
    destruct (relText_operator r) as (f & Hop & Hn & Hv).
    rewrite (shuntToken_operator ns _ [] base (relText r) 3 f Hop Hn Hv
               eq_refl Hbase).
    cbn [mbind result_bind map]. rewrite app_nil_r.
    rewrite (shuntToken_operand _ _ _ b Hb). cbn [mbind result_bind].
    now rewrite <- app_assoc.
  - (* a range *)
    intros v lo hi [[Hv Hlo]%andb_true_iff Hhi]%andb_true_iff q base _.
    rewrite (shunt_range ns q base v lo hi Hv Hlo Hhi). reflexivity.
  - (* parentheses *)
    intros d IH Hw q base _. cbn [tokensP queuedP stackedP postfixP].
    change ("(" :: tokensD d ++ [")"]) with (["("] ++ tokensD d ++ [")"]).
    rewrite shunt_tokens_app. cbn [Conditional.shunt].
    rewrite shuntToken_opening. cbn [mbind result_bind].
    rewrite shunt_tokens_app.
    rewrite (IH Hw q ("(" :: base) eq_refl).
    cbn [mbind result_bind Conditional.shunt].
    rewrite (shuntToken_closing ns 1 _ _ base (stackedD_operators d)).
    cbn [mbind result_bind]. now rewrite <- app_assoc, <- postfixD_split.
  - (* a proposition as a conjunction *)
    intros p IH Hw q base Hbase. cbn [tokensC queuedC stackedC].
    apply (IH Hw). revert Hbase. apply below_weaken. lia.
  - (* a conjunction *)
    intros c IHc p IHp [Hc Hp]%andb_true_iff q base Hbase.
    cbn [tokensC queuedC stackedC].
    rewrite shunt_tokens_app, (IHc Hc q base Hbase).
    cbn [mbind result_bind Conditional.shunt].
    rewrite (shuntToken_operator ns _ (stackedC c) base "&&" 2 _ eq_refl
               eq_refl eq_refl (stackedC_operators c) Hbase).
    cbn [mbind result_bind].
    rewrite (IHp Hp _ ("&&" :: base) eq_refl).
    rewrite postfixC_split. now rewrite <- !app_assoc.
  - (* a conjunction as a condition *)
    intros c IH Hw q base Hbase. cbn [tokensD queuedD stackedD].
    apply (IH Hw). revert Hbase. apply below_weaken. lia.
  - (* a disjunction *)
    intros d IHd c IHc [Hd Hc]%andb_true_iff q base Hbase.
    cbn [tokensD queuedD stackedD].
    rewrite shunt_tokens_app, (IHd Hd q base Hbase).
    cbn [mbind result_bind Conditional.shunt].
    rewrite (shuntToken_operator ns _ (stackedD d) base "||" 1 _ eq_refl
               eq_refl eq_refl (stackedD_operators d) Hbase).
    cbn [mbind result_bind].
    rewrite (IHc Hc _ ("||" :: base) eq_refl).
    rewrite postfixD_split. now rewrite <- !app_assoc.
Qed.

Lemma tokensD_nonempty d : tokensD d <> [].
Proof.
  assert (P : forall p, tokensP p <> []) by (intros []; discriminate).
  assert (C : forall c, tokensC c <> []).
  { intros [p|c p]; cbn [tokensC]; [apply P|]. now destruct (tokensC c). }
  destruct d as [c|d c]; cbn [tokensD]; [apply C|]. now destruct (tokensD d).
Qed.

(** The constructor turns the text of a condition into its postfix form. *)
Lemma new_condition d ns s :
  wellFormedD d = true -> unspaced s = textD d ->
  Conditional.new s ns = Ok {| Conditional.outputQueue := postfixD ns d |}.
Proof.
  intros Hw Hs. unfold Conditional.new, Conditional.compile.
  rewrite (tokenize_condition d s Hw Hs).
  pose proof (tokensD_nonempty d) as Hne.
  destruct (shunt_condition ns) as (_ & _ & H).
  specialize (H d Hw [] [] I).
  destruct (tokensD d) as [|x l]; [contradiction|].
  rewrite H. cbn [mbind result_bind]. cbn [app].
  now rewrite app_nil_r, <- postfixD_split.
Qed.

(** *** The evaluator on the postfix form *)

Lemma evalItem_word ns variables stack w :
  assignedOperand ns variables w ->
  Conditional.evalItem variables stack (itemOf ns w)
  = Ok (valueOf ns variables w :: stack).
Proof.
  unfold assignedOperand, valueOf, itemOf.
  destruct (isNumeral w); [reflexivity|]. cbn [Conditional.evalItem].
  now destruct (readVar variables (Identifier.asIdentifier ns w)).
Qed.

Lemma valueOf_numeral ns variables w :
  isNumeral w = true -> assignedOperand ns variables w.
Proof. unfold assignedOperand, valueOf. intros ->. discriminate. Qed.

Lemma evalQueue_condition ns variables :
  (forall p, wellFormedP p = true -> assignedP ns variables p ->
      forall stack rest,
      Conditional.evalQueue variables stack (postfixP ns p ++ rest)
      = Conditional.evalQueue variables
          (VBool (truthP ns variables p) :: stack) rest)
  /\ (forall c, wellFormedC c = true -> assignedC ns variables c ->
      forall stack rest,
      Conditional.evalQueue variables stack (postfixC ns c ++ rest)
      = Conditional.evalQueue variables
          (VBool (truthC ns variables c) :: stack) rest)
  /\ (forall d, wellFormedD d = true -> assignedD ns variables d ->
      forall stack rest,
      Conditional.evalQueue variables stack (postfixD ns d ++ rest)
      = Conditional.evalQueue variables
          (VBool (truthD ns variables d) :: stack) rest).
Proof.
  apply logic_ind; cbn [postfixP postfixC postfixD assignedP assignedC
                        assignedD truthP truthC truthD
                        wellFormedP wellFormedC wellFormedD].
  - intros a r b _ [Ha Hb] stack rest. cbn [app Conditional.evalQueue].
    rewrite (evalItem_word _ _ _ a Ha). cbn [mbind result_bind].
    rewrite (evalItem_word _ _ _ b Hb). cbn [mbind result_bind].
    now destruct r.
  - intros v lo hi [[_ Hlo]%andb_true_iff Hhi]%andb_true_iff Hv stack rest.
    pose proof (valueOf_numeral ns variables lo Hlo) as Al.
    pose proof (valueOf_numeral ns variables hi Hhi) as Ah.
    cbn [app Conditional.evalQueue].
    rewrite (evalItem_word _ _ _ v Hv). cbn [mbind result_bind].
    rewrite (evalItem_word _ _ _ lo Al). cbn [mbind result_bind].
    cbn [Conditional.evalItem Conditional.operators String.eqb Ascii.eqb
         Bool.eqb pop mbind result_bind].
    rewrite (evalItem_word _ _ _ v Hv). cbn [mbind result_bind].
    rewrite (evalItem_word _ _ _ hi Ah). cbn [mbind result_bind].
    cbn. now destruct (_ <=? _)%float.
  - auto.
  - auto.
  - intros c IHc p IHp [Wc Wp]%andb_true_iff [Hc Hp] stack rest.
    rewrite <- !app_assoc, (IHc Wc Hc), (IHp Wp Hp). cbn.
    now destruct (truthC ns variables c).
  - auto.
  - intros d IHd c IHc [Wd Wc]%andb_true_iff [Hd Hc] stack rest.
    rewrite <- !app_assoc, (IHd Wd Hd), (IHc Wc Hc). cbn.
    now destruct (truthD ns variables d).
Qed.

Lemma evaluate_condition d ns variables :
  wellFormedD d = true -> assignedD ns variables d ->
  Conditional.evaluate {| Conditional.outputQueue := postfixD ns d |}
                       variables
  = Ok (truthD ns variables d).
Proof.
  intros Hw Ha. unfold Conditional.evaluate, Conditional.evaluator.
  cbn [Conditional.outputQueue].
  destruct (evalQueue_condition ns variables) as (_ & _ & H).
  rewrite <- (app_nil_r (postfixD ns d)), (H d Hw Ha). reflexivity.
Qed.

(** A condition, from its text to its truth. *)
Lemma runPostfix_text d ns variables s :
  wellFormedD d = true -> assignedD ns variables d ->
  unspaced s = textD d ->
  runPostfix s ns variables = Ok (truthD ns variables d).
Proof.
  intros Hw Ha Hs. unfold runPostfix. rewrite (new_condition d ns s Hw Hs).
  cbn [mbind result_bind]. now apply evaluate_condition.
Qed.

(** *** A condition with a variable that has no value *)

Lemma first_operand ns variables w q :
  assignedOperand ns variables w ->
  firstUndefined variables (itemOf ns w :: q) = firstUndefined variables q.
Proof.
  unfold assignedOperand, valueOf, itemOf.
  destruct (isNumeral w); [reflexivity|]. cbn [firstUndefined].
  now destruct (readVar variables (Identifier.asIdentifier ns w)).
Qed.

Lemma first_numeral ns variables w q :
  isNumeral w = true ->
  firstUndefined variables (itemOf ns w :: q) = firstUndefined variables q.
Proof. intros Hw. unfold itemOf. now rewrite Hw. Qed.

Lemma first_token variables t q :
  firstUndefined variables (ITok t :: q) = firstUndefined variables q.
Proof. reflexivity. Qed.

(** A condition whose operands all have values has no variable without
    one. *)
Lemma assigned_first ns variables :
  (forall p, wellFormedP p = true -> assignedP ns variables p ->
     firstUndefined variables (postfixP ns p) = None)
  /\ (forall c, wellFormedC c = true -> assignedC ns variables c ->
        firstUndefined variables (postfixC ns c) = None)
  /\ (forall d, wellFormedD d = true -> assignedD ns variables d ->
        firstUndefined variables (postfixD ns d) = None).
Proof.
  apply logic_ind.
  - intros a r b _ [Ha Hb]. cbn [postfixP].
    now rewrite (first_operand _ _ a), (first_operand _ _ b).
  - intros v lo hi [[_ Hl]%andb_true_iff Hh]%andb_true_iff Hv.
    cbn [postfixP].
    rewrite (first_operand _ _ v _ Hv), (first_numeral _ _ lo _ Hl).
    rewrite first_token.
    now rewrite (first_operand _ _ v _ Hv), (first_numeral _ _ hi _ Hh).
  - intros d IH Hw Ha. now apply IH.
  - intros p IH Hw Ha. now apply IH.
  - intros c IHc p IHp [Hc Hp]%andb_true_iff [Ac Ap]. cbn [postfixC].
    rewrite !UndefinedFacts.firstUndefined_app, (IHc Hc Ac), (IHp Hp Ap).
    reflexivity.
  - intros c IH Hw Ha. now apply IH.
  - intros d IHd c IHc [Hd Hc]%andb_true_iff [Ad Ac]. cbn [postfixD].
    rewrite !UndefinedFacts.firstUndefined_app, (IHd Hd Ad), (IHc Hc Ac).
    reflexivity.
Qed.

(** The right operand of [&&] and of [||] is evaluated whatever the left
    one is: a variable of it that has no value raises. *)
Lemma runPostfix_and ns variables c p s name :
  wellFormedC c = true -> wellFormedP p = true ->
  unspaced s = textC c +:+ "&&" +:+ textP p ->
  assignedC ns variables c ->
  firstUndefined variables (postfixP ns p) = Some name ->
  runPostfix s ns variables = Throw (usedBeforeAssignment name).
Proof.
  intros Hc Hp Hs Ac Hn. unfold runPostfix.
  rewrite (new_condition (Just (Both c p)) ns s);
    [|cbn [wellFormedD wellFormedC]; now rewrite Hc, Hp|exact Hs].
  cbn [mbind result_bind].
  pose proof (UndefinedFacts.conditional_evaluate_first
                {| Conditional.outputQueue := postfixD ns (Just (Both c p)) |}
                variables) as E.
  cbn [Conditional.outputQueue postfixD postfixC] in E.
  destruct (assigned_first ns variables) as (_ & HC & _).
  rewrite !UndefinedFacts.firstUndefined_app, (HC c Hc Ac), Hn in E.
  exact E.
Qed.

Lemma runPostfix_or ns variables d c s name :
  wellFormedD d = true -> wellFormedC c = true ->
  unspaced s = textD d +:+ "||" +:+ textC c ->
  assignedD ns variables d ->
  firstUndefined variables (postfixC ns c) = Some name ->
  runPostfix s ns variables = Throw (usedBeforeAssignment name).
Proof.
  intros Hd Hc Hs Ad Hn. unfold runPostfix.
  rewrite (new_condition (Either d c) ns s);
    [|cbn [wellFormedD]; now rewrite Hd, Hc|exact Hs].
  cbn [mbind result_bind].
  pose proof (UndefinedFacts.conditional_evaluate_first
                {| Conditional.outputQueue := postfixD ns (Either d c) |}
                variables) as E.
  cbn [Conditional.outputQueue postfixD] in E.
  destruct (assigned_first ns variables) as (_ & _ & HD).
  rewrite !UndefinedFacts.firstUndefined_app, (HD d Hd Ad), Hn in E.
  exact E.
Qed.

End ConditionLaw.

(** ** Numerals with a point or a sign *)

Module NumeralFacts.

Import Action Logic Reads IdentifierFacts IdentifierMore ArithFacts
       ArithCompile ConditionalMore ConditionLex ConditionTokens
       ConditionLaw Run.

Lemma tokens_next fuel t r :
  (0 < fuel)%nat -> t <> "" ->
  Conditional.conditionalTokenAt (t +:+ r) = Some (t, r) ->
  Conditional.conditionalTokens fuel (t +:+ r)
  = t :: Conditional.conditionalTokens (fuel - 1) r.
Proof.
  intros Hf Ht H. destruct fuel as [|fuel]; [lia|].
  rewrite (tokens_step fuel t r Ht H). simpl. now rewrite Nat.sub_0_r.
Qed.

Lemma tokens_skip fuel c r :
  (0 < fuel)%nat -> Conditional.conditionalTokenAt (String c r) = None ->
  Conditional.conditionalTokens fuel (String c r)
  = Conditional.conditionalTokens (fuel - 1) r.
Proof.
  intros Hf H. destruct fuel as [|fuel]; [lia|].
  cbn [Conditional.conditionalTokens]. rewrite H. simpl.
  now rewrite Nat.sub_0_r.
Qed.

Lemma replace_next fuel c s :
  (0 < fuel)%nat -> Str.isWord c = false ->
  Conditional.replaceRanges fuel (String c s)
  = String c (Conditional.replaceRanges (fuel - 1) s).
Proof.
  intros Hf H. destruct fuel as [|fuel]; [lia|].
  rewrite (replace_other fuel c s H). simpl. now rewrite Nat.sub_0_r.
Qed.

Lemma replace_last w fuel :
  Str.all Str.isWord w = true -> (String.length w <= fuel)%nat ->
  Conditional.replaceRanges fuel w = w.
Proof.
  intros Hw Hf. rewrite <- (append_nil_r w) at 1.
  rewrite (replace_word w "" fuel Hw I eq_refl Hf).
  now rewrite replace_done, append_nil_r.
Qed.

Lemma tokens_last w fuel :
  isOperand w = true -> (0 < fuel)%nat ->
  Conditional.conditionalTokens fuel w = [w].
Proof.
  intros Hw Hf. destruct (operand_word w Hw) as [Hne Ha].
  rewrite <- (append_nil_r w) at 1.
  rewrite (tokens_next fuel w "" Hf Hne (tokenAt_word w "" Hne Ha I)).
  now rewrite tokens_done.
Qed.

Lemma name_operand x : isName x = true -> isOperand x = true.
Proof. intros H. unfold isOperand. rewrite H. apply orb_true_r. Qed.

Lemma numeral_head a :
  isNumeral a = true -> exists c w, a = String c w /\ Str.isDigit c = true.
Proof.
  unfold isNumeral. destruct a as [|c w]; [discriminate|]. simpl.
  intros [Hc _]%andb_true_iff. eauto.
Qed.

(** *** A numeral with a point *)

Lemma rangeTail_decimal r a b :
  isNumeral a = true -> isNumeral b = true ->
  rangeTail (relText r +:+ a +:+ "." +:+ b) = false.
Proof.
  intros Ha Hb. destruct r; try reflexivity.
  cbn [relText]. rewrite append_cons, append_nil_l. cbn [rangeTail].
  destruct (numeral_span a ("." +:+ b) Ha eq_refl) as [-> ->].
  cbn [negb andb]. rewrite append_cons, append_nil_l.
  destruct (numeral_head b Hb) as (c & w & -> & Hc).
  destruct c as [[] [] [] [] [] [] [] []]; try reflexivity; discriminate.
Qed.

Lemma tokenize_decimal x r a b s :
  isName x = true -> isNumeral a = true -> isNumeral b = true ->
  unspaced s = x +:+ relText r +:+ a +:+ "." +:+ b ->
  Conditional.tokenize s = [x; relText r; a; b].
Proof.
  intros Hx%name_operand Ha Hb Hs.
  pose proof (numeral_operand a Ha) as Oa.
  pose proof (numeral_operand b Hb) as Ob.
  destruct (operand_word x Hx) as [_ Wx].
  destruct (operand_word a Oa) as [_ Wa].
  destruct (operand_word b Ob) as [_ Wb].
  pose proof (length_operand x Hx) as Lx.
  pose proof (length_operand a Oa) as La.
  pose proof (length_operand b Ob) as Lb.
  pose proof (length_relText r) as Lr.
  unfold Conditional.tokenize. fold (unspaced s). rewrite Hs.
  assert (E : Conditional.replaceRanges
                (String.length (x +:+ relText r +:+ a +:+ "." +:+ b))
                (x +:+ relText r +:+ a +:+ "." +:+ b)
              = x +:+ relText r +:+ a +:+ "." +:+ b).
  { rewrite !length_append. cbn [String.length].
    rewrite (replace_word x _ _ Wx (stops_rel r a _)
               (rangeTail_decimal r a b Ha Hb)) by lia.
    rewrite replace_rel by lia.
    rewrite (replace_word a ("." +:+ b) _ Wa eq_refl eq_refl) by lia.
    rewrite append_cons, append_nil_l.
    rewrite replace_next by (lia || reflexivity).
    rewrite (replace_last b) by (assumption || lia). reflexivity. }
  rewrite E. rewrite !length_append. cbn [String.length].
  rewrite (tokens_next _ x) ;
    [|lia|now destruct x|apply tokenAt_word;
                         [now destruct x|exact Wx|apply stops_rel]].
  rewrite (tokens_next _ (relText r));
    [|lia|now destruct r|apply tokenAt_rel, (operand_not_equals a _ Oa)].
  rewrite (tokens_next _ a ("." +:+ b));
    [|lia|now destruct a|apply tokenAt_word;
                         [now destruct a|exact Wa|reflexivity]].
  rewrite append_cons, append_nil_l.
  rewrite tokens_skip by (lia || reflexivity).
  rewrite (tokens_last b) by (assumption || lia). reflexivity.
Qed.

(** A comparison with a numeral that has a point: the numeral is two
    tokens, and what is left at the bottom of the stack is the value of
    the left operand. *)
Lemma runPostfix_decimal x r a b ns variables s :
  isName x = true -> isNumeral a = true -> isNumeral b = true ->
  assignedOperand ns variables x ->
  unspaced s = x +:+ relText r +:+ a +:+ "." +:+ b ->
  runPostfix s ns variables = Ok (Js.toBoolean (valueOf ns variables x)).
Proof.
  intros Hx Ha Hb Hv Hs.
  pose proof (valueOf_numeral ns variables a Ha) as Va.
  pose proof (valueOf_numeral ns variables b Hb) as Vb.
  unfold runPostfix, Conditional.new, Conditional.compile.
  rewrite (tokenize_decimal x r a b s Hx Ha Hb Hs).
  cbn [Conditional.shunt].
  rewrite (shuntToken_operand ns _ _ x (name_operand x Hx)).
  cbn [mbind result_bind].
  destruct (relText_operator r) as (f & Hop & Hn & Hr).
  rewrite (shuntToken_operator ns _ [] [] (relText r) 3 f Hop Hn Hr
             eq_refl I).
  cbn [mbind result_bind map app].
  rewrite (shuntToken_operand ns _ _ a (numeral_operand a Ha)).
  cbn [mbind result_bind].
  rewrite (shuntToken_operand ns _ _ b (numeral_operand b Hb)).
  cbn [mbind result_bind app map].
  unfold Conditional.evaluate, Conditional.evaluator.
  cbn [Conditional.outputQueue Conditional.evalQueue].
  rewrite (evalItem_word ns variables _ x Hv). cbn [mbind result_bind].
  rewrite (evalItem_word ns variables _ a Va). cbn [mbind result_bind].
  rewrite (evalItem_word ns variables _ b Vb). cbn [mbind result_bind].
  cbn [Conditional.evalItem]. rewrite Hop. cbn. reflexivity.
Qed.

(** *** A numeral with a sign *)

Lemma dashDigit_all a :
  isNumeral a = true ->
  Str.all Conditional.isDashDigit (String "-" a) = true.
Proof.
  unfold isNumeral. intros [_ Hd]%andb_true_iff. simpl.
  revert Hd. apply all_implies. intros c Hc.
  unfold Conditional.isDashDigit. rewrite Hc. apply orb_true_r.
Qed.

Lemma tokenAt_signed a :
  isNumeral a = true ->
  Conditional.conditionalTokenAt (String "-" a) = Some (String "-" a, "").
Proof.
  intros Ha. pose proof (dashDigit_all a Ha) as Hd.
  pose proof (span_all Conditional.isDashDigit (String "-" a) "" Hd I) as E.
  rewrite append_nil_r in E. unfold Conditional.conditionalTokenAt.
  cbn -[Str.span]. now rewrite E.
Qed.

Lemma tokenize_signed x r a s :
  isName x = true -> isNumeral a = true ->
  unspaced s = x +:+ relText r +:+ "-" +:+ a ->
  Conditional.tokenize s = [x; relText r; String "-" a].
Proof.
  intros Hx%name_operand Ha Hs.
  pose proof (numeral_operand a Ha) as Oa.
  destruct (operand_word x Hx) as [_ Wx].
  destruct (operand_word a Oa) as [_ Wa].
  pose proof (length_operand x Hx) as Lx.
  pose proof (length_operand a Oa) as La.
  pose proof (length_relText r) as Lr.
  unfold Conditional.tokenize. fold (unspaced s). rewrite Hs.
  assert (St : stops (relText r +:+ "-" +:+ a)) by (now destruct r).
  assert (Rt : rangeTail (relText r +:+ "-" +:+ a) = false)
    by (now destruct r).
  assert (E : Conditional.replaceRanges
                (String.length (x +:+ relText r +:+ "-" +:+ a))
                (x +:+ relText r +:+ "-" +:+ a)
              = x +:+ relText r +:+ "-" +:+ a).
  { rewrite !length_append. cbn [String.length].
    rewrite (replace_word x _ _ Wx St Rt) by lia.
    rewrite replace_rel by lia.
    rewrite append_cons, append_nil_l.
    rewrite replace_next by (lia || reflexivity).
    rewrite (replace_last a) by (assumption || lia). reflexivity. }
  rewrite E. rewrite !length_append. cbn [String.length].
  rewrite (tokens_next _ x) ;
    [|lia|now destruct x|apply tokenAt_word;
                         [now destruct x|exact Wx|exact St]].
  rewrite (tokens_next _ (relText r));
    [|lia|now destruct r|apply tokenAt_rel; reflexivity].
  rewrite append_cons, append_nil_l.
  rewrite <- (append_nil_r (String "-" a)) at 1.
  rewrite (tokens_next _ (String "-" a) "");
    [|lia|discriminate|rewrite append_nil_r; now apply tokenAt_signed].
  now rewrite tokens_done.
Qed.

Lemma shuntToken_signed ns st a :
  Conditional.shuntToken ns st (String "-" a) = Ok st.
Proof. destruct st as [q stk]. reflexivity. Qed.

Lemma leb_nan_r x : (x <=? nan)%float = false.
Proof.
  rewrite FloatAxioms.leb_spec. change (Prim2SF nan) with S754_nan.
  now destruct (Prim2SF x) as [[]|[]| |[] m e].
Qed.

Lemma leb_nan_l x : (nan <=? x)%float = false.
Proof.
  rewrite FloatAxioms.leb_spec. change (Prim2SF nan) with S754_nan.
  reflexivity.
Qed.

(** A comparison with a numeral that has a sign: the numeral is no
    token of the queue, and the comparison is one with [undefined]. *)
Lemma runPostfix_signed x r a ns variables s :
  isName x = true -> isNumeral a = true ->
  assignedOperand ns variables x ->
  unspaced s = x +:+ relText r +:+ "-" +:+ a ->
  runPostfix s ns variables = Ok false.
Proof.
  intros Hx Ha Hv Hs.
  unfold runPostfix, Conditional.new, Conditional.compile.
  rewrite (tokenize_signed x r a s Hx Ha Hs).
  cbn [Conditional.shunt].
  rewrite (shuntToken_operand ns _ _ x (name_operand x Hx)).
  cbn [mbind result_bind].
  destruct (relText_operator r) as (f & Hop & Hn & Hr).
  rewrite (shuntToken_operator ns _ [] [] (relText r) 3 f Hop Hn Hr
             eq_refl I).
  cbn [mbind result_bind map app].
  rewrite shuntToken_signed. cbn [mbind result_bind app map].
  unfold Conditional.evaluate, Conditional.evaluator.
  cbn [Conditional.outputQueue Conditional.evalQueue].
  rewrite (evalItem_word ns variables _ x Hv). cbn [mbind result_bind].
  cbn [Conditional.evalItem]. unfold assignedOperand in Hv.
  destruct r; cbn.
  - now destruct (valueOf ns variables x).
  - now destruct (valueOf ns variables x).
  - unfold Js.ge. cbn. now rewrite leb_nan_r.
  - unfold Js.le. cbn. now rewrite leb_nan_l.
Qed.

End NumeralFacts.

(** ** Inline conditionals of a text *)

Module InlineFacts.

Import Action Shapes Arith Logic Reads IdentifierFacts IdentifierMore
       ArithFacts ArithCompile ActionLaw TextMore ConditionLex ConditionLaw
       Run.

Lemma word_quiet c : Str.isWord c = true -> quiet c = true.
Proof. destruct c as [[] [] [] [] [] [] [] []]; try discriminate; reflexivity. Qed.

Lemma space_quiet c : Str.isSpace c = true -> quiet c = true.
Proof. destruct c as [[] [] [] [] [] [] [] []]; try discriminate; reflexivity. Qed.

Lemma operand_quiet w : isOperand w = true -> Str.all quiet w = true.
Proof.
  intros H. apply (all_weaken Str.isWord); [apply word_quiet|].
  now apply operand_word.
Qed.

Lemma relText_quiet r : Str.all quiet (relText r) = true.
Proof. now destruct r. Qed.

Lemma text_quiet :
  (forall p, wellFormedP p = true -> Str.all quiet (textP p) = true)
  /\ (forall c, wellFormedC c = true -> Str.all quiet (textC c) = true)
  /\ (forall d, wellFormedD d = true -> Str.all quiet (textD d) = true).
Proof.
  apply logic_ind.
  - intros a r b [Ha Hb]%andb_true_iff. cbn [textP].
    now rewrite !all_app, (operand_quiet a Ha), relText_quiet,
      (operand_quiet b Hb).
  - intros v lo hi [[Hv Hl]%andb_true_iff Hh]%andb_true_iff. cbn [textP].
    rewrite !all_app, (operand_quiet v Hv),
      (operand_quiet lo (numeral_operand lo Hl)),
      (operand_quiet hi (numeral_operand hi Hh)). reflexivity.
  - intros d IH Hd. cbn [textP]. rewrite !all_app, (IH Hd). reflexivity.
  - intros p IH Hp. now apply IH.
  - intros c IHc p IHp [Hc Hp]%andb_true_iff. cbn [textC].
    rewrite !all_app, (IHc Hc), (IHp Hp). reflexivity.
  - intros c IH Hc. now apply IH.
  - intros d IHd c IHc [Hd Hc]%andb_true_iff. cbn [textD].
    rewrite !all_app, (IHd Hd), (IHc Hc). reflexivity.
Qed.

Lemma filter_all (p q : ascii -> bool) s :
  (forall c, p c = false -> q c = true) ->
  Str.all q (Str.filter p s) = true -> Str.all q s = true.
Proof.
  intros Hpq. induction s as [|c s IH]; [reflexivity|]. cbn [Str.filter].
  destruct (p c) eqn:Hc; cbn [Str.all].
  - intros [-> H]%andb_true_iff. now apply IH.
  - intros H. now rewrite (Hpq c Hc), (IH H).
Qed.

Lemma append_nonempty a b : a <> "" -> a +:+ b <> "".
Proof. destruct a; [contradiction|]. now rewrite append_cons. Qed.

Lemma operand_nonempty w : isOperand w = true -> w <> "".
Proof. intros H ->. discriminate H. Qed.

Lemma text_nonempty :
  (forall p, wellFormedP p = true -> textP p <> "")
  /\ (forall c, wellFormedC c = true -> textC c <> "")
  /\ (forall d, wellFormedD d = true -> textD d <> "").
Proof.
  apply logic_ind.
  - intros a r b [Ha _]%andb_true_iff. cbn [textP].
    apply append_nonempty. now apply operand_nonempty.
  - intros v lo hi [[Hv _]%andb_true_iff _]%andb_true_iff. cbn [textP].
    apply append_nonempty. now apply operand_nonempty.
  - intros d _ _. cbn [textP]. now apply append_nonempty.
  - intros p IH Hp. now apply IH.
  - intros c IHc p _ [Hc _]%andb_true_iff. cbn [textC].
    apply append_nonempty. now apply IHc.
  - intros c IH Hc. now apply IH.
  - intros d IHd c _ [Hd _]%andb_true_iff. cbn [textD].
    apply append_nonempty. now apply IHd.
Qed.

(** What the text of a condition with white space is made of. *)
Lemma spaced_condition d s :
  wellFormedD d = true -> unspaced s = textD d ->
  s <> "" /\ Str.all quiet s = true.
Proof.
  intros Hw Hs. destruct text_nonempty as (_ & _ & Hn).
  destruct text_quiet as (_ & _ & Hq). split.
  - intros ->. now apply (Hn d Hw).
  - apply (filter_all (fun c => negb (Str.isSpace c))).
    + intros c Hc%negb_false_iff. now apply space_quiet.
    + unfold unspaced in Hs. rewrite Hs. now apply Hq.
Qed.

Lemma quiet_parts s :
  Str.all quiet s = true ->
  Str.all (Str.isNot "{") s = true /\ Str.all (Str.isNot "}") s = true
  /\ Str.all (Str.isNot "?") s = true.
Proof.
  intros H. repeat split; revert H; apply all_weaken; intros c;
    unfold quiet; intros [[? ?]%andb_true_iff ?]%andb_true_iff; assumption.
Qed.

Lemma plainPiece_parts t :
  plainPiece t = true ->
  t <> "" /\ Str.all (Str.isNot "{") t = true
  /\ Str.all (Str.isNot "}") t = true.
Proof.
  intros [Hn H]%andb_true_iff. repeat split.
  - intros ->. discriminate Hn.
  - revert H. apply all_weaken. now intros c [? ?]%andb_true_iff.
  - revert H. apply all_weaken. now intros c [? ?]%andb_true_iff.
Qed.

(** *** The splitting expression on one marker *)

Lemma markerAt_inline body :
  body <> "" -> Str.all (Str.isNot "}") body = true ->
  Text.markerAt ("?{" +:+ body +:+ "}") = Some ("?{" +:+ body +:+ "}", "").
Proof.
  intros Hne Hb. autorewrite with flat. cbn [Text.markerAt].
  change (Str.isChar "$" "?" || Str.isChar "?" "?") with true. cbv iota.
  rewrite (span_all (Str.isNot "}") body "}" Hb eq_refl).
  destruct body as [|c body]; [contradiction|]. cbn [Str.isEmpty].
  autorewrite with flat. reflexivity.
Qed.

Lemma split_inline body :
  body <> "" -> Str.all (Str.isNot "}") body = true ->
  Text.split (String.length ("?{" +:+ body +:+ "}")) ""
             ("?{" +:+ body +:+ "}")
  = [""; "?{" +:+ body +:+ "}"; ""].
Proof.
  intros Hne Hb. pose proof (markerAt_inline body Hne Hb) as M.
  remember ("?{" +:+ body +:+ "}") as str eqn:E.
  destruct str as [|c str].
  - autorewrite with flat in E. discriminate E.
  - cbn [String.length Text.split]. rewrite M.
    now destruct (String.length str).
Qed.

Lemma variableMatch_inline body :
  Str.all (Str.isNot "{") body = true ->
  Text.variableMatch ("?{" +:+ body +:+ "}") = None.
Proof.
  intros Hb. autorewrite with flat.
  cbn [Text.variableMatch Str.stripPrefix].
  change (Str.ascii_eqb "$" "?") with false.
  change (Str.ascii_eqb "$" "{") with false. cbv iota.
  apply variableMatch_plain. now rewrite all_app, Hb.
Qed.

Lemma conditionalMatch_inline body :
  Text.conditionalMatch ("?{" +:+ body +:+ "}")
  = match Text.conditionalAt (body +:+ "}") with
    | Some g => Some g
    | None => Text.conditionalMatch (String "{" (body +:+ "}"))
    end.
Proof.
  autorewrite with flat. cbn [Text.conditionalMatch Str.stripPrefix].
  change (Str.ascii_eqb "?" "?") with true.
  change (Str.ascii_eqb "{" "{") with true. cbv iota. reflexivity.
Qed.

(** *** The expression of the inline conditional *)

Lemma conditionalAt_else s t1 t2 :
  s <> "" -> Str.all (Str.isNot "?") s = true ->
  t1 <> "" -> Str.all (Str.isNot ":") t1 = true ->
  t2 <> "" -> Str.all (Str.isNot "}") t2 = true ->
  Text.conditionalAt (s +:+ "?" +:+ t1 +:+ ":" +:+ t2 +:+ "}")
  = Some (s, t1, Some t2).
Proof.
  intros Hs Hq H1 Hc H2 Hb. unfold Text.conditionalAt.
  rewrite (span_all (Str.isNot "?") s _ Hq); [|reflexivity].
  autorewrite with flat.
  destruct s as [|a s]; [contradiction|]. cbn [Str.isEmpty].
  rewrite (span_all (Str.isNot ":") t1 _ Hc); [|reflexivity].
  destruct t1 as [|b t1]; [contradiction|]. cbn [Str.isEmpty].
  autorewrite with flat.
  rewrite (span_all (Str.isNot "}") t2 "}" Hb eq_refl).
  destruct t2 as [|c t2]; [contradiction|]. reflexivity.
Qed.

Lemma lastBrace_end t : forall k,
  Str.all (Str.isNot "}") t = true ->
  Text.lastBrace k (t +:+ "}")
  = if (1 <=? k + String.length t)%nat then Some (k + String.length t)%nat
    else None.
Proof.
  induction t as [|c t IH]; intros k H.
  - autorewrite with flat. cbn [Text.lastBrace String.length].
    rewrite Nat.add_0_r. change (Str.isChar "}" "}") with true.
    cbn [andb]. reflexivity.
  - autorewrite with flat. cbn [Text.lastBrace String.length].
    cbn [Str.all] in H. apply andb_true_iff in H as [Hc H].
    rewrite (IH (S k) H).
    replace (S k + String.length t)%nat with (k + S (String.length t))%nat
      by lia.
    destruct (1 <=? k + S (String.length t))%nat eqn:E; [reflexivity|].
    apply Nat.leb_gt in E. lia.
Qed.

Lemma take_append a b : Str.take (String.length a) (a +:+ b) = a.
Proof.
  induction a as [|c a IH].
  - now destruct b.
  - autorewrite with flat. cbn [String.length Str.take]. now rewrite IH.
Qed.

Lemma conditionalAt_only s t1 :
  s <> "" -> Str.all (Str.isNot "?") s = true ->
  t1 <> "" -> Str.all (Str.isNot ":") t1 = true ->
  Str.all (Str.isNot "}") t1 = true ->
  Text.conditionalAt (s +:+ "?" +:+ t1 +:+ "}") = Some (s, t1, None).
Proof.
  intros Hs Hq H1 Hc Hb. unfold Text.conditionalAt.
  rewrite (span_all (Str.isNot "?") s _ Hq); [|reflexivity].
  autorewrite with flat.
  destruct s as [|a s]; [contradiction|]. cbn [Str.isEmpty].
  rewrite <- (append_nil_r (t1 +:+ "}")).
  rewrite (span_all (Str.isNot ":") (t1 +:+ "}") ""); [| |exact I].
  2: { now rewrite all_app, Hc. }
  rewrite (lastBrace_end t1 0 Hb). cbn [Nat.add].
  destruct t1 as [|b t1]; [contradiction|].
  autorewrite with flat. cbn [Str.isEmpty String.length Nat.leb].
  change (String b (t1 +:+ "}")) with (String b t1 +:+ "}") at 1.
  rewrite <- (take_append (String b t1) "}") at 2. reflexivity.
Qed.

(** *** The constructor and [evaluate] *)

Lemma build_plain `{ConditionalClass} fuel str ns :
  Str.all (Str.isNot "{") str = true -> str <> "" ->
  Text.build fuel str ns = Ok [Text.LitToken str].
Proof.
  intros Hp Hne.
  destruct fuel; cbn [Text.build];
    rewrite (split_plain str _ "" Hp), append_nil_l;
    (destruct str as [|c str]; [contradiction|]);
    cbn [List.filter Str.isEmpty negb mapM];
    rewrite (variableMatch_plain _ Hp), (conditionalMatch_plain _ Hp);
    reflexivity.
Qed.

Lemma length_inline body :
  exists n, String.length ("?{" +:+ body +:+ "}") = S n.
Proof. autorewrite with flat. simpl. eauto. Qed.

(** The text of one inline conditional, as the constructor builds it. *)
Lemma new_inline d ns s t1 t2 :
  wellFormedD d = true -> unspaced s = textD d ->
  plainPiece t1 = true -> noColon t1 = true -> plainPiece t2 = true ->
  Text.new ("?{" +:+ s +:+ "?" +:+ t1 +:+ ":" +:+ t2 +:+ "}") ns
  = Ok [Text.CondToken {| Conditional.outputQueue := postfixD ns d |}
          [Text.LitToken t1] (Some [Text.LitToken t2])]
  /\ Text.new ("?{" +:+ s +:+ "?" +:+ t1 +:+ "}") ns
     = Ok [Text.CondToken {| Conditional.outputQueue := postfixD ns d |}
             [Text.LitToken t1] None].
Proof.
  intros Hw Hs P1 C1 P2.
  destruct (spaced_condition d s Hw Hs) as [Sn (So & Sc & Sq)%quiet_parts].
  destruct (plainPiece_parts t1 P1) as (N1 & O1 & B1).
  destruct (plainPiece_parts t2 P2) as (N2 & O2 & B2).
  split.
  - set (body := s +:+ "?" +:+ t1 +:+ ":" +:+ t2).
    assert (E : "?{" +:+ s +:+ "?" +:+ t1 +:+ ":" +:+ t2 +:+ "}"
                = "?{" +:+ body +:+ "}")
      by (unfold body; now autorewrite with flat).
    assert (Bn : body <> "") by now apply append_nonempty.
    assert (Bb : Str.all (Str.isNot "}") body = true)
      by (unfold body; now rewrite !all_app, Sc, B1, B2).
    assert (Bo : Str.all (Str.isNot "{") body = true)
      by (unfold body; now rewrite !all_app, So, O1, O2).
    rewrite E. unfold Text.new.
    destruct (length_inline body) as (n & L). rewrite L at 1.
    cbn [Text.build]. rewrite (split_inline body Bn Bb).
    cbn [List.filter Str.isEmpty negb].
    destruct ("?{" +:+ body +:+ "}") as [|c str] eqn:Es;
      [autorewrite with flat in Es; discriminate Es|].
    cbn [Str.isEmpty negb mapM]. rewrite <- Es.
    rewrite (variableMatch_inline body Bo), conditionalMatch_inline.
    unfold body at 1. rewrite !append_assoc.
    rewrite (conditionalAt_else s t1 t2 Sn Sq N1 C1 N2 B2).
    cbn [condNew postfixConditional].
    rewrite (new_condition d ns s Hw Hs). cbn [mbind result_bind].
    rewrite (build_plain n t1 ns O1 N1). cbn [mbind result_bind].
    rewrite (build_plain n t2 ns O2 N2). reflexivity.
  - set (body := s +:+ "?" +:+ t1).
    assert (E : "?{" +:+ s +:+ "?" +:+ t1 +:+ "}" = "?{" +:+ body +:+ "}")
      by (unfold body; now autorewrite with flat).
    assert (Bn : body <> "") by now apply append_nonempty.
    assert (Bb : Str.all (Str.isNot "}") body = true)
      by (unfold body; now rewrite !all_app, Sc, B1).
    assert (Bo : Str.all (Str.isNot "{") body = true)
      by (unfold body; now rewrite !all_app, So, O1).
    rewrite E. unfold Text.new.
    destruct (length_inline body) as (n & L). rewrite L at 1.
    cbn [Text.build]. rewrite (split_inline body Bn Bb).
    cbn [List.filter Str.isEmpty negb].
    destruct ("?{" +:+ body +:+ "}") as [|c str] eqn:Es;
      [autorewrite with flat in Es; discriminate Es|].
    cbn [Str.isEmpty negb mapM]. rewrite <- Es.
    rewrite (variableMatch_inline body Bo), conditionalMatch_inline.
    unfold body at 1. rewrite !append_assoc.
    rewrite (conditionalAt_only s t1 Sn Sq N1 C1 B1).
    cbn [condNew postfixConditional].
    rewrite (new_condition d ns s Hw Hs). cbn [mbind result_bind].
    rewrite (build_plain n t1 ns O1 N1). reflexivity.
Qed.

(** An inline conditional renders the text that its condition chooses. *)
Lemma renderText_inline d ns variables s t1 t2 :
  wellFormedD d = true -> assignedD ns variables d ->
  unspaced s = textD d ->
  plainPiece t1 = true -> noColon t1 = true -> plainPiece t2 = true ->
  renderText ("?{" +:+ s +:+ "?" +:+ t1 +:+ ":" +:+ t2 +:+ "}") ns variables
  = Ok (if truthD ns variables d then t1 else t2)
  /\ renderText ("?{" +:+ s +:+ "?" +:+ t1 +:+ "}") ns variables
     = Ok (if truthD ns variables d then t1 else "").
Proof.
  intros Hw Ha Hs P1 C1 P2.
  destruct (new_inline d ns s t1 t2 Hw Hs P1 C1 P2) as [E1 E2].
  unfold renderText. rewrite E1, E2. cbn [mbind result_bind].
  unfold Text.render, Text.evaluate, Text.evaluateTokens.
  cbn [Text.joinAll Text.evaluateToken condEvaluate postfixConditional].
  rewrite (evaluate_condition d ns variables Hw Ha).
  cbn [mbind result_bind Js.toBoolean].
  destruct (truthD ns variables d); cbn; now rewrite ?append_nil_r.
Qed.

End InlineFacts.

(** ** Further properties of the evaluators and of the engine *)

Module Further.

Import Expr Cases Model Engine Worlds.

(** X2. The shunting-yard evaluator is right on postfix forms: for every
    expression of [=], [==], [>=], [<=] comparisons under [&&] and [||]
    whose variables hold numbers, the evaluator on the postfix form
    returns the truth value of the expression. *)
Theorem shunting_yard_evaluator_correct e variables :
  shared e -> defined variables e ->
  Conditional.evaluate {| Conditional.outputQueue := postfix e |} variables
  = Ok (denote variables e).
Proof. apply PostfixFacts.evaluate_postfix. Qed.

Lemma shunting_yard_evaluator_correct_witness :
  Conditional.evaluate {| Conditional.outputQueue := postfix test8 |}
                       (store3 5 15 1)
  = Ok true.
Proof.
  apply (shunting_yard_evaluator_correct test8 (store3 5 15 1)).
  - simpl. tauto.
  - repeat split; eexists; reflexivity.
Defined.

(** X3. No turn of the loop of [runAdventure] pushes a scene on the
    history: after a turn that goes on, the history is the one before the
    turn, or that one popped. *)
Theorem no_turn_pushes `{ConditionalClass} fuel history currentScene w
    history' currentScene' w' :
  turn fuel history currentScene w
  = Returned (Continue history' currentScene') w' ->
  history' = history \/ history' = snd (FixedSizeStack.pop history).
Proof. apply EngineFacts.turn_never_pushes. Qed.

Lemma no_turn_pushes_witness :
  FixedSizeStack.new (A := string) 16 = FixedSizeStack.new 16
  \/ FixedSizeStack.new (A := string) 16
     = snd (FixedSizeStack.pop (FixedSizeStack.new 16)).
Proof.
  apply (no_turn_pushes (H := postfixConditional) 1
           (FixedSizeStack.new 16) (Some "inkspire:back") (backWorld [])
           (FixedSizeStack.new 16) None (backWorld [])).
  reflexivity.
Defined.

End Further.

(** ** The language: identifiers, actions, conditions and texts *)

Module Language.

Import Reads Shapes Arith Logic Run Cases.

(** X5. Identifiers round trip.  For a namespace and a name without
    colons, [getNamespace] and [getName] of [from(namespace, name)] give
    them back; and for every string, the two accessors either both return,
    which is when the string has exactly one colon, and then [from] of what
    they return is the string, or both raise ["Malformed identifier: "]
    with the string. *)
Theorem identifier_round_trip :
  (forall ns name, colons ns = 0%nat -> colons name = 0%nat ->
     Identifier.getIdentifierNamespace (Identifier.asIdentifier ns name) = Ok ns
     /\ Identifier.getIdentifierName (Identifier.asIdentifier ns name)
        = Ok name)
  /\ (forall id,
        match colons id with
        | 1%nat => exists ns name,
            Identifier.getIdentifierNamespace id = Ok ns
            /\ Identifier.getIdentifierName id = Ok name
            /\ Identifier.asIdentifier ns name = id
        | _ => Identifier.getIdentifierNamespace id
               = Throw (JsError ("Malformed identifier: " +:+ id))
               /\ Identifier.getIdentifierName id
                  = Throw (JsError ("Malformed identifier: " +:+ id))
        end).
Proof.
  split; [apply IdentifierMore.accessors_of_from|].
  intros id. pose proof (IdentifierMore.accessors_by_colons id) as H.
  destruct (colons id) as [|[|n]]; try exact H.
  destruct H as (ns & name & H1 & H2 & H3 & _). eauto.
Qed.

Lemma identifier_round_trip_witness :
  Identifier.getIdentifierNamespace (Identifier.asIdentifier "palace" "kitchen")
  = Ok "palace"
  /\ Identifier.getIdentifierName (Identifier.asIdentifier "palace" "kitchen")
     = Ok "kitchen".
Proof.
  apply (proj1 identifier_round_trip "palace" "kitchen"); reflexivity.
Defined.

(** X6. What [parse] returns is a qualified identifier.  In a default
    namespace without colons, an identifier that [parse] returns has
    exactly one colon, [parse] returns it unchanged under any default
    namespace, and [getNamespace] and [getName] return on it; when the
    string parsed has no colon they return the default namespace and the
    string. *)
Theorem parse_yields_qualified raw ns ctx id :
  colons ns = 0%nat ->
  Identifier.parseIdentifier raw ns ctx = Ok id ->
  colons id = 1%nat
  /\ (forall ns' ctx', Identifier.parseIdentifier id ns' ctx' = Ok id)
  /\ (exists n name,
        Identifier.getIdentifierNamespace id = Ok n
        /\ Identifier.getIdentifierName id = Ok name
        /\ Identifier.asIdentifier n name = id)
  /\ (colons raw = 0%nat ->
      Identifier.getIdentifierNamespace id = Ok ns
      /\ Identifier.getIdentifierName id = Ok raw).
Proof.
  intros Hn H.
  destruct (OutcomeFacts.parse_qualified _ _ _ _ Hn H) as (H1 & H2 & H3).
  split; [exact H1|]. split; [exact H2|]. split.
  - pose proof (IdentifierMore.accessors_by_colons id) as A.
    rewrite H1 in A. destruct A as (n & name & A1 & A2 & A3 & _). eauto.
  - intros Hr. rewrite (H3 Hr).
    now apply IdentifierMore.accessors_of_from.
Qed.

Lemma parse_yields_qualified_witness :
  colons "palace:kitchen" = 1%nat
  /\ (forall ns' ctx',
        Identifier.parseIdentifier "palace:kitchen" ns' ctx'
        = Ok "palace:kitchen")
  /\ (exists n name,
        Identifier.getIdentifierNamespace "palace:kitchen" = Ok n
        /\ Identifier.getIdentifierName "palace:kitchen" = Ok name
        /\ Identifier.asIdentifier n name = "palace:kitchen")
  /\ (colons "kitchen" = 0%nat ->
      Identifier.getIdentifierNamespace "palace:kitchen" = Ok "palace"
      /\ Identifier.getIdentifierName "palace:kitchen" = Ok "kitchen").
Proof.
  apply (parse_yields_qualified "kitchen" "palace" None "palace:kitchen");
    reflexivity.
Defined.

(** X7. The identifiers that [isValid] accepts: [from(namespace, name)] is
    valid exactly when the namespace and the name are words of letters,
    digits and underscores, of one character or more. *)
Theorem valid_identifiers ns name :
  Identifier.isValidIdentifier (Identifier.asIdentifier ns name)
  = nonEmptyWord ns && nonEmptyWord name.
Proof. apply IdentifierMore.isValid_from. Qed.

(** X8. An action computes what it says.  The action written [x op e],
    for a variable [x], one of [=], [+=], [-=], [*=], [/=] and an
    arithmetic expression [e] of numerals, variables, parentheses and
    [+ - * / %] whose variables have values, evaluates to the store in which
    [x] holds what the operator makes of its old value and the value of [e];
    in that value a chain under [+] and [-] groups to the left and a chain
    under [*], [/] and [%] groups to the right; a variable without a
    namespace is one of the default namespace. *)
Theorem action_computes x op e ns variables :
  wellFormedTarget x = true -> wellFormedE e = true ->
  assignedE ns variables e ->
  runAction (x +:+ assignText op +:+ textE e) ns variables
  = Ok (<[ qualify ns x :=
             assigned op (readVar variables (qualify ns x))
                      (valueE ns variables e) ]> variables).
Proof. apply ActionLaw.runAction_text. Qed.

Lemma action_computes_witness :
  runAction "y+=8/4/2-(x+1)" "test" (store3 2 10 0)
  = Ok (<[ "test:y" := VNum 11 ]> (store3 2 10 0)).
Proof.
  apply (action_computes "y" AddTo
           (Add (Term (Mul (Lit "8") Divide
                         (Mul (Lit "4") Divide (Atom (Lit "2")))))
                Minus
                (Atom (Group (Add (Term (Atom (Ref "x"))) Plus
                                  (Atom (Lit "1"))))))
           "test" (store3 2 10 0)).
  - reflexivity.
  - reflexivity.
  - repeat split; discriminate.
Defined.

(** X9. The errors of the constructor of [Action].  It raises
    ["Malformed action: "] with the string exactly when the string has no
    [=]; every other error is ["Invalid expression: "] or
    ["Mismatched parentheses: "] with an expression, or the exception of a
    call to [throwError] on the context that [Identifier.parse] was not
    passed. *)
Theorem action_constructor_errors action ns :
  (Action.new action ns
   = Throw (ParserError "adventure" ("Malformed action: " +:+ action))
   <-> noEquals action = true)
  /\ (forall e, Action.new action ns = Throw e ->
        e = ParserError "adventure" ("Malformed action: " +:+ action)
        \/ expressionError e).
Proof.
  split; [split|].
  - intros H. destruct (OutcomeFacts.new_error _ _ _ H)
      as [[_ Hn]|[_ [(x & [Hx|Hx])|Hx]]]; [exact Hn| | |]; discriminate.
  - apply OutcomeFacts.new_malformed.
  - intros e H. destruct (OutcomeFacts.new_error _ _ _ H) as [[-> _]|[_ He]];
      [now left|now right].
Qed.

(** X10. What an action does when it is evaluated.  An action that the
    constructor built in a namespace without colons has a target with one
    colon, and on every store [evaluate] either writes the target and
    leaves every other variable as it was, or raises the error of a
    variable of its expression that has no value. *)
Theorem constructed_action_outcome action ns a :
  colons ns = 0%nat -> Action.new action ns = Ok a ->
  colons (Action.variableName a) = 1%nat
  /\ forall variables,
       (exists v, Action.evaluate a variables
                  = Ok (<[ Action.variableName a := v ]> variables))
       \/ raisesUndefined variables (Action.outputQueue a)
            (Action.evaluate a variables).
Proof.
  intros Hn H. split.
  - eapply OutcomeFacts.new_target; eassumption.
  - intros variables. eapply OutcomeFacts.evaluate_outcome; eassumption.
Qed.

Lemma constructed_action_outcome_witness :
  colons "test:gold" = 1%nat
  /\ forall variables,
       (exists v, Action.evaluate
                    {| Action.variableName := "test:gold";
                       Action.operator := "-=";
                       Action.outputQueue :=
                         [Action.IVar "test:price"; Action.INum 2;
                          Action.ITok "*"] |} variables
                  = Ok (<[ "test:gold" := v ]> variables))
       \/ raisesUndefined variables
            [Action.IVar "test:price"; Action.INum 2; Action.ITok "*"]
            (Action.evaluate
               {| Action.variableName := "test:gold";
                  Action.operator := "-=";
                  Action.outputQueue :=
                    [Action.IVar "test:price"; Action.INum 2;
                     Action.ITok "*"] |} variables).
Proof.
  apply (constructed_action_outcome "gold -= price * 2" "test"
           {| Action.variableName := "test:gold"; Action.operator := "-=";
              Action.outputQueue :=
                [Action.IVar "test:price"; Action.INum 2; Action.ITok "*"] |});
    reflexivity.
Defined.

(** X11. The constructor of the shunting-yard [Conditional] raises one
    error only, ["Malformed conditional: "] with the string, and raises it
    exactly when the string holds no token; otherwise it returns a
    condition, whatever the parentheses and the order of the tokens are,
    and every variable of that condition is a name without colon in the
    default namespace: a condition reads no variable of another
    namespace. *)
Theorem conditional_constructor conditional ns :
  match Conditional.tokenize conditional with
  | [] => Conditional.new conditional ns
          = Throw (ParserError "adventure"
                     ("Malformed conditional: " +:+ conditional))
  | _ => exists c, Conditional.new conditional ns = Ok c
                   /\ localQueue ns (Conditional.outputQueue c)
  end.
Proof.
  pose proof (ConditionalMore.compile_local conditional ns) as H.
  unfold Conditional.new.
  destruct (Conditional.tokenize conditional) as [|t ts].
  - now rewrite H.
  - destruct H as (q & -> & L). eexists. split; [reflexivity|exact L].
Qed.

(** X12. What a condition does when it is evaluated.  On every store, a
    condition that the constructor of the shunting-yard class built either
    returns a boolean or raises the error of a variable that has no value,
    and that variable is a name without colon in the default namespace. *)
Theorem conditional_outcome conditional ns c variables :
  Conditional.new conditional ns = Ok c ->
  (exists b, Conditional.evaluate c variables = Ok b)
  \/ (exists w, colons w = 0%nat
        /\ readVar variables (Identifier.asIdentifier ns w) = VUndef
        /\ Conditional.evaluate c variables
           = Throw (usedBeforeAssignment (Identifier.asIdentifier ns w))).
Proof.
  intros H. pose proof (conditional_constructor conditional ns) as K.
  destruct (Conditional.tokenize conditional) as [|t ts];
    [rewrite K in H; discriminate|].
  destruct K as (c' & E & L). rewrite E in H. injection H as ->.
  destruct (OutcomeFacts.conditional_evaluate_outcome c variables)
    as [Hb|(name & Hin & Hu & Hr)]; [now left|].
  right. destruct (L name Hin) as (w & -> & Hw). eauto.
Qed.

Lemma conditional_outcome_witness :
  (exists b,
      Conditional.evaluate
        {| Conditional.outputQueue :=
             [Action.IVar "test:gold"; Action.INum 5; Action.ITok ">="] |} ∅
      = Ok b)
  \/ (exists w, colons w = 0%nat
        /\ readVar ∅ (Identifier.asIdentifier "test" w) = VUndef
        /\ Conditional.evaluate
             {| Conditional.outputQueue :=
                  [Action.IVar "test:gold"; Action.INum 5;
                   Action.ITok ">="] |} ∅
           = Throw (usedBeforeAssignment (Identifier.asIdentifier "test" w))).
Proof.
  apply (conditional_outcome "gold >= 5" "test"
           {| Conditional.outputQueue :=
                [Action.IVar "test:gold"; Action.INum 5;
                 Action.ITok ">="] |} ∅).
  reflexivity.
Defined.

(** X13. A text without a brace is rendered as it is written: under
    either class of conditions and on every store, [evaluate] of the
    [Text] made of a string in which no [{] occurs returns the string. *)
Theorem literal_text `{ConditionalClass} str ns variables :
  noBrace str = true -> renderText str ns variables = Ok str.
Proof. apply TextMore.renderText_plain. Qed.

Lemma literal_text_witness :
  renderText (H := postfixConditional) "You win $5 (or so)" "test" ∅
  = Ok "You win $5 (or so)".
Proof.
  apply (literal_text (H := postfixConditional) "You win $5 (or so)" "test" ∅).
  reflexivity.
Defined.

(** X14. A text shows what an action assigned.  After the action [x = e],
    for a variable [x] and an arithmetic expression [e] whose variables
    have values, the text [${x}] is rendered as the value of [e], printed
    as JavaScript joins it into a string. *)
Theorem text_shows_assigned `{ConditionalClass} x e ns variables :
  wellFormedTarget x = true -> wellFormedE e = true ->
  assignedE ns variables e ->
  exists variables',
    runAction (x +:+ "=" +:+ textE e) ns variables = Ok variables'
    /\ renderText ("${" +:+ x +:+ "}") ns variables'
       = Ok (Js.joined (valueE ns variables e)).
Proof. apply TextMore.show_assigned. Qed.

Lemma text_shows_assigned_witness :
  exists variables',
    runAction "gold=10/4" "test" ∅ = Ok variables'
    /\ renderText (H := postfixConditional) "${gold}" "test" variables'
       = Ok "2.5".
Proof.
  apply (text_shows_assigned (H := postfixConditional) "gold"
           (Term (Mul (Lit "10") Divide (Atom (Lit "4")))) "test" ∅).
  - reflexivity.
  - reflexivity.
  - repeat split; discriminate.
Defined.

(** X24. A condition computes what it says.  A condition of the
    shunting-yard class written as comparisons [a = b], [a == b],
    [a >= b], [a <= b] and ranges [v=lo..hi] of names and numerals of
    digits, joined by [&&] and [||] with parentheses and with white space
    anywhere, is constructed and evaluates, on a store in which its names
    have values, to its truth: [&&] binds more than [||], both group to
    the left, a range holds its two bounds, and a name is the variable of
    the default namespace. *)
Theorem condition_computes d ns variables s :
  wellFormedD d = true -> assignedD ns variables d ->
  unspaced s = textD d ->
  runPostfix s ns variables = Ok (truthD ns variables d).
Proof. apply ConditionLaw.runPostfix_text. Qed.

Lemma condition_computes_witness :
  runPostfix "x=4..7 || y >= 12 && z == 1" "test" (store3 5 13 0) = Ok true.
Proof.
  apply (condition_computes
           (Either (Just (One (Between "x" "4" "7")))
                   (Both (One (Compare "y" AtLeast "12"))
                         (Compare "z" Same "1")))
           "test" (store3 5 13 0) "x=4..7 || y >= 12 && z == 1").
  - reflexivity.
  - repeat split; discriminate.
  - reflexivity.
Defined.

(** X25. In a condition a numeral is digits only.  For a name [x] that
    has a value and numerals [a] and [b] of digits, the comparison of [x]
    with [a.b] under any of the four relations compares nothing: the
    condition is true exactly when the value of [x] is truthy; and the
    comparison of [x] with [-a] is false whatever [x] holds. *)
Theorem numerals_with_point_or_sign x r a b ns variables :
  isName x = true -> isNumeral a = true -> isNumeral b = true ->
  assignedOperand ns variables x ->
  (forall s, unspaced s = x +:+ relText r +:+ a +:+ "." +:+ b ->
     runPostfix s ns variables = Ok (Js.toBoolean (valueOf ns variables x)))
  /\ (forall s, unspaced s = x +:+ relText r +:+ "-" +:+ a ->
        runPostfix s ns variables = Ok false).
Proof.
  intros Hx Ha Hb Hv. split; intros s Hs.
  - now apply (NumeralFacts.runPostfix_decimal x r a b).
  - now apply (NumeralFacts.runPostfix_signed x r a).
Qed.

Lemma numerals_with_point_or_sign_witness :
  runPostfix "gold >= 1.5" "test" {[ "test:gold" := VNum 1 ]} = Ok true
  /\ runPostfix "gold >= -1" "test" {[ "test:gold" := VNum 1 ]} = Ok false.
Proof.
  destruct (numerals_with_point_or_sign "gold" AtLeast "1" "5" "test"
              {[ "test:gold" := VNum 1 ]} eq_refl eq_refl eq_refl)
    as [H1 H2]; [discriminate|].
  split; [apply H1|apply H2]; reflexivity.
Defined.

(** X26. The actions of a list run in order.  The field [actions] that
    holds actions [x op e] as in X8 with a semicolon between one and the
    next is parsed to one action for each, and evaluating them leaves the
    store that the actions leave one after the other, each on the store of
    the one before; the same field with a comma or a semicolon at its end
    is rejected. *)
Theorem actions_run_in_order ns l variables :
  forallb wellFormedStatement l = true -> assignedAll ns l variables ->
  (actions ← Action.parseActions (Some (scriptText l)) ns;
   Action.evaluateAll actions variables) = Ok (runAll ns l variables)
  /\ forall c, Str.isChar "," c || Str.isChar ";" c = true ->
       isThrow (Action.parseActions (Some (scriptText l +:+ String c "")) ns)
       = true.
Proof.
  intros Hw Ha. split.
  - rewrite (ScriptFacts.parseActions_script ns l Hw).
    cbn [mbind result_bind]. now apply ScriptFacts.evaluateAll_script.
  - intros c Hc. now apply ScriptFacts.parseActions_trailing.
Qed.

Lemma actions_run_in_order_witness :
  (actions ← Action.parseActions (Some "gold=10;price=gold/4;gold-=price")
             "test";
   Action.evaluateAll actions ∅)
  = Ok (<[ "test:gold" := VNum 7.5 ]>
          (<[ "test:price" := VNum 2.5 ]> (<[ "test:gold" := VNum 10 ]> ∅)))
  /\ forall c, Str.isChar "," c || Str.isChar ";" c = true ->
       isThrow (Action.parseActions
                  (Some ("gold=10;price=gold/4;gold-=price" +:+ String c ""))
                  "test")
       = true.
Proof.
  refine (actions_run_in_order "test"
            [ ("gold", Set_, Term (Atom (Lit "10")));
              ("price", Set_,
               Term (Mul (Ref "gold") Divide (Atom (Lit "4"))));
              ("gold", SubtractFrom, Term (Atom (Ref "price"))) ] ∅ _ _).
  - reflexivity.
  - repeat split; discriminate.
Defined.

(** X28. An inline conditional shows the text that its condition
    chooses.  For a condition as in X24 whose names have values, a text
    [t1] of one character or more without brace and colon and a text [t2]
    of one character or more without brace, the text [?{condition?t1:t2}]
    built with the shunting-yard class renders as [t1] when the condition
    is true and as [t2] when it is false, and [?{condition?t1}] renders as
    [t1] or as the empty string. *)
Theorem inline_conditional_chooses d ns variables s t1 t2 :
  wellFormedD d = true -> assignedD ns variables d ->
  unspaced s = textD d ->
  plainPiece t1 = true -> noColon t1 = true -> plainPiece t2 = true ->
  renderText ("?{" +:+ s +:+ "?" +:+ t1 +:+ ":" +:+ t2 +:+ "}") ns variables
  = Ok (if truthD ns variables d then t1 else t2)
  /\ renderText ("?{" +:+ s +:+ "?" +:+ t1 +:+ "}") ns variables
     = Ok (if truthD ns variables d then t1 else "").
Proof. apply InlineFacts.renderText_inline. Qed.

Lemma inline_conditional_chooses_witness :
  renderText "?{gold >= 10?You can pay.:You are broke.}" "test"
             {[ "test:gold" := VNum 3 ]}
  = Ok "You are broke."
  /\ renderText "?{gold >= 10?You can pay.}" "test"
                {[ "test:gold" := VNum 3 ]}
     = Ok "".
Proof.
  refine (inline_conditional_chooses
            (Just (One (Compare "gold" AtLeast "10"))) "test"
            {[ "test:gold" := VNum 3 ]} "gold >= 10" "You can pay."
            "You are broke." eq_refl _ eq_refl eq_refl eq_refl eq_refl).
  repeat split; discriminate.
Defined.

(** C1 (amended).  No short circuit.  A condition of the shunting-yard
    class evaluates its whole postfix queue: each variable is looked up
    when the queue reaches it, the first one without a value raises the
    undefined-variable error, and a boolean is returned when every variable
    has a value.  The queue of [L && R] and of [L || R] is that of [L],
    that of [R] and the operator: when the operands of [L] have values and
    a variable of [R] has none, evaluating raises the error for it
    whatever [L] evaluates to.  The Polish-notation class compiles no
    condition: its constructor raises for every string. *)
Theorem no_short_circuit :
  (forall c variables,
      match firstUndefined variables (Conditional.outputQueue c) with
      | Some name =>
          Conditional.evaluate c variables
          = Throw (usedBeforeAssignment name)
      | None => exists b, Conditional.evaluate c variables = Ok b
      end)
  /\ (forall ns variables c p s name,
        wellFormedC c = true -> wellFormedP p = true ->
        unspaced s = textC c +:+ "&&" +:+ textP p ->
        assignedC ns variables c ->
        firstUndefined variables (postfixP ns p) = Some name ->
        runPostfix s ns variables = Throw (usedBeforeAssignment name))
  /\ (forall ns variables d c s name,
        wellFormedD d = true -> wellFormedC c = true ->
        unspaced s = textD d +:+ "||" +:+ textC c ->
        assignedD ns variables d ->
        firstUndefined variables (postfixC ns c) = Some name ->
        runPostfix s ns variables = Throw (usedBeforeAssignment name))
  /\ (forall condition ns,
        PrefixConditional.new condition ns
        = Throw (ReferenceError
                   "conditionExpressionSubstring is not defined")).
Proof.
  split; [exact UndefinedFacts.conditional_evaluate_first|].
  split; [exact ConditionLaw.runPostfix_and|].
  split; [exact ConditionLaw.runPostfix_or|]. reflexivity.
Qed.

(** The law at the two conditions of the counterexample: [x] is 1, so
    [x==0] is false and [x==1] is true, and [y] has no value. *)
Lemma no_short_circuit_witness :
  runPostfix "x==0 && y==1" "test" {[ "test:x" := VNum 1 ]}
  = Throw (usedBeforeAssignment "test:y")
  /\ runPostfix "x==1 || y==1" "test" {[ "test:x" := VNum 1 ]}
     = Throw (usedBeforeAssignment "test:y").
Proof.
  destruct no_short_circuit as (_ & A & O & _). split.
  - apply (A "test" {[ "test:x" := VNum 1 ]}
             (One (Compare "x" Same "0")) (Compare "y" Same "1"));
      try reflexivity.
    split; discriminate.
  - apply (O "test" {[ "test:x" := VNum 1 ]}
             (Just (One (Compare "x" Same "1"))) (One (Compare "y" Same "1")));
      try reflexivity.
    split; discriminate.
Defined.

End Language.

(** ** Loading: the constructors, the loader and the linker *)

Module Loading.

Import Model Reads Shapes Documents Running Samples.

(** X15. The author, the header and the footer of an adventure are its
    title.  In an adventure that the constructor built, [title] is the
    text of the field [title] of the JSON, [author] is that same text, and
    [globalTop] and [globalBottom] are that text when their fields are
    given and not empty, and absent otherwise: what the three fields hold
    is not read. *)
Theorem adventure_texts_are_the_title `{ConditionalClass} json reg adv reg' :
  Build.newAdventure json reg = Ok (adv, reg') ->
  exists title,
    Json.Adventure.title json = Some title
    /\ Text.new title (Build.name adv) = Ok (Build.title adv)
    /\ Build.author adv = Build.title adv
    /\ Build.globalTop adv
       = (if Build.given (Json.Adventure.globalTop json)
          then Some (Build.title adv) else None)
    /\ Build.globalBottom adv
       = (if Build.given (Json.Adventure.globalBottom json)
          then Some (Build.title adv) else None).
Proof.
  intros E. destruct (BuildFacts.newAdventure_fields _ _ _ _ E)
    as (t & l & _ & _ & Ht & Hn & _ & _ & Ha & Hg & Hb & _).
  exists t. repeat split; assumption.
Qed.

Lemma adventure_texts_are_the_title_witness :
  exists adv title,
    Json.Adventure.title cellar = Some title
    /\ Text.new (C := postfixConditional) title (Build.name adv)
       = Ok (Build.title adv)
    /\ Build.author adv = Build.title adv
    /\ Build.globalTop adv = Some (Build.title adv)
    /\ Build.globalBottom adv = None.
Proof.
  eexists.
  eapply (adventure_texts_are_the_title (H := postfixConditional) cellar []).
  reflexivity.
Defined.

(** X16. The tests for a missing name and a missing title of an adventure
    report nothing.  Without the field [name], and without the field
    [title] when the name is accepted, the constructor raises the exception
    of reading [length] of [undefined]; and an empty name and an empty
    title are accepted: for every name without colon and every title
    without brace, the empty ones among them, the adventure of that name
    and title alone is built. *)
Theorem name_and_title_checks `{ConditionalClass} :
  (forall json reg, Json.Adventure.name json = None ->
     Build.newAdventure json reg = Throw undefinedLength)
  /\ (forall json reg name,
        Json.Adventure.name json = Some name ->
        Build.includesColon name = false ->
        Json.Adventure.title json = None ->
        Build.newAdventure json reg = Throw undefinedLength)
  /\ (forall name title reg,
        Build.includesColon name = false -> noBrace title = true ->
        Build.newAdventure (minimal name title) reg
        = Ok (minimalAdventure name title, reg)).
Proof.
  split; [|split].
  - intros json reg Hn. unfold Build.newAdventure. now rewrite Hn.
  - intros json reg name Hn Hc Ht. unfold Build.newAdventure.
    now rewrite Hn, Hc, Ht.
  - apply DocumentFacts.newAdventure_minimal.
Qed.

Lemma name_and_title_checks_witness :
  Build.newAdventure (C := postfixConditional) (minimal "" "") []
  = Ok (minimalAdventure "" "", []).
Proof.
  apply (proj2 (proj2 (name_and_title_checks (H := postfixConditional)))
           "" "" []); reflexivity.
Defined.

(** X17. The constructor of an adventure registers its scenes.  When it
    returns, the registry holds what it held, every scene of the JSON is
    built and is found under the identifier of its name in the adventure,
    and nothing else was added. *)
Theorem scenes_are_registered `{ConditionalClass} json reg adv reg' :
  Build.newAdventure json reg = Ok (adv, reg') ->
  exists scenesObjects,
    Json.Adventure.scenes json = Some scenesObjects
    /\ (forall key scene, Obj.get key reg = Some scene ->
          Obj.get key reg' = Some scene)
    /\ (forall sceneObject, In sceneObject scenesObjects ->
          exists scene,
            Build.newScene sceneObject (Build.name adv) Build.newContext
            = Ok scene
            /\ Obj.get (Identifier.asIdentifier (Build.name adv) (name scene))
                       reg' = Some scene)
    /\ (forall key scene, Obj.get key reg' = Some scene ->
          Obj.get key reg = Some scene
          \/ exists sceneObject,
               In sceneObject scenesObjects
               /\ Build.newScene sceneObject (Build.name adv) Build.newContext
                  = Ok scene
               /\ key = Identifier.asIdentifier (Build.name adv) (name scene)).
Proof.
  intros E. destruct (BuildFacts.newAdventure_fields _ _ _ _ E)
    as (t & l & _ & _ & _ & _ & _ & _ & _ & _ & _ & _ & _ & Hs & Hadd).
  exists l. split; [exact Hs|].
  exact (BuildFacts.addScenes_registry _ _ _ _ _ Hadd).
Qed.

Lemma scenes_are_registered_witness :
  exists adv reg' scenesObjects,
    Json.Adventure.scenes cellar = Some scenesObjects
    /\ (forall key scene, Obj.get key [] = Some scene ->
          Obj.get key reg' = Some scene)
    /\ (forall sceneObject, In sceneObject scenesObjects ->
          exists scene,
            Build.newScene (C := postfixConditional) sceneObject
              (Build.name adv) Build.newContext
            = Ok scene
            /\ Obj.get (Identifier.asIdentifier (Build.name adv) (name scene))
                       reg' = Some scene)
    /\ (forall key scene, Obj.get key reg' = Some scene ->
          Obj.get key [] = Some scene
          \/ exists sceneObject,
               In sceneObject scenesObjects
               /\ Build.newScene sceneObject (Build.name adv) Build.newContext
                  = Ok scene
               /\ key = Identifier.asIdentifier (Build.name adv) (name scene)).
Proof.
  eexists. eexists.
  eapply (scenes_are_registered (H := postfixConditional) cellar []).
  reflexivity.
Defined.

(** X18. What the linker has done when it returns, and how it fails.
    When [linkAdventures] returns, the adventures are those that were
    loaded, every scene is under its key as it was but for its identifier,
    the starting scene of every adventure is a registered scene that
    carries its key as identifier, and so is the target of every option of
    every registered scene.  When it raises, the error is the exception of
    setting [identifier] on [undefined], or that of a variable without
    value in an action of an adventure. *)
Theorem linker_resolves `{ConditionalClass} (e : Setup.engine) :
  match Setup.linkAdventures e with
  | Ok e' =>
      Setup.adventures e' = Setup.adventures e
      /\ furtherLinked (Setup.scenes e) (Setup.scenes e')
      /\ (forall key adv, In (key, adv) (Setup.adventures e) ->
            resolved (Build.startingScene adv) (Setup.scenes e'))
      /\ (forall key scene option,
            Obj.get key (Setup.scenes e') = Some scene ->
            In option (options scene) ->
            resolved (target option) (Setup.scenes e'))
  | Throw err =>
      err = danglingReference \/ exists name, err = usedBeforeAssignment name
  end.
Proof.
  destruct (Setup.linkAdventures e) as [e'|err] eqn:E.
  - exact (LinkFacts.linkAdventures_spec _ _ E).
  - exact (LinkErrors.linkAdventures_error _ _ E).
Qed.

(** X19. An engine that was constructed, loaded and linked is ready to
    run.  For an engine that the constructor made and into which
    adventures were loaded one after the other, none of them under the
    name [__proto__], when the linker returns, the registries that
    [runAdventure] reads are linked: every scene is under an identifier
    with one colon, the adventure of every scene is loaded, and the target
    of every option, and the starting scene of every adventure, is a scene
    under its own identifier. *)
Theorem loaded_engine_is_linked `{ConditionalClass} (e e' : Setup.engine)
    input :
  built e -> Setup.linkAdventures e = Ok e' ->
  linked (Setup.world e' input)
  /\ forall key adv, In (key, adv) (Setup.adventures e') ->
       enterable (Setup.world e' input) (Build.startingScene adv).
Proof.
  intros B L. split; [eapply SetupFacts.linked_world; eassumption|].
  intros key adv Hin.
  destruct (LinkFacts.linkAdventures_spec _ _ L) as (Ha & _ & Hs & _).
  rewrite Ha in Hin. destruct (Hs key adv Hin) as (s & Es & Hid).
  exists s. now rewrite SetupFacts.lookup_world_scenes.
Qed.

Lemma loaded_engine_is_linked_witness :
  linked (Setup.world (C := postfixConditional) ready [])
  /\ forall key adv, In (key, adv) (Setup.adventures ready) ->
       enterable (Setup.world ready []) (Build.startingScene adv).
Proof.
  apply (loaded_engine_is_linked (H := postfixConditional) loaded ready []).
  - refine (built_load fresh cellar loaded (built_new fresh _) _ _);
      [reflexivity|discriminate|reflexivity].
  - reflexivity.
Defined.

(** X30. An adventure is loaded once.  When the two steps of [loadFile]
    with the JSON of a file return, the adventure was built under the name
    of the JSON.  Under a name other than [__proto__], no adventure of
    that name was loaded before, the new adventure is found under its name
    and every other name holds what it held, and afterwards no JSON of
    that name can be loaded.  Under the name [__proto__] the registry of
    adventures is left as it was.  In an engine that the constructor made
    no adventure named [inkspire] is loaded again. *)
Theorem an_adventure_loads_once `{ConditionalClass} json
    (e e' : Setup.engine) :
  Setup.load json e = Ok e' ->
  exists adv,
    Json.Adventure.name json = Some (Build.name adv)
    /\ (Build.name adv <> "__proto__" ->
        Obj.hasOwnProperty (Build.name adv) (Setup.adventures e) = false
        /\ Obj.get (Build.name adv) (Setup.adventures e') = Some adv
        /\ (forall k, k <> Build.name adv ->
              Obj.get k (Setup.adventures e') = Obj.get k (Setup.adventures e))
        /\ (forall json' e'',
              Json.Adventure.name json' = Json.Adventure.name json ->
              Setup.load json' e' <> Ok e''))
    /\ (Build.name adv = "__proto__" ->
        Setup.adventures e' = Setup.adventures e)
    /\ (built e -> Build.name adv <> Engine.INKSPIRE_NAMESPACE).
Proof.
  intros L.
  destruct (SetupFacts.load_spec _ _ _ L) as (adv & Hn & Hfree & Ha & _).
  pose proof (SetupFacts.load_name _ _ _ _ Hn) as N.
  exists adv. split; [exact N|]. split; [|split].
  - intros Hp. rewrite (SetupFacts.assignAdventure_other _ _ _ Hp) in Ha.
    rewrite Ha. repeat split; auto.
    + apply ObjFacts.get_set_eq.
    + intros k Hk. apply ObjFacts.get_set_ne. congruence.
    + intros json' e'' Hname.
      apply (SetupFacts.load_again json json' e); auto.
      rewrite N. congruence.
  - intros Hp. now rewrite Ha, Hp.
  - intros B Hname. rewrite Hname in Hfree.
    rewrite (SetupFacts.built_system e B) in Hfree. discriminate Hfree.
Qed.

Lemma an_adventure_loads_once_witness :
  exists adv,
    Json.Adventure.name cellar = Some (Build.name adv)
    /\ (Build.name adv <> "__proto__" ->
        Obj.hasOwnProperty (Build.name adv) (Setup.adventures fresh) = false
        /\ Obj.get (Build.name adv) (Setup.adventures loaded) = Some adv
        /\ (forall k, k <> Build.name adv ->
              Obj.get k (Setup.adventures loaded)
              = Obj.get k (Setup.adventures fresh))
        /\ (forall json' e'',
              Json.Adventure.name json' = Json.Adventure.name cellar ->
              Setup.load json' loaded <> Ok e''))
    /\ (Build.name adv = "__proto__" ->
        Setup.adventures loaded = Setup.adventures fresh)
    /\ (built fresh -> Build.name adv <> Engine.INKSPIRE_NAMESPACE).
Proof.
  apply (an_adventure_loads_once (H := postfixConditional) cellar fresh
           loaded).
  reflexivity.
Defined.

End Loading.

(** ** Playing: the loop of [runAdventure] and [getChoice] *)

Module Playing.

Import Model Engine Reads Dialogue Documents Running Samples.

(** X20. [getChoice] asks until a line is a valid choice.  When it
    returns, the lines it read are lines that the test rejected, each
    answered by the prompt and the hint, followed by one line that the
    test accepted; the choice is the number of that line, trimmed; and
    nothing but what was read and written has changed. *)
Theorem getChoice_asks_until_valid `{ConditionalClass} fuel numOptions
    (w : world) choice w' :
  getChoice fuel numOptions w = Returned choice w' ->
  exists before line,
    input w = before ++ line :: input w'
    /\ forallb (rejected numOptions) before = true
    /\ rejected numOptions line = false
    /\ choice = answer line
    /\ w' = said w (input w') (rejections numOptions before ++ [prompt]).
Proof. apply ChoiceFacts.getChoice_returns. Qed.

Lemma getChoice_asks_until_valid_witness :
  exists before line,
    input (reading ["two"; "7"; " 2 "; "1"]) = before ++ line :: input answered
    /\ forallb (rejected 2) before = true
    /\ rejected 2 line = false
    /\ 2%float = answer line
    /\ answered
       = said (reading ["two"; "7"; " 2 "; "1"]) (input answered)
           (rejections 2 before ++ [prompt]).
Proof.
  apply (getChoice_asks_until_valid (H := postfixConditional) 4 2
           (reading ["two"; "7"; " 2 "; "1"]) 2%float answered).
  reflexivity.
Defined.

(** X21. A scene without options is a dead end.  A turn of the loop at a
    registered scene that has no option goes on to no scene, whatever is
    typed: [getChoice] with no option accepts no line.  The one scene
    without options from which a turn goes on is the reserved scene
    [back]. *)
Theorem dead_end `{ConditionalClass} fuel history key (w : world) scene
    history' next' w' :
  scenes w !! key = Some scene -> options scene = [] ->
  turn fuel history (Some key) w = Returned (Continue history' next') w' ->
  reserved scene = Ok "back".
Proof. apply DeadEnd.no_option_goes_on. Qed.

Lemma dead_end_witness :
  reserved (C := postfixConditional)
    (snd (Worlds.control "back" "Unfinished Back Scene"))
  = Ok "back".
Proof.
  apply (dead_end (H := postfixConditional) 1 (FixedSizeStack.new 16)
           "inkspire:back" (Worlds.backWorld [])
           (snd (Worlds.control "back" "Unfinished Back Scene"))
           (FixedSizeStack.new 16) None (Worlds.backWorld []));
    [|reflexivity|reflexivity].
  unfold Worlds.backWorld, Worlds.oneScene. cbn [scenes].
  rewrite SetupFacts.lookup_list_to_map. reflexivity.
Defined.

(** X22. A turn keeps the registries linked.  In a linked world, a turn
    at a scene that is registered under its own identifier, with the
    empty history of a run, leaves, when it goes on, a linked world and
    the empty history, and goes on at a scene that is registered under its
    own identifier, or, from [inkspire:back], at none. *)
Theorem turn_keeps_linked `{ConditionalClass} fuel history key (w : world)
    history' next' w' :
  linked w -> enterable w key -> FixedSizeStack.items history = [] ->
  turn fuel history (Some key) w = Returned (Continue history' next') w' ->
  linked w' /\ FixedSizeStack.items history' = []
  /\ match next' with
     | Some key' => enterable w' key'
     | None => True
     end.
Proof. apply TurnInvariant.turn_linked. Qed.

Lemma turn_keeps_linked_witness :
  linked (C := postfixConditional) downstairs
  /\ FixedSizeStack.items (FixedSizeStack.new (A := string) 16) = []
  /\ enterable downstairs "cellar:hall".
Proof.
  apply (turn_keeps_linked (H := postfixConditional) 1
           (FixedSizeStack.new 16) "cellar:start"
           (Setup.world ready [""]) (FixedSizeStack.new 16)
           (Some "cellar:hall") downstairs).
  - apply (SetupFacts.linked_world loaded ready);
      [refine (built_load fresh cellar loaded (built_new fresh _) _ _)|];
      (reflexivity || discriminate).
  - eexists. split; [rewrite SetupFacts.lookup_world_scenes|]; reflexivity.
  - reflexivity.
  - reflexivity.
Defined.

(** X23. The errors of a run.  For an engine that was constructed,
    loaded with adventures none of which is named [__proto__], and linked,
    a run of [runAdventure] that raises raises the error of a variable
    without value or of a condition, the error of a choice beyond the
    options that are available, the end at [inkspire:switch] or at
    [inkspire:exit], the error of going on from [inkspire:back], or, when
    an adventure named [hasOwnProperty] is loaded, the error of calling
    that entry of the registry: no scene and no adventure is looked up and
    not found, no identifier is malformed, and the budget of turns is not
    used up. *)
Theorem run_errors `{ConditionalClass} (e e' : Setup.engine) input
    adventureName err w' :
  built e -> Setup.linkAdventures e = Ok e' ->
  runAdventure adventureName (Setup.world e' input) = Raised err w' ->
  runError err.
Proof.
  intros B L. apply RunErrors.runAdventure_errors.
  - eapply SetupFacts.linked_world; eassumption.
  - intros name adv Ha.
    destruct (SetupFacts.lookup_world_start _ _ _ _ Ha) as (a & Hin & <-).
    destruct (LinkFacts.linkAdventures_spec _ _ L) as (Hadv & _ & Hs & _).
    rewrite Hadv in Hin. destruct (Hs name a Hin) as (s & Es & Hid).
    exists s. now rewrite SetupFacts.lookup_world_scenes.
Qed.

Lemma run_errors_witness : runError (C := postfixConditional) ProcessExit.
Proof.
  apply (run_errors (H := postfixConditional) loaded ready [] "inkspire"
           ProcessExit
           terminated).
  - refine (built_load fresh cellar loaded (built_new fresh _) _ _);
      [reflexivity|discriminate|reflexivity].
  - reflexivity.
  - reflexivity.
Defined.

(** X27. The only option of a scene is taken whatever its condition.
    A turn at a registered scene with exactly one option ends as the turn
    at the same scene whose option has any other condition, or none: what
    it returns or raises, the adventures, the variables, and what is read
    and written are the same; only the scene that is registered differs. *)
Theorem only_option_is_unconditional `{ConditionalClass} fuel history key
    (w : world) scene only condition' :
  scenes w !! key = Some scene -> options scene = [only] ->
  seen (turn fuel history (Some key) w)
  = seen (turn fuel history (Some key)
            (withScene w key
               (withOption scene (recondition only condition')))).
Proof. apply OnlyOption.turn_unconditional. Qed.

Lemma only_option_is_unconditional_witness :
  seen (turn 1 (FixedSizeStack.new 16) (Some "cellar:start")
          (Setup.world ready [""]))
  = seen (turn 1 (FixedSizeStack.new 16) (Some "cellar:start")
            (withScene (Setup.world ready [""]) "cellar:start"
               (withOption stairs (recondition goDown (Some locked))))).
Proof.
  apply (only_option_is_unconditional (H := postfixConditional) 1
           (FixedSizeStack.new 16) "cellar:start" (Setup.world ready [""])
           stairs goDown (Some locked)).
  - rewrite SetupFacts.lookup_world_scenes. reflexivity.
  - reflexivity.
Defined.

End Playing.
